(** * DocChat Pro: the document ingestion and retrieval pipeline

    A shallow embedding of the ingestion and retrieval code of the
    repository, and the properties proved of it.

    The code:
    - [JS], [JSNumber]: the JavaScript primitives the code calls (strings,
      the regular expressions of the normalizer, [toFixed]);
    - [ProcessDocument]: [src/app/api/process-document/route.ts]
      ([normalizeText], [estimateTokens], [chunkText], [detectFileType],
      [processDocument]);
    - [Rag]: the retrieval library ([findRelevantChunks], [buildContext],
      [formatSources]);
    - [Upload]: the route [POST /api/documents/upload], with the store it
      writes to;
    - [Validation]: the validation helpers ([isValidEmail],
      [isValidPassword], [isValidFileType], [isValidChatMessage],
      [sanitizeString], [isValidUUID]);
    - [DocumentHelpers], [KeyboardShortcuts]: the checks of the uploader
      ([validateFileType], [validateFileSize]) and the keyboard shortcuts
      ([matchesShortcut], the handler of [useKeyboardShortcuts]);
    - [RateLimit]: [src/lib/rate-limit.ts] ([checkChatLimit],
      [checkDocumentLimit], [getUserUsage], [incrementChatCount]);
    - [ApiMiddleware]: [checkRateLimit] and [apiMiddleware];
    - [Signup], [Chat]: the sign-up route, and the route [POST /api/chat]
      up to the creation of the stream, with [generateSystemPrompt].

    The properties: the modules whose name ends in [Notions] hold the
    notions they are stated with; the modules whose name ends in [Facts] or
    [Invariants] hold the proofs.  [Rounding] and [RoundingR] bound the
    rounding error of the product, sum, quotient and square root of
    [PrimFloat] against the real numbers, and [CosineFacts] those of the
    similarity of the fallback path against the exact cosine.

    Texts are Rocq strings read as sequences of 7-bit ASCII code units; on
    such texts a JavaScript string index, [length], [slice] and the regular
    expression classes used by the code agree with the definitions of
    module [JS] below.  JavaScript numbers that hold vector components and
    similarities are IEEE 754 binary64 values ([PrimFloat]); numbers that
    hold sizes and indexes are integers ([Z]).  A loop that may not end is a
    function with fuel, whose result [None] means that the fuel ran out. *)

From Stdlib Require Import ZArith List String Ascii Bool Lia Floats Permutation.
From Stdlib Require Uint63 Reals Lra.
From Stdlib Require Import DecimalString.
Import ListNotations.

Set Warnings "-inexact-float".

Local Open Scope bool_scope.
Local Open Scope string_scope.
Local Open Scope Z_scope.

(* ================================================================== *)
(** * The JavaScript primitives the pipeline calls *)
(* ================================================================== *)

Module JS.

(** ** Character classes *)

Definition code (c : ascii) : nat := nat_of_ascii c.

(** [\s], and the characters [String.prototype.trim] strips: TAB, LF, VT,
    FF, CR and SPACE are the ASCII members of WhiteSpace and
    LineTerminator. *)
Definition is_space (c : ascii) : bool :=
  ((9 <=? code c)%nat && (code c <=? 13)%nat) || (code c =? 32)%nat.

(** [\d] *)
Definition is_digit (c : ascii) : bool :=
  (48 <=? code c)%nat && (code c <=? 57)%nat.

(** [[A-Z]] *)
Definition is_upper (c : ascii) : bool :=
  (65 <=? code c)%nat && (code c <=? 90)%nat.

Definition is_lower (c : ascii) : bool :=
  (97 <=? code c)%nat && (code c <=? 122)%nat.

(** LineTerminator: LF and CR. *)
Definition is_line_terminator (c : ascii) : bool :=
  (code c =? 10)%nat || (code c =? 13)%nat.

Definition LF : ascii := ascii_of_nat 10.

Definition toUpperCase_char (c : ascii) : ascii :=
  if is_lower c then ascii_of_nat (code c - 32) else c.

Definition toLowerCase_char (c : ascii) : ascii :=
  if is_upper c then ascii_of_nat (code c + 32) else c.

Fixpoint toLowerCase (s : string) : string :=
  match s with
  | "" => ""
  | String c s' => String (toLowerCase_char c) (toLowerCase s')
  end.

(** ** Strings *)

Definition len (s : string) : Z := Z.of_nat (String.length s).

Fixpoint drop (n : nat) (s : string) : string :=
  match n, s with
  | O, _ => s
  | S n', "" => ""
  | S n', String _ s' => drop n' s'
  end.

Fixpoint take (n : nat) (s : string) : string :=
  match n, s with
  | O, _ => ""
  | S n', "" => ""
  | S n', String c s' => String c (take n' s')
  end.

(** The relative index of [slice]: a negative index counts from the end,
    and the result is clamped to [0 .. length]. *)
Definition rel_index (i length : Z) : Z :=
  if i <? 0 then Z.max (length + i) 0 else Z.min i length.

(** [s.slice(start, end)] *)
Definition slice (s : string) (start end_ : Z) : string :=
  let from := rel_index start (len s) in
  let to := rel_index end_ (len s) in
  take (Z.to_nat (to - from)) (drop (Z.to_nat from) s).

(** [s.substring(0, n)] for a natural number [n] *)
Definition substring0 (s : string) (n : nat) : string := take n s.

(** [items.slice(start, end)] on an array *)
Definition array_slice {A : Type} (items : list A) (start end_ : Z) : list A :=
  let length := Z.of_nat (List.length items) in
  let from := rel_index start length in
  let to := rel_index end_ length in
  firstn (Z.to_nat (to - from)) (skipn (Z.to_nat from) items).

Fixpoint trimStart (s : string) : string :=
  match s with
  | "" => ""
  | String c s' => if is_space c then trimStart s' else s
  end.

Fixpoint trimEnd (s : string) : string :=
  match s with
  | "" => ""
  | String c s' =>
      match trimEnd s' with
      | "" => if is_space c then "" else String c ""
      | t => String c t
      end
  end.

(** [s.trim()] *)
Definition trim (s : string) : string := trimEnd (trimStart s).

(** [s.startsWith(p)] *)
Fixpoint startsWith (p s : string) : bool :=
  match p, s with
  | "", _ => true
  | String _ _, "" => false
  | String a p', String b s' => Ascii.eqb a b && startsWith p' s'
  end.

(** [s.includes(p)] *)
Fixpoint includes (s p : string) : bool :=
  startsWith p s ||
  match s with
  | "" => false
  | String _ s' => includes s' p
  end.

(** The search of [lastIndexOf]: the positions [i], [i-1], ..., [0] in this
    order. *)
Fixpoint search_down (s p : string) (i : nat) : Z :=
  if startsWith p (drop i s) then Z.of_nat i
  else match i with
       | O => -1
       | S i' => search_down s p i'
       end.

(** [s.lastIndexOf(p, fromIndex)]: the start is [fromIndex] clamped between
    [0] and [length s - length p]; nothing is found when [p] is longer than
    [s]. *)
Definition lastIndexOf (s p : string) (fromIndex : Z) : Z :=
  let start := Z.min (Z.max fromIndex 0) (len s - len p) in
  if start <? 0 then -1 else search_down s p (Z.to_nat start).

(** [parts.join(sep)] *)
Fixpoint join (sep : string) (parts : list string) : string :=
  match parts with
  | [] => ""
  | [p] => p
  | p :: rest => p ++ sep ++ join sep rest
  end.

(** The part after the last occurrence of [sep] (the whole string when
    there is none): [s.split(sep).pop()] for a one-character [sep]. *)
Fixpoint split_pop_from (sep : ascii) (acc : string) (s : string) : string :=
  match s with
  | "" => acc
  | String c s' =>
      if Ascii.eqb c sep then split_pop_from sep s' s'
      else split_pop_from sep acc s'
  end.

Definition split_pop (sep : ascii) (s : string) : string :=
  split_pop_from sep s s.

(** ** Regular expressions

    The patterns of the code are sequences of quantified character classes
    and line assertions.  [match_items] is the backtracking matcher of
    ECMAScript restricted to them: a greedy quantifier first tries one more
    character and falls back to the rest of the pattern when that fails.
    It returns the length of the match found at the current position;
    [prev] is the character before the position, for [^]. *)

Inductive item : Type :=
| Class (p : ascii -> bool) (lo : nat) (hi : option nat)
| LineStart
| LineEnd.

Definition room (hi : option nat) : bool :=
  match hi with
  | None => true
  | Some O => false
  | Some (S _) => true
  end.

Definition less (hi : option nat) : option nat :=
  match hi with
  | None => None
  | Some h => Some (pred h)
  end.

Definition at_line_start (prev : option ascii) : bool :=
  match prev with
  | None => true
  | Some c => is_line_terminator c
  end.

Definition at_line_end (s : string) : bool :=
  match s with
  | "" => true
  | String c _ => is_line_terminator c
  end.

Fixpoint match_items (items : list item) : option ascii -> string -> option nat :=
  match items with
  | [] => fun _ _ => Some O
  | Class p lo hi :: rest =>
      let k := match_items rest in
      let many :=
        fix many (s : string) (lo : nat) (hi : option nat) (prev : option ascii)
          {struct s} : option nat :=
          let stop := match lo with O => k prev s | S _ => None end in
          match s with
          | "" => stop
          | String c s' =>
              if p c && room hi then
                match many s' (pred lo) (less hi) (Some c) with
                | Some n => Some (S n)
                | None => stop
                end
              else stop
          end in
      fun prev s => many s lo hi prev
  | LineStart :: rest =>
      fun prev s => if at_line_start prev then match_items rest prev s else None
  | LineEnd :: rest =>
      fun prev s => if at_line_end s then match_items rest prev s else None
  end.

(** [s.replace(re, repl)] for a pattern with the [g] flag: every match,
    found from left to right in [s], is replaced; the search resumes where
    the match ended (one character further after an empty match).  [skip]
    counts the characters of the current match still to be dropped. *)
Fixpoint replace_from (re : list item) (repl : string) (skip : nat)
    (prev : option ascii) (s : string) {struct s} : string :=
  match skip with
  | S k =>
      match s with
      | "" => ""
      | String c s' => replace_from re repl k (Some c) s'
      end
  | O =>
      match match_items re prev s with
      | Some (S n) =>
          repl ++
          match s with
          | "" => ""
          | String c s' => replace_from re repl n (Some c) s'
          end
      | Some O =>
          repl ++
          match s with
          | "" => ""
          | String c s' => String c (replace_from re repl O (Some c) s')
          end
      | None =>
          match s with
          | "" => ""
          | String c s' => String c (replace_from re repl O (Some c) s')
          end
      end
  end.

Definition replace (re : list item) (repl : string) (s : string) : string :=
  replace_from re repl O None s.

(** A literal character, and a literal character under the [i] flag. *)
Definition chr (c : ascii) : item := Class (Ascii.eqb c) 1 (Some 1%nat).

Definition chr_i (c : ascii) : item :=
  Class (fun x => Ascii.eqb (toUpperCase_char x) (toUpperCase_char c)) 1 (Some 1%nat).

Definition plus (p : ascii -> bool) : item := Class p 1 None.
Definition star (p : ascii -> bool) : item := Class p 0 None.

End JS.

(* ================================================================== *)
(** * JavaScript numbers *)
(* ================================================================== *)

Module JSNumber.

(** Decimal rendering of an integer, as template literals do. *)
Definition Z_toString (z : Z) : string :=
  NilZero.string_of_int (Z.to_int z).

(** Truthiness of a number: [NaN], [0] and [-0] are falsy. *)
Definition truthy (x : float) : bool := negb (is_nan x) && negb (is_zero x).

(** [x || 0], for a number that may be missing *)
Definition or_zero (x : option float) : float :=
  match x with
  | Some v => if truthy v then v else 0%float
  | None => 0%float
  end.

(** An integer as a number: sizes and counts are below [2^53]. *)
Definition of_Z (z : Z) : float := of_uint63 (Uint63.of_Z z).

(** ** Number.prototype.toFixed

    A finite double is [m * 2^e].  Below [10^21] the result is the integer
    [n] nearest to the value times [10^f] (the larger one on a tie), written
    with [f] digits after the point; from [10^21] on it is the shortest
    decimal that reads back as the same double, in exponential form. *)

Definition scaled (f : nat) (m : positive) (e : Z) : Z :=
  if 0 <=? e then Zpos m * 2 ^ e * 10 ^ Z.of_nat f
  else (2 * Zpos m * 10 ^ Z.of_nat f + 2 ^ (- e)) / 2 ^ (- e + 1).

Fixpoint zeros (n : nat) : string :=
  match n with
  | O => ""
  | S n' => String "0" (zeros n')
  end.

(** The digits of [n] with a point before the last [f] of them. *)
Definition fixed_point (f : nat) (n : Z) : string :=
  let digits := Z_toString n in
  let k := String.length digits in
  let padded := zeros (S f - k) ++ digits in
  let k := String.length padded in
  match f with
  | O => padded
  | S _ => JS.take (k - f) padded ++ "." ++ JS.drop (k - f) padded
  end.

Fixpoint strip_zeros (digits : list ascii) : list ascii :=
  match digits with
  | "0"%char :: digits' => strip_zeros digits'
  | _ => digits
  end.

(** The digits without the zeros at the end. *)
Definition significant (digits : string) : string :=
  string_of_list_ascii (rev (strip_zeros (rev (list_ascii_of_string digits)))).

(** The first [k] for which a multiple of [10^(n-k)] lies in the rounding
    interval of the value [X]; of the two multiples around [X], the nearer. *)
Fixpoint shortest_from (fuel : nat) (k n X lo hi : Z) (closed : bool) : Z :=
  match fuel with
  | O => X
  | S fuel' =>
      let p := 10 ^ (n - k) in
      let below := X / p * p in
      let above := below + p in
      let inside v :=
        if closed then (lo <=? v) && (v <=? hi) else (lo <? v) && (v <? hi) in
      match inside below, inside above with
      | true, true => if X - below <=? above - X then below else above
      | true, false => below
      | false, true => above
      | false, false => shortest_from fuel' (k + 1) n X lo hi closed
      end
  end.

Definition exponential (v : Z) : string :=
  let digits := Z_toString v in
  let n := Z.of_nat (String.length digits) in
  match significant digits with
  | "" => "0"
  | String d "" => String d ("e+" ++ Z_toString (n - 1))
  | String d rest => String d ("." ++ rest ++ "e+" ++ Z_toString (n - 1))
  end.

Definition toString_large (m : positive) (e : Z) : string :=
  let X := Zpos m * 2 ^ e in
  let half := 2 ^ (e - 1) in
  let below := if Zpos m =? 2 ^ 52 then 2 ^ (e - 2) else half in
  let n := Z.of_nat (String.length (Z_toString X)) in
  exponential (shortest_from 17 1 n X (X - below) (X + half) (Z.even (Zpos m))).

Definition toFixed (x : float) (f : nat) : string :=
  match Prim2SF x with
  | S754_nan => "NaN"
  | S754_infinity s => if s then "-Infinity" else "Infinity"
  | S754_zero _ => fixed_point f 0
  | S754_finite s m e =>
      (if s then "-" else "") ++
      (if (1e21 <=? abs x)%float then toString_large m e
       else fixed_point f (scaled f m e))
  end.

End JSNumber.

(* ================================================================== *)
(** * src/app/api/process-document/route.ts *)
(* ================================================================== *)

Module ProcessDocument.
Import JS.

(** ** normalizeText *)

(** [text.normalize('NFKC')]: every ASCII character is its own NFKC form. *)
Definition normalize_NFKC (text : string) : string := text.

(** [/\s+/g] *)
Definition re_whitespace : list item := [plus is_space].

(** [/\n\s*\n\s*\n+/g] *)
Definition re_newlines : list item :=
  [chr LF; star is_space; chr LF; star is_space; plus (Ascii.eqb LF)].

(** [/Page \d+/gi] *)
Definition re_page : list item :=
  [chr_i "P"; chr_i "a"; chr_i "g"; chr_i "e"; chr_i " "; plus is_digit].

(** [/\d+\s*\/\s*\d+/g] *)
Definition re_counter : list item :=
  [plus is_digit; star is_space; chr "/"; star is_space; plus is_digit].

(** [/^[A-Z\s]{3,50}$/gm] *)
Definition upper_or_space (c : ascii) : bool := is_upper c || is_space c.

Definition re_caps : list item :=
  [LineStart; Class upper_or_space 3 (Some 50%nat); LineEnd].

Definition newline2 : string := String LF (String LF "").

Definition normalizeText (text : string) : string :=
  if (text =? "")%string then ""
  else
    let text := normalize_NFKC text in
    let text := replace re_whitespace " " text in
    let text := replace re_newlines newline2 text in
    let text := replace re_page "" text in
    let text := replace re_counter "" text in
    let text := replace re_caps "" text in
    trim text.

(** ** estimateTokens: [Math.ceil(text.length / 4)] *)

Definition estimateTokens (text : string) : Z := (len text + 3) / 4.

(** ** chunkText *)

(** The body of the loop up to the computation of [end].  The comparison
    [x > start + maxChunkSize * 0.5] is taken on the doubled integers. *)
Definition chunk_end (text : string) (maxChunkSize start : Z) : Z :=
  let end_ := start + maxChunkSize in
  if end_ <? len text then
    let sentenceEnd := lastIndexOf text "." end_ in
    let paragraphEnd := lastIndexOf text newline2 end_ in
    if 2 * paragraphEnd >? 2 * start + maxChunkSize then paragraphEnd
    else if 2 * sentenceEnd >? 2 * start + maxChunkSize then sentenceEnd + 1
    else end_
  else end_.

(** [chunks.push(chunk)] when the trimmed slice is not empty. *)
Definition push_chunk (chunks : list string) (chunk : string) : list string :=
  if len chunk >? 0 then chunks ++ [chunk] else chunks.

(** The [while] loop, entered with the current [start] and [chunks].  One
    unit of [fuel] pays for one evaluation of the loop condition; [None]
    means the fuel ran out before the loop was left. *)
Fixpoint chunk_loop (fuel : nat) (text : string) (maxChunkSize overlap : Z)
    (start : Z) (chunks : list string) : option (list string) :=
  match fuel with
  | O => None
  | S fuel' =>
      if start <? len text then
        let end_ := chunk_end text maxChunkSize start in
        let chunk := trim (slice text start end_) in
        let chunks := push_chunk chunks chunk in
        let start := end_ - overlap in
        if start >=? len text then Some chunks
        else chunk_loop fuel' text maxChunkSize overlap start chunks
      else Some chunks
  end.

Definition chunkText (fuel : nat) (text : string) (maxChunkSize overlap : Z)
    : option (list string) :=
  chunk_loop fuel text maxChunkSize overlap 0 [].

(** ** Results and exceptions *)

Inductive outcome (A : Type) : Type :=
| Returned (a : A)
| Thrown (message : string).
Arguments Returned {A} a.
Arguments Thrown {A} message.

(** ** Text extraction *)

(** The two parsing libraries ([pdf-parse], [mammoth]): the text they find
    in a buffer ([data.text], [result.value], possibly missing), or the
    error they throw. *)
Record Extractors : Type := {
  pdfParse : string -> outcome (option string);
  extractRawText : string -> outcome (option string)
}.

Definition or_empty (t : option string) : string :=
  match t with
  | Some s => s
  | None => ""
  end.

Definition extractPdfText (lib : Extractors) (buffer : string) : outcome string :=
  match pdfParse lib buffer with
  | Returned data => Returned (or_empty data)
  | Thrown message => Thrown ("Failed to extract PDF text: " ++ message)
  end.

Definition extractDocxText (lib : Extractors) (buffer : string) : outcome string :=
  match extractRawText lib buffer with
  | Returned result => Returned (or_empty result)
  | Thrown message => Thrown ("Failed to extract DOCX text: " ++ message)
  end.

(** [buffer.toString('utf-8')]: an ASCII buffer decodes to itself. *)
Definition extractTxtText (buffer : string) : string := buffer.

(** ** detectFileType *)

Definition detectFileType (filename : string) : outcome string :=
  let ext := split_pop "." (toLowerCase filename) in
  if (ext =? "pdf")%string then Returned "pdf"
  else if (ext =? "docx")%string then Returned "docx"
  else if (ext =? "txt")%string || (ext =? "text")%string then Returned "txt"
  else Thrown ("Unsupported file type: " ++ ext).

(** ** processDocument *)

Record Metadata : Type := {
  totalChunks : Z;
  totalTokens : Z;
  totalCharacters : Z;
  filename : string
}.

Inductive ProcessResult : Type :=
| Success (chunks : list string) (metadata : Metadata)
| Failure (error : string) (statusCode : Z).

Definition empty_raw_error : string :=
  "Document appears to be empty or contains no extractable text".

Definition empty_cleaned_error : string :=
  "Document contains no meaningful text after processing".

(** The first stage: the extracted text, or the failure returned. *)
Definition extractText (lib : Extractors) (fileType fileContent : string)
    : ProcessResult + string :=
  let extracted :=
    if (fileType =? "pdf")%string then inr (extractPdfText lib fileContent)
    else if (fileType =? "docx")%string then inr (extractDocxText lib fileContent)
    else if (fileType =? "txt")%string then inr (Returned (extractTxtText fileContent))
    else inl (Failure ("Unsupported file type: " ++ fileType) 400) in
  match extracted with
  | inl failure => inl failure
  | inr (Returned rawText) => inr rawText
  | inr (Thrown message) =>
      inl (Failure ("Failed to extract text: " ++ message) 500)
  end.

Definition sum_tokens (chunks : list string) : Z :=
  fold_left (fun sum chunk => sum + estimateTokens chunk) chunks 0.

(** The fuel given to the chunker: one iteration per character and one
    more evaluation of the loop condition ([chunk_loop_default_fuel]
    shows it is never exhausted with the sizes used here). *)
Definition chunk_fuel (text : string) : nat := S (String.length text).

(** The last case stands for the [catch] around the chunking; with the
    sizes 1000 and 200 the loop ends within [chunk_fuel], so it is not
    reached. *)
Definition processDocument (lib : Extractors) (fileContent filename : string)
    : ProcessResult :=
  match detectFileType filename with
  | Thrown message => Failure message 400
  | Returned fileType =>
      if len fileContent >? 10 * 1024 * 1024 then
        Failure "File size exceeds 10MB limit" 400
      else
        match extractText lib fileType fileContent with
        | inl failure => failure
        | inr rawText =>
            if (rawText =? "")%string || (len (trim rawText) <? 10) then
              Failure empty_raw_error 400
            else
              let cleanedText := normalizeText rawText in
              if (cleanedText =? "")%string || (len (trim cleanedText) <? 10) then
                Failure empty_cleaned_error 400
              else
                match chunkText (chunk_fuel cleanedText) cleanedText 1000 200 with
                | Some chunks =>
                    Success chunks
                      {| totalChunks := Z.of_nat (List.length chunks);
                         totalTokens := sum_tokens chunks;
                         totalCharacters := len cleanedText;
                         filename := filename |}
                | None =>
                    Failure "Failed to chunk document: Unknown error" 500
                end
        end
  end.

End ProcessDocument.

(* ================================================================== *)
(** * The retrieval library: findRelevantChunks, buildContext,
      formatSources *)
(* ================================================================== *)

Module Rag.
Import JS JSNumber ProcessDocument.

(** [DocumentChunk & { similarity?: number }].  A row read from the store
    may lack its embedding. *)
Record DocumentChunk : Type := {
  id : string;
  document_id : string;
  content : string;
  embedding : option (list float);
  chunk_index : Z;
  similarity : option float
}.

(** [{ ...chunk, similarity: value }] *)
Definition with_similarity (chunk : DocumentChunk) (value : float) : DocumentChunk :=
  {| id := id chunk;
     document_id := document_id chunk;
     content := content chunk;
     embedding := embedding chunk;
     chunk_index := chunk_index chunk;
     similarity := Some value |}.

(** ** The store, as the retriever sees it *)

(** The [{ data, error }] pair the client resolves to. *)
Record Response (A : Type) : Type := {
  data : option A;
  error : option string
}.
Arguments data {A} r.
Arguments error {A} r.

(** The two requests of the retriever.  Each resolves to a response or
    throws. *)
Record Supabase : Type := {
  (** [rpc('match_document_chunks', { query_embedding, match_document_id,
      match_threshold, match_count })] *)
  match_document_chunks :
    list float -> string -> float -> Z -> outcome (Response (list DocumentChunk));
  (** [from('document_chunks').select('*').eq('document_id', id)
      .order('chunk_index', { ascending: true }).limit(n)] *)
  select_chunks : string -> Z -> outcome (Response (list DocumentChunk))
}.

(** ** Cosine similarity of the fallback path *)

(** [queryEmbedding.reduce((sum, val, i) => sum + val * (embedding[i] || 0), 0)]:
    [tail] holds [embedding[i]], [embedding[i+1]], ... *)
Fixpoint dot_from (sum : float) (queryEmbedding tail : list float) : float :=
  match queryEmbedding with
  | [] => sum
  | val :: rest =>
      dot_from (sum + val * or_zero (hd_error tail))%float rest (tl tail)
  end.

Definition dotProduct (queryEmbedding embedding : list float) : float :=
  dot_from 0%float queryEmbedding embedding.

(** [Math.sqrt(v.reduce((sum, val) => sum + val * val, 0))] *)
Definition magnitude (v : list float) : float :=
  sqrt (fold_left (fun sum val => sum + val * val)%float v 0%float).

(** [dotProduct / (queryMagnitude * chunkMagnitude)] *)
Definition quotient (queryEmbedding embedding : list float) : float :=
  (dotProduct queryEmbedding embedding
   / (magnitude queryEmbedding * magnitude embedding))%float.

(** The similarity the callback of [allChunks.map] gives to a chunk. *)
Definition chunk_similarity (queryEmbedding : list float) (chunk : DocumentChunk)
    : float :=
  match embedding chunk with
  | None | Some [] => 0%float
  | Some e =>
      let similarity := quotient queryEmbedding e in
      if is_nan similarity then 0%float else similarity
  end.

Definition score (queryEmbedding : list float) (chunk : DocumentChunk)
    : DocumentChunk :=
  with_similarity chunk (chunk_similarity queryEmbedding chunk).

(** ** Sorting

    [(a, b) => (b.similarity || 0) - (a.similarity || 0)]; a positive
    result puts [a] after [b], and [NaN] counts as zero.  The comparison is a
    total preorder on the values [similarity || 0], so the stable sort of the
    language is the stable insertion sort. *)
Definition compare_similarity (a b : DocumentChunk) : float :=
  (or_zero (similarity b) - or_zero (similarity a))%float.

Fixpoint insert_chunk (a : DocumentChunk) (sorted : list DocumentChunk)
    : list DocumentChunk :=
  match sorted with
  | [] => [a]
  | b :: rest =>
      if (0 <? compare_similarity a b)%float then b :: insert_chunk a rest
      else a :: sorted
  end.

Definition sort_by_similarity (chunks : list DocumentChunk) : list DocumentChunk :=
  fold_right insert_chunk [] chunks.

(** ** findRelevantChunks *)

(** The fallback, from the request for the chunks on. *)
Definition fallback (supabase : Supabase) (queryEmbedding : list float)
    (documentId : string) (limit : Z) : outcome (list DocumentChunk) :=
  match select_chunks supabase documentId (limit * 2) with
  | Thrown _ => Returned []
  | Returned response =>
      match error response, data response with
      | Some _, _ => Returned []
      | None, None => Returned []
      | None, Some [] => Returned []
      | None, Some allChunks =>
          let chunksWithSimilarity := map (score queryEmbedding) allChunks in
          Returned (array_slice (sort_by_similarity chunksWithSimilarity) 0 limit)
      end
  end.

(** [server] is what [createServerSupabase()] resolves to; both [catch]
    blocks are in: the function resolves whatever the store does. *)
Definition findRelevantChunks (server : outcome Supabase)
    (queryEmbedding : list float) (documentId : string) (limit : Z)
    : outcome (list DocumentChunk) :=
  match server with
  | Thrown _ => Returned []
  | Returned supabase =>
      match match_document_chunks supabase queryEmbedding documentId
              0.7%float limit with
      | Returned response =>
          match error response, data response with
          | None, Some found => Returned found
          | _, _ => fallback supabase queryEmbedding documentId limit
          end
      | Thrown _ => fallback supabase queryEmbedding documentId limit
      end
  end.

(** ** buildContext *)

Definition no_context : string := "No relevant context found.".

Definition separator : string :=
  String LF (String LF ("---" ++ String LF (String LF ""))).

(** [chunk.similarity ? ` (similarity: ${(chunk.similarity * 100).toFixed(1)}%)` : ''] *)
Definition similarity_label (chunk : DocumentChunk) : string :=
  match similarity chunk with
  | Some value =>
      if truthy value then " (similarity: " ++ toFixed (value * 100)%float 1 ++ "%)"
      else ""
  | None => ""
  end.

Definition render_chunk (chunk : DocumentChunk) : string :=
  "[Chunk " ++ Z_toString (chunk_index chunk + 1) ++ similarity_label chunk ++ "]"
  ++ String LF (content chunk).

Definition buildContext (chunks : list DocumentChunk) : string :=
  match chunks with
  | [] => no_context
  | _ => join separator (map render_chunk chunks)
  end.

(** ** formatSources *)

Record Source : Type := {
  chunkIndex : Z;
  preview : string;
  source_similarity : option float
}.

Definition formatSources (chunks : list DocumentChunk) : list Source :=
  map (fun chunk =>
         {| chunkIndex := chunk_index chunk;
            preview := substring0 (content chunk) 100 ++ "...";
            source_similarity := similarity chunk |}) chunks.

End Rag.

(* ================================================================== *)
(** * POST /api/documents/upload *)
(* ================================================================== *)

Module Upload.
Import JS JSNumber ProcessDocument.

(** ** getFileType (document helpers) *)

Definition getFileType (filename : string) : string :=
  let extension := toLowerCase (split_pop "." filename) in
  if (extension =? "pdf")%string then "pdf"
  else if (extension =? "txt")%string then "txt"
  else if (extension =? "docx")%string || (extension =? "doc")%string then "docx"
  else "unknown".

(** ** The store

    The two tables the route writes.  Identifiers are integers given out by
    the store; the time stamps of the rows are left out.  Foreign keys are not
    modelled: a delete removes rows of its own table only. *)

Record DocumentRow : Type := {
  id : Z;
  user_id : string;
  name : string;
  content : string;
  chunk_count : option Z
}.

Record ChunkRow : Type := {
  document_id : Z;
  chunk_content : string;
  embedding : list float;
  chunk_index : Z
}.

Record Store : Type := {
  documents : list DocumentRow;
  document_chunks : list ChunkRow;
  next_id : Z
}.

(** The error a request resolves to when the store refuses it. *)
Record PostgrestError : Type := {
  message : string;
  hint : string
}.

(** What the store does with a request: it carries it out, or it refuses
    and reports an error (the tables are then unchanged). *)
Inductive reply : Type :=
| Served
| Refused (error : PostgrestError).

(** The replies of the store to the requests of one upload that write, by
    kind of request: the attempts to insert the document (in order), the
    batches of chunks (in order), and the two deletes.  A list that is
    exhausted stands for a store that serves. *)
Record Plan : Type := {
  on_insert_document : list reply;
  on_insert_chunks : list reply;
  on_delete_document : reply;
  on_delete_chunks : reply
}.

(** The state of the world during a request: the tables, and what the
    store will answer. *)
Record World : Type := {
  store : Store;
  plan : Plan
}.

Definition with_store (w : World) (s : Store) : World :=
  {| store := s; plan := plan w |}.

Definition next (replies : list reply) : reply * list reply :=
  match replies with
  | [] => (Served, [])
  | r :: rest => (r, rest)
  end.

(** [from('documents').insert(data).select().single()] *)
Definition insert_document (user name content : string) (count : option Z)
    (w : World) : World * (DocumentRow + PostgrestError) :=
  let (r, rest) := next (on_insert_document (plan w)) in
  let w := {| store := store w;
              plan := {| on_insert_document := rest;
                         on_insert_chunks := on_insert_chunks (plan w);
                         on_delete_document := on_delete_document (plan w);
                         on_delete_chunks := on_delete_chunks (plan w) |} |} in
  match r with
  | Refused e => (w, inr e)
  | Served =>
      let s := store w in
      let row := {| id := next_id s; user_id := user; name := name;
                    content := content; chunk_count := count |} in
      (with_store w {| documents := documents s ++ [row];
                       document_chunks := document_chunks s;
                       next_id := next_id s + 1 |},
       inl row)
  end.

(** [from('document_chunks').insert(batch)]: the batch is written as a
    whole or not at all. *)
Definition insert_chunks (batch : list ChunkRow) (w : World)
    : World * option PostgrestError :=
  let (r, rest) := next (on_insert_chunks (plan w)) in
  let w := {| store := store w;
              plan := {| on_insert_document := on_insert_document (plan w);
                         on_insert_chunks := rest;
                         on_delete_document := on_delete_document (plan w);
                         on_delete_chunks := on_delete_chunks (plan w) |} |} in
  match r with
  | Refused e => (w, Some e)
  | Served =>
      let s := store w in
      (with_store w {| documents := documents s;
                       document_chunks := document_chunks s ++ batch;
                       next_id := next_id s |},
       None)
  end.

(** [from('documents').delete().eq('id', id)] *)
Definition delete_document (doc : Z) (w : World) : World :=
  match on_delete_document (plan w) with
  | Refused _ => w
  | Served =>
      let s := store w in
      with_store w
        {| documents := filter (fun row => negb (id row =? doc)) (documents s);
           document_chunks := document_chunks s;
           next_id := next_id s |}
  end.

(** [from('document_chunks').delete().eq('document_id', id)] *)
Definition delete_chunks (doc : Z) (w : World) : World :=
  match on_delete_chunks (plan w) with
  | Refused _ => w
  | Served =>
      let s := store w in
      with_store w
        {| documents := documents s;
           document_chunks :=
             filter (fun row => negb (document_id row =? doc)) (document_chunks s);
           next_id := next_id s |}
  end.

(** [from('document_chunks').select('id').limit(1)]: a read, whose answer
    is only logged. *)
Definition check_table (w : World) : World := w.

(** ** The request and the response *)

Record File : Type := {
  file_name : string;
  bytes : string
}.

Definition size (file : File) : Z := len (bytes file).

Record LimitResult : Type := {
  allowed : bool;
  limit_message : option string
}.

Record Request : Type := {
  session : option string;
  limitCheck : LimitResult;
  file : option File
}.

(** The services the route calls: the parsers of [processDocument] and
    [generateEmbedding], which resolves to a vector or throws. *)
Record Services : Type := {
  parsers : Extractors;
  generateEmbedding : string -> outcome (list float)
}.

Inductive Response : Type :=
| Failed (status : Z) (code : option string) (error : string)
    (details : option string) (batchIndex : option Z)
| Uploaded (document : DocumentRow) (chunk_count : Z).

(** ** Batches *)

(** The slices [items.slice(i, i + size)] for [i = 0, size, 2 * size, ...]
    below the length. *)
Fixpoint batched_from {A : Type} (fuel size : nat) (items : list A)
    : list (list A) :=
  match fuel, items with
  | O, _ => []
  | _, [] => []
  | S fuel', _ => firstn size items :: batched_from fuel' size (skipn size items)
  end.

Definition batched {A : Type} (size : nat) (items : list A) : list (list A) :=
  batched_from (List.length items) size items.

(** ** Embeddings *)

(** [Promise.all(batch.map(generateEmbedding))] *)
Fixpoint embed_batch (service : string -> outcome (list float))
    (batch : list string) : outcome (list (list float)) :=
  match batch with
  | [] => Returned []
  | chunk :: rest =>
      match service chunk, embed_batch service rest with
      | Returned e, Returned es => Returned (e :: es)
      | Thrown m, _ => Thrown m
      | _, Thrown m => Thrown m
      end
  end.

(** The loop over the batches of [EMBEDDING_BATCH_SIZE] chunks. *)
Fixpoint embed_batches (service : string -> outcome (list float))
    (embeddings : list (list float)) (batches : list (list string))
    : outcome (list (list float)) :=
  match batches with
  | [] => Returned embeddings
  | batch :: rest =>
      match embed_batch service batch with
      | Returned batchEmbeddings =>
          embed_batches service (embeddings ++ batchEmbeddings) rest
      | Thrown m => Thrown m
      end
  end.

Definition EMBEDDING_BATCH_SIZE : nat := 10.
Definition BATCH_SIZE : nat := 50.
Definition expectedDimension : Z := 1536.

(** The loop that validates the dimensions, from index [i] on: the error
    thrown, if any. *)
Fixpoint wrong_dimension (i : Z) (embeddings : list (list float)) : option string :=
  match embeddings with
  | [] => None
  | e :: rest =>
      if negb (Z.of_nat (List.length e) =? expectedDimension) then
        Some ("Embedding at index " ++ Z_toString i
              ++ " has wrong dimension: expected " ++ Z_toString expectedDimension
              ++ ", got " ++ Z_toString (Z.of_nat (List.length e)))
      else wrong_dimension (i + 1) rest
  end.

(** [chunks.map((chunk, index) => ({ document_id, content, embedding:
    embeddings[index], chunk_index: index }))]; the lists have the same
    length when this is reached. *)
Fixpoint chunkInserts (doc : Z) (index : Z) (chunks : list string)
    (embeddings : list (list float)) : list ChunkRow :=
  match chunks with
  | [] => []
  | chunk :: rest =>
      {| document_id := doc; chunk_content := chunk;
         embedding := hd [] embeddings; chunk_index := index |}
      :: chunkInserts doc (index + 1) rest (tl embeddings)
  end.

Definition or_default (text default : string) : string :=
  if (text =? "")%string then default else text.

(** ** The loop that stores the chunks *)

(** [i] is the index of the first chunk of the next batch.  The result is
    the response returned from inside the loop, if any. *)
Fixpoint store_batches (doc : Z) (i : Z) (batches : list (list ChunkRow))
    (w : World) : World * option Response :=
  match batches with
  | [] => (w, None)
  | batch :: rest =>
      match insert_chunks batch w with
      | (w, Some batchError) =>
          let w := delete_document doc w in
          let w := delete_chunks doc w in
          (w, Some (Failed 500 (Some "CHUNKS_ERROR")
                      "Failed to store document chunks"
                      (Some (or_default (message batchError)
                               (or_default (hint batchError)
                                  "Unknown error storing chunks")))
                      (Some i)))
      | (w, None) => store_batches doc (i + Z.of_nat BATCH_SIZE) rest w
      end
  end.

(** ** The workflow inside the inner [try] *)

Definition upload_error (message : string) : Response :=
  Failed 500 (Some "UPLOAD_ERROR") message None None.

Definition count_mismatch (chunks : list string) (embeddings : list (list float))
    : string :=
  "Embedding count mismatch: expected " ++ Z_toString (Z.of_nat (List.length chunks))
  ++ ", got " ++ Z_toString (Z.of_nat (List.length embeddings)).

Definition same_length {A B : Type} (a : list A) (b : list B) : bool :=
  (List.length a =? List.length b)%nat.

(** The creation of the document record: with [chunk_count] first, and
    without it when the error names that column. *)
Definition create_document (user name content : string) (count : Z) (w : World)
    : World * (DocumentRow + PostgrestError) :=
  let (w, first) := insert_document user name content (Some count) w in
  match first with
  | inr errorWithCount =>
      if includes (message errorWithCount) "chunk_count"
      then insert_document user name content None w
      else (w, first)
  | inl _ => (w, first)
  end.

(** From the creation of the document record on; a thrown error is the
    [inr] case. *)
Definition persist (user : string) (name : string) (chunks : list string)
    (embeddings : list (list float)) (w : World) : World * (Response + string) :=
  let w := check_table w in
  let count := Z.of_nat (List.length chunks) in
  match create_document user name (join newline2 chunks) count w with
  | (w, inr insertError) =>
      (w, inl (Failed 500 (Some "DATABASE_ERROR")
                 "Failed to create document in database"
                 (Some (or_default (message insertError) "Unknown database error"))
                 None))
  | (w, inl document) =>
      if negb (same_length embeddings chunks) then
        (w, inr (count_mismatch chunks embeddings))
      else
        match wrong_dimension 0 embeddings with
        | Some thrown => (w, inr thrown)
        | None =>
            let rows := chunkInserts (id document) 0 chunks embeddings in
            match store_batches (id document) 0 (batched BATCH_SIZE rows) w with
            | (w, Some response) => (w, inl response)
            | (w, None) => (w, inl (Uploaded document count))
            end
        end
  end.

Definition workflow (services : Services) (user : string) (name : string)
    (chunks : list string) (w : World) : World * Response :=
  match embed_batches (generateEmbedding services) []
          (batched EMBEDDING_BATCH_SIZE chunks) with
  | Thrown m => (w, upload_error m)
  | Returned embeddings =>
      if negb (same_length embeddings chunks) then
        (w, upload_error (count_mismatch chunks embeddings))
      else
        match persist user name chunks embeddings w with
        | (w, inl response) => (w, response)
        | (w, inr thrown) => (w, upload_error thrown)
        end
  end.

(** ** POST *)

Definition maxSize : Z := 10 * 1024 * 1024.

Definition too_large_message (file : File) : string :=
  "File size (" ++ toFixed (of_Z (size file) / of_Z (1024 * 1024))%float 2
  ++ "MB) exceeds the " ++ toFixed (of_Z maxSize / of_Z (1024 * 1024))%float 0
  ++ "MB limit. Please choose a smaller file.".

Definition quote : string := String (ascii_of_nat 34) "".

(** [!session?.user?.id]: there is no session, or its user has no id or an
    empty one. *)
Definition signed_out (session : option string) : bool :=
  match session with
  | Some id => (id =? "")%string
  | None => true
  end.

(** [session request] is [session?.user?.id]. *)
Definition POST (services : Services) (request : Request) (w : World)
    : World * Response :=
  if signed_out (session request) then
    (w, Failed 401 None "Authentication required" None None)
  else
      let user := or_empty (session request) in
      if negb (allowed (limitCheck request)) then
        (w, Failed 403 None
              (or_default (or_empty (limit_message (limitCheck request)))
                 "Document limit reached") None None)
      else
        match file request with
        | None =>
            (w, Failed 400 (Some "NO_FILE")
                  "No file provided. Please select a file to upload." None None)
        | Some file =>
            let fileType := getFileType (file_name file) in
            if negb ((fileType =? "pdf")%string || (fileType =? "txt")%string
                     || (fileType =? "docx")%string) then
              (w, Failed 400 (Some "INVALID_FILE_TYPE")
                    ("File type " ++ quote ++ fileType ++ quote
                     ++ " is not supported. Please upload PDF, TXT, or DOCX files.")
                    None None)
            else if size file >? maxSize then
              (w, Failed 400 (Some "FILE_TOO_LARGE") (too_large_message file)
                    None None)
            else
              match processDocument (parsers services) (bytes file)
                      (file_name file) with
              | Failure error _ =>
                  (w, Failed 500 (Some "PROCESSING_FAILED")
                        (or_default error "Document processing failed") None None)
              | Success chunks metadata =>
                  workflow services user (file_name file) chunks w
              end
        end.

End Upload.

(* ================================================================== *)
(** * The validation helpers *)
(* ================================================================== *)

Module Validation.
Import JS JSNumber.

(** ** [RegExp.prototype.test]

    [test] is [re.test(s)] for a pattern without assertions and without
    the [g] flag: the pattern is tried at every position, from the left.
    [match_to_end] is the matcher for a pattern [^ items $] without the
    [m] flag: the items, then the end of the input; [^] holds at the first
    position only, so [test_whole] tries no other. *)

Fixpoint test_from (re : list item) (prev : option ascii) (s : string) : bool :=
  match match_items re prev s with
  | Some _ => true
  | None =>
      match s with
      | "" => false
      | String c s' => test_from re (Some c) s'
      end
  end.

Definition test (re : list item) (s : string) : bool := test_from re None s.

(** A quantified character class [[...]{lo,hi}]. *)
Record quantified : Type := {
  member : ascii -> bool;
  at_least : nat;
  at_most : option nat
}.

Fixpoint match_to_end (items : list quantified) : string -> bool :=
  match items with
  | [] => fun s => match s with "" => true | String _ _ => false end
  | q :: rest =>
      let k := match_to_end rest in
      let many :=
        fix many (s : string) (lo : nat) (hi : option nat) {struct s} : bool :=
          let stop := match lo with O => k s | S _ => false end in
          match s with
          | "" => stop
          | String c s' =>
              if member q c && room hi then many s' (pred lo) (less hi) || stop
              else stop
          end in
      fun s => many s (at_least q) (at_most q)
  end.

Definition test_whole (items : list quantified) (s : string) : bool :=
  match_to_end items s.

Definition one (p : ascii -> bool) : quantified :=
  {| member := p; at_least := 1; at_most := Some 1%nat |}.

Definition some (p : ascii -> bool) : quantified :=
  {| member := p; at_least := 1; at_most := None |}.

Definition exactly (n : nat) (p : ascii -> bool) : quantified :=
  {| member := p; at_least := n; at_most := Some n |}.

(** ** isValidEmail: [/^[^\s@]+@[^\s@]+\.[^\s@]+$/] *)

(** [[^\s@]] *)
Definition address_char (c : ascii) : bool :=
  negb (is_space c) && negb (Ascii.eqb c "@").

Definition emailRegex : list quantified :=
  [some address_char; one (Ascii.eqb "@"); some address_char;
   one (Ascii.eqb "."); some address_char].

Definition isValidEmail (email : string) : bool := test_whole emailRegex email.

(** ** isValidPassword *)

Record PasswordCheck : Type := {
  valid : bool;
  errors : list string
}.

(** [if (cond) errors.push(message)] *)
Definition push_if (cond : bool) (message : string) (errors : list string)
    : list string :=
  if cond then errors ++ [message] else errors.

Definition isValidPassword (password : string) : PasswordCheck :=
  let errors := [] in
  let errors :=
    push_if (len password <? 8)
      "Password must be at least 8 characters long" errors in
  let errors :=
    push_if (negb (test [Class is_upper 1 (Some 1%nat)] password))
      "Password must contain at least one uppercase letter" errors in
  let errors :=
    push_if (negb (test [Class is_lower 1 (Some 1%nat)] password))
      "Password must contain at least one lowercase letter" errors in
  let errors :=
    push_if (negb (test [Class is_digit 1 (Some 1%nat)] password))
      "Password must contain at least one number" errors in
  {| valid := (List.length errors =? 0)%nat; errors := errors |}.

(** ** isValidFileType *)

Definition defaultAllowedTypes : list string := ["pdf"; "txt"; "docx"].

(** [allowedTypes.includes(extension)] *)
Definition array_includes (items : list string) (x : string) : bool :=
  existsb (String.eqb x) items.

Definition isValidFileType (filename : string) (allowedTypes : list string) : bool :=
  let extension := toLowerCase (split_pop "." filename) in
  if (extension =? "")%string then false else array_includes allowedTypes extension.

(** The result of a check: [{ valid, message? }]. *)
Record Check : Type := {
  check_valid : bool;
  check_message : option string
}.

(** ** isValidChatMessage *)

Definition isValidChatMessage (message : string) : Check :=
  let trimmed := trim message in
  if len trimmed =? 0 then
    {| check_valid := false; check_message := Some "Message cannot be empty" |}
  else if len trimmed >? 1000 then
    {| check_valid := false;
       check_message := Some "Message cannot exceed 1000 characters" |}
  else {| check_valid := true; check_message := None |}.

(** ** sanitizeString *)

Definition double_quote : ascii := ascii_of_nat 34.
Definition single_quote : ascii := ascii_of_nat 39.

Definition sanitizeString (input : string) : string :=
  let s := replace [chr "<"] "&lt;" input in
  let s := replace [chr ">"] "&gt;" s in
  let s := replace [chr double_quote] "&quot;" s in
  let s := replace [chr single_quote] "&#x27;" s in
  replace [chr "/"] "&#x2F;" s.

(** ** isValidUUID:
    [/^[0-9a-f]{8}-[0-9a-f]{4}-[0-9a-f]{4}-[0-9a-f]{4}-[0-9a-f]{12}$/i] *)

(** [[0-9a-f]] under the [i] flag: a character whose upper case is the
    upper case of a member of the class. *)
Definition hex_digit (c : ascii) : bool :=
  is_digit c
  || ((97 <=? code c)%nat && (code c <=? 102)%nat)
  || ((65 <=? code c)%nat && (code c <=? 70)%nat).

Definition uuidRegex : list quantified :=
  [exactly 8 hex_digit; one (Ascii.eqb "-");
   exactly 4 hex_digit; one (Ascii.eqb "-");
   exactly 4 hex_digit; one (Ascii.eqb "-");
   exactly 4 hex_digit; one (Ascii.eqb "-");
   exactly 12 hex_digit].

Definition isValidUUID (uuid : string) : bool := test_whole uuidRegex uuid.

Definition isValidDocumentId (id : string) : bool := isValidUUID id.

Definition isValidChatId (id : string) : bool := isValidUUID id.

End Validation.
(* ================================================================== *)
(** * The document helpers of the client, and the keyboard shortcuts *)
(* ================================================================== *)

Module DocumentHelpers.
Import JS JSNumber Validation.

(** A [File] of the browser: its name, its MIME type and its content. *)
Record BrowserFile : Type := {
  upload : Upload.File;
  type : string
}.

Definition name (file : BrowserFile) : string := Upload.file_name (upload file).
Definition size (file : BrowserFile) : Z := Upload.size (upload file).

(** [{ valid, error? }] *)
Record Verdict : Type := {
  valid : bool;
  error : option string
}.

Definition accepted : Verdict := {| valid := true; error := None |}.

Definition allowedTypes : list string :=
  ["application/pdf"; "text/plain";
   "application/vnd.openxmlformats-officedocument.wordprocessingml.document"].

Definition allowedExtensions : list string := [".pdf"; ".txt"; ".docx"].

Definition validateFileType (file : BrowserFile) : Verdict :=
  let fileExtension := "." ++ toLowerCase (split_pop "." (name file)) in
  if negb (array_includes allowedTypes (type file))
     && negb (array_includes allowedExtensions fileExtension)
  then {| valid := false;
          error := Some "Invalid file type. Please upload PDF, TXT, or DOCX files." |}
  else accepted.

(** [maxSizeMB] is a whole number of megabytes. *)
Definition validateFileSize (file : BrowserFile) (maxSizeMB : Z) : Verdict :=
  let maxSizeBytes := maxSizeMB * 1024 * 1024 in
  if size file >? maxSizeBytes
  then {| valid := false;
          error := Some ("File size exceeds " ++ Z_toString maxSizeMB ++ "MB limit.") |}
  else accepted.

End DocumentHelpers.

Module KeyboardShortcuts.
Import JS.

(** The fields of a [KeyboardEvent] the code reads. *)
Record KeyboardEvent : Type := {
  key : string;
  ctrlKey : bool;
  metaKey : bool;
  shiftKey : bool;
  altKey : bool
}.

(** A shortcut; the modifiers are optional.  The handler and the
    description play no part in the matching. *)
Record KeyboardShortcut : Type := {
  shortcut_key : string;
  ctrl : option bool;
  meta : option bool;
  shift : option bool;
  alt : option bool
}.

(** Truthiness of an optional flag. *)
Definition set (flag : option bool) : bool :=
  match flag with
  | Some b => b
  | None => false
  end.

Definition matchesShortcut (event : KeyboardEvent) (shortcut : KeyboardShortcut)
    : bool :=
  if negb (toLowerCase (key event) =? toLowerCase (shortcut_key shortcut))%string
  then false
  else if set (ctrl shortcut) && negb (ctrlKey event) then false
  else if set (meta shortcut) && negb (metaKey event) then false
  else if set (shift shortcut) && negb (shiftKey event) then false
  else if set (alt shortcut) && negb (altKey event) then false
  else if negb (set (ctrl shortcut)) && ctrlKey event then false
  else if negb (set (meta shortcut)) && metaKey event then false
  else if negb (set (shift shortcut)) && shiftKey event then false
  else if negb (set (alt shortcut)) && altKey event then false
  else true.

(** [COMMON_SHORTCUTS] *)
Definition plain_key (k : string) : KeyboardShortcut :=
  {| shortcut_key := k; ctrl := None; meta := None; shift := None; alt := None |}.

Definition with_meta (k : string) : KeyboardShortcut :=
  {| shortcut_key := k; ctrl := None; meta := Some true; shift := None; alt := None |}.

Definition with_ctrl (k : string) : KeyboardShortcut :=
  {| shortcut_key := k; ctrl := Some true; meta := None; shift := None; alt := None |}.

Definition COMMAND_MENU : KeyboardShortcut := with_meta "k".
Definition COMMAND_MENU_ALT : KeyboardShortcut := with_ctrl "k".
Definition ESCAPE : KeyboardShortcut := plain_key "Escape".
Definition SUBMIT : KeyboardShortcut := with_meta "Enter".
Definition SUBMIT_ALT : KeyboardShortcut := with_ctrl "Enter".
Definition FOCUS_SEARCH : KeyboardShortcut := plain_key "/".

(** ** useKeyboardShortcuts: the [keydown] handler *)

(** What the handler reads of the target of the event. *)
Record Target : Type := {
  tagName : string;
  isContentEditable : bool
}.

(** The index of the shortcut whose handler is called, if any: the first
    one that matches. *)
Fixpoint first_match (event : KeyboardEvent) (shortcuts : list KeyboardShortcut)
    (index : nat) : option nat :=
  match shortcuts with
  | [] => None
  | shortcut :: rest =>
      if matchesShortcut event shortcut then Some index
      else first_match event rest (S index)
  end.

Definition handleKeyDown (shortcuts : list KeyboardShortcut) (target : Target)
    (event : KeyboardEvent) : option nat :=
  if ((tagName target =? "INPUT")%string || (tagName target =? "TEXTAREA")%string
      || isContentEditable target)
     && (negb (key event =? "Escape")%string
         && negb ((key event =? "Enter")%string && (ctrlKey event || metaKey event)))
  then None
  else first_match event shortcuts O.

End KeyboardShortcuts.
(* ================================================================== *)
(** * src/lib/rate-limit.ts: the limits of the free tier *)
(* ================================================================== *)

Module RateLimit.
Import JS JSNumber ProcessDocument.

(** [FREE_TIER_LIMITS] *)
Definition CHATS_PER_MONTH : Z := 3.
Definition DOCUMENTS_TOTAL : Z := 3.

(** A limit: a number, or [Infinity]. *)
Inductive Bound : Type :=
| Finite (n : Z)
| Infinity.

Record RateLimitResult : Type := {
  allowed : bool;
  message : option string;
  currentCount : Z;
  limit : Bound
}.

(** ** The store, as the helpers see it *)

(** A row of [usage]; times are milliseconds since the epoch. *)
Record Usage : Type := {
  id : Z;
  user_id : string;
  chats_count : Z;
  documents_count : Z;
  period_start : Z;
  period_end : Z
}.

(** The columns read of a row of [users]. *)
Record Subscription : Type := {
  subscription_tier : string;
  subscription_status : string
}.

(** The [{ data, error }] a request resolves to; of the error, its code. *)
Record Reply (A : Type) : Type := {
  data : option A;
  error : option string
}.
Arguments data {A} r.
Arguments error {A} r.

(** [{ count, error }] *)
Record CountReply : Type := {
  count : option Z;
  count_error : option string
}.

(** The three reads of the helpers.  Each one creates the client and sends
    the request; it resolves to a reply or throws.  The request for the
    usage is the one for the month of the current date. *)
Record Supabase : Type := {
  (** [from('usage').select('*').eq('user_id', id).gte('period_start', start)
      .lte('period_end', end).single()] *)
  select_usage : string -> outcome (Reply Usage);
  (** [from('documents').select('*', { count: 'exact', head: true })
      .eq('user_id', id)] *)
  count_documents : string -> outcome CountReply;
  (** [from('users').select('subscription_tier, subscription_status')
      .eq('id', id).single()] *)
  select_subscription : string -> outcome (Reply Subscription)
}.

(** ** getCurrentUsage *)

Definition getCurrentUsage (supabase : Supabase) (userId : string) : option Usage :=
  match select_usage supabase userId with
  | Returned reply =>
      match error reply with
      | Some code => if negb (code =? "PGRST116")%string then None else data reply
      | None => data reply
      end
  | Thrown _ => None
  end.

(** ** getDocumentCount *)

Definition getDocumentCount (supabase : Supabase) (userId : string) : Z :=
  match count_documents supabase userId with
  | Returned reply =>
      match count_error reply with
      | Some _ => 0
      | None =>
          match count reply with
          | Some n => n
          | None => 0
          end
      end
  | Thrown _ => 0
  end.

(** ** getUserSubscriptionStatus *)

Record Status : Type := {
  tier : string;
  status : string;
  isPro : bool
}.

Definition getUserSubscriptionStatus (supabase : Supabase) (userId : string)
    : option Status :=
  match select_subscription supabase userId with
  | Returned reply =>
      match error reply, data reply with
      | None, Some user =>
          Some {| tier := subscription_tier user;
                  status := subscription_status user;
                  isPro := (subscription_tier user =? "pro")%string
                           && (subscription_status user =? "active")%string |}
      | _, _ => None
      end
  | Thrown _ => None
  end.

(** [subscriptionStatus?.isPro] as a condition *)
Definition is_pro (subscriptionStatus : option Status) : bool :=
  match subscriptionStatus with
  | Some s => isPro s
  | None => false
  end.

(** ** checkChatLimit

    The helpers catch what they call, so the [catch] of the two checks and
    of [getUserUsage] is not entered. *)

Definition chats_of (usage : option Usage) : Z :=
  match usage with
  | Some u => chats_count u
  | None => 0
  end.

Definition checkChatLimit (supabase : Supabase) (userId : string) : RateLimitResult :=
  let subscriptionStatus := getUserSubscriptionStatus supabase userId in
  if is_pro subscriptionStatus then
    {| allowed := true; message := None; currentCount := 0; limit := Infinity |}
  else
    let usage := getCurrentUsage supabase userId in
    let currentChats := chats_of usage in
    if currentChats >=? CHATS_PER_MONTH then
      {| allowed := false;
         message := Some ("You've reached your monthly chat limit of "
                          ++ Z_toString CHATS_PER_MONTH
                          ++ ". Upgrade to Pro for unlimited chats.");
         currentCount := currentChats;
         limit := Finite CHATS_PER_MONTH |}
    else
      {| allowed := true; message := None; currentCount := currentChats;
         limit := Finite CHATS_PER_MONTH |}.

(** ** checkDocumentLimit *)

Definition checkDocumentLimit (supabase : Supabase) (userId : string)
    : RateLimitResult :=
  let subscriptionStatus := getUserSubscriptionStatus supabase userId in
  if is_pro subscriptionStatus then
    {| allowed := true; message := None; currentCount := 0; limit := Infinity |}
  else
    let documentCount := getDocumentCount supabase userId in
    if documentCount >=? DOCUMENTS_TOTAL then
      {| allowed := false;
         message := Some ("You've reached your document limit of "
                          ++ Z_toString DOCUMENTS_TOTAL
                          ++ ". Upgrade to Pro for unlimited documents.");
         currentCount := documentCount;
         limit := Finite DOCUMENTS_TOTAL |}
    else
      {| allowed := true; message := None; currentCount := documentCount;
         limit := Finite DOCUMENTS_TOTAL |}.

(** ** getUserUsage *)

Record UserUsage : Type := {
  chatsCount : Z;
  chatsLimit : Bound;
  documentsCount : Z;
  documentsLimit : Bound;
  usage_isPro : bool
}.

Definition getUserUsage (supabase : Supabase) (userId : string) : UserUsage :=
  let subscriptionStatus := getUserSubscriptionStatus supabase userId in
  let isPro := is_pro subscriptionStatus in
  let usage := getCurrentUsage supabase userId in
  let documentCount := getDocumentCount supabase userId in
  {| chatsCount := chats_of usage;
     chatsLimit := if isPro then Infinity else Finite CHATS_PER_MONTH;
     documentsCount := documentCount;
     documentsLimit := if isPro then Infinity else Finite DOCUMENTS_TOTAL;
     usage_isPro := isPro |}.

(** ** incrementChatCount

    The table [usage] is the state.  [periodStart] and [periodEnd] are the
    two dates computed from the current date; [refusal] is the error of the
    write, when the store refuses it. *)

(** What is thrown and caught: an [Error] with its message, or another
    value. *)
Inductive Thrown_value : Type :=
| An_Error (message : string)
| Not_an_Error.

Definition increment_failure (error : Thrown_value) : string :=
  match error with
  | An_Error message => "Failed to increment chat count: " ++ message
  | Not_an_Error => "Failed to increment chat count"
  end.

Record UsageTable : Type := {
  rows : list Usage;
  next_id : Z
}.

Definition in_period (userId : string) (periodStart periodEnd : Z) (row : Usage)
    : bool :=
  (user_id row =? userId)%string
  && (periodStart <=? period_start row) && (period_end row <=? periodEnd).

(** [.single()]: the row, when the filter keeps exactly one. *)
Definition single (found : list Usage) : Reply Usage :=
  match found with
  | [row] => {| data := Some row; error := None |}
  | _ => {| data := None; error := Some "PGRST116" |}
  end.

Definition select_period (table : UsageTable) (userId : string)
    (periodStart periodEnd : Z) : Reply Usage :=
  single (filter (in_period userId periodStart periodEnd) (rows table)).

(** [from('usage').update({ chats_count }).eq('id', id)] *)
Definition update_chats (table : UsageTable) (row_id : Z) (chats : Z) : UsageTable :=
  {| rows := map (fun row =>
                    if id row =? row_id then
                      {| id := id row; user_id := user_id row;
                         chats_count := chats;
                         documents_count := documents_count row;
                         period_start := period_start row;
                         period_end := period_end row |}
                    else row) (rows table);
     next_id := next_id table |}.

(** [from('usage').insert({ user_id, chats_count: 1, documents_count: 0,
    period_start, period_end })] *)
Definition insert_usage (table : UsageTable) (userId : string)
    (periodStart periodEnd : Z) : UsageTable :=
  {| rows := rows table ++
             [{| id := next_id table; user_id := userId; chats_count := 1;
                 documents_count := 0; period_start := periodStart;
                 period_end := periodEnd |}];
     next_id := next_id table + 1 |}.

Definition incrementChatCount (table : UsageTable) (userId : string)
    (periodStart periodEnd : Z) (refusal : option Thrown_value)
    : UsageTable * outcome unit :=
  let existingUsage := data (select_period table userId periodStart periodEnd) in
  match refusal with
  | Some error => (table, Thrown (increment_failure error))
  | None =>
      match existingUsage with
      | Some existing =>
          (update_chats table (id existing) (chats_count existing + 1), Returned tt)
      | None => (insert_usage table userId periodStart periodEnd, Returned tt)
      end
  end.

End RateLimit.

(* ================================================================== *)
(** * The middleware of the API routes *)
(* ================================================================== *)

Module ApiMiddleware.
Import JS.

(** ** checkRateLimit *)

(** [{ count, resetAt }]; times are milliseconds since the epoch. *)
Record Window : Type := {
  count : Z;
  resetAt : Z
}.

(** [rateLimitStore]: a [Map] from user identifiers to windows. *)
Definition RateLimitStore : Type := string -> option Window.

Definition empty : RateLimitStore := fun _ => None.

(** [store.set(key, record)] *)
Definition store_set (store : RateLimitStore) (key : string) (record : Window)
    : RateLimitStore :=
  fun k => if (k =? key)%string then Some record else store k.

Record LimitCheck : Type := {
  allowed : bool;
  remaining : Z;
  check_resetAt : Z
}.

(** [now] is the value of [Date.now()]. *)
Definition checkRateLimit (store : RateLimitStore) (now : Z) (userId : string)
    (maxRequests windowMs : Z) : RateLimitStore * LimitCheck :=
  let new_window :=
    let resetAt := now + windowMs in
    (store_set store userId {| count := 1; resetAt := resetAt |},
     {| allowed := true; remaining := maxRequests - 1; check_resetAt := resetAt |}) in
  match store userId with
  | None => new_window
  | Some record =>
      if now >? resetAt record then new_window
      else if count record >=? maxRequests then
        (store, {| allowed := false; remaining := 0;
                   check_resetAt := resetAt record |})
      else
        let record := {| count := count record + 1; resetAt := resetAt record |} in
        (store_set store userId record,
         {| allowed := true; remaining := maxRequests - count record;
            check_resetAt := resetAt record |})
  end.

(** ** apiMiddleware *)

Record RateLimitOptions : Type := {
  maxRequests : Z;
  windowMs : Z
}.

Record MiddlewareOptions : Type := {
  requireAuth : bool;
  requirePro : bool;
  rateLimit : option RateLimitOptions
}.

(** [session.user], with the fields read. *)
Record SessionUser : Type := {
  id : string;
  subscription_tier : option string
}.

(** What the middleware returns: [null], or a response, of which the
    status and the [error] of the body are kept. *)
Inductive Result : Type :=
| Continue
| Respond (status : Z) (error : option string).

(** [session] is what [getServerSession] resolves to, [now] the value of
    [Date.now()] in [checkRateLimit]. *)
Definition apiMiddleware (store : RateLimitStore) (now : Z)
    (session : option SessionUser) (method : string) (options : MiddlewareOptions)
    : RateLimitStore * Result :=
  if (method =? "OPTIONS")%string then (store, Respond 200 None)
  else if requireAuth options then
    match session with
    | None => (store, Respond 401 (Some "Authentication required"))
    | Some user =>
        if (id user =? "")%string then
          (store, Respond 401 (Some "Authentication required"))
        else
          let isPro :=
            match subscription_tier user with
            | Some tier => (tier =? "pro")%string
            | None => false
            end in
          if requirePro options && negb isPro then
            (store, Respond 403 (Some "Pro subscription required"))
          else
            match rateLimit options with
            | Some limit =>
                let (store, limitCheck) :=
                  checkRateLimit store now (id user) (maxRequests limit)
                    (windowMs limit) in
                if negb (allowed limitCheck) then
                  (store, Respond 429 (Some "Rate limit exceeded"))
                else (store, Continue)
            | None => (store, Continue)
            end
    end
  else (store, Continue).

End ApiMiddleware.
(* ================================================================== *)
(** * The sign-up route *)
(* ================================================================== *)

Module Signup.
Import JS JSNumber ProcessDocument Validation.

(** The three fields read of the body; a field is a string or is
    missing. *)
Record Body : Type := {
  name : option string;
  email : option string;
  password : option string
}.

(** [!field] *)
Definition missing (field : option string) : bool :=
  match field with
  | Some value => (value =? "")%string
  | None => true
  end.

(** ** The account service *)

Record AuthUser : Type := {
  id : string;
  user_email : string
}.

(** [{ data: { user }, error }]; of the error its message, which is empty
    when there is none. *)
Record SignUpReply : Type := {
  user : option AuthUser;
  authError : option string
}.

(** [createClientSupabase().auth.signUp({ email, password, options })]:
    it resolves to a reply, or the creation of the client or the request
    throws. *)
Definition AuthService : Type := string -> string -> string -> outcome SignUpReply.

(** ** The response: the status, and the error or the account of the body *)

Inductive Response : Type :=
| Refused (status : Z) (error : string)
| Created (id : string) (email : string).

(** [/^[^\s@]+@[^\s@]+\.[^\s@]+$/] *)
Definition emailRegex : list quantified :=
  [some address_char; one (Ascii.eqb "@"); some address_char;
   one (Ascii.eqb "."); some address_char].

(** The checks of the input, in order: the response of the first one that
    fails. *)
Definition validate (name email password : string) : option Response :=
  if len name <? 2 then
    Some (Refused 400 "Name must be at least 2 characters")
  else if negb (test_whole emailRegex email) then
    Some (Refused 400 "Please enter a valid email address")
  else if len password <? 8 then
    Some (Refused 400 "Password must be at least 8 characters")
  else if negb (test [Class is_upper 1 (Some 1%nat)] password) then
    Some (Refused 400 "Password must contain at least one uppercase letter")
  else if negb (test [Class is_digit 1 (Some 1%nat)] password) then
    Some (Refused 400 "Password must contain at least one number")
  else None.

Definition already_registered (errorMessage : string) : bool :=
  includes errorMessage "already registered"
  || includes errorMessage "already exists"
  || includes errorMessage "user already registered"
  || includes errorMessage "email address is already registered".

(** From the call of the service on. *)
Definition register (signUp : AuthService) (name email password : string)
    : Response :=
  match signUp email password name with
  | Thrown message => Refused 500 message
  | Returned reply =>
      match authError reply with
      | Some message =>
          let errorMessage := toLowerCase message in
          if already_registered errorMessage then
            Refused 409 "An account with this email already exists"
          else
            Refused 500
              (Upload.or_default message "Failed to create account. Please try again.")
      | None =>
          match user reply with
          | None =>
              Refused 500 "Failed to create user account. No user data returned."
          | Some account => Created (id account) (user_email account)
          end
      end
  end.

(** [body] is what [request.json()] resolves to. *)
Definition POST (signUp : AuthService) (body : outcome Body) : Response :=
  match body with
  | Thrown message => Refused 500 message
  | Returned body =>
      if missing (name body) || missing (email body) || missing (password body)
      then Refused 400 "Name, email, and password are required"
      else
        let name := or_empty (name body) in
        let email := or_empty (email body) in
        let password := or_empty (password body) in
        match validate name email password with
        | Some response => response
        | None => register signUp name email password
        end
  end.

End Signup.

(* ================================================================== *)
(** * POST /api/chat, up to the creation of the stream *)
(* ================================================================== *)

Module Chat.
Import JS JSNumber ProcessDocument Validation.

(** ** generateSystemPrompt (retrieval library) *)

Definition line_feed : string := String LF "".

Definition generateSystemPrompt (documentName : string) : string :=
  join line_feed
    ["You are a helpful AI assistant that answers questions based on the provided document context.";
     "";
     "Document: " ++ documentName;
     "";
     "Instructions:";
     "- Only use information from the provided context to answer questions";
     "- If the answer cannot be found in the context, clearly state that you don't have that information";
     "- Cite which chunks or sections of the document you're using (e.g., "
       ++ Upload.quote ++ "According to Chunk 3..." ++ Upload.quote ++ ")";
     "- Be concise but thorough in your answers";
     "- Use markdown formatting for better readability (headers, lists, code blocks when appropriate)";
     "- If asked about something not in the document, politely explain that you can only answer based on the provided document";
     "";
     "When citing sources, use the format: [Chunk X] where X is the chunk number."].

(** ** The request *)

(** The fields read of the body; a field is a string or is missing. *)
Record Body : Type := {
  message : option string;
  documentId : option string;
  chatId : option string
}.

(** [!field], and [field] as a condition *)
Definition missing (field : option string) : bool :=
  match field with
  | Some value => (value =? "")%string
  | None => true
  end.

Inductive Role : Type :=
| user
| assistant.

Record ChatMessage : Type := {
  role : Role;
  content : string
}.

(** The column read of the row of [documents]. *)
Record Document : Type := {
  name : string
}.

(** ** What the route calls

    Each request to the store resolves to its [{ data, error }] or throws;
    the creation of the client is part of the request. *)
Record Services : Type := {
  (** the store read by [checkChatLimit] *)
  limits : RateLimit.Supabase;
  (** [from('documents').select('*').eq('id', documentId)
      .eq('user_id', userId).single()] *)
  select_document : string -> string -> outcome (Rag.Response Document);
  (** [generateQueryEmbedding(message)] *)
  generateQueryEmbedding : string -> outcome (list float);
  (** what [createServerSupabase()] resolves to in [findRelevantChunks] *)
  retriever : outcome Rag.Supabase;
  (** [from('chats').select('messages').eq('id', chatId)
      .eq('user_id', userId).single()]: the messages of [data], if any *)
  select_messages : string -> string -> outcome (option (list ChatMessage))
}.

(** ** The response

    A JSON body with its status, its [error] and its [code]; or the stream,
    with what it is created from: the system prompt, the messages sent to
    the model, and the sources. *)
Inductive Response : Type :=
| Json (status : Z) (error : string) (code : option string)
| Stream (systemPrompt : string) (messages : list ChatMessage)
    (sources : list Rag.Source).

Definition no_relevant_content : Response :=
  Json 400
    "No relevant content found in document. Try asking a different question or ensure the document has been processed correctly."
    (Some "NO_RELEVANT_CONTENT").

(** [`Context from document:\n\n${context}\n\nUser question: ${message}`] *)
Definition userMessage (context message : string) : string :=
  "Context from document:" ++ line_feed ++ line_feed ++ context
  ++ line_feed ++ line_feed ++ "User question: " ++ message.

(** From the search of the chunks on. *)
Definition answer (services : Services) (userId message documentId : string)
    (chatId : option string) (document : Document) (queryEmbedding : list float)
    : Response :=
  match Rag.findRelevantChunks (retriever services) queryEmbedding documentId 5 with
  | Thrown error => Json 500 error None
  | Returned relevantChunks =>
      match relevantChunks with
      | [] => no_relevant_content
      | _ =>
          let context := Rag.buildContext relevantChunks in
          let systemPrompt := generateSystemPrompt (name document) in
          let userMessage := userMessage context message in
          let history :=
            if missing chatId then Returned []
            else
              match select_messages services (or_empty chatId) userId with
              | Returned (Some messages) => Returned messages
              | Returned None => Returned []
              | Thrown error => Thrown error
              end in
          match history with
          | Thrown error => Json 500 error None
          | Returned chatHistory =>
              Stream systemPrompt
                (chatHistory ++ [{| role := user; content := userMessage |}])
                (Rag.formatSources relevantChunks)
          end
      end
  end.

(** [session] is [session?.user?.id]; [body] is what [request.json()]
    resolves to. *)
Definition POST (services : Services) (session : option string)
    (body : outcome Body) : Response :=
  if missing session then Json 401 "Authentication required" None
  else
    let userId := or_empty session in
    match body with
    | Thrown error => Json 500 error None
    | Returned body =>
        if missing (message body) then
          Json 400 "Message is required and must be a string" None
        else if missing (documentId body) then
          Json 400 "Document ID is required" None
        else
          let message := or_empty (message body) in
          let documentId := or_empty (documentId body) in
          if negb (isValidDocumentId documentId) then
            Json 400 "Invalid document ID format" None
          else if negb (missing (chatId body))
                  && negb (isValidChatId (or_empty (chatId body))) then
            Json 400 "Invalid chat ID format" None
          else
            let messageValidation := isValidChatMessage message in
            if negb (check_valid messageValidation) then
              Json 400
                (Upload.or_default (or_empty (check_message messageValidation))
                   "Invalid message") None
            else
              let limitCheck := RateLimit.checkChatLimit (limits services) userId in
              if negb (RateLimit.allowed limitCheck) then
                Json 429
                  (Upload.or_default (or_empty (RateLimit.message limitCheck))
                     "Chat limit reached")
                  (Some "RATE_LIMIT_EXCEEDED")
              else
                match select_document services documentId userId with
                | Thrown error => Json 500 error None
                | Returned reply =>
                    match Rag.error reply, Rag.data reply with
                    | None, Some document =>
                        match generateQueryEmbedding services message with
                        | Thrown error => Json 500 error None
                        | Returned queryEmbedding =>
                            answer services userId message documentId
                              (chatId body) document queryEmbedding
                        end
                    | _, _ =>
                        Json 404
                          "Document not found or you do not have access to it"
                          (Some "DOCUMENT_NOT_FOUND")
                    end
                end
    end.

End Chat.
(* ================================================================== *)
(** * Notions used to state the properties of the text pipeline *)
(* ================================================================== *)

Module TextNotions.
Import JS ProcessDocument.

(** ** Characters of a text *)

(** Every character satisfies [p]; some character satisfies [p]. *)
Fixpoint all (p : ascii -> bool) (s : string) : bool :=
  match s with
  | "" => true
  | String c s' => p c && all p s'
  end.

Fixpoint has (p : ascii -> bool) (s : string) : bool :=
  match s with
  | "" => false
  | String c s' => p c || has p s'
  end.

(** The text of [n] times the character [c]. *)
Fixpoint rep (n : nat) (c : ascii) : string :=
  match n with
  | O => ""
  | S n' => String c (rep n' c)
  end.

Definition ascii_text (s : string) : Prop :=
  all (fun c => (code c <? 128)%nat) s = true.

Definition no_digit (s : string) : Prop :=
  all (fun c => negb (is_digit c)) s = true.

Definition no_line_feed (s : string) : Prop :=
  all (fun c => negb (Ascii.eqb LF c)) s = true.


(** Only whitespace. *)
Definition blank (s : string) : bool := all is_space s.

(** Neither whitespace nor a period: a character at which the chunker
    finds no boundary and trims nothing. *)
Definition plain_char (c : ascii) : bool :=
  negb (is_space c) && negb (Ascii.eqb "." c).


(** Number of characters that are not whitespace. *)
Fixpoint non_whitespace (s : string) : Z :=
  match s with
  | "" => 0
  | String c s' => (if is_space c then 0 else 1) + non_whitespace s'
  end.

(** ** Matching and whitespace *)

(** [nowhere re prev s]: the pattern matches at no position of [s]. *)
Fixpoint nowhere (re : list item) (prev : option ascii) (s : string) : Prop :=
  match_items re prev s = None /\
  match s with
  | "" => True
  | String c s' => nowhere re (Some c) s'
  end.

(** Number of whitespace characters a text begins with. *)
Fixpoint run (s : string) : nat :=
  match s with
  | "" => O
  | String c s' => if is_space c then S (run s') else O
  end.

(** What the whitespace step computes: every run of whitespace becomes one
    space; [in_run] tells that the space of the current run is written. *)
Fixpoint collapse (in_run : bool) (s : string) : string :=
  match s with
  | "" => ""
  | String c s' =>
      if is_space c then
        if in_run then collapse true s' else String " " (collapse true s')
      else String c (collapse false s')
  end.

Definition starts_with_space (s : string) : bool :=
  match s with
  | "" => false
  | String c _ => is_space c
  end.

(** Every whitespace character is a space, followed by no whitespace. *)
Fixpoint collapsed (s : string) : bool :=
  match s with
  | "" => true
  | String c s' =>
      (if is_space c then Ascii.eqb c " " && negb (starts_with_space s') else true)
      && collapsed s'
  end.

(** ** The chunker *)

(** The loop of [chunkText] is left after finitely many iterations. *)
Definition terminates (text : string) (maxChunkSize overlap : Z) : Prop :=
  exists fuel chunks, chunkText fuel text maxChunkSize overlap = Some chunks.

(** The pairs [(start, end)] of the iterations of the loop of [chunkText],
    in order. *)
Fixpoint windows (fuel : nat) (text : string) (maxChunkSize overlap start : Z)
    : list (Z * Z) :=
  match fuel with
  | O => []
  | S fuel' =>
      if start <? len text then
        let end_ := chunk_end text maxChunkSize start in
        (start, end_) ::
        (if end_ - overlap >=? len text then []
         else windows fuel' text maxChunkSize overlap (end_ - overlap))
      else []
  end.

(** The chunk cut from a window: [text.slice(start, end).trim()]. *)
Definition cut (text : string) (window : Z * Z) : string :=
  trim (slice text (fst window) (snd window)).

Definition not_empty (chunk : string) : bool := len chunk >? 0.

(** [R] holds of every two consecutive items. *)
Fixpoint adjacent {A : Type} (R : A -> A -> Prop) (items : list A) : Prop :=
  match items with
  | a :: (b :: _) as rest => R a b /\ adjacent R rest
  | _ => True
  end.

(** The next window starts [overlap] before the end of this one, not before
    its start, and ends not before its end. *)
Definition follows (overlap : Z) (w1 w2 : Z * Z) : Prop :=
  fst w2 = snd w1 - overlap /\
  0 <= fst w1 <= fst w2 /\ fst w2 <= snd w1 /\ snd w1 <= snd w2.

(** The part of the text two consecutive windows share, trimmed, ends the
    chunk of the first and starts the chunk of the second. *)
Definition shares_overlap (text : string) (overlap : Z) (w1 w2 : Z * Z) : Prop :=
  fst w2 = snd w1 - overlap /\
  let region := trim (slice text (snd w1 - overlap) (snd w1)) in
  (exists before, cut text w1 = (before ++ region)%string) /\
  (exists after, cut text w2 = (region ++ after)%string).

(** ** Results of processDocument *)

(** The two results that report an empty document. *)
Definition is_empty_document (r : ProcessResult) : bool :=
  match r with
  | Failure error statusCode =>
      ((error =? empty_raw_error)%string || (error =? empty_cleaned_error)%string)
      && (statusCode =? 400)
  | Success _ _ => false
  end.

(** Parsers for the scenarios that upload text files: they are not called. *)
Definition failing_parsers : Extractors :=
  {| pdfParse := fun _ => Thrown "no parser";
     extractRawText := fun _ => Thrown "no parser" |}.

End TextNotions.

(* ================================================================== *)
(** * Notions used to state the properties of the retriever *)
(* ================================================================== *)

Module RagNotions.
Import JS JSNumber ProcessDocument Rag.

(** ** What the store answers *)

(** The similarity search gave no usable answer: it threw, reported an
    error, or had no data. *)
Definition native_unavailable (supabase : Supabase) (queryEmbedding : list float)
    (documentId : string) (limit : Z) : Prop :=
  match match_document_chunks supabase queryEmbedding documentId 0.7%float limit with
  | Thrown _ => True
  | Returned response => error response <> None \/ data response = None
  end.

(** The request for the chunks of the document failed: it threw or
    reported an error. *)
Definition fetch_failed (supabase : Supabase) (documentId : string) (limit : Z)
    : Prop :=
  match select_chunks supabase documentId (limit * 2) with
  | Thrown _ => True
  | Returned response => error response <> None
  end.

(** The document has no chunk. *)
Definition no_chunks (supabase : Supabase) (documentId : string) (limit : Z)
    : Prop :=
  select_chunks supabase documentId (limit * 2)
  = Returned {| data := Some []; error := None |}.

(** A store that cannot be reached: both requests fail. *)
Definition unreachable_store : Supabase :=
  {| match_document_chunks := fun _ _ _ _ => Thrown "fetch failed";
     select_chunks := fun _ _ =>
       Returned {| data := None; error := Some "fetch failed" |} |}.

(** ** Vectors *)

(** A zero of either sign, or NaN. *)
Definition zero_or_nan (x : float) : Prop :=
  Prim2SF x = S754_nan \/ exists s, Prim2SF x = S754_zero s.

(** Every component is a zero (the empty vector included). *)
Definition zero_vector (v : list float) : bool := forallb is_zero v.

(** ** Chunks of the scenarios *)

(** A row of the store with the vector [e]. *)
Definition stored (e : option (list float)) : DocumentChunk :=
  {| id := "chunk"; document_id := "doc-1"; content := "text";
     embedding := e; chunk_index := 0; similarity := None |}.

(** A retrieved chunk with its index, content and similarity. *)
Definition scored (index : Z) (text : string) (value : option float)
    : DocumentChunk :=
  {| id := "chunk"; document_id := "doc-1"; content := text;
     embedding := None; chunk_index := index; similarity := value |}.

End RagNotions.

(* ================================================================== *)
(** * Notions used to state the properties of the upload route *)
(* ================================================================== *)

Module UploadNotions.
Import JS JSNumber ProcessDocument Upload TextNotions.

(** ** Replies and responses *)

(** The store serves the two deletes of the rollback. *)
Definition deletes_served (w : World) : Prop :=
  on_delete_document (plan w) = Served /\ on_delete_chunks (plan w) = Served.

(** The replies to the deletes are those of [w]. *)
Definition same_deletes (w w' : World) : Prop :=
  on_delete_document (plan w') = on_delete_document (plan w) /\
  on_delete_chunks (plan w') = on_delete_chunks (plan w).

(** The response that reports that the chunks could not be stored. *)
Definition chunks_error (response : Response) : Prop :=
  exists error details batchIndex,
    response = Failed 500 (Some "CHUNKS_ERROR") error details batchIndex.

(** The responses that come from the loop that stores the chunks, or from
    after it. *)
Definition from_storage (response : Response) : Prop :=
  match response with
  | Uploaded _ _ => True
  | Failed _ (Some code) _ _ _ => code = "CHUNKS_ERROR"
  | Failed _ None _ _ _ => False
  end.

(** What the loop returned when the route gave [response]. *)
Definition loop_result (response : Response) : option Response :=
  match response with
  | Uploaded _ _ => None
  | Failed _ _ _ _ _ => Some response
  end.

(** ** Scenarios: a signed-in user uploads a text file *)

Definition short_text : string := "Hello world, this is a document.".

Definition long_text : string := rep 2500 "a".

Definition signed_in (text : string) : Request :=
  {| session := Some "user-1";
     limitCheck := {| allowed := true; limit_message := None |};
     file := Some {| file_name := "notes.txt"; bytes := text |} |}.

(** An embedding service whose vectors have [dimension] components. *)
Definition embedder (dimension : nat) : Services :=
  {| parsers := failing_parsers;
     generateEmbedding := fun _ => Returned (repeat 0.5%float dimension) |}.

(** A store that serves every request, and one that refuses the first
    batch of chunks. *)
Definition serving : Plan :=
  {| on_insert_document := []; on_insert_chunks := [];
     on_delete_document := Served; on_delete_chunks := Served |}.

Definition refusing_chunks : Plan :=
  {| on_insert_document := [];
     on_insert_chunks := [Refused {| message := "insert failed"; hint := "" |}];
     on_delete_document := Served; on_delete_chunks := Served |}.

Definition empty_store : Store :=
  {| documents := []; document_chunks := []; next_id := 1 |}.

(** The document row stored for [long_text]. *)
Definition stored_long_text : DocumentRow :=
  {| id := 1; user_id := "user-1"; name := "notes.txt";
     content := join newline2 [rep 1000 "a"; rep 1000 "a"; rep 900 "a"; rep 100 "a"];
     chunk_count := Some 4 |}.

End UploadNotions.

(* ================================================================== *)
(** * Notions used to state the further properties *)
(* ================================================================== *)

Module ChunkNotions.
Import JS ProcessDocument.

(** [piece] is a contiguous part of [text]. *)
Definition part_of (piece text : string) : Prop :=
  exists before after, text = (before ++ piece ++ after)%string.

End ChunkNotions.

Module NormNotions.
Import JS ProcessDocument.

(** Not whitespace, or the space character. *)
Definition space_or_visible (c : ascii) : bool :=
  negb (is_space c) || Ascii.eqb c " ".

(** [normalizeText] without the replacement of the runs of line feeds. *)
Definition normalizeText_without_newline_step (text : string) : string :=
  if (text =? "")%string then ""
  else
    let text := normalize_NFKC text in
    let text := replace re_whitespace " " text in
    let text := replace re_page "" text in
    let text := replace re_counter "" text in
    let text := replace re_caps "" text in
    trim text.

End NormNotions.

Module RouteNotions.
Import JS JSNumber ProcessDocument Upload.

(** The extension the routes read off a name, in lower case. *)
Definition extension (filename : string) : string :=
  toLowerCase (split_pop "." filename).

(** The indexes [from], [from + 1], ... of [n] rows. *)
Fixpoint indexes (from : Z) (n : nat) : list Z :=
  match n with
  | O => []
  | S n' => from :: indexes (from + 1) n'
  end.

Definition has_dimension (e : list float) : Prop :=
  Z.of_nat (List.length e) = expectedDimension.

(** The status and the code of a response. *)
Definition status_of (r : Response) : Z :=
  match r with
  | Failed status _ _ _ _ => status
  | Uploaded _ _ => 200
  end.

Definition code_of (r : Response) : option string :=
  match r with
  | Failed _ code _ _ _ => code
  | Uploaded _ _ => None
  end.

(** A signed-in user, within the limit, uploads [upload]. *)
Definition upload_of (user : string) (upload : File) : Request :=
  {| session := Some user;
     limitCheck := {| allowed := true; limit_message := None |};
     file := Some upload |}.

Definition word_file : File := {| file_name := "report.doc"; bytes := "Quarterly report" |}.

End RouteNotions.

Module RetrievalNotions.
Import JS JSNumber ProcessDocument Rag.

(** The store answered the request for the chunks with [rows]. *)
Definition fetched (supabase : Supabase) (documentId : string) (limit : Z)
    (rows : list DocumentChunk) : Prop :=
  exists response,
    select_chunks supabase documentId (limit * 2) = Returned response /\
    error response = None /\ data response = Some rows.

(** A similarity that is a number. *)
Definition has_number (chunk : DocumentChunk) : Prop :=
  exists value, similarity chunk = Some value /\ is_nan value = false.

(** A store without the similarity search, whose table holds [rows]. *)
Definition plain_store (rows : list DocumentChunk) : Supabase :=
  {| match_document_chunks := fun _ _ _ _ => Thrown "function not found";
     select_chunks := fun _ _ =>
       Returned {| data := Some rows; error := None |} |}.

Definition two_rows : list DocumentChunk :=
  [RagNotions.stored (Some [0; 1]%float); RagNotions.stored (Some [1; 0]%float)].

End RetrievalNotions.

Module ValidationNotions.
Import JS Validation TextNotions.

(** The decomposition [local @ domain . tld] of an address. *)
Definition address_parts (email local domain tld : string) : Prop :=
  email = (local ++ "@" ++ domain ++ "." ++ tld)%string /\
  local <> "" /\ domain <> "" /\ tld <> "" /\
  all address_char local = true /\ all address_char domain = true /\
  all address_char tld = true.

(** A group of [n] hexadecimal digits. *)
Definition hex_group (n : nat) (s : string) : Prop :=
  String.length s = n /\ all hex_digit s = true.

(** The five characters [sanitizeString] replaces. *)
Definition markup_char (c : ascii) : bool :=
  Ascii.eqb c "<" || Ascii.eqb c ">" || Ascii.eqb c double_quote
  || Ascii.eqb c single_quote || Ascii.eqb c "/".

(** What [sanitizeString] writes for a character. *)
Definition escape (c : ascii) : string :=
  if Ascii.eqb c "<" then "&lt;"
  else if Ascii.eqb c ">" then "&gt;"
  else if Ascii.eqb c double_quote then "&quot;"
  else if Ascii.eqb c single_quote then "&#x27;"
  else if Ascii.eqb c "/" then "&#x2F;"
  else String c "".

Fixpoint escaped (s : string) : string :=
  match s with
  | "" => ""
  | String c s' => escape c ++ escaped s'
  end.

(** Every occurrence of the character [x] replaced by [repl]. *)
Fixpoint subst (x : ascii) (repl : string) (s : string) : string :=
  match s with
  | "" => ""
  | String c s' =>
      if Ascii.eqb x c then repl ++ subst x repl s' else String c (subst x repl s')
  end.

Definition no_markup (s : string) : Prop :=
  all (fun c => negb (markup_char c)) s = true.

(** The messages of the rules a password breaks, in the order of the
    rules. *)
Definition broken_rules (password : string) : list string :=
  (if len password <? 8
   then ["Password must be at least 8 characters long"] else [])
  ++ (if has is_upper password
      then [] else ["Password must contain at least one uppercase letter"])
  ++ (if has is_lower password
      then [] else ["Password must contain at least one lowercase letter"])
  ++ (if has is_digit password
      then [] else ["Password must contain at least one number"]).

(** The number [n] of characters a quantified class takes is within its
    bounds. *)
Definition within (q : quantified) (n : nat) : Prop :=
  (at_least q <= n)%nat /\
  match at_most q with
  | None => True
  | Some h => (n <= h)%nat
  end.

End ValidationNotions.

Module HelperNotions.
Import JS Validation KeyboardShortcuts Upload RouteNotions DocumentHelpers.

(** The request of a signed-in user, within the limit, that uploads
    [file]. *)
Definition uploading (user : string) (file : BrowserFile) : Request :=
  {| session := Some user;
     limitCheck := {| allowed := true; limit_message := None |};
     file := Some (DocumentHelpers.upload file) |}.

(** The event and the shortcut have the same modifiers. *)
Definition same_modifiers (event : KeyboardEvent) (shortcut : KeyboardShortcut)
    : Prop :=
  ctrlKey event = set (ctrl shortcut) /\
  metaKey event = set (meta shortcut) /\
  shiftKey event = set (shift shortcut) /\
  altKey event = set (alt shortcut).

(** The target is a place where the user types. *)
Definition typing (target : Target) : bool :=
  (tagName target =? "INPUT")%string || (tagName target =? "TEXTAREA")%string
  || isContentEditable target.

End HelperNotions.

Module LimitNotions.
Import JS JSNumber ProcessDocument RateLimit.

(** The count [n] is below the limit. *)
Definition below (n : Z) (limit : Bound) : Prop :=
  match limit with
  | Finite m => n < m
  | Infinity => True
  end.

(** The user is read as a subscriber: the row is read, with tier [pro] and
    status [active]. *)
Definition subscriber (supabase : Supabase) (userId : string) : Prop :=
  exists user,
    select_subscription supabase userId
    = Returned {| data := Some user; error := None |} /\
    subscription_tier user = "pro" /\ subscription_status user = "active".

(** A request that gave nothing: it threw, or reported an error. *)
Definition subscription_unread (supabase : Supabase) (userId : string) : Prop :=
  match select_subscription supabase userId with
  | Thrown _ => True
  | Returned reply => error reply <> None
  end.

Definition count_unread (supabase : Supabase) (userId : string) : Prop :=
  match count_documents supabase userId with
  | Thrown _ => True
  | Returned reply => count_error reply <> None
  end.

Definition usage_unread (supabase : Supabase) (userId : string) : Prop :=
  match select_usage supabase userId with
  | Thrown _ => True
  | Returned reply => error reply <> None /\ data reply = None
  end.

(** The answer of the free tier to a user who has used nothing. *)
Definition fresh (limit : Z) : RateLimitResult :=
  {| allowed := true; message := None; currentCount := 0; limit := Finite limit |}.

Definition unlimited : RateLimitResult :=
  {| allowed := true; message := None; currentCount := 0; limit := Infinity |}.

(** [n] increments that the store accepts, in the same month. *)
Fixpoint increments (n : nat) (table : UsageTable) (userId : string)
    (periodStart periodEnd : Z) : UsageTable :=
  match n with
  | O => table
  | S n' =>
      increments n' (fst (incrementChatCount table userId periodStart periodEnd None))
        userId periodStart periodEnd
  end.

(** The rows of the user for the month. *)
Definition of_month (table : UsageTable) (userId : string)
    (periodStart periodEnd : Z) : list Usage :=
  filter (in_period userId periodStart periodEnd) (rows table).

(** The count read for the month. *)
Definition counted (table : UsageTable) (userId : string)
    (periodStart periodEnd : Z) : Z :=
  chats_of (data (select_period table userId periodStart periodEnd)).

(** A store whose usage is read from [table], for a user who is not a
    subscriber. *)
Definition reads_usage (supabase : Supabase) (table : UsageTable)
    (userId : string) (periodStart periodEnd : Z) : Prop :=
  select_usage supabase userId
  = Returned (select_period table userId periodStart periodEnd) /\
  is_pro (getUserSubscriptionStatus supabase userId) = false.

(** A store that cannot be reached: every request throws. *)
Definition unreachable : Supabase :=
  {| select_usage := fun _ => Thrown "fetch failed";
     count_documents := fun _ => Thrown "fetch failed";
     select_subscription := fun _ => Thrown "fetch failed" |}.

End LimitNotions.

Module MiddlewareNotions.
Import JS ApiMiddleware RouteNotions.

(** The calls of [checkRateLimit] for one user at the given times, in
    order: the store after the last one, and the answers. *)
Fixpoint calls (store : RateLimitStore) (userId : string) (max window : Z)
    (times : list Z) : RateLimitStore * list LimitCheck :=
  match times with
  | [] => (store, [])
  | now :: later =>
      let (store, answer) := checkRateLimit store now userId max window in
      let (store, answers) := calls store userId max window later in
      (store, answer :: answers)
  end.

(** The user has no window that is open at [now]. *)
Definition no_open_window (store : RateLimitStore) (userId : string) (now : Z)
    : Prop :=
  match store userId with
  | None => True
  | Some record => resetAt record < now
  end.

(** The answer to the [k]-th request of a window that closes at [reset]. *)
Definition expected (max reset : Z) (k : Z) : LimitCheck :=
  if (k =? 1) || (k <=? max)
  then {| allowed := true; remaining := max - k; check_resetAt := reset |}
  else {| allowed := false; remaining := 0; check_resetAt := reset |}.

End MiddlewareNotions.

Module SignupNotions.
Import JS ProcessDocument Validation Signup.

(** The body with the three fields. *)
Definition filled (name email password : string) : Body :=
  {| name := Some name; email := Some email; password := Some password |}.

(** An account service that cannot be reached. *)
Definition offline : AuthService := fun _ _ _ => Thrown "fetch failed".

End SignupNotions.

Module ChatNotions.
Import JS JSNumber ProcessDocument Validation Chat.

(** The request gets as far as the search: a signed-in user within the
    limit, a body that passes the checks, a document that is found and a
    query that is embedded. *)
Definition asks (services : Services) (session : option string) (body : Body)
    (userId message documentId : string) (document : Document)
    (queryEmbedding : list float) : Prop :=
  session = Some userId /\ userId <> "" /\
  Chat.message body = Some message /\ message <> "" /\
  Chat.documentId body = Some documentId /\ documentId <> "" /\
  isValidUUID documentId = true /\
  (missing (chatId body) = false -> isValidUUID (or_empty (chatId body)) = true) /\
  1 <= len (trim message) <= 1000 /\
  RateLimit.allowed (RateLimit.checkChatLimit (limits services) userId) = true /\
  select_document services documentId userId
  = Returned {| Rag.data := Some document; Rag.error := None |} /\
  generateQueryEmbedding services message = Returned queryEmbedding.

(** The search finds nothing because the store fails: the client cannot be
    created, or the similarity search is unavailable and the request for
    the chunks fails or finds none. *)
Definition search_fails (services : Services) (queryEmbedding : list float)
    (documentId : string) : Prop :=
  match retriever services with
  | Thrown _ => True
  | Returned supabase =>
      RagNotions.native_unavailable supabase queryEmbedding documentId 5 /\
      (RagNotions.fetch_failed supabase documentId 5
       \/ RagNotions.no_chunks supabase documentId 5)
  end.

(** ** A question about a document *)

Definition question : Body :=
  {| message := Some "What is this document about?";
     documentId := Some "123e4567-e89b-12d3-a456-426614174000";
     chatId := None |}.

(** The services of a user within the limit, whose document is found and
    whose question is embedded; the store of the search is [searched]. *)
Definition services_with (searched : outcome Rag.Supabase) : Services :=
  {| limits := LimitNotions.unreachable;
     select_document := fun _ _ =>
       Returned {| Rag.data := Some {| name := "notes.txt" |}; Rag.error := None |};
     generateQueryEmbedding := fun _ => Returned [1; 0]%float;
     retriever := searched;
     select_messages := fun _ _ => Returned None |}.

(** A store whose similarity search finds one chunk. *)
Definition finding : Rag.Supabase :=
  {| Rag.match_document_chunks := fun _ _ _ _ =>
       Returned {| Rag.data := Some [RagNotions.scored 0 "Hello" (Some 0.9%float)];
                   Rag.error := None |};
     Rag.select_chunks := fun _ _ =>
       Returned {| Rag.data := None; Rag.error := Some "not asked" |} |}.

End ChatNotions.

Module IdempotenceNotions.
Import JS ProcessDocument TextNotions Validation.


End IdempotenceNotions.

Module RollbackNotions.
Import JS JSNumber ProcessDocument Upload TextNotions UploadNotions.






End RollbackNotions.
(* ================================================================== *)
(** * Notions used to state the accuracy of the cosine similarity *)
(* ================================================================== *)

(** ** The doubles as real numbers *)

Module FloatNotions.
Import Reals.

(** The real number a double stands for: [m * 2^e] with its sign for a
    finite double, and 0 for the zeros (and for what is not a number or is
    infinite). *)
Definition SF2R (x : spec_float) : R :=
  match x with
  | S754_finite s m e => (if s then -1 else 1) * IZR (Z.pos m) * powerRZ 2 e
  | _ => 0
  end.

Definition value (x : float) : R := SF2R (Prim2SF x).

(** A zero or a finite double. *)
Definition SFfinite (x : spec_float) : bool :=
  match x with
  | S754_zero _ | S754_finite _ _ _ => true
  | _ => false
  end.

End FloatNotions.

(** ** The exact cosine *)

Module CosineNotions.
Import Reals FloatNotions JSNumber Rag RagNotions.

(** Zero, or finite with a magnitude from [2^-500] up to, and not
    including, [2^500]. *)
Definition moderate (x : float) : bool :=
  match Prim2SF x with
  | S754_zero _ => true
  | S754_finite _ m e =>
      (-499 <=? Zdigits2 (Z.pos m) + e) && (Zdigits2 (Z.pos m) + e <=? 500)
  | _ => false
  end.

Definition moderate_vector (v : list float) : bool := forallb moderate v.

(** The components of a vector, as real numbers. *)
Definition values (v : list float) : list R := map value v.

(** The exact [sum of x[i] * (y[i] || 0)] over the indexes of [x]. *)
Fixpoint Rdot (x y : list R) : R :=
  match x with
  | [] => 0%R
  | a :: x' => (a * hd 0%R y + Rdot x' (tl y))%R
  end.

Definition dot (q e : list float) : R := Rdot (values q) (values e).

Definition norm (v : list float) : R := sqrt (dot v v).

(** The exact value of [dot(q, e) / (|q| * |e|)]. *)
Definition cosine (q e : list float) : R := (dot q e / (norm q * norm e))%R.

End CosineNotions.

(* ================================================================== *)
(** * Properties of the chunker *)
(* ================================================================== *)

Module ChunkerFacts.
Import JS ProcessDocument TextNotions.

(** With [2 * overlap <= maxChunkSize] and [overlap < maxChunkSize] every
    iteration moves [start] forward. *)
Lemma chunk_end_advances (text : string) (m o start : Z) :
  2 * o <= m -> o < m -> start < chunk_end text m start - o.
Proof.
  intros Hhalf Hlt. unfold chunk_end.
  destruct (start + m <? len text); [|lia].
  destruct (2 * lastIndexOf text newline2 (start + m) >? 2 * start + m) eqn:Hp.
  - apply Z.gtb_lt in Hp. lia.
  - destruct (2 * lastIndexOf text "." (start + m) >? 2 * start + m) eqn:Hs.
    + apply Z.gtb_lt in Hs. lia.
    + lia.
Qed.

(** Enough fuel: as many units as characters remain after [start], and one
    more. *)
Lemma chunk_loop_enough_fuel (text : string) (m o : Z) :
  2 * o <= m -> o < m ->
  forall (fuel : nat) (start : Z) (chunks : list string),
    (0 < fuel)%nat -> len text - start < Z.of_nat fuel ->
    exists result, chunk_loop fuel text m o start chunks = Some result.
Proof.
  intros Hhalf Hlt fuel.
  induction fuel as [|fuel IH]; intros start chunks Hpos Hfuel; [lia|].
  simpl. destruct (start <? len text) eqn:Hin; [|eauto].
  apply Z.ltb_lt in Hin.
  destruct (chunk_end text m start - o >=? len text) eqn:Hout; [eauto|].
  apply IH.
  - lia.
  - pose proof (chunk_end_advances text m o start Hhalf Hlt). lia.
Qed.

(** More fuel never changes a result already reached. *)
Lemma chunk_loop_fuel_mono (text : string) (m o : Z) (fuel : nat) :
  forall (start : Z) (chunks result : list string) (extra : nat),
    chunk_loop fuel text m o start chunks = Some result ->
    chunk_loop (fuel + extra) text m o start chunks = Some result.
Proof.
  induction fuel as [|fuel IH]; intros start chunks result extra H; [discriminate|].
  simpl in *. destruct (start <? len text); [|exact H].
  destruct (chunk_end text m start - o >=? len text); [exact H|].
  now apply IH.
Qed.

(** The sizes [processDocument] passes never exhaust [chunk_fuel]. *)
Lemma chunk_loop_default_fuel (text : string) :
  exists chunks, chunkText (chunk_fuel text) text 1000 200 = Some chunks.
Proof.
  unfold chunkText, chunk_fuel.
  apply chunk_loop_enough_fuel; unfold len; lia.
Qed.

(** With [overlap = maxChunkSize = 1] the cursor of the text ["abc"] stays
    at 0. *)
Lemma chunk_loop_stuck (fuel : nat) :
  forall chunks, chunk_loop fuel "abc" 1 1 0 chunks = None.
Proof.
  induction fuel as [|fuel IH]; intros chunks; [reflexivity|].
  change (chunk_loop (S fuel) "abc" 1 1 0 chunks)
    with (chunk_loop fuel "abc" 1 1 0 (push_chunk chunks "a")).
  apply IH.
Qed.

(** C5, as stated, fails: no explicit guard leaves the loop when the cursor
    does not advance; with [overlap >= maxChunkSize] (here both 1, on the
    text ["abc"]) no amount of fuel lets the loop finish. *)
Lemma chunkText_overlap_not_below_size_diverges : ~ terminates "abc" 1 1.
Proof.
  intros [fuel [chunks H]]. unfold chunkText in H.
  rewrite chunk_loop_stuck in H. discriminate.
Qed.

(** C5 (amended): the chunker terminates on every text whenever
    [2 * overlap <= maxChunkSize] and [overlap < maxChunkSize] (so for the
    sizes 1000 and 200 of its only caller): the loop is left, through its only
    exit [start >= text.length], after at most [text.length] iterations. *)
Theorem chunkText_terminates (text : string) (maxChunkSize overlap : Z) :
  2 * overlap <= maxChunkSize -> overlap < maxChunkSize ->
  exists chunks,
    chunkText (chunk_fuel text) text maxChunkSize overlap = Some chunks /\
    terminates text maxChunkSize overlap.
Proof.
  intros Hhalf Hlt.
  destruct (chunk_loop_enough_fuel text maxChunkSize overlap Hhalf Hlt
              (chunk_fuel text) 0 []) as [chunks H].
  - unfold chunk_fuel. lia.
  - unfold chunk_fuel, len. lia.
  - exists chunks. split; [exact H|]. exists (chunk_fuel text), chunks. exact H.
Qed.

(** The sizes of [processDocument] on a short text. *)
Lemma chunkText_terminates_witness :
  exists chunks,
    chunkText (chunk_fuel "Hello. World") "Hello. World" 1000 200 = Some chunks /\
    terminates "Hello. World" 1000 200.
Proof.
  apply (chunkText_terminates "Hello. World" 1000 200); lia.
Defined.

(** The bound on [overlap] is needed even below [maxChunkSize]: with sizes
    10 and 7 the period of ["abcdef.hijkl"] brings the cursor back to 0. *)
Lemma chunk_loop_stuck_at_period (fuel : nat) :
  forall chunks, chunk_loop fuel "abcdef.hijkl" 10 7 0 chunks = None.
Proof.
  induction fuel as [|fuel IH]; intros chunks; [reflexivity|].
  change (chunk_loop (S fuel) "abcdef.hijkl" 10 7 0 chunks)
    with (chunk_loop fuel "abcdef.hijkl" 10 7 0 (push_chunk chunks "abcdef.")).
  apply IH.
Qed.

Lemma chunkText_overlap_above_half_diverges : ~ terminates "abcdef.hijkl" 10 7.
Proof.
  intros [fuel [chunks H]]. unfold chunkText in H.
  rewrite chunk_loop_stuck_at_period in H. discriminate.
Qed.

(** ** Overlap not below the size *)

Lemma search_down_bound (s p : string) (i : nat) :
  -1 <= search_down s p i <= Z.of_nat i.
Proof.
  induction i as [|i IH]; cbn [search_down];
    destruct (startsWith p (drop _ s)); lia.
Qed.

(** What [lastIndexOf] finds lies in the text. *)
Lemma lastIndexOf_bound (s p : string) (from : Z) :
  lastIndexOf s p from <= Z.max (-1) (len s - len p).
Proof.
  unfold lastIndexOf.
  destruct (Z.min (Z.max from 0) (len s - len p) <? 0) eqn:E; [lia|].
  apply Z.ltb_ge in E.
  pose proof (search_down_bound s p
                (Z.to_nat (Z.min (Z.max from 0) (len s - len p)))).
  lia.
Qed.

(** With [1 <= overlap] and [maxChunkSize <= overlap] the cursor never
    reaches the length of the text. *)
Lemma chunk_end_stays (text : string) (m o start : Z) :
  1 <= o -> m <= o -> start < len text ->
  chunk_end text m start - o < len text.
Proof.
  intros Ho Hm Hstart. unfold chunk_end.
  pose proof (lastIndexOf_bound text newline2 (start + m)) as Hp.
  pose proof (lastIndexOf_bound text "." (start + m)) as Hs.
  change (len newline2) with 2 in Hp. change (len ".") with 1 in Hs.
  assert (Hlen : 0 <= len text) by (unfold len; lia).
  destruct (start + m <? len text); [|lia].
  destruct (2 * lastIndexOf text newline2 (start + m) >? 2 * start + m);
    [lia|].
  destruct (2 * lastIndexOf text "." (start + m) >? 2 * start + m); lia.
Qed.

Lemma chunk_loop_never_ends (text : string) (m o : Z) :
  1 <= o -> m <= o ->
  forall (fuel : nat) (start : Z) (chunks : list string),
    start < len text -> chunk_loop fuel text m o start chunks = None.
Proof.
  intros Ho Hm. induction fuel as [|fuel IH]; intros start chunks Hstart;
    [reflexivity|].
  simpl. pose proof (chunk_end_stays text m o start Ho Hm Hstart) as Hnext.
  replace (start <? len text) with true by (symmetry; apply Z.ltb_lt; lia).
  replace (chunk_end text m start - o >=? len text) with false
    by (symmetry; rewrite Z.geb_leb; apply Z.leb_gt; lia).
  now apply IH.
Qed.

(** On a text that is not empty the loop never ends when the overlap is
    positive and not below the size. *)
Lemma chunkText_diverges (text : string) (m o : Z) :
  text <> "" -> 1 <= o -> m <= o -> ~ terminates text m o.
Proof.
  intros Htext Ho Hm [fuel [chunks H]]. unfold chunkText in H.
  rewrite chunk_loop_never_ends in H; auto; [discriminate|].
  destruct text; [contradiction | unfold len; simpl; lia].
Qed.

(** ** Texts without whitespace and without a period *)

Lemma append_assoc (a b c : string) : ((a ++ b) ++ c)%string = (a ++ (b ++ c))%string.
Proof.
  induction a as [|x a IH]; simpl; [reflexivity | now rewrite IH].
Qed.

Lemma length_take (n : nat) : forall s,
  String.length (take n s) = Nat.min n (String.length s).
Proof.
  induction n as [|n IH]; intros [|c s]; simpl; auto.
Qed.

Lemma length_drop (n : nat) : forall s,
  String.length (drop n s) = (String.length s - n)%nat.
Proof.
  induction n as [|n IH]; intros [|c s]; simpl; auto.
Qed.

Lemma all_take p (n : nat) : forall s, all p s = true -> all p (take n s) = true.
Proof.
  induction n as [|n IH]; intros [|c s] H; simpl in *; auto.
  apply andb_true_iff in H as [Hc Hs]. rewrite Hc. simpl. auto.
Qed.

Lemma all_drop p (n : nat) : forall s, all p s = true -> all p (drop n s) = true.
Proof.
  induction n as [|n IH]; intros [|c s] H; simpl in *; auto.
  apply andb_true_iff in H as [Hc Hs]. auto.
Qed.

Lemma all_slice p (s : string) (a b : Z) : all p s = true -> all p (slice s a b) = true.
Proof.
  intros H. unfold slice. now apply all_take, all_drop.
Qed.

Lemma all_weaken (p q : ascii -> bool) :
  (forall c, p c = true -> q c = true) ->
  forall s, all p s = true -> all q s = true.
Proof.
  intros Hpq. induction s as [|c s IH]; simpl; intros H; auto.
  apply andb_true_iff in H as [Hc Hs]. rewrite (Hpq c Hc). simpl. auto.
Qed.

Lemma trimEnd_no_space : forall s,
  all (fun c => negb (is_space c)) s = true -> trimEnd s = s.
Proof.
  induction s as [|c s IH]; simpl; intros H; auto.
  apply andb_true_iff in H as [Hc Hs]. rewrite (IH Hs).
  apply negb_true_iff in Hc. rewrite Hc. now destruct s.
Qed.

Lemma trim_no_space (s : string) :
  all (fun c => negb (is_space c)) s = true -> trim s = s.
Proof.
  intros H. unfold trim.
  assert (Hs : trimStart s = s).
  { destruct s as [|c s]; simpl in *; auto.
    apply andb_true_iff in H as [Hc _]. apply negb_true_iff in Hc. now rewrite Hc. }
  rewrite Hs. now apply trimEnd_no_space.
Qed.

(** A pattern that begins with a character the text does not contain is
    found nowhere. *)
Lemma search_down_absent (s : string) (a : ascii) (p : string) :
  all (fun c => negb (Ascii.eqb a c)) s = true ->
  forall i, search_down s (String a p) i = -1.
Proof.
  intros H i.
  assert (Hno : forall j, startsWith (String a p) (drop j s) = false).
  { intros j. pose proof (all_drop _ j s H) as Hd.
    destruct (drop j s) as [|c t]; simpl in *; auto.
    apply andb_true_iff in Hd as [Hc _]. apply negb_true_iff in Hc.
    now rewrite Hc. }
  induction i as [|i IH]; cbn [search_down]; rewrite Hno; auto.
Qed.

Lemma lastIndexOf_absent (s : string) (a : ascii) (p : string) (from : Z) :
  all (fun c => negb (Ascii.eqb a c)) s = true ->
  lastIndexOf s (String a p) from = -1.
Proof.
  intros H. unfold lastIndexOf.
  destruct (_ <? 0); auto. now apply search_down_absent.
Qed.

Lemma plain_no_period (s : string) :
  all plain_char s = true -> all (fun c => negb (Ascii.eqb "." c)) s = true.
Proof.
  apply all_weaken. intros c H. unfold plain_char in H.
  now apply andb_true_iff in H as [_ H].
Qed.

Lemma plain_no_space (s : string) :
  all plain_char s = true -> all (fun c => negb (is_space c)) s = true.
Proof.
  apply all_weaken. intros c H. unfold plain_char in H.
  now apply andb_true_iff in H as [H _].
Qed.

Lemma plain_no_newline (s : string) :
  all plain_char s = true -> all (fun c => negb (Ascii.eqb LF c)) s = true.
Proof.
  apply all_weaken. intros c H. unfold plain_char in H.
  apply andb_true_iff in H as [H _]. apply negb_true_iff in H.
  apply negb_true_iff. destruct (Ascii.eqb_spec LF c) as [<-|]; auto.
Qed.

(** On such a text no boundary is found: the cut is at [start + maxChunkSize]. *)
Lemma chunk_end_plain (text : string) (m start : Z) :
  all plain_char text = true -> 0 <= start -> 0 <= m ->
  chunk_end text m start = start + m.
Proof.
  intros H Hs Hm. unfold chunk_end, newline2.
  rewrite (lastIndexOf_absent text "." "" _ (plain_no_period text H)).
  rewrite (lastIndexOf_absent text LF (String LF "") _ (plain_no_newline text H)).
  destruct (start + m <? len text); auto.
  replace (2 * -1 >? 2 * start + m) with false; auto.
  symmetry. rewrite Z.gtb_ltb. apply Z.ltb_ge. lia.
Qed.

Lemma len_slice (s : string) (a b : Z) :
  0 <= a <= b -> a <= len s ->
  len (slice s a b) = Z.min b (len s) - a.
Proof.
  intros Hab Ha. unfold slice, rel_index, len in *.
  destruct (a <? 0) eqn:Ea; [apply Z.ltb_lt in Ea; lia|].
  destruct (b <? 0) eqn:Eb; [apply Z.ltb_lt in Eb; lia|].
  rewrite length_take, length_drop. lia.
Qed.

(** One iteration on a text without whitespace and periods. *)
Lemma chunk_loop_plain_step (text : string) (m o : Z) (fuel : nat)
    (start : Z) (chunks : list string) :
  all plain_char text = true -> 0 <= start < len text -> 0 < m ->
  chunk_loop (S fuel) text m o start chunks =
    if start + m - o >=? len text
    then Some (chunks ++ [slice text start (start + m)])%list
    else chunk_loop fuel text m o (start + m - o)
           (chunks ++ [slice text start (start + m)])%list.
Proof.
  intros H Hs Hm. simpl.
  replace (start <? len text) with true by (symmetry; apply Z.ltb_lt; lia).
  rewrite (chunk_end_plain text m start H) by lia.
  rewrite (trim_no_space (slice text start (start + m)))
    by (apply all_slice, plain_no_space, H).
  unfold push_chunk. rewrite len_slice by lia.
  replace (Z.min (start + m) (len text) - start >? 0) with true; auto.
  symmetry. apply Z.gtb_lt. lia.
Qed.

Lemma slice_clamp (s : string) (a b : Z) :
  0 <= a -> len s <= b -> slice s a b = slice s a (len s).
Proof.
  intros Ha Hb. unfold slice, rel_index.
  destruct (b <? 0) eqn:Eb; [apply Z.ltb_lt in Eb; unfold len in *; lia|].
  destruct (len s <? 0) eqn:El; [apply Z.ltb_lt in El; unfold len in *; lia|].
  now rewrite (Z.min_r b (len s)), Z.min_id by lia.
Qed.

Lemma drop_drop (a : nat) : forall (b : nat) s, drop b (drop a s) = drop (a + b) s.
Proof.
  induction a as [|a IH]; intros b [|c s]; simpl; auto.
  now destruct b.
Qed.

Lemma take_take (a : nat) : forall (b : nat) s, take b (take a s) = take (Nat.min b a) s.
Proof.
  induction a as [|a IH]; intros [|b] [|c s]; simpl; auto.
  now rewrite IH.
Qed.

Lemma take_empty (n : nat) : take n "" = "".
Proof. now destruct n. Qed.

Lemma drop_empty (n : nat) : drop n "" = "".
Proof. now destruct n. Qed.

Lemma drop_take (a : nat) : forall (n : nat) s, drop a (take n s) = take (n - a) (drop a s).
Proof.
  induction a as [|a IH]; intros n s.
  - simpl. now rewrite Nat.sub_0_r.
  - destruct n as [|n], s as [|c s]; simpl;
      rewrite ?take_empty, ?drop_empty; auto.
Qed.

(** A slice of a slice is a slice. *)
Lemma slice_slice (s : string) (a b i j : Z) :
  0 <= a -> 0 <= i <= j -> a + j <= b -> b <= len s ->
  slice (slice s a b) i j = slice s (a + i) (a + j).
Proof.
  intros Ha Hij Hjb Hb.
  assert (Hl : len (slice s a b) = b - a) by (rewrite len_slice; lia).
  unfold slice at 1. rewrite Hl. unfold slice, rel_index.
  repeat match goal with
         | |- context [?x <? 0] =>
             let E := fresh "E" in
             destruct (x <? 0) eqn:E; [apply Z.ltb_lt in E; lia|]
         end.
  rewrite drop_take, drop_drop, take_take.
  f_equal; [|f_equal]; lia.
Qed.

(** A period right at [start + maxChunkSize] is kept in the chunk, which
    then has one character more than the size: a text of 2500 characters with
    a period at index 1000. *)
Lemma chunkText_period_at_limit :
  String.length (rep 1000 "a" ++ "." ++ rep 1499 "b") = 2500%nat /\
  option_map (map String.length)
    (chunkText 10 (rep 1000 "a" ++ "." ++ rep 1499 "b") 1000 200)
  = Some [1001; 1000; 899; 99]%nat.
Proof.
  vm_compute. split; reflexivity.
Qed.

(** C6, as stated, fails: the 2500-character text of the letter [a] is cut
    into four chunks, of 1000, 1000, 900 and 100 characters, by the chunker
    and so by [processDocument]. *)
Lemma chunkText_2500_gives_four_chunks :
  String.length (rep 2500 "a") = 2500%nat /\
  option_map (map String.length)
    (chunkText (chunk_fuel (rep 2500 "a")) (rep 2500 "a") 1000 200)
    = Some [1000; 1000; 900; 100]%nat /\
  match processDocument failing_parsers (rep 2500 "a") "document.txt" with
  | Success chunks metadata =>
      List.length chunks = 4%nat /\ totalChunks metadata = 4
  | Failure _ _ => False
  end.
Proof.
  vm_compute. repeat split; reflexivity.
Qed.

(** C6 (amended): for every 2500-character text without whitespace and
    without a period, chunking with sizes 1000 and 200 produces exactly four
    chunks (indexes 0 to 3): the slices [0,1000), [800,1800), [1600,2500) and
    [2400,2500) of the text, of 1000, 1000, 900 and 100 characters.  Each of
    the first two shares its last 200 characters with the next, and the
    fourth is the last 100 characters of the third. *)
Theorem chunkText_2500_plain (text : string) :
  String.length text = 2500%nat ->
  all plain_char text = true ->
  let c0 := slice text 0 1000 in
  let c1 := slice text 800 1800 in
  let c2 := slice text 1600 2500 in
  let c3 := slice text 2400 2500 in
  chunkText (chunk_fuel text) text 1000 200 = Some [c0; c1; c2; c3] /\
  map len [c0; c1; c2; c3] = [1000; 1000; 900; 100] /\
  slice c0 800 1000 = slice c1 0 200 /\
  slice c1 800 1000 = slice c2 0 200 /\
  slice c2 800 900 = c3.
Proof.
  intros Hlen Hplain c0 c1 c2 c3.
  assert (Hl : len text = 2500) by (unfold len; lia).
  split; [|split; [|split; [|split]]].
  - unfold chunkText, chunk_fuel.
    replace (S (String.length text)) with (4 + (String.length text - 3))%nat by lia.
    apply chunk_loop_fuel_mono.
    assert (E0 : chunk_loop 4 text 1000 200 0 [] =
                 chunk_loop 3 text 1000 200 800 [slice text 0 1000]).
    { rewrite chunk_loop_plain_step by (auto; lia). rewrite Hl. reflexivity. }
    assert (E1 : chunk_loop 3 text 1000 200 800 [slice text 0 1000] =
                 chunk_loop 2 text 1000 200 1600
                   [slice text 0 1000; slice text 800 1800]).
    { rewrite chunk_loop_plain_step by (auto; lia). rewrite Hl. reflexivity. }
    assert (E2 : chunk_loop 2 text 1000 200 1600
                   [slice text 0 1000; slice text 800 1800] =
                 chunk_loop 1 text 1000 200 2400
                   [slice text 0 1000; slice text 800 1800; slice text 1600 2600]).
    { rewrite chunk_loop_plain_step by (auto; lia). rewrite Hl. reflexivity. }
    assert (E3 : chunk_loop 1 text 1000 200 2400
                   [slice text 0 1000; slice text 800 1800; slice text 1600 2600] =
                 Some [slice text 0 1000; slice text 800 1800;
                       slice text 1600 2600; slice text 2400 3400]).
    { rewrite chunk_loop_plain_step by (auto; lia). rewrite Hl. reflexivity. }
    rewrite E0, E1, E2, E3. subst c0 c1 c2 c3.
    rewrite (slice_clamp text 1600 2600), (slice_clamp text 2400 3400), Hl by lia.
    reflexivity.
  - subst c0 c1 c2 c3. simpl. rewrite !len_slice by lia. rewrite Hl. reflexivity.
  - subst c0 c1. rewrite !slice_slice by lia. reflexivity.
  - subst c1 c2. rewrite !slice_slice by lia. reflexivity.
  - subst c2 c3. rewrite slice_slice by lia. reflexivity.
Qed.

(** The text of 2500 times the letter [x]. *)
Lemma chunkText_2500_plain_witness :
  chunkText (chunk_fuel (rep 2500 "x")) (rep 2500 "x") 1000 200
  = Some [slice (rep 2500 "x") 0 1000; slice (rep 2500 "x") 800 1800;
          slice (rep 2500 "x") 1600 2500; slice (rep 2500 "x") 2400 2500].
Proof.
  apply (chunkText_2500_plain (rep 2500 "x")); vm_compute; reflexivity.
Defined.

End ChunkerFacts.

(* ================================================================== *)
(** * Properties of the normalizer *)
(* ================================================================== *)

Module NormalizerFacts.
Import JS ProcessDocument TextNotions ChunkerFacts.


(** ** The matcher, one character at a time *)

Lemma match_class (p : ascii -> bool) (lo : nat) (hi : option nat)
    (rest : list item) (prev : option ascii) (s : string) :
  match_items (Class p lo hi :: rest) prev s =
    let stop := match lo with O => match_items rest prev s | S _ => None end in
    match s with
    | "" => stop
    | String c s' =>
        if p c && room hi then
          match match_items (Class p (pred lo) (less hi) :: rest) (Some c) s' with
          | Some n => Some (S n)
          | None => stop
          end
        else stop
    end.
Proof.
  destruct s; reflexivity.
Qed.

(** A class that must take a character fails on a text without such a
    character. *)
Lemma match_class_absent (p : ascii -> bool) (lo : nat) (hi : option nat)
    (rest : list item) (prev : option ascii) (s : string) :
  all (fun c => negb (p c)) s = true ->
  match_items (Class p (S lo) hi :: rest) prev s = None.
Proof.
  intros H. rewrite match_class. destruct s as [|c s]; auto.
  simpl in H. apply andb_true_iff in H as [Hc _].
  apply negb_true_iff in Hc. now rewrite Hc.
Qed.

(** A pattern whose rest fails everywhere on texts of some kind fails too. *)
Lemma match_class_rest_fails (P : string -> Prop) (q : ascii -> bool)
    (rest : list item) :
  (forall c s, P (String c s) -> P s) ->
  (forall prev s, P s -> match_items rest prev s = None) ->
  forall lo hi prev s, P s -> match_items (Class q lo hi :: rest) prev s = None.
Proof.
  intros Htail Hrest lo hi prev s. revert lo hi prev.
  induction s as [|c s IH]; intros lo hi prev HP;
    rewrite match_class; cbv zeta.
  - destruct lo; auto.
  - rewrite (IH _ _ _ (Htail c s HP)), (Hrest prev _ HP).
    destruct lo, (q c && room hi); reflexivity.
Qed.

Lemma replace_from_nowhere (re : list item) (repl : string) :
  forall s prev, nowhere re prev s -> replace_from re repl O prev s = s.
Proof.
  induction s as [|c s IH]; intros prev [Hm Hn]; simpl; rewrite Hm; auto.
  now rewrite IH.
Qed.

Lemma nowhere_of_fails (P : string -> Prop) (re : list item) :
  (forall c s, P (String c s) -> P s) ->
  (forall prev s, P s -> match_items re prev s = None) ->
  forall s prev, P s -> nowhere re prev s.
Proof.
  intros Htail Hfail. induction s as [|c s IH]; intros prev HP; simpl; split; auto.
  apply IH. eapply Htail, HP.
Qed.

Lemma all_tail (p : ascii -> bool) (c : ascii) (s : string) :
  all p (String c s) = true -> all p s = true.
Proof.
  simpl. intros H. now apply andb_true_iff in H as [_ H].
Qed.

(** ** Texts without a digit, without a line feed *)

Lemma re_page_needs_digit (prev : option ascii) (s : string) :
  no_digit s -> match_items re_page prev s = None.
Proof.
  revert prev s. unfold re_page, chr_i.
  do 5 (apply (match_class_rest_fails no_digit); [apply all_tail|]).
  intros prev s H. now apply match_class_absent.
Qed.

Lemma re_counter_needs_digit (prev : option ascii) (s : string) :
  no_digit s -> match_items re_counter prev s = None.
Proof.
  intros H. now apply match_class_absent.
Qed.

Lemma re_newlines_needs_line_feed (prev : option ascii) (s : string) :
  no_line_feed s -> match_items re_newlines prev s = None.
Proof.
  intros H. now apply match_class_absent.
Qed.

(** ** The whitespace step *)

Lemma match_star_space (s : string) : forall prev,
  match_items [star is_space] prev s = Some (run s).
Proof.
  unfold star. induction s as [|c s IH]; intros prev; rewrite match_class; auto.
  cbn [pred less room run]. rewrite IH, andb_true_r. now destruct (is_space c).
Qed.

Lemma match_plus_space (prev : option ascii) (s : string) :
  match_items re_whitespace prev s =
    match run s with
    | O => None
    | S n => Some (S n)
    end.
Proof.
  unfold re_whitespace, plus. rewrite match_class. destruct s as [|c s]; auto.
  cbn [pred less room run]. fold (star is_space). rewrite match_star_space, andb_true_r.
  now destruct (is_space c).
Qed.

Lemma replace_from_start (re : list item) (repl : string)
    (prev : option ascii) (s : string) :
  replace_from re repl O prev s =
    match match_items re prev s with
    | Some (S n) =>
        repl ++ match s with
                | "" => ""
                | String c s' => replace_from re repl n (Some c) s'
                end
    | Some O =>
        repl ++ match s with
                | "" => ""
                | String c s' => String c (replace_from re repl O (Some c) s')
                end
    | None =>
        match s with
        | "" => ""
        | String c s' => String c (replace_from re repl O (Some c) s')
        end
    end.
Proof.
  destruct s; reflexivity.
Qed.

Lemma replace_whitespace_collapse (s : string) : forall prev,
  replace_from re_whitespace " " (run s) prev s = collapse true s /\
  replace_from re_whitespace " " O prev s = collapse false s.
Proof.
  induction s as [|c s IH]; intros prev.
  - split; reflexivity.
  - destruct (IH (Some c)) as [IHrun IHstart].
    destruct (is_space c) eqn:Hc.
    + split.
      * cbn [run collapse]. rewrite Hc. cbn [replace_from]. exact IHrun.
      * rewrite replace_from_start, match_plus_space. cbn [run collapse].
        rewrite Hc, IHrun. reflexivity.
    + cbn [run]. rewrite Hc.
      split; rewrite replace_from_start, match_plus_space; cbn [run collapse];
        rewrite Hc, IHstart; reflexivity.
Qed.

Lemma replace_whitespace (s : string) :
  replace re_whitespace " " s = collapse false s.
Proof.
  apply replace_whitespace_collapse.
Qed.

(** ** Collapsed texts *)

Lemma collapse_collapsed (s : string) :
  (forall b, collapsed (collapse b s) = true) /\
  starts_with_space (collapse true s) = false.
Proof.
  induction s as [|c s [IHc IHs]]; [split; [intros []|]; reflexivity|].
  split; [intros b|]; cbn [collapse]; destruct (is_space c) eqn:Hc.
  - destruct b; [apply IHc|]. cbn [collapsed]. now rewrite IHs, IHc.
  - cbn [collapsed]. now rewrite Hc, IHc.
  - exact IHs.
  - exact Hc.
Qed.



Lemma all_collapse (p : ascii -> bool) (s : string) :
  p " "%char = true -> all p s = true -> forall b, all p (collapse b s) = true.
Proof.
  intros Hblank. induction s as [|c s IH]; simpl; auto.
  intros H b. apply andb_true_iff in H as [Hc Hs].
  destruct (is_space c), b; simpl; rewrite ?Hblank, ?Hc, ?IH; auto.
Qed.


(** In a collapsed text the only whitespace is the space. *)
Lemma collapsed_blank (s : string) :
  collapsed s = true -> all (fun c => negb (is_space c) || Ascii.eqb c " ") s = true.
Proof.
  induction s as [|c s IH]; simpl; auto.
  intros H. apply andb_true_iff in H as [Hc Hs]. rewrite (IH Hs), andb_true_r.
  destruct (is_space c); auto. now apply andb_true_iff in Hc as [-> _].
Qed.


Lemma blank_is_no_line_feed (c : ascii) :
  negb (is_space c) || Ascii.eqb c " " = true -> negb (Ascii.eqb LF c) = true.
Proof.
  destruct c as [[|] [|] [|] [|] [|] [|] [|] [|]]; vm_compute; auto.
Qed.


Lemma collapsed_no_line_feed (s : string) : collapsed s = true -> no_line_feed s.
Proof.
  intros H. eapply all_weaken; [apply blank_is_no_line_feed|].
  now apply collapsed_blank.
Qed.

(** ** Trimming *)

Lemma trimEnd_cons (c : ascii) (s : string) :
  trimEnd (String c s) =
    if (trimEnd s =? "")%string && is_space c then "" else String c (trimEnd s).
Proof.
  simpl. destruct (trimEnd s); simpl; auto.
Qed.

Lemma all_trimStart (p : ascii -> bool) (s : string) :
  all p s = true -> all p (trimStart s) = true.
Proof.
  induction s as [|c s IH]; simpl; auto.
  intros H. destruct (is_space c); auto.
  apply IH. now apply andb_true_iff in H as [_ H].
Qed.

Lemma all_trimEnd (p : ascii -> bool) (s : string) :
  all p s = true -> all p (trimEnd s) = true.
Proof.
  induction s as [|c s IH]; auto.
  intros H. rewrite trimEnd_cons. simpl in H. apply andb_true_iff in H as [Hc Hs].
  destruct ((trimEnd s =? "")%string && is_space c); simpl; auto.
  now rewrite Hc, IH.
Qed.

Lemma all_trim (p : ascii -> bool) (s : string) :
  all p s = true -> all p (trim s) = true.
Proof.
  intros H. now apply all_trimEnd, all_trimStart.
Qed.


Lemma has_not_empty (q : ascii -> bool) (s : string) : has q s = true -> s <> "".
Proof.
  now destruct s.
Qed.




Lemma starts_with_space_trimEnd (s : string) :
  starts_with_space s = false -> starts_with_space (trimEnd s) = false.
Proof.
  destruct s as [|c s]; auto. rewrite trimEnd_cons. simpl.
  intros Hc. now rewrite Hc, andb_false_r.
Qed.



Lemma starts_with_space_trimStart (s : string) :
  starts_with_space (trimStart s) = false.
Proof.
  induction s as [|c s IH]; simpl; auto.
  destruct (is_space c) eqn:Hc; auto.
Qed.

Lemma trimStart_fixed (s : string) : starts_with_space s = false -> trimStart s = s.
Proof.
  destruct s as [|c s]; simpl; auto. now intros ->.
Qed.

Lemma trimEnd_idempotent (s : string) : trimEnd (trimEnd s) = trimEnd s.
Proof.
  induction s as [|c s IH]; auto.
  rewrite trimEnd_cons. destruct ((trimEnd s =? "")%string && is_space c) eqn:E; auto.
  rewrite trimEnd_cons, IH, E. reflexivity.
Qed.

Lemma trim_idempotent (s : string) : trim (trim s) = trim s.
Proof.
  unfold trim. rewrite trimStart_fixed.
  - apply trimEnd_idempotent.
  - apply starts_with_space_trimEnd, starts_with_space_trimStart.
Qed.

(** ** The header step *)




(** ** Texts on which the artifact steps find nothing *)

Lemma no_digit_tail (c : ascii) (s : string) : no_digit (String c s) -> no_digit s.
Proof. apply all_tail. Qed.

Lemma no_line_feed_tail (c : ascii) (s : string) :
  no_line_feed (String c s) -> no_line_feed s.
Proof. apply all_tail. Qed.


(** ** The normalized text has no line feed *)

Lemma all_append (p : ascii -> bool) (a b : string) :
  all p a = true -> all p b = true -> all p (a ++ b) = true.
Proof.
  induction a as [|c a IH]; simpl; auto.
  intros Ha Hb. apply andb_true_iff in Ha as [Hc Ha]. now rewrite Hc, IH.
Qed.

(** A replacement keeps what holds of every character of the text and of
    the replacement. *)
Lemma all_replace_from (p : ascii -> bool) (re : list item) (repl : string) :
  all p repl = true ->
  forall s skip prev, all p s = true -> all p (replace_from re repl skip prev s) = true.
Proof.
  intros Hrepl. induction s as [|c s IH]; intros skip prev Hs.
  - destruct skip; simpl; auto.
    destruct (match_items re prev "") as [[|n]|]; auto;
      now apply all_append.
  - simpl in Hs. apply andb_true_iff in Hs as [Hc Hs].
    destruct skip; cbn [replace_from]; auto.
    destruct (match_items re prev (String c s)) as [[|n]|].
    + apply all_append; auto. simpl. now rewrite Hc, IH.
    + apply all_append; auto.
    + simpl. now rewrite Hc, IH.
Qed.

Theorem normalizeText_no_line_feed (x : string) : no_line_feed (normalizeText x).
Proof.
  unfold normalizeText, normalize_NFKC.
  destruct (x =? "")%string; [reflexivity|].
  rewrite replace_whitespace.
  pose proof (collapsed_no_line_feed _ (proj1 (collapse_collapsed x) false)) as H.
  unfold replace at 4. rewrite (replace_from_nowhere re_newlines).
  2:{ apply (nowhere_of_fails no_line_feed);
        [apply no_line_feed_tail | intros; now apply re_newlines_needs_line_feed
        | exact H]. }
  apply all_trim. unfold replace.
  repeat apply all_replace_from; auto.
Qed.

Lemma has_append_r (p : ascii -> bool) (a b : string) :
  has p b = true -> has p (a ++ b) = true.
Proof.
  intros H. induction a as [|c a IH]; simpl; auto.
  rewrite IH. apply orb_true_r.
Qed.

(** Two chunks or more are joined around a line feed. *)
Lemma join_has_line_feed (c c' : string) (rest : list string) :
  has (Ascii.eqb LF) (join newline2 (c :: c' :: rest)) = true.
Proof.
  cbn [join]. apply has_append_r. reflexivity.
Qed.

Lemma has_not_all (p : ascii -> bool) (s : string) :
  has p s = true -> all (fun c => negb (p c)) s = true -> False.
Proof.
  induction s as [|c s IH]; simpl; [discriminate|].
  intros H Hall. apply andb_true_iff in Hall as [Hc Hs].
  apply orb_true_iff in H as [H|H]; auto.
  rewrite H in Hc. discriminate.
Qed.

Lemma join_differs_from_normalized (x c c' : string) (rest : list string) :
  join newline2 (c :: c' :: rest) <> normalizeText x.
Proof.
  intros E. eapply has_not_all.
  - apply (join_has_line_feed c c' rest).
  - rewrite E. apply normalizeText_no_line_feed.
Qed.

End NormalizerFacts.

(* ================================================================== *)
(** * Overlap of consecutive chunks *)
(* ================================================================== *)

Module OverlapFacts.
Import JS ProcessDocument TextNotions ChunkerFacts NormalizerFacts.

(** ** The windows of the loop *)

Lemma push_chunks (cuts : list string) : forall chunks,
  fold_left push_chunk cuts chunks = (chunks ++ filter not_empty cuts)%list.
Proof.
  induction cuts as [|c cuts IH]; intros chunks; simpl.
  - now rewrite app_nil_r.
  - rewrite IH. unfold push_chunk, not_empty.
    destruct (len c >? 0); [now rewrite <- app_assoc | reflexivity].
Qed.

(** The chunks returned are the cuts of the windows that are not empty. *)
Lemma chunk_loop_windows (text : string) (m o : Z) (fuel : nat) :
  forall (start : Z) (chunks result : list string),
    chunk_loop fuel text m o start chunks = Some result ->
    result = (chunks ++ filter not_empty
                          (map (cut text) (windows fuel text m o start)))%list.
Proof.
  induction fuel as [|fuel IH]; intros start chunks result H; [discriminate|].
  simpl in *. destruct (start <? len text).
  - destruct (chunk_end text m start - o >=? len text).
    + injection H as <-. simpl. unfold push_chunk, not_empty, cut. simpl.
      destruct (len _ >? 0); [reflexivity | now rewrite app_nil_r].
    + apply IH in H. rewrite H. simpl. unfold push_chunk, not_empty, cut at 2. simpl.
      destruct (len _ >? 0); [now rewrite <- app_assoc | reflexivity].
  - injection H as <-. simpl. now rewrite app_nil_r.
Qed.

(** ** Consecutive windows *)

Lemma chunk_end_beyond (text : string) (m o start : Z) :
  0 <= o -> 2 * o <= m -> start + o <= chunk_end text m start.
Proof.
  intros Ho Hhalf. unfold chunk_end.
  destruct (start + m <? len text); [|lia].
  destruct (2 * lastIndexOf text newline2 (start + m) >? 2 * start + m) eqn:Hp.
  - apply Z.gtb_lt in Hp. lia.
  - destruct (2 * lastIndexOf text "." (start + m) >? 2 * start + m) eqn:Hs.
    + apply Z.gtb_lt in Hs. lia.
    + lia.
Qed.

Lemma windows_follow (text : string) (m o : Z) :
  0 <= o -> 2 * o <= m -> o < m ->
  forall (fuel : nat) (start : Z), 0 <= start ->
    adjacent (follows o) (windows fuel text m o start).
Proof.
  intros Ho Hhalf Hlt. induction fuel as [|fuel IH]; intros start Hstart; simpl; auto.
  destruct (start <? len text); simpl; auto.
  destruct (chunk_end text m start - o >=? len text); simpl; auto.
  pose proof (chunk_end_advances text m o start Hhalf Hlt) as Hadv.
  specialize (IH (chunk_end text m start - o) ltac:(lia)).
  destruct fuel as [|fuel']; simpl in *; auto.
  destruct (chunk_end text m start - o <? len text); simpl in *; auto.
  split; auto. unfold follows. simpl.
  pose proof (chunk_end_beyond text m o (chunk_end text m start - o) Ho Hhalf).
  lia.
Qed.

(** ** A slice in two parts *)

Lemma take_add (n k : nat) : forall s,
  take (n + k) s = (take n s ++ take k (drop n s))%string.
Proof.
  induction n as [|n IH]; intros s; simpl; auto.
  destruct s as [|c s]; simpl.
  - now rewrite take_empty.
  - now rewrite IH.
Qed.

Lemma slice_split (s : string) (a b c : Z) :
  0 <= a <= b -> b <= c ->
  slice s a c = (slice s a b ++ slice s b c)%string.
Proof.
  intros Hab Hbc. unfold slice, rel_index.
  repeat match goal with
         | |- context [?x <? 0] =>
             let E := fresh "E" in
             destruct (x <? 0) eqn:E; [apply Z.ltb_lt in E; lia|]
         end.
  replace (Z.to_nat (Z.min c (len s) - Z.min a (len s)))
    with (Z.to_nat (Z.min b (len s) - Z.min a (len s))
          + Z.to_nat (Z.min c (len s) - Z.min b (len s)))%nat by lia.
  rewrite take_add, drop_drop. do 3 f_equal. unfold len. lia.
Qed.

(** ** Trimming a text in two parts *)

Lemma append_empty_r (s : string) : (s ++ "")%string = s.
Proof.
  induction s as [|c s IH]; simpl; [reflexivity | now rewrite IH].
Qed.

Lemma trimEnd_blank (s : string) : blank s = true -> trimEnd s = "".
Proof.
  induction s as [|c s IH]; auto.
  unfold blank. cbn [all]. intros H. apply andb_true_iff in H as [Hc Hs].
  rewrite trimEnd_cons, (IH Hs), Hc. reflexivity.
Qed.

Lemma trimStart_blank (s : string) : blank s = true -> trimStart s = "".
Proof.
  induction s as [|c s IH]; auto.
  unfold blank. cbn [all]. intros H. apply andb_true_iff in H as [Hc Hs].
  cbn [trimStart]. rewrite Hc. now apply IH.
Qed.

Lemma trimEnd_not_blank (s : string) : blank s = false -> trimEnd s <> "".
Proof.
  induction s as [|c s IH]; [discriminate|].
  unfold blank. cbn [all]. intros H. rewrite trimEnd_cons.
  destruct (is_space c) eqn:Hc; simpl in H.
  - specialize (IH H). destruct (trimEnd s); [contradiction | discriminate].
  - rewrite andb_false_r. discriminate.
Qed.

(** Before a part that is not blank nothing is trimmed at the end. *)
Lemma trimEnd_append (a r : string) :
  blank r = false -> trimEnd (a ++ r) = (a ++ trimEnd r)%string.
Proof.
  intros Hr. induction a as [|c a IH]; auto.
  simpl append. rewrite trimEnd_cons, IH.
  pose proof (trimEnd_not_blank r Hr) as Hne.
  destruct (a ++ trimEnd r)%string eqn:E; [|reflexivity].
  destruct a; simpl in E; [contradiction | discriminate].
Qed.

(** After a part that is not blank nothing is trimmed at the start. *)
Lemma trimStart_append (r b : string) :
  blank r = false -> trimStart (r ++ b) = (trimStart r ++ b)%string.
Proof.
  induction r as [|c r IH]; [discriminate|].
  unfold blank. cbn [all]. intros H. simpl.
  destruct (is_space c); simpl in H; auto.
Qed.

Lemma trimStart_append_blank (a r : string) :
  blank a = true -> trimStart (a ++ r) = trimStart r.
Proof.
  induction a as [|c a IH]; auto.
  unfold blank. cbn [all]. intros H. apply andb_true_iff in H as [Hc Ha].
  simpl. rewrite Hc. now apply IH.
Qed.

Lemma trimEnd_append_blank (r b : string) :
  blank b = true -> trimEnd (r ++ b) = trimEnd r.
Proof.
  intros Hb. induction r as [|c r IH].
  - simpl. now apply trimEnd_blank.
  - simpl append. now rewrite !trimEnd_cons, IH.
Qed.

(** A text is its leading whitespace followed by the rest, and what is
    left of it followed by its trailing whitespace. *)
Lemma trimStart_split (s : string) : exists w, s = (w ++ trimStart s)%string /\ blank w = true.
Proof.
  induction s as [|c s [w [IH Hw]]]; [now exists ""|].
  simpl. destruct (is_space c) eqn:Hc.
  - exists (String c w). simpl. unfold blank in *. simpl. rewrite Hc, Hw.
    now rewrite <- IH.
  - now exists "".
Qed.

Lemma trimEnd_split (s : string) : exists w, s = (trimEnd s ++ w)%string /\ blank w = true.
Proof.
  induction s as [|c s [w [IH Hw]]]; [now exists ""|].
  rewrite trimEnd_cons.
  destruct ((trimEnd s =? "")%string && is_space c) eqn:E.
  - apply andb_true_iff in E as [Es Ec]. apply String.eqb_eq in Es.
    exists (String c w). rewrite Es in IH. simpl in IH. subst s.
    split; [reflexivity|]. unfold blank in *. simpl. now rewrite Ec.
  - exists w. simpl. now rewrite <- IH.
Qed.

Lemma blank_trimStart (s : string) : blank s = false -> blank (trimStart s) = false.
Proof.
  induction s as [|c s IH]; auto.
  unfold blank in *. simpl. destruct (is_space c) eqn:Hc; simpl; auto.
  now rewrite Hc.
Qed.

(** The trimmed end part of a text ends its trimmed form. *)
Lemma trim_ends_with (a r : string) :
  exists a', trim (a ++ r) = (a' ++ trim r)%string.
Proof.
  destruct (blank r) eqn:Hr.
  - exists (trim (a ++ r)). unfold trim at 3.
    now rewrite (trimStart_blank r Hr), append_empty_r.
  - destruct (trimStart_split r) as [w [Hsplit Hw]].
    assert (Hrest : blank (trimStart r) = false) by now apply blank_trimStart.
    assert (Hend : trimEnd r = (w ++ trim r)%string).
    { rewrite Hsplit at 1. now apply trimEnd_append. }
    unfold trim at 1. destruct (blank a) eqn:Ha.
    + exists "". now rewrite trimStart_append_blank.
    + exists (trimStart a ++ w)%string.
      rewrite trimStart_append by assumption.
      rewrite trimEnd_append by assumption.
      now rewrite Hend, append_assoc.
Qed.

(** The trimmed start part of a text starts its trimmed form. *)
Lemma trim_starts_with (r b : string) :
  exists b', trim (r ++ b) = (trim r ++ b')%string.
Proof.
  destruct (blank r) eqn:Hr.
  - exists (trim (r ++ b)). unfold trim at 2.
    now rewrite (trimStart_blank r Hr).
  - unfold trim at 1. rewrite trimStart_append by assumption.
    destruct (blank b) eqn:Hb.
    + exists "". now rewrite trimEnd_append_blank, append_empty_r.
    + destruct (trimEnd_split (trimStart r)) as [w [Hsplit Hw]].
      exists (w ++ trimEnd b)%string.
      rewrite trimEnd_append by assumption.
      rewrite Hsplit at 1. now rewrite append_assoc.
Qed.

(** ** The overlap region is cut twice *)

Lemma follows_shares_overlap (text : string) (o : Z) (w1 w2 : Z * Z) :
  follows o w1 w2 -> shares_overlap text o w1 w2.
Proof.
  intros (Hstart & Hs1 & Hs2 & He). unfold shares_overlap, cut.
  split; [exact Hstart|]. cbv zeta. rewrite <- Hstart. split.
  - rewrite (slice_split text (fst w1) (fst w2) (snd w1)) by lia.
    apply trim_ends_with.
  - rewrite (slice_split text (fst w2) (snd w1) (snd w2)) by lia.
    apply trim_starts_with.
Qed.

Lemma adjacent_weaken {A : Type} (R S : A -> A -> Prop) :
  (forall a b, R a b -> S a b) ->
  forall items, adjacent R items -> adjacent S items.
Proof.
  intros HRS. induction items as [|a items IH]; simpl; auto.
  destruct items as [|b rest]; auto.
  intros [H Hrest]. split; auto.
Qed.

(** The chunks of a text, for sizes with [0 <= 2 * overlap <= maxChunkSize]
    and [overlap < maxChunkSize]: the cuts of the windows that are not empty,
    each window sharing its last [overlap] characters with the next. *)
Theorem chunkText_overlaps (text : string) (m o : Z) (chunks : list string) :
  0 <= o -> 2 * o <= m -> o < m ->
  chunkText (chunk_fuel text) text m o = Some chunks ->
  let cuts := windows (chunk_fuel text) text m o 0 in
  chunks = filter not_empty (map (cut text) cuts) /\
  adjacent (shares_overlap text o) cuts.
Proof.
  intros Ho Hhalf Hlt H. split.
  - now apply chunk_loop_windows in H.
  - eapply adjacent_weaken; [apply follows_shares_overlap|].
    apply windows_follow; auto. lia.
Qed.

End OverlapFacts.

(* ================================================================== *)
(** * Properties of processDocument *)
(* ================================================================== *)

Module ProcessFacts.
Import JS ProcessDocument TextNotions ChunkerFacts.

Lemma len_empty_iff (s : string) : (s =? "")%string = true -> len s = 0.
Proof.
  intros H. apply String.eqb_eq in H. now subst.
Qed.

(** The test [!text || text.trim().length < 10]: the empty string has a
    trimmed length below 10 as well. *)
Lemma empty_test (s : string) :
  (s =? "")%string || (len (trim s) <? 10) = (len (trim s) <? 10).
Proof.
  destruct (s =? "")%string eqn:E; auto.
  apply String.eqb_eq in E. now subst.
Qed.

(** C7, as stated, fails: ["a b c d e f"] has six characters that are not
    whitespace, before and after normalization, and is processed all the
    same, because the test measures the length of the trimmed text (eleven
    characters here). *)
Lemma processDocument_counts_inner_whitespace :
  non_whitespace (trim "a b c d e f") = 6 /\
  non_whitespace (trim (normalizeText "a b c d e f")) = 6 /\
  processDocument failing_parsers "a b c d e f" "notes.txt" =
    Success ["a b c d e f"]
      {| totalChunks := 1; totalTokens := 3; totalCharacters := 11;
         filename := "notes.txt" |}.
Proof.
  repeat split; vm_compute; reflexivity.
Qed.

(** C7 (amended): once the file type is accepted, the size is within the
    limit and the text is extracted, [processDocument] reports an empty
    document exactly when the trimmed text has fewer than 10 characters
    (whitespace inside the text counts).  The test is made on the extracted
    text and again on the normalized text, each with its own message and
    status 400; a text that passes both is chunked and returned. *)
Theorem processDocument_empty_check (lib : Extractors)
    (fileContent filename fileType rawText : string) :
  detectFileType filename = Returned fileType ->
  len fileContent <= 10 * 1024 * 1024 ->
  extractText lib fileType fileContent = inr rawText ->
  let result := processDocument lib fileContent filename in
  let cleanedText := normalizeText rawText in
  (is_empty_document result = true <->
     len (trim rawText) < 10 \/ len (trim cleanedText) < 10) /\
  (len (trim rawText) < 10 -> result = Failure empty_raw_error 400) /\
  (10 <= len (trim rawText) -> len (trim cleanedText) < 10 ->
     result = Failure empty_cleaned_error 400) /\
  (10 <= len (trim rawText) -> 10 <= len (trim cleanedText) ->
     exists chunks,
       chunkText (chunk_fuel cleanedText) cleanedText 1000 200 = Some chunks /\
       result = Success chunks
                  {| totalChunks := Z.of_nat (List.length chunks);
                     totalTokens := sum_tokens chunks;
                     totalCharacters := len cleanedText;
                     filename := filename |}).
Proof.
  intros Htype Hsize Hext result cleanedText.
  assert (Hresult : result =
    if len (trim rawText) <? 10 then Failure empty_raw_error 400
    else if len (trim cleanedText) <? 10 then Failure empty_cleaned_error 400
    else match chunkText (chunk_fuel cleanedText) cleanedText 1000 200 with
         | Some chunks =>
             Success chunks
               {| totalChunks := Z.of_nat (List.length chunks);
                  totalTokens := sum_tokens chunks;
                  totalCharacters := len cleanedText;
                  filename := filename |}
         | None => Failure "Failed to chunk document: Unknown error" 500
         end).
  { subst result. unfold processDocument. rewrite Htype.
    replace (len fileContent >? 10 * 1024 * 1024) with false
      by (symmetry; rewrite Z.gtb_ltb; apply Z.ltb_ge; lia).
    rewrite Hext, !empty_test. reflexivity. }
  destruct (chunk_loop_default_fuel cleanedText) as [chunks Hchunks].
  rewrite Hchunks in Hresult.
  destruct (len (trim rawText) <? 10) eqn:Eraw;
    [apply Z.ltb_lt in Eraw | apply Z.ltb_ge in Eraw].
  - rewrite Hresult. split; [|split; [|split]]; try (intros; lia); auto.
    split; auto.
  - destruct (len (trim cleanedText) <? 10) eqn:Eclean;
      [apply Z.ltb_lt in Eclean | apply Z.ltb_ge in Eclean];
      rewrite Hresult; (split; [|split; [|split]]); try (intros; lia); auto.
    + split; auto.
    + split; [discriminate | intros [?|?]; lia].
    + intros _ _. exists chunks. split; [exact Hchunks | reflexivity].
Qed.

(** A text file of nine characters between blanks. *)
Lemma processDocument_empty_check_witness :
  processDocument failing_parsers "   too short   " "notes.txt"
  = Failure empty_raw_error 400.
Proof.
  apply (processDocument_empty_check failing_parsers
           "   too short   " "notes.txt" "txt" "   too short   ");
    vm_compute; (reflexivity || discriminate).
Defined.

(** A success of [processDocument] returns the chunks of the normalized
    text. *)
Lemma processDocument_success_inv (lib : Extractors)
    (fileContent filename : string) (chunks : list string) (metadata : Metadata) :
  processDocument lib fileContent filename = Success chunks metadata ->
  exists fileType rawText,
    detectFileType filename = Returned fileType /\
    extractText lib fileType fileContent = inr rawText /\
    chunkText (chunk_fuel (normalizeText rawText)) (normalizeText rawText) 1000 200
    = Some chunks /\
    totalCharacters metadata = len (normalizeText rawText).
Proof.
  unfold processDocument.
  destruct (detectFileType filename) as [fileType|]; [|discriminate].
  destruct (len fileContent >? 10 * 1024 * 1024); [discriminate|].
  destruct (extractText lib fileType fileContent) as [failure|rawText] eqn:Hext.
  - intros ->. exfalso. revert Hext. unfold extractText.
    destruct (fileType =? "pdf")%string;
      [destruct (extractPdfText lib fileContent); discriminate|].
    destruct (fileType =? "docx")%string;
      [destruct (extractDocxText lib fileContent); discriminate|].
    destruct (fileType =? "txt")%string; discriminate.
  - destruct ((rawText =? "")%string || (len (trim rawText) <? 10)); [discriminate|].
    destruct ((normalizeText rawText =? "")%string || _); [discriminate|].
    destruct (chunkText _ _ _ _) as [found|] eqn:Hchunks; [|discriminate].
    intros [= <- <-]. exists fileType, rawText. auto.
Qed.

End ProcessFacts.

(* ================================================================== *)
(** * Properties of the retriever *)
(* ================================================================== *)

Module RagFacts.
Import JS JSNumber ProcessDocument Rag RagNotions ChunkerFacts.

(** ** A store that cannot be reached *)

(** C3, as stated, fails: with a store that cannot be reached the retriever
    resolves to the empty sequence; no error reaches the caller. *)
Lemma findRelevantChunks_unreachable_store_gives_empty :
  findRelevantChunks (Returned unreachable_store) [1; 0]%float "doc-1" 5
  = Returned [].
Proof.
  reflexivity.
Qed.

Lemma fallback_when_native_unavailable (supabase : Supabase)
    (queryEmbedding : list float) (documentId : string) (limit : Z) :
  native_unavailable supabase queryEmbedding documentId limit ->
  findRelevantChunks (Returned supabase) queryEmbedding documentId limit
  = fallback supabase queryEmbedding documentId limit.
Proof.
  unfold native_unavailable, findRelevantChunks.
  destruct (match_document_chunks _ _ _ _ _) as [[d e]|message]; auto.
  simpl. intros [H|H].
  - destruct e; [reflexivity | contradiction].
  - subst d. now destruct e.
Qed.

(** C3 (amended): when the similarity search is unavailable and fetching the
    chunks of the document fails, the retriever resolves to the empty
    sequence: the result it also gives for a document that has no chunk.
    It never rejects. *)
Theorem findRelevantChunks_fetch_failure_gives_empty (supabase : Supabase)
    (queryEmbedding : list float) (documentId : string) (limit : Z) :
  native_unavailable supabase queryEmbedding documentId limit ->
  (fetch_failed supabase documentId limit \/ no_chunks supabase documentId limit) ->
  findRelevantChunks (Returned supabase) queryEmbedding documentId limit
  = Returned [].
Proof.
  intros Hnative Hfetch.
  rewrite fallback_when_native_unavailable by assumption.
  unfold fallback. destruct Hfetch as [H|H].
  - unfold fetch_failed in H.
    destruct (select_chunks _ _ _) as [[d e]|message]; auto.
    simpl in *. destruct e; [reflexivity | contradiction].
  - unfold no_chunks in H. now rewrite H.
Qed.

(** The store that cannot be reached. *)
Lemma findRelevantChunks_fetch_failure_gives_empty_witness :
  findRelevantChunks (Returned unreachable_store) [0.5; 0.5]%float "doc-1" 5
  = Returned [].
Proof.
  apply findRelevantChunks_fetch_failure_gives_empty; simpl.
  - exact I.
  - left. discriminate.
Defined.

(** Whatever the store does, the retriever resolves. *)
Lemma findRelevantChunks_never_throws (server : outcome Supabase)
    (queryEmbedding : list float) (documentId : string) (limit : Z) :
  exists chunks,
    findRelevantChunks server queryEmbedding documentId limit = Returned chunks.
Proof.
  unfold findRelevantChunks, fallback.
  destruct server as [supabase|]; [|eauto].
  assert (Hfallback : exists chunks,
            fallback supabase queryEmbedding documentId limit = Returned chunks).
  { unfold fallback.
    destruct (select_chunks _ _ _) as [[[[|c l]|] [e|]]|]; simpl; eauto. }
  destruct (match_document_chunks _ _ _ _ _) as [[[d|] [e|]]|]; simpl; eauto.
Qed.

(** ** Zero and NaN *)

Lemma is_zero_spec (x : float) :
  is_zero x = true -> exists s, Prim2SF x = S754_zero s.
Proof.
  unfold is_zero. rewrite eqb_spec.
  change (Prim2SF zero) with (S754_zero false).
  destruct (Prim2SF x) as [s|s| |s m e]; try destruct s; cbn;
    intros H; try discriminate; eauto.
Qed.

Lemma zero_is_zero_or_nan (x : float) : is_zero x = true -> zero_or_nan x.
Proof.
  intros H. right. now apply is_zero_spec.
Qed.

Lemma zero_or_nan_zero : zero_or_nan 0%float.
Proof.
  right. now exists false.
Qed.

Lemma zero_or_nan_mul_l (x y : float) : zero_or_nan x -> zero_or_nan (x * y)%float.
Proof.
  unfold zero_or_nan. rewrite mul_spec.
  intros [->|[s ->]]; destruct (Prim2SF y); simpl; eauto.
Qed.

Lemma zero_or_nan_mul_r (x y : float) : zero_or_nan y -> zero_or_nan (x * y)%float.
Proof.
  unfold zero_or_nan. rewrite mul_spec.
  intros [->|[s ->]]; destruct (Prim2SF x); simpl; eauto.
Qed.

Lemma zero_or_nan_add (x y : float) :
  zero_or_nan x -> zero_or_nan y -> zero_or_nan (x + y)%float.
Proof.
  unfold zero_or_nan. rewrite add_spec.
  intros [->|[s ->]] [->|[t ->]]; simpl; eauto.
  destruct s, t; eauto.
Qed.

Lemma zero_or_nan_sqrt (x : float) : zero_or_nan x -> zero_or_nan (sqrt x).
Proof.
  unfold zero_or_nan. rewrite sqrt_spec.
  intros [->|[s ->]]; simpl; eauto.
Qed.

Lemma zero_or_nan_div (x y : float) :
  zero_or_nan x -> zero_or_nan y -> is_nan (x / y)%float = true.
Proof.
  unfold zero_or_nan, is_nan. rewrite eqb_spec, div_spec.
  intros [->|[s ->]] [->|[t ->]]; reflexivity.
Qed.

Lemma or_zero_of_zero (x : float) : is_zero x = true -> or_zero (Some x) = 0%float.
Proof.
  intros H. unfold or_zero, truthy. now rewrite H, andb_false_r.
Qed.

(** ** Magnitude and dot product of zero vectors *)

Lemma sum_squares_zero (v : list float) : forall acc,
  zero_vector v = true -> zero_or_nan acc ->
  zero_or_nan (fold_left (fun sum val => sum + val * val)%float v acc).
Proof.
  induction v as [|val v IH]; intros acc Hv Hacc; simpl; auto.
  simpl in Hv. apply andb_true_iff in Hv as [Hval Hv].
  apply IH; auto.
  apply zero_or_nan_add; auto.
  now apply zero_or_nan_mul_l, zero_is_zero_or_nan.
Qed.

Lemma magnitude_zero (v : list float) :
  zero_vector v = true -> zero_or_nan (magnitude v).
Proof.
  intros H. apply zero_or_nan_sqrt, sum_squares_zero; auto using zero_or_nan_zero.
Qed.

Lemma dot_zero_query (q : list float) : forall sum tail,
  zero_vector q = true -> zero_or_nan sum -> zero_or_nan (dot_from sum q tail).
Proof.
  induction q as [|val q IH]; intros sum tail Hq Hsum; simpl; auto.
  simpl in Hq. apply andb_true_iff in Hq as [Hval Hq].
  apply IH; auto.
  apply zero_or_nan_add; auto.
  now apply zero_or_nan_mul_l, zero_is_zero_or_nan.
Qed.

Lemma dot_zero_embedding (q : list float) : forall sum tail,
  zero_vector tail = true -> zero_or_nan sum -> zero_or_nan (dot_from sum q tail).
Proof.
  induction q as [|val q IH]; intros sum tail Ht Hsum; simpl; auto.
  apply IH.
  - destruct tail as [|x tail]; auto.
    simpl in Ht. now apply andb_true_iff in Ht as [_ Ht].
  - apply zero_or_nan_add; auto. apply zero_or_nan_mul_r.
    destruct tail as [|x tail]; [apply zero_or_nan_zero|].
    simpl in Ht. apply andb_true_iff in Ht as [Hx _].
    cbn [hd_error]. rewrite (or_zero_of_zero x Hx). apply zero_or_nan_zero.
Qed.

Lemma quotient_zero_query (q e : list float) :
  zero_vector q = true -> is_nan (quotient q e) = true.
Proof.
  intros H. apply zero_or_nan_div.
  - apply dot_zero_query; auto using zero_or_nan_zero.
  - apply zero_or_nan_mul_l, magnitude_zero, H.
Qed.

Lemma quotient_zero_embedding (q e : list float) :
  zero_vector e = true -> is_nan (quotient q e) = true.
Proof.
  intros H. apply zero_or_nan_div.
  - apply dot_zero_embedding; auto using zero_or_nan_zero.
  - apply zero_or_nan_mul_r, magnitude_zero, H.
Qed.

(** ** The similarity of a chunk *)

(** C8, as stated, fails: the guard is [isNaN], so an infinite quotient is
    returned as it is.  With the query [[1e-170]] and the stored vector
    [[1e-150]] the product of the magnitudes underflows to 0 while the dot
    product does not, and the similarity is [Infinity].  For the identical
    vectors [[1e200]] the dot product overflows and the similarity is 0. *)
Lemma chunk_similarity_infinite :
  is_finite (quotient [1e-170]%float [1e-150]%float) = false /\
  chunk_similarity [1e-170]%float (stored (Some [1e-150]%float)) = infinity /\
  chunk_similarity [1e200]%float (stored (Some [1e200]%float)) = 0%float.
Proof.
  repeat split; vm_compute; reflexivity.
Qed.

(** ** The context string *)

(** C9, as stated, fails: a chunk whose similarity is 0 (what the fallback
    gives to a chunk without a usable vector) or is missing is labelled
    without the similarity part. *)
Lemma buildContext_label_without_similarity :
  buildContext [scored 0 "Intro" (Some 0%float); scored 1 "Body" None]
  = "[Chunk 1]" ++ String LF "Intro" ++ separator ++ "[Chunk 2]" ++ String LF "Body"
  /\ includes
       (buildContext [scored 0 "Intro" (Some 0%float); scored 1 "Body" None])
       "similarity" = false.
Proof.
  split; vm_compute; reflexivity.
Qed.

(** C9 (amended): [buildContext] returns exactly ["No relevant context
    found."] for the empty sequence.  For a non-empty sequence it renders the
    chunks in the order given, joined by a separator made of two line feeds,
    three dashes and two line feeds.  A chunk is rendered as its label, a line
    feed and its content; the label is [[Chunk <chunk_index+1> (similarity:
    <pct>%)]], with [pct] the similarity times 100 with one decimal, when the
    similarity is present and is neither 0 nor NaN, and [[Chunk
    <chunk_index+1>]] otherwise. *)
Theorem buildContext_shape :
  buildContext [] = "No relevant context found." /\
  separator = String LF (String LF "---") ++ String LF (String LF "") /\
  (forall c, buildContext [c] = render_chunk c) /\
  (forall c c' rest,
     buildContext (c :: c' :: rest)
     = render_chunk c ++ separator ++ buildContext (c' :: rest)) /\
  (forall c value,
     similarity c = Some value -> truthy value = true ->
     render_chunk c
     = "[Chunk " ++ Z_toString (chunk_index c + 1)
       ++ " (similarity: " ++ toFixed (value * 100)%float 1 ++ "%)]"
       ++ String LF (content c)) /\
  (forall c,
     similarity c = None \/
     (exists value, similarity c = Some value /\ truthy value = false) ->
     render_chunk c
     = "[Chunk " ++ Z_toString (chunk_index c + 1) ++ "]" ++ String LF (content c)) /\
  buildContext [scored 2 "Hello" (Some 0.873%float); scored 0 "World" (Some 0.5%float)]
  = "[Chunk 3 (similarity: 87.3%)]" ++ String LF "Hello" ++ separator
    ++ "[Chunk 1 (similarity: 50.0%)]" ++ String LF "World".
Proof.
  split; [reflexivity|]. split; [reflexivity|].
  split; [reflexivity|]. split; [reflexivity|].
  split; [|split].
  - intros c value Hsim Htruthy. unfold render_chunk, similarity_label.
    rewrite Hsim, Htruthy.
    now rewrite !append_assoc.
  - intros c [Hsim|[value [Hsim Hfalsy]]]; unfold render_chunk, similarity_label;
      rewrite Hsim, ?Hfalsy; reflexivity.
  - vm_compute. reflexivity.
Qed.

End RagFacts.

(* ================================================================== *)
(** * Rounding of the doubles *)
(* ================================================================== *)

(** ** On the integers *)

Module Rounding.

Local Abbreviation fexp64 := (fexp prec emax).
Local Abbreviation round_aux := (binary_round_aux prec emax).

Lemma fexp64_eq (e : Z) : fexp64 e = Z.max (e - 53) (-1074).
Proof. reflexivity. Qed.

(** ** The number of binary digits *)

Lemma digits2_pos_size (p : positive) : digits2_pos p = Pos.size p.
Proof. induction p; cbn; now rewrite ?IHp. Qed.

Lemma Zdigits2_bounds (m : Z) :
  0 < m -> 2 ^ (Zdigits2 m - 1) <= m < 2 ^ Zdigits2 m.
Proof.
  destruct m as [|p|p]; try lia. intros _. cbn [Zdigits2].
  rewrite digits2_pos_size.
  pose proof (Pos.size_gt p) as Hgt. pose proof (Pos.size_le p) as Hle.
  apply Pos2Z.pos_lt_pos in Hgt. apply Pos2Z.pos_le_pos in Hle.
  rewrite Pos2Z.inj_pow in Hgt, Hle.
  change (Z.pos p~0) with (2 * Z.pos p) in Hle.
  assert (Hs : 2 ^ Z.pos (Pos.size p) = 2 * 2 ^ (Z.pos (Pos.size p) - 1)).
  { rewrite <- Z.pow_succ_r by lia. f_equal. lia. }
  change (Z.pos 2) with 2 in *. lia.
Qed.

Lemma Zdigits2_nonneg (m : Z) : 0 <= Zdigits2 m.
Proof. destruct m; cbn; lia. Qed.

Lemma Zdigits2_pos (m : Z) : 0 < m -> 0 < Zdigits2 m.
Proof. destruct m; cbn; lia. Qed.

Lemma pow2_lt_inv (a b : Z) : 0 <= b -> 2 ^ a < 2 ^ b -> a < b.
Proof.
  intros Hb H. destruct (Z_lt_le_dec a b) as [|Hle]; [assumption|].
  apply (Z.pow_le_mono_r 2) in Hle; lia.
Qed.

Lemma Zdigits2_unique (m d : Z) :
  0 < m -> 2 ^ (d - 1) <= m < 2 ^ d -> Zdigits2 m = d.
Proof.
  intros Hm [Hlo Hhi]. pose proof (Zdigits2_bounds m Hm) as [Blo Bhi].
  pose proof (Zdigits2_pos m Hm).
  assert (0 < d).
  { destruct (Z_lt_le_dec 0 d) as [|Hd]; [assumption|].
    destruct (Z.eq_dec d 0) as [->|]; [cbn in Hhi; lia|].
    rewrite Z.pow_neg_r in Hhi by lia. lia. }
  assert (Zdigits2 m - 1 < d) by (apply pow2_lt_inv; lia).
  assert (d - 1 < Zdigits2 m) by (apply pow2_lt_inv; lia).
  lia.
Qed.


(** ** The shift to the right *)

Lemma shr_m_shr_1 (mrs : shr_record) :
  0 <= shr_m mrs -> shr_m (shr_1 mrs) = shr_m mrs / 2.
Proof.
  destruct mrs as [m r s]. cbn [shr_m]. intros Hm.
  destruct m as [|[p|p|]|p]; cbn [shr_1 shr_m]; try lia; try reflexivity.
  - apply Z.div_unique with (r := 1); lia.
  - apply Z.div_unique with (r := 0); lia.
Qed.

Lemma iter_pos_shr (p : positive) : forall mrs,
  0 <= shr_m mrs ->
  shr_m (iter_pos shr_1 p mrs) = shr_m mrs / 2 ^ Z.pos p.
Proof.
  assert (Hnonneg : forall mrs, 0 <= shr_m mrs -> 0 <= shr_m (shr_1 mrs)).
  { intros mrs H. rewrite shr_m_shr_1 by assumption. apply Z.div_pos; lia. }
  induction p as [p IH|p IH|]; intros mrs Hm; cbn [iter_pos].
  - assert (H1 : 0 <= shr_m (shr_1 mrs)) by auto.
    assert (H2 : 0 <= shr_m (iter_pos shr_1 p (shr_1 mrs))).
    { rewrite IH by assumption. apply Z.div_pos; lia. }
    rewrite IH, IH, shr_m_shr_1 by assumption.
    rewrite !Z.div_div by lia. f_equal.
    replace (Z.pos p~1) with (Z.pos p + Z.pos p + 1) by lia.
    rewrite !Z.pow_add_r by lia. change (2 ^ 1) with 2. ring.
  - assert (H2 : 0 <= shr_m (iter_pos shr_1 p mrs)).
    { rewrite IH by assumption. apply Z.div_pos; lia. }
    rewrite IH, IH by assumption.
    rewrite !Z.div_div by lia. f_equal.
    replace (Z.pos p~0) with (Z.pos p + Z.pos p) by lia.
    now rewrite !Z.pow_add_r by lia.
  - apply shr_m_shr_1, Hm.
Qed.

Lemma loc_of_shr_record_of_loc (m : Z) (l : location) :
  loc_of_shr_record (shr_record_of_loc m l) = l.
Proof. now destruct l as [|[| |]]. Qed.

Lemma shr_m_of_loc (m : Z) (l : location) : shr_m (shr_record_of_loc m l) = m.
Proof. now destruct l as [|[| |]]. Qed.

(** [shr_fexp] brings the exponent up to the one of the format, and
    divides the mantissa accordingly. *)
Lemma shr_fexp_spec (m e : Z) (l : location) :
  0 <= m ->
  let e' := Z.max e (fexp64 (Zdigits2 m + e)) in
  snd (shr_fexp prec emax m e l) = e' /\
  shr_m (fst (shr_fexp prec emax m e l)) = m / 2 ^ (e' - e) /\
  (e' = e -> loc_of_shr_record (fst (shr_fexp prec emax m e l)) = l).
Proof.
  intros Hm e'. unfold shr_fexp, shr.
  destruct (fexp64 (Zdigits2 m + e) - e) as [|p|p] eqn:Hk; cbn [fst snd].
  - assert (e' = e) as -> by lia.
    rewrite Z.sub_diag, Z.div_1_r, shr_m_of_loc, loc_of_shr_record_of_loc. auto.
  - assert (e' = e + Z.pos p) as -> by lia.
    rewrite iter_pos_shr, shr_m_of_loc by (rewrite shr_m_of_loc; assumption).
    replace (e + Z.pos p - e) with (Z.pos p) by lia.
    repeat split; lia.
  - assert (e' = e) as -> by lia.
    rewrite Z.sub_diag, Z.div_1_r, shr_m_of_loc, loc_of_shr_record_of_loc. auto.
Qed.

Lemma round_nearest_even_bounds (m : Z) (l : location) :
  m <= round_nearest_even m l <= m + 1 /\
  (l = loc_Exact -> round_nearest_even m l = m).
Proof.
  destruct l as [|[| |]]; cbn; try destruct (Z.even m); repeat split; intros; lia || discriminate.
Qed.


(** ** The rounding of a located mantissa *)

Lemma Zdigits2_le (m d : Z) : 0 <= d -> 0 <= m < 2 ^ d -> Zdigits2 m <= d.
Proof.
  intros Hd [H0 Hm]. destruct (Z.eq_dec m 0) as [->|]; [cbn; lia|].
  pose proof (Zdigits2_bounds m ltac:(lia)) as [Hlo _].
  assert (Zdigits2 m - 1 < d) by (apply pow2_lt_inv; lia). lia.
Qed.

(** The result of [binary_round_aux]: the mantissa [mx] is divided by the
    power of two that brings the exponent up to the one of the format, the
    quotient [m1] is kept or increased by one, and a mantissa of [2^53] is
    halved. *)
Lemma round_aux_spec (sx : bool) (mx ex : Z) (lx : location) :
  0 <= mx ->
  let e' := Z.max ex (fexp64 (Zdigits2 mx + ex)) in
  let m1 := mx / 2 ^ (e' - ex) in
  exists m2 e'',
    m1 <= m2 <= m1 + 1 /\
    (lx = loc_Exact -> e' = ex -> m2 = m1) /\
    (e'' = e' \/ (e'' = e' + 1 /\ m2 = 2 ^ 53)) /\
    round_aux sx mx ex lx
    = match m2 / 2 ^ (e'' - e') with
      | Z0 => S754_zero sx
      | Zpos m => if e'' <=? 971 then S754_finite sx m e'' else S754_infinity sx
      | Zneg _ => S754_nan
      end.
Proof.
  intros Hmx e' m1.
  pose proof (shr_fexp_spec mx ex lx Hmx) as (He1 & Hm1 & Hl1).
  fold e' in He1, Hm1, Hl1. fold m1 in Hm1.
  unfold binary_round_aux.
  destruct (shr_fexp prec emax mx ex lx) as [mrs1 e1]. cbn [fst snd] in *. subst e1.
  set (m2 := round_nearest_even (shr_m mrs1) (loc_of_shr_record mrs1)).
  pose proof (round_nearest_even_bounds (shr_m mrs1) (loc_of_shr_record mrs1))
    as [Hm2 Hexact]. fold m2 in Hm2, Hexact. rewrite Hm1 in Hm2, Hexact.
  assert (H0 : 0 <= m1) by (apply Z.div_pos; lia).
  assert (Hd : fexp64 (Zdigits2 mx + ex) <= e') by lia.
  rewrite fexp64_eq in Hd.
  assert (Hupper : m1 < 2 ^ 53).
  { apply Z.div_lt_upper_bound; [lia|].
    destruct (Z.eq_dec mx 0) as [->|]; [lia|].
    pose proof (Zdigits2_bounds mx ltac:(lia)) as [_ Hhi].
    rewrite <- Z.pow_add_r by lia.
    eapply Z.lt_le_trans; [exact Hhi|].
    apply Z.pow_le_mono_r; lia. }
  pose proof (shr_fexp_spec m2 e' loc_Exact ltac:(lia)) as (He2 & Hm3 & _).
  destruct (shr_fexp prec emax m2 e' loc_Exact) as [mrs2 e2]. cbn [fst snd] in *.
  exists m2, e2. split; [exact Hm2|]. split.
  { intros -> He. apply Hexact. now apply Hl1. }
  rewrite Hm3. split; [|now rewrite <- He2].
  subst e2. rewrite fexp64_eq.
  destruct (Z.eq_dec m2 (2 ^ 53)) as [E|Hne].
  - right. split; [|exact E]. rewrite E.
    change (Zdigits2 (2 ^ 53)) with 54. lia.
  - left. assert (Zdigits2 m2 <= 53) by (apply Zdigits2_le; lia). lia.
Qed.

End Rounding.

(** ** On the real numbers *)

Module RoundingR.
Import Reals Lra Rounding FloatNotions.
Local Abbreviation fexp64 := (fexp prec emax).
Local Abbreviation round_aux := (binary_round_aux prec emax).
Local Abbreviation bpow := (powerRZ 2).
Local Open Scope R_scope.

(** ** Powers of two *)

Lemma bpow_pos (e : Z) : 0 < bpow e.
Proof. apply powerRZ_lt. lra. Qed.

Lemma bpow_add (a b : Z) : bpow (a + b) = bpow a * bpow b.
Proof. apply powerRZ_add. lra. Qed.

Lemma bpow_Zpow (e : Z) : (0 <= e)%Z -> bpow e = IZR (2 ^ e).
Proof.
  intros He. rewrite <- (Z2Nat.id e He) at 1.
  rewrite <- pow_powerRZ, pow_IZR. now rewrite Z2Nat.id.
Qed.

Lemma bpow_ge_1 (e : Z) : (0 <= e)%Z -> 1 <= bpow e.
Proof.
  intros He. rewrite bpow_Zpow by assumption. apply IZR_le.
  pose proof (Z.pow_pos_nonneg 2 e ltac:(lia) He). lia.
Qed.

Lemma bpow_le (a b : Z) : (a <= b)%Z -> bpow a <= bpow b.
Proof.
  intros H. replace b with (a + (b - a))%Z by lia. rewrite bpow_add.
  pose proof (bpow_pos a). pose proof (bpow_ge_1 (b - a) ltac:(lia)). nra.
Qed.

Lemma bpow_lt (a b : Z) : (a < b)%Z -> bpow a < bpow b.
Proof.
  intros H. replace b with (a + 1 + (b - a - 1))%Z by lia. rewrite !bpow_add.
  pose proof (bpow_pos a). pose proof (bpow_ge_1 (b - a - 1) ltac:(lia)).
  change (bpow 1) with (2 * 1). nra.
Qed.

Lemma bpow_lt_inv (a b : Z) : bpow a < bpow b -> (a < b)%Z.
Proof.
  intros H. destruct (Z_lt_le_dec a b) as [|Hle]; [assumption|].
  apply bpow_le in Hle. lra.
Qed.

Lemma bpow_le_inv (a b : Z) : bpow a <= bpow b -> (a <= b)%Z.
Proof.
  intros H. destruct (Z_le_gt_dec a b) as [|Hgt]; [assumption|].
  apply Z.gt_lt, bpow_lt in Hgt. lra.
Qed.


(** ** The value of a rounded mantissa *)

(** [x] is the exact magnitude, which [(mx, lx)] locates at the exponent
    [ex]; the result of the rounding is a zero or a finite double, whose
    magnitude [y] is away from [x] by at most the unit of the format at
    [x]. *)
Lemma round_aux_value (sx : bool) (mx ex : Z) (lx : location) (x : R) :
  (0 <= mx)%Z ->
  IZR mx * bpow ex <= x < IZR (mx + 1) * bpow ex ->
  (lx = loc_Exact -> x = IZR mx * bpow ex) ->
  (Zdigits2 mx + ex <= 1023)%Z -> (ex <= 971)%Z ->
  (lx <> loc_Exact -> (ex <= fexp64 (Zdigits2 mx + ex))%Z) ->
  exists y,
    0 <= y /\
    SFfinite (round_aux sx mx ex lx) = true /\
    SF2R (round_aux sx mx ex lx) = (if sx then -1 else 1) * y /\
    Rabs (y - x) <= bpow (fexp64 (Zdigits2 mx + ex)) /\
    ((fexp64 (Zdigits2 mx + ex) <= ex)%Z -> lx = loc_Exact -> y = x).
Proof.
  intros Hmx Hx Hexact Hover Hex Hinexact.
  destruct (round_aux_spec sx mx ex lx Hmx) as (m2 & e'' & Hm2 & Hsame & He'' & Hr).
  set (f := fexp64 (Zdigits2 mx + ex)) in *.
  set (e' := Z.max ex f) in *.
  set (k := (e' - ex)%Z) in *.
  set (m1 := (mx / 2 ^ k)%Z) in *.
  assert (Hk : (0 <= k)%Z) by (unfold k, e'; lia).
  assert (Hpow : (0 < 2 ^ k)%Z) by (apply Z.pow_pos_nonneg; lia).
  assert (Hbpow : bpow e' = IZR (2 ^ k) * bpow ex).
  { replace e' with (k + ex)%Z by (unfold k; lia).
    now rewrite bpow_add, bpow_Zpow. }
  assert (Hm1 : (0 <= m1)%Z) by (apply Z.div_pos; lia).
  assert (Hlo : IZR m1 * bpow e' <= x).
  { rewrite Hbpow, <- Rmult_assoc, <- mult_IZR.
    destruct Hx as [Hx _]. eapply Rle_trans; [|exact Hx].
    apply Rmult_le_compat_r; [left; apply bpow_pos|].
    apply IZR_le. unfold m1. rewrite Z.mul_comm. apply Z.mul_div_le. lia. }
  assert (Hhi : x <= IZR (m1 + 1) * bpow e').
  { rewrite Hbpow, <- Rmult_assoc, <- mult_IZR.
    destruct Hx as [_ Hx]. left. eapply Rlt_le_trans; [exact Hx|].
    apply Rmult_le_compat_r; [left; apply bpow_pos|].
    apply IZR_le. unfold m1.
    pose proof (Z.mul_succ_div_gt mx (2 ^ k) Hpow). lia. }
  assert (Hf : f = Z.max (Zdigits2 mx + ex - 53) (-1074)) by reflexivity.
  exists (IZR m2 * bpow e').
  assert (Hy0 : 0 <= IZR m2 * bpow e').
  { apply Rmult_le_pos; [apply IZR_le; lia | left; apply bpow_pos]. }
  split; [exact Hy0|].
  assert (Hfinite : (e'' <= 971)%Z).
  { destruct He'' as [->|[-> Hcarry]]; [unfold e'; lia|].
    destruct (Z_le_gt_dec e' 970) as [|Hbig]; [lia|]. exfalso.
    assert (e' = ex /\ f < ex)%Z as [He' Hlt] by (unfold e'; lia).
    assert (k = 0)%Z by (unfold k; lia).
    assert (Hd : (Zdigits2 mx <= 52)%Z) by lia.
    assert (mx < 2 ^ 52)%Z.
    { destruct (Z.eq_dec mx 0) as [->|]; [lia|].
      pose proof (Zdigits2_bounds mx ltac:(lia)) as [_ Hup].
      eapply Z.lt_le_trans; [exact Hup|]. apply Z.pow_le_mono_r; lia. }
    assert (m1 = mx) by (unfold m1; replace k with 0%Z by lia; apply Z.div_1_r).
    lia. }
  assert (Hvalue : SFfinite (round_aux sx mx ex lx) = true /\
                   SF2R (round_aux sx mx ex lx)
                   = (if sx then -1 else 1) * (IZR m2 * bpow e')).
  { rewrite Hr. destruct He'' as [->|[-> Hcarry]].
    - rewrite Z.sub_diag, Z.div_1_r.
      destruct m2 as [|p|p]; [cbn; split; [reflexivity | ring] | | lia].
      destruct (Z.leb_spec e' 971); [|lia]. cbn. split; [reflexivity | ring].
    - replace (e' + 1 - e')%Z with 1%Z by lia. rewrite Hcarry.
      change (2 ^ 53 / 2 ^ 1)%Z with (2 ^ 52)%Z.
      change (2 ^ 52)%Z with (Z.pos (2 ^ 52)).
      destruct (Z.leb_spec (e' + 1) 971); [|lia]. cbn [SFfinite SF2R].
      split; [reflexivity|]. rewrite bpow_add.
      change (bpow 1) with (2 * 1). change (2 ^ 53)%Z with (2 * Z.pos (2 ^ 52))%Z.
      rewrite mult_IZR. ring. }
  split; [apply Hvalue|]. split; [apply Hvalue|].
  assert (Hcase : (f <= ex)%Z -> lx = loc_Exact -> IZR m2 * bpow e' = x).
  { intros Hle Hl. assert (He : e' = ex) by (unfold e'; lia).
    rewrite (Hsame Hl He), (Hexact Hl), He. f_equal. f_equal.
    unfold m1. replace k with 0%Z by (unfold k; lia). apply Z.div_1_r. }
  split; [|exact Hcase].
  destruct (Z_le_gt_dec ex f) as [Hge|Hlt].
  - assert (He : e' = f) by (unfold e'; lia). rewrite <- He.
    assert (Hm2' : IZR m1 <= IZR m2 <= IZR m1 + 1).
    { rewrite <- plus_IZR. split; apply IZR_le; lia. }
    rewrite plus_IZR in Hhi. pose proof (bpow_pos e').
    apply Rabs_le. nra.
  - assert (Hl : lx = loc_Exact).
    { destruct lx as [|c]; [reflexivity|]. exfalso.
      assert (ex <= f)%Z by (apply Hinexact; discriminate). lia. }
    rewrite Hcase by (assumption || lia).
    rewrite Rminus_diag, Rabs_R0. left. apply bpow_pos.
Qed.


(** ** The unit of the format *)

Lemma digits_lower (mx ex : Z) (x : R) :
  (0 < mx)%Z -> IZR mx * bpow ex <= x -> bpow (Zdigits2 mx - 1 + ex) <= x.
Proof.
  intros Hmx Hx. eapply Rle_trans; [|exact Hx].
  rewrite bpow_add. apply Rmult_le_compat_r; [left; apply bpow_pos|].
  pose proof (Zdigits2_pos mx Hmx).
  rewrite bpow_Zpow by lia. apply IZR_le. apply Zdigits2_bounds, Hmx.
Qed.

Lemma digits_upper (mx ex : Z) :
  (0 <= mx)%Z -> IZR (mx + 1) * bpow ex <= bpow (Zdigits2 mx + ex).
Proof.
  intros Hmx. rewrite bpow_add. apply Rmult_le_compat_r; [left; apply bpow_pos|].
  pose proof (Zdigits2_nonneg mx).
  rewrite bpow_Zpow by lia. apply IZR_le.
  destruct (Z.eq_dec mx 0) as [->|]; [cbn; lia|].
  pose proof (Zdigits2_bounds mx ltac:(lia)). lia.
Qed.

(** Above the subnormal numbers the unit is at most [2^-52] times the
    magnitude. *)
Lemma unit_relative (mx ex : Z) (x : R) :
  (0 < mx)%Z -> IZR mx * bpow ex <= x ->
  (-1074 <= Zdigits2 mx + ex - 53)%Z ->
  bpow (fexp64 (Zdigits2 mx + ex)) <= bpow (-52) * x.
Proof.
  intros Hmx Hx Hnormal.
  replace (fexp64 (Zdigits2 mx + ex)) with (-52 + (Zdigits2 mx - 1 + ex))%Z
    by (rewrite fexp64_eq; lia).
  rewrite bpow_add. apply Rmult_le_compat_l; [left; apply bpow_pos|].
  now apply digits_lower.
Qed.

(** ** The doubles *)

Lemma valid_finite (x : float) (s : bool) (m : positive) (e : Z) :
  Prim2SF x = S754_finite s m e ->
  (Zdigits2 (Z.pos m) <= 53 /\ -1074 <= e <= 971 /\
   (Zdigits2 (Z.pos m) = 53 \/ e = -1074))%Z.
Proof.
  intros H. pose proof (Prim2SF_valid x) as Hv. rewrite H in Hv.
  cbn [valid_binary] in Hv. unfold bounded, canonical_mantissa in Hv.
  apply andb_true_iff in Hv as [Hc Hb].
  apply Z.eqb_eq in Hc. apply Z.leb_le in Hb.
  rewrite fexp64_eq in Hc. change (emax - prec)%Z with 971%Z in Hb.
  cbn [Zdigits2]. lia.
Qed.

Lemma SF2R_finite (s : bool) (m : positive) (e : Z) :
  Rabs (SF2R (S754_finite s m e)) = IZR (Z.pos m) * bpow e.
Proof.
  cbn [SF2R]. pose proof (bpow_pos e). pose proof (IZR_lt 0 (Z.pos m) ltac:(lia)).
  assert (0 < IZR (Z.pos m) * bpow e) by nra.
  destruct s.
  - replace (-1 * IZR (Z.pos m) * bpow e) with (- (IZR (Z.pos m) * bpow e)) by ring.
    rewrite Rabs_Ropp. apply Rabs_pos_eq. lra.
  - rewrite Rmult_1_l. apply Rabs_pos_eq. lra.
Qed.

Lemma sign_xorb (a b : bool) :
  (if xorb a b then -1 else 1) = (if a then -1 else 1) * (if b then -1 else 1).
Proof. destruct a, b; cbn; ring. Qed.

Lemma Rabs_sign (s : bool) (y : R) : 0 <= y -> Rabs ((if s then -1 else 1) * y) = y.
Proof.
  intros Hy. destruct s.
  - replace (-1 * y) with (- y) by ring. rewrite Rabs_Ropp. now apply Rabs_pos_eq.
  - rewrite Rmult_1_l. now apply Rabs_pos_eq.
Qed.

Lemma digits_mul (a b : Z) :
  (0 < a)%Z -> (0 < b)%Z -> (Zdigits2 a + Zdigits2 b - 1 <= Zdigits2 (a * b))%Z.
Proof.
  intros Ha Hb.
  pose proof (Zdigits2_bounds a Ha) as [Hla _].
  pose proof (Zdigits2_bounds b Hb) as [Hlb _].
  pose proof (Zdigits2_bounds (a * b) ltac:(lia)) as [_ Hu].
  pose proof (Zdigits2_pos a Ha). pose proof (Zdigits2_pos b Hb).
  assert (Hprod : (2 ^ (Zdigits2 a - 1 + (Zdigits2 b - 1)) <= a * b)%Z).
  { rewrite Z.pow_add_r by lia. apply Z.mul_le_mono_nonneg; lia. }
  assert (Zdigits2 a - 1 + (Zdigits2 b - 1) < Zdigits2 (a * b))%Z.
  { apply pow2_lt_inv; [apply Zdigits2_nonneg | lia]. }
  lia.
Qed.

(** *** Multiplication *)

(** The product of two finite doubles whose exact product is below
    [2^1023] is a finite double; it is the exact product up to the relative
    error [2^-52] when that product is zero or at least [2^-1022]. *)
Lemma mul_value (x y : float) :
  SFfinite (Prim2SF x) = true -> SFfinite (Prim2SF y) = true ->
  Rabs (value x * value y) < bpow 1023 ->
  SFfinite (Prim2SF (x * y)) = true /\
  (bpow (-1022) <= Rabs (value x * value y) \/ value x * value y = 0 ->
   Rabs (value (x * y) - value x * value y)
   <= bpow (-52) * Rabs (value x * value y)).
Proof.
  unfold value. rewrite mul_spec. unfold SF64mul.
  destruct (Prim2SF x) as [sx|sx| |sx mx ex] eqn:Ex; try discriminate;
  destruct (Prim2SF y) as [sy|sy| |sy my ey] eqn:Ey; try discriminate;
    intros _ _ Hbound; cbn [SFmul].
  1-3: cbn [SF2R SFfinite]; split; [reflexivity|]; intros _;
       rewrite ?Rmult_0_l, ?Rmult_0_r, Rminus_diag, Rabs_R0; lra.
  set (t := SF2R (S754_finite sx mx ex) * SF2R (S754_finite sy my ey)) in *.
  assert (Ht : t = (if xorb sx sy then -1 else 1)
                   * (IZR (Z.pos (mx * my)) * bpow (ex + ey))).
  { unfold t. cbn [SF2R]. rewrite sign_xorb, Pos2Z.inj_mul, mult_IZR, bpow_add. ring. }
  set (X := IZR (Z.pos (mx * my)) * bpow (ex + ey)) in *.
  assert (HX : 0 < X).
  { unfold X. pose proof (bpow_pos (ex + ey)).
    pose proof (IZR_lt 0 (Z.pos (mx * my)) ltac:(lia)). nra. }
  assert (Habs : Rabs t = X) by (rewrite Ht; apply Rabs_sign; lra).
  rewrite Habs in *.
  pose proof (valid_finite x _ _ _ Ex) as (Hdx & Hex & Hcx).
  pose proof (valid_finite y _ _ _ Ey) as (Hdy & Hey & Hcy).
  pose proof (digits_mul (Z.pos mx) (Z.pos my) ltac:(lia) ltac:(lia)) as Hd.
  rewrite <- Pos2Z.inj_mul in Hd.
  pose proof (Zdigits2_pos (Z.pos mx) ltac:(lia)).
  pose proof (Zdigits2_pos (Z.pos my) ltac:(lia)).
  pose proof (digits_lower (Z.pos (mx * my)) (ex + ey) X ltac:(lia) (Rle_refl _))
    as Hlow.
  assert (Hover : (Zdigits2 (Z.pos (mx * my)) + (ex + ey) <= 1023)%Z).
  { assert (Zdigits2 (Z.pos (mx * my)) - 1 + (ex + ey) < 1023)%Z
      by (apply bpow_lt_inv; lra). lia. }
  destruct (round_aux_value (xorb sx sy) (Z.pos (mx * my)) (ex + ey) loc_Exact X)
    as (y' & Hy0 & Hfin & Hval & Herr & _); try lia; try easy.
  { split; [apply Rle_refl|]. rewrite plus_IZR. unfold X.
    pose proof (bpow_pos (ex + ey)). nra. }
  split; [exact Hfin|]. intros Hrange.
  rewrite Hval, Ht. fold X.
  replace ((if xorb sx sy then -1 else 1) * y' - (if xorb sx sy then -1 else 1) * X)
    with ((if xorb sx sy then -1 else 1) * (y' - X)) by ring.
  assert (Hs : Rabs ((if xorb sx sy then -1 else 1) * (y' - X)) = Rabs (y' - X)).
  { destruct (xorb sx sy).
    - replace (-1 * (y' - X)) with (- (y' - X)) by ring. apply Rabs_Ropp.
    - now rewrite Rmult_1_l. }
  rewrite Hs. eapply Rle_trans; [exact Herr|].
  apply unit_relative; [lia | apply Rle_refl |].
  destruct Hrange as [Hrange|Hzero];
    [|exfalso; rewrite Hzero, Rabs_R0 in Habs; lra].
  pose proof (digits_upper (Z.pos (mx * my)) (ex + ey) ltac:(lia)) as Hup.
  assert (X < bpow (Zdigits2 (Z.pos (mx * my)) + (ex + ey))).
  { eapply Rlt_le_trans; [|exact Hup]. rewrite plus_IZR. unfold X.
    pose proof (bpow_pos (ex + ey)). nra. }
  assert (-1022 < Zdigits2 (Z.pos (mx * my)) + (ex + ey))%Z
    by (apply bpow_lt_inv; lra).
  lia.
Qed.


(** *** Addition *)

Lemma iter_xO (d : positive) (m : positive) :
  Z.pos (Pos.iter xO m d) = (Z.pos m * 2 ^ Z.pos d)%Z.
Proof.
  induction d as [|d IH] using Pos.peano_ind.
  - cbn. lia.
  - rewrite Pos.iter_succ, Pos2Z.inj_xO, IH, Pos2Z.inj_succ, Z.pow_succ_r by lia.
    ring.
Qed.

Lemma shl_align_spec (mx : positive) (ex ez : Z) :
  (ez <= ex)%Z ->
  Z.pos (fst (shl_align mx ex ez)) = (Z.pos mx * 2 ^ (ex - ez))%Z /\
  snd (shl_align mx ex ez) = ez.
Proof.
  intros H. unfold shl_align.
  destruct (ez - ex)%Z as [|d|d] eqn:E; cbn [fst snd]; try lia.
  - replace (ex - ez)%Z with 0%Z by lia. split; lia.
  - rewrite iter_xO. replace (ex - ez)%Z with (Z.pos d) by lia. split; lia.
Qed.

Lemma shl_align_keep (mx : positive) (ex ez : Z) :
  (ex <= ez)%Z -> shl_align mx ex ez = (mx, ex).
Proof.
  intros H. unfold shl_align. destruct (ez - ex)%Z eqn:E; try reflexivity. lia.
Qed.

Lemma Zdigits2_shift (m k : Z) :
  (0 < m)%Z -> (0 <= k)%Z -> Zdigits2 (m * 2 ^ k) = (Zdigits2 m + k)%Z.
Proof.
  intros Hm Hk. pose proof (Zdigits2_bounds m Hm) as [Hlo Hhi].
  pose proof (Zdigits2_pos m Hm).
  assert (0 < 2 ^ k)%Z by (apply Z.pow_pos_nonneg; lia).
  apply Zdigits2_unique; [lia|].
  replace (Zdigits2 m + k - 1)%Z with (Zdigits2 m - 1 + k)%Z by lia.
  rewrite !Z.pow_add_r by lia. nia.
Qed.

(** The rounding of an integer multiple of a power of two that is not
    below the least exponent: the relative error is at most [2^-52]. *)
Lemma binary_round_value (sx : bool) (m : positive) (e : Z) :
  (-1074 <= e <= 971)%Z -> (Zdigits2 (Z.pos m) + e <= 1023)%Z ->
  exists y,
    0 <= y /\
    SFfinite (binary_round prec emax sx m e) = true /\
    SF2R (binary_round prec emax sx m e) = (if sx then -1 else 1) * y /\
    Rabs (y - IZR (Z.pos m) * bpow e) <= bpow (-52) * (IZR (Z.pos m) * bpow e).
Proof.
  intros He Hover. unfold binary_round.
  change (Z.pos (digits2_pos m)) with (Zdigits2 (Z.pos m)).
  set (f := fexp64 (Zdigits2 (Z.pos m) + e)).
  assert (Hf : f = Z.max (Zdigits2 (Z.pos m) + e - 53) (-1074)) by reflexivity.
  set (X := IZR (Z.pos m) * bpow e).
  assert (HX : 0 < X).
  { unfold X. pose proof (bpow_pos e). pose proof (IZR_lt 0 (Z.pos m) ltac:(lia)). nra. }
  destruct (Z_lt_le_dec f e) as [Hlt|Hge].
  - destruct (shl_align_spec m e f ltac:(lia)) as [Hmz Hez].
    destruct (shl_align m e f) as [mz ez]. cbn [fst snd] in *. subst ez.
    assert (Hd : Zdigits2 (Z.pos mz) = (Zdigits2 (Z.pos m) + (e - f))%Z).
    { rewrite Hmz. apply Zdigits2_shift; lia. }
    assert (HXz : X = IZR (Z.pos mz) * bpow f).
    { unfold X. rewrite Hmz, mult_IZR, <- bpow_Zpow by lia.
      rewrite Rmult_assoc, <- bpow_add. f_equal. f_equal. lia. }
    destruct (round_aux_value sx (Z.pos mz) f loc_Exact X)
      as (y & Hy0 & Hfin & Hval & _ & Hexact); try lia; try easy.
    { rewrite HXz, plus_IZR. pose proof (bpow_pos f). split; [lra | nra]. }
    exists y. repeat split; auto.
    rewrite Hexact; [|rewrite Hd; fold f in Hf |-*|reflexivity].
    + rewrite Rminus_diag, Rabs_R0. pose proof (bpow_pos (-52)). nra.
    + replace (Zdigits2 (Z.pos m) + (e - f) + f)%Z with (Zdigits2 (Z.pos m) + e)%Z by lia.
      fold f. lia.
  - rewrite shl_align_keep by assumption.
    destruct (round_aux_value sx (Z.pos m) e loc_Exact X)
      as (y & Hy0 & Hfin & Hval & Herr & Hexact); try lia; try easy.
    { unfold X. rewrite plus_IZR. pose proof (bpow_pos e). split; [lra | nra]. }
    exists y. repeat split; auto. fold f in Herr, Hexact.
    destruct (Z.eq_dec f e) as [E|Hne].
    + rewrite Hexact by (lia || reflexivity).
      rewrite Rminus_diag, Rabs_R0. pose proof (bpow_pos (-52)). nra.
    + eapply Rle_trans; [exact Herr|].
      apply unit_relative; [lia | apply Rle_refl | lia].
Qed.

Lemma IZR_cond_Zopp (s : bool) (z : Z) :
  IZR (cond_Zopp s z) = (if s then -1 else 1) * IZR z.
Proof. destruct s; cbn [cond_Zopp]; rewrite ?opp_IZR; ring. Qed.

(** The sum of two finite doubles whose exact sum is below [2^1023] is a
    finite double, equal to the exact sum up to the relative error
    [2^-52]. *)
Lemma add_value (x y : float) :
  SFfinite (Prim2SF x) = true -> SFfinite (Prim2SF y) = true ->
  Rabs (value x + value y) < bpow 1023 ->
  SFfinite (Prim2SF (x + y)) = true /\
  Rabs (value (x + y) - (value x + value y))
  <= bpow (-52) * Rabs (value x + value y).
Proof.
  unfold value. rewrite add_spec. unfold SF64add.
  assert (Hsame : forall v, Rabs (v - v) <= bpow (-52) * Rabs v).
  { intros v. rewrite Rminus_diag, Rabs_R0. pose proof (bpow_pos (-52)).
    pose proof (Rabs_pos v). nra. }
  destruct (Prim2SF x) as [sx|sx| |sx mx ex] eqn:Ex; try discriminate;
  destruct (Prim2SF y) as [sy|sy| |sy my ey] eqn:Ey; try discriminate;
    intros _ _ Hbound; cbn [SFadd].
  - split; [now destruct sx, sy|].
    replace (SF2R (if Bool.eqb sx sy then S754_zero sx else S754_zero false)) with 0
      by now destruct sx, sy.
    destruct sx, sy; cbn [SF2R]; rewrite Rplus_0_l; apply Hsame.
  - split; [reflexivity|]. cbn [SF2R]. rewrite Rplus_0_l. apply Hsame.
  - split; [reflexivity|]. cbn [SF2R]. rewrite Rplus_0_r. apply Hsame.
  - pose proof (valid_finite x _ _ _ Ex) as (Hdx & Hex & Hcx).
    pose proof (valid_finite y _ _ _ Ey) as (Hdy & Hey & Hcy).
    set (ez := Z.min ex ey).
    destruct (shl_align_spec mx ex ez ltac:(unfold ez; lia)) as [Hax _].
    destruct (shl_align_spec my ey ez ltac:(unfold ez; lia)) as [Hay _].
    set (M := (cond_Zopp sx (Z.pos (fst (shl_align mx ex ez)))
               + cond_Zopp sy (Z.pos (fst (shl_align my ey ez))))%Z).
    assert (HM : IZR M * bpow ez
                 = SF2R (S754_finite sx mx ex) + SF2R (S754_finite sy my ey)).
    { unfold M. rewrite plus_IZR, !IZR_cond_Zopp, Hax, Hay, !mult_IZR.
      rewrite <- !bpow_Zpow by (unfold ez; lia). cbn [SF2R].
      replace (bpow ex) with (bpow (ex - ez) * bpow ez)
        by (rewrite <- bpow_add; f_equal; lia).
      replace (bpow ey) with (bpow (ey - ez) * bpow ez)
        by (rewrite <- bpow_add; f_equal; lia).
      ring. }
    rewrite <- HM in *. unfold binary_normalize.
    assert (Hdigits : forall p, (Z.abs M = Z.pos p) ->
              (Zdigits2 (Z.pos p) + ez <= 1023)%Z).
    { intros p Hp.
      assert (Rabs (IZR M * bpow ez) = IZR (Z.pos p) * bpow ez).
      { rewrite Rabs_mult, <- abs_IZR, Hp. f_equal.
        apply Rabs_pos_eq. left. apply bpow_pos. }
      pose proof (digits_lower (Z.pos p) ez _ ltac:(lia) (Rle_refl _)).
      assert (Zdigits2 (Z.pos p) - 1 + ez < 1023)%Z by (apply bpow_lt_inv; lra).
      lia. }
    destruct M as [|p|p] eqn:EM.
    + cbn [SFfinite SF2R]. split; [reflexivity|]. rewrite Rmult_0_l. apply Hsame.
    + destruct (binary_round_value false p ez ltac:(unfold ez; lia)
                  (Hdigits p eq_refl)) as (v & Hv0 & Hfin & Hval & Herr).
      split; [exact Hfin|]. rewrite Hval, Rmult_1_l.
      rewrite (Rabs_pos_eq (IZR (Z.pos p) * bpow ez)); [exact Herr|].
      pose proof (bpow_pos ez). pose proof (IZR_lt 0 (Z.pos p) ltac:(lia)). nra.
    + destruct (binary_round_value true p ez ltac:(unfold ez; lia)
                  (Hdigits p eq_refl)) as (v & Hv0 & Hfin & Hval & Herr).
      split; [exact Hfin|]. rewrite Hval.
      change (Z.neg p) with (- Z.pos p)%Z. rewrite opp_IZR.
      replace (-1 * v - - IZR (Z.pos p) * bpow ez)
        with (- (v - IZR (Z.pos p) * bpow ez)) by ring.
      rewrite Rabs_Ropp.
      replace (- IZR (Z.pos p) * bpow ez) with (- (IZR (Z.pos p) * bpow ez)) by ring.
      rewrite Rabs_Ropp.
      rewrite (Rabs_pos_eq (IZR (Z.pos p) * bpow ez)); [exact Herr|].
      pose proof (bpow_pos ez). pose proof (IZR_lt 0 (Z.pos p) ltac:(lia)). nra.
Qed.


(** *** Square root *)

Lemma Zdigits2_lower (n j : Z) : (2 ^ (j - 1) <= n)%Z -> (0 < n)%Z -> (j <= Zdigits2 n)%Z.
Proof.
  intros Hj Hn. pose proof (Zdigits2_bounds n Hn) as [_ Hu].
  pose proof (Zdigits2_pos n Hn).
  assert (j - 1 < Zdigits2 n)%Z by (apply pow2_lt_inv; lia). lia.
Qed.

Lemma sqrt_bounds (n q r : Z) :
  (0 <= q)%Z -> (n = q * q + r)%Z -> (0 <= r <= 2 * q)%Z ->
  IZR q <= sqrt (IZR n) < IZR (q + 1) /\ (r = 0%Z -> sqrt (IZR n) = IZR q).
Proof.
  intros Hq Hn Hr.
  assert (H0 : 0 <= IZR n) by (apply IZR_le; nia).
  assert (Hq0 : 0 <= IZR q) by now apply IZR_le.
  pose proof (sqrt_pos (IZR n)) as Hs0.
  pose proof (sqrt_sqrt (IZR n) H0) as Hs.
  assert (Hlo : IZR q * IZR q <= IZR n) by (rewrite <- mult_IZR; apply IZR_le; lia).
  assert (Hhi : IZR n < IZR (q + 1) * IZR (q + 1))
    by (rewrite <- mult_IZR; apply IZR_lt; lia).
  rewrite plus_IZR in *. repeat split.
  - nra.
  - nra.
  - intros ->. replace n with (q * q)%Z by lia. rewrite mult_IZR.
    now apply sqrt_square.
Qed.

(** The square root of a positive finite double is a finite double, equal
    to the exact root up to the relative error [2^-52]. *)
Lemma sqrt_value (x : float) (m : positive) (e : Z) :
  Prim2SF x = S754_finite false m e ->
  SFfinite (Prim2SF (PrimFloat.sqrt x)) = true /\
  0 <= value (PrimFloat.sqrt x) /\
  Rabs (value (PrimFloat.sqrt x) - sqrt (value x)) <= bpow (-52) * sqrt (value x).
Proof.
  intros Ex. unfold value. rewrite sqrt_spec, Ex. unfold SF64sqrt. cbn [SFsqrt].
  pose proof (valid_finite x _ _ _ Ex) as (Hd & He & Hc).
  pose proof (Zdigits2_pos (Z.pos m) ltac:(lia)) as Hd0.
  unfold SFsqrt_core_binary.
  set (d := Zdigits2 (Z.pos m)) in *.
  set (E := Z.div2 (d + e + 1)).
  assert (HE : (2 * E <= d + e + 1 <= 2 * E + 1)%Z).
  { unfold E. rewrite Z.div2_div.
    pose proof (Z.div_mod (d + e + 1) 2 ltac:(lia)).
    pose proof (Z.mod_pos_bound (d + e + 1) 2 ltac:(lia)). lia. }
  assert (H2 : (2 * Z.div2 e <= e <= 2 * Z.div2 e + 1)%Z).
  { rewrite Z.div2_div.
    pose proof (Z.div_mod e 2 ltac:(lia)).
    pose proof (Z.mod_pos_bound e 2 ltac:(lia)). lia. }
  set (e' := Z.min (fexp64 E) (Z.div2 e)).
  assert (He' : e' = (E - 53)%Z) by (unfold e'; rewrite fexp64_eq; lia).
  set (s := (e - 2 * e')%Z).
  assert (Hs : (52 <= s)%Z) by (unfold s; lia).
  destruct s as [|p|p] eqn:Es; try lia.
  set (m' := Z.shiftl (Z.pos m) (Z.pos p)).
  assert (Hm' : m' = (Z.pos m * 2 ^ Z.pos p)%Z)
    by (unfold m'; apply Z.shiftl_mul_pow2; lia).
  assert (Hpos : (0 < m')%Z) by (rewrite Hm'; apply Z.mul_pos_pos; [lia | apply Z.pow_pos_nonneg; lia]).
  pose proof (Z.sqrtrem_spec m' ltac:(lia)) as Hsq.
  destruct (Z.sqrtrem m') as [q r]. destruct Hsq as [Hn Hr].
  assert (Hq : (0 <= q)%Z) by nia.
  assert (Hdm' : Zdigits2 m' = (d + Z.pos p)%Z)
    by (rewrite Hm'; apply Zdigits2_shift; lia).
  pose proof (Zdigits2_bounds m' Hpos) as [Hml Hmu]. rewrite Hdm' in Hml, Hmu.
  assert (HD : (105 <= d + Z.pos p <= 106)%Z) by lia.
  assert (Hlow : (2 ^ 104 <= m')%Z).
  { eapply Z.le_trans; [|exact Hml]. apply Z.pow_le_mono_r; lia. }
  assert (Hup : (m' < 2 ^ 106)%Z).
  { eapply Z.lt_le_trans; [exact Hmu|]. apply Z.pow_le_mono_r; lia. }
  assert (Hq52 : (2 ^ 52 <= q < 2 ^ 53)%Z).
  { change (2 ^ 104)%Z with (2 ^ 52 * 2 ^ 52)%Z in Hlow.
    change (2 ^ 106)%Z with (2 ^ 53 * 2 ^ 53)%Z in Hup. split; nia. }
  assert (Hdq : Zdigits2 q = 53%Z) by (apply Zdigits2_unique; lia).
  destruct (sqrt_bounds m' q r Hq Hn Hr) as [Hloc Hexact].
  set (l := if (r =? 0)%Z then loc_Exact
            else loc_Inexact (if (r <=? q)%Z then Lt else Gt)).
  set (X := sqrt (IZR m') * bpow e').
  assert (HX : sqrt (SF2R (S754_finite false m e)) = X).
  { cbn [SF2R]. rewrite Rmult_1_l. unfold X.
    replace (IZR (Z.pos m) * bpow e) with (IZR m' * (bpow e' * bpow e')).
    - rewrite sqrt_mult_alt by (apply IZR_le; lia). f_equal.
      apply sqrt_square. left. apply bpow_pos.
    - rewrite Hm', mult_IZR, <- bpow_Zpow, <- bpow_add, Rmult_assoc, <- bpow_add by lia.
      f_equal. f_equal. lia. }
  rewrite HX.
  destruct (round_aux_value false q e' l X)
    as (y & Hy0 & Hfin & Hval & Herr & _).
  - exact Hq.
  - unfold X. pose proof (bpow_pos e'). split; [nra|]. destruct Hloc. nra.
  - unfold l. destruct (Z.eqb_spec r 0) as [Hr0|]; [|discriminate].
    intros _. unfold X. now rewrite (Hexact Hr0).
  - lia.
  - lia.
  - intros _. rewrite Hdq, fexp64_eq. lia.
  - split; [exact Hfin|]. rewrite Hval, Rmult_1_l. split; [exact Hy0|].
    eapply Rle_trans; [exact Herr|].
    apply unit_relative; [lia | | lia].
    unfold X. pose proof (bpow_pos e'). destruct Hloc. nra.
Qed.


(** *** Division *)

Lemma Zdigits2_quotient (a b q r : Z) :
  (0 < a)%Z -> (0 < b)%Z -> (a = b * q + r)%Z -> (0 <= r < b)%Z ->
  (0 <= q /\ Zdigits2 a - Zdigits2 b <= Zdigits2 q)%Z.
Proof.
  intros Ha Hb Hq Hr. assert (Hq0 : (0 <= q)%Z) by nia. split; [exact Hq0|].
  pose proof (Zdigits2_bounds a Ha) as [Hal Hau].
  pose proof (Zdigits2_bounds b Hb) as [Hbl Hbu].
  pose proof (Zdigits2_pos a Ha). pose proof (Zdigits2_pos b Hb).
  pose proof (Zdigits2_nonneg q).
  destruct (Z_lt_le_dec (Zdigits2 a - Zdigits2 b) 1) as [|Hj]; [lia|].
  assert (Hsplit : (2 ^ (Zdigits2 a - 1)
                    = 2 ^ (Zdigits2 a - Zdigits2 b - 1) * 2 ^ Zdigits2 b)%Z).
  { rewrite <- Z.pow_add_r by lia. f_equal. lia. }
  assert (0 < 2 ^ (Zdigits2 a - Zdigits2 b - 1))%Z by (apply Z.pow_pos_nonneg; lia).
  assert (Hlow : (2 ^ (Zdigits2 a - Zdigits2 b - 1) <= q)%Z) by nia.
  apply Zdigits2_lower; [exact Hlow | lia].
Qed.

Lemma new_location_exact (n r : Z) :
  new_location n r = loc_Exact <-> r = 0%Z.
Proof.
  unfold new_location, new_location_even, new_location_odd.
  destruct (Z.even n); destruct (Z.eqb_spec r 0); split; intros; congruence.
Qed.

(** The quotient of a finite double by a non-zero finite double, when the
    exact quotient is below [2^1023], is a finite double, equal to the exact
    quotient up to the relative error [2^-52] and, in the subnormal range, the
    absolute error [2^-1074]. *)
Lemma div_value (x y : float) (sy : bool) (my : positive) (ey : Z) :
  SFfinite (Prim2SF x) = true ->
  Prim2SF y = S754_finite sy my ey ->
  Rabs (value x / value y) < bpow 1023 ->
  SFfinite (Prim2SF (x / y)) = true /\
  Rabs (value (x / y) - value x / value y)
  <= bpow (-52) * Rabs (value x / value y) + bpow (-1074).
Proof.
  intros Fx Ey. unfold value. rewrite div_spec, Ey. unfold SF64div.
  pose proof (bpow_pos (-52)) as Hu. pose proof (bpow_pos (-1074)) as Heta.
  pose proof (bpow_pos ey) as Hbey.
  pose proof (IZR_lt 0 (Z.pos my) ltac:(lia)) as Hmy.
  destruct (Prim2SF x) as [sx|sx| |sx mx ex] eqn:Ex; try discriminate.
  { intros _. cbn [SFdiv SFfinite SF2R]. split; [reflexivity|].
    unfold Rdiv. rewrite Rmult_0_l, Rminus_diag, Rabs_R0. lra. }
  pose proof (bpow_pos ex) as Hbex.
  pose proof (IZR_lt 0 (Z.pos mx) ltac:(lia)) as Hmx.
  set (X := IZR (Z.pos mx) * bpow ex / (IZR (Z.pos my) * bpow ey)).
  assert (Hquot : SF2R (S754_finite sx mx ex) / SF2R (S754_finite sy my ey)
                  = (if xorb sx sy then -1 else 1) * X).
  { unfold X. cbn [SF2R]. destruct sx, sy; cbn [xorb]; field; lra. }
  assert (HX0 : 0 < X).
  { unfold X. apply Rdiv_lt_0_compat; nra. }
  rewrite Hquot, Rabs_sign by lra. intros Habs.
  cbn [SFdiv]. unfold SFdiv_core_binary.
  set (d1 := Zdigits2 (Z.pos mx)). set (d2 := Zdigits2 (Z.pos my)).
  pose proof (Zdigits2_pos (Z.pos mx) ltac:(lia)) as Hd1. fold d1 in Hd1.
  pose proof (Zdigits2_pos (Z.pos my) ltac:(lia)) as Hd2. fold d2 in Hd2.
  set (delta := (d1 + ex - (d2 + ey))%Z).
  set (e' := Z.min (fexp64 delta) (ex - ey)).
  set (s := (ex - ey - e')%Z).
  assert (Hs : (0 <= s)%Z) by (unfold s, e'; lia).
  set (m' := match s with
             | Z.pos _ => Z.shiftl (Z.pos mx) s
             | 0%Z => Z.pos mx
             | Z.neg _ => 0%Z
             end).
  assert (Hm' : m' = (Z.pos mx * 2 ^ s)%Z).
  { unfold m'. destruct s as [|p|p] eqn:Es; try lia.
    apply Z.shiftl_mul_pow2. lia. }
  assert (H2s : (0 < 2 ^ s)%Z) by (apply Z.pow_pos_nonneg; lia).
  assert (Hpos : (0 < m')%Z) by (rewrite Hm'; lia).
  pose proof (Z_div_mod m' (Z.pos my) ltac:(lia)) as Hdiv.
  destruct (Z.div_eucl m' (Z.pos my)) as [q r]. destruct Hdiv as [Hq Hr].
  destruct (Zdigits2_quotient m' (Z.pos my) q r Hpos ltac:(lia) Hq Hr) as [Hq0 Hdq].
  assert (Hdm' : Zdigits2 m' = (d1 + s)%Z)
    by (rewrite Hm'; apply Zdigits2_shift; lia).
  rewrite Hdm' in Hdq. fold d2 in Hdq.
  assert (Hdelta : (delta <= Zdigits2 q + e')%Z) by (unfold delta, s in *; lia).
  assert (HXq : X = IZR m' / IZR (Z.pos my) * bpow e').
  { unfold X. rewrite Hm', mult_IZR, <- bpow_Zpow by lia.
    replace ex with (s + e' + ey)%Z by (unfold s; lia).
    rewrite !bpow_add. field. lra. }
  assert (Hloc : IZR q * bpow e' <= X < IZR (q + 1) * bpow e').
  { pose proof (bpow_pos e') as Hbe. rewrite HXq.
    assert (IZR q <= IZR m' / IZR (Z.pos my) < IZR (q + 1)) as [Hl Hh].
    { rewrite Hq, plus_IZR, mult_IZR, plus_IZR.
      assert (0 <= IZR r < IZR (Z.pos my))
        by (split; [apply IZR_le | apply IZR_lt]; lia).
      split.
      - apply Rle_trans with (IZR (Z.pos my) * IZR q / IZR (Z.pos my)).
        + right. field. lra.
        + apply Rmult_le_compat_r; [left; apply Rinv_0_lt_compat; lra | lra].
      - apply Rlt_le_trans with ((IZR (Z.pos my) * IZR q + IZR (Z.pos my)) / IZR (Z.pos my)).
        + apply Rmult_lt_compat_r; [apply Rinv_0_lt_compat; lra | lra].
        + right. field. lra. }
    split; [apply Rmult_le_compat_r; lra | apply Rmult_lt_compat_r; lra]. }
  pose proof (Zdigits2_nonneg q) as Hdq0.
  assert (Hover : (Zdigits2 q + e' <= 1023)%Z).
  { destruct (Z.eq_dec q 0) as [->|Hne].
    - cbn [Zdigits2] in *. unfold e' in *. rewrite fexp64_eq in *. lia.
    - pose proof (digits_lower q e' X ltac:(lia) (proj1 Hloc)) as Hlow.
      assert (Zdigits2 q - 1 + e' < 1023)%Z by (apply bpow_lt_inv; lra). lia. }
  assert (Hfe : (e' <= fexp64 (Zdigits2 q + e'))%Z).
  { unfold e' in *. rewrite !fexp64_eq in *. lia. }
  destruct (round_aux_value (xorb sx sy) q e' (new_location (Z.pos my) r) X)
    as (y' & Hy0 & Hfin & Hval & Herr & _).
  - exact Hq0.
  - exact Hloc.
  - intros Hexact. apply new_location_exact in Hexact. subst r.
    rewrite HXq, Hq, Z.add_0_r, mult_IZR. field. lra.
  - exact Hover.
  - rewrite fexp64_eq in Hfe. lia.
  - intros _. exact Hfe.
  - split; [exact Hfin|]. rewrite Hval.
    replace ((if xorb sx sy then -1 else 1) * y' - (if xorb sx sy then -1 else 1) * X)
      with ((if xorb sx sy then -1 else 1) * (y' - X)) by ring.
    assert (Hsign : Rabs ((if xorb sx sy then -1 else 1) * (y' - X)) = Rabs (y' - X)).
    { destruct (xorb sx sy).
      - replace (-1 * (y' - X)) with (- (y' - X)) by ring. apply Rabs_Ropp.
      - now rewrite Rmult_1_l. }
    rewrite Hsign. eapply Rle_trans; [exact Herr|].
    destruct (Z_le_gt_dec (-1074) (Zdigits2 q + e' - 53)) as [Hnormal|Hsub].
    + destruct (Z.eq_dec q 0) as [->|Hne].
      * exfalso. cbn [Zdigits2] in *. unfold e' in *. rewrite !fexp64_eq in *. lia.
      * pose proof (unit_relative q e' X ltac:(lia) (proj1 Hloc) Hnormal). lra.
    + replace (fexp64 (Zdigits2 q + e')) with (-1074)%Z by (rewrite fexp64_eq; lia).
      nra.
Qed.

End RoundingR.

(* ================================================================== *)
(** * The accuracy of the cosine similarity *)
(* ================================================================== *)

Module CosineFacts.
Import Reals Lra Rounding FloatNotions RoundingR JSNumber Rag RagNotions RagFacts
  CosineNotions.
Local Abbreviation bpow := (powerRZ 2).
Local Abbreviation u := (powerRZ 2 (-52)).
Local Open Scope R_scope.

(** ** Small powers of two *)

Lemma bpow_neg (e : Z) : bpow (- e) = / bpow e.
Proof.
  apply Rmult_eq_reg_l with (bpow e); [|apply Rgt_not_eq, bpow_pos].
  rewrite <- bpow_add, Z.add_opp_diag_r, Rinv_r by (apply Rgt_not_eq, bpow_pos).
  reflexivity.
Qed.

Lemma bpow_neg_pos (p : positive) : bpow (Z.neg p) = / IZR (2 ^ Z.pos p).
Proof.
  change (Z.neg p) with (- Z.pos p)%Z. rewrite bpow_neg, bpow_Zpow by lia.
  reflexivity.
Qed.

Lemma u_eq : u = / 4503599627370496.
Proof. now rewrite bpow_neg_pos. Qed.

(** ** One step of a sum of products *)

Lemma Rabs_bound (x b : R) : Rabs x <= b <-> - b <= x <= b.
Proof.
  split; intros H.
  - unfold Rabs in H. destruct (Rcase_abs x); lra.
  - unfold Rabs. destruct (Rcase_abs x); lra.
Qed.

Lemma step_error (K A s a m xy p r : R) :
  0 <= K -> K <= 1048576 ->
  Rabs s <= A ->
  Rabs (a - s) <= 3 * K * u * A ->
  Rabs xy <= m ->
  Rabs (p - xy) <= u * m ->
  Rabs (r - (a + p)) <= u * Rabs (a + p) ->
  Rabs (r - (s + xy)) <= 3 * (K + 1) * u * (A + m).
Proof.
  rewrite u_eq. set (v := / 4503599627370496).
  assert (Hv : 0 < v <= / 4503599627370496) by (unfold v; lra).
  clearbody v.
  intros HK0 HK Hs Ha Hxy Hp Hr.
  assert (HA : 0 <= A) by (pose proof (Rabs_pos s); lra).
  assert (Hm : 0 <= m) by (pose proof (Rabs_pos xy); lra).
  set (w1 := 3 * K * v * A) in *. set (w2 := v * m) in *.
  assert (Hw1 : 0 <= w1 <= A).
  { unfold w1. assert (0 <= K * v <= / 4) by nra. nra. }
  assert (Hw2 : 0 <= w2 <= m) by (unfold w2; nra).
  apply Rabs_bound in Hs, Ha, Hxy, Hp.
  assert (Hap : Rabs (a + p) <= A + w1 + m + w2) by (apply Rabs_bound; lra).
  assert (Hr' : Rabs (r - (a + p)) <= v * A + v * w1 + w2 + v * w2).
  { eapply Rle_trans; [exact Hr|].
    replace (v * A + v * w1 + w2 + v * w2) with (v * (A + w1 + m + w2))
      by (unfold w2; ring).
    apply Rmult_le_compat_l; lra. }
  apply Rabs_bound in Hr'. apply Rabs_bound.
  replace (3 * (K + 1) * v * (A + m))
    with (w1 + 3 * (v * A) + 3 * (K * (v * m)) + 3 * w2) by (unfold w1, w2; ring).
  fold w2.
  assert (0 <= v * A) by nra.
  assert (0 <= K * w2) by nra.
  assert (v * w1 <= v * A) by nra.
  assert (v * w2 <= w2) by nra.
  lra.
Qed.


(** ** Moderate doubles *)

Lemma moderate_value (x : float) :
  moderate x = true ->
  SFfinite (Prim2SF x) = true /\
  (value x = 0 \/ bpow (-500) <= Rabs (value x) <= bpow 500).
Proof.
  unfold moderate, value. destruct (Prim2SF x) as [s|s| |s m e]; try discriminate.
  - intros _. split; [reflexivity|]. now left.
  - intros H. apply andb_true_iff in H as [Hlo Hhi].
    apply Z.leb_le in Hlo, Hhi. split; [reflexivity|]. right.
    rewrite SF2R_finite.
    pose proof (digits_lower (Z.pos m) e _ ltac:(lia) (Rle_refl _)) as Hl.
    pose proof (digits_upper (Z.pos m) e ltac:(lia)) as Hu.
    pose proof (bpow_pos e). rewrite plus_IZR in Hu. split.
    + eapply Rle_trans; [|exact Hl]. apply bpow_le. lia.
    + apply Rle_trans with (bpow (Zdigits2 (Z.pos m) + e)); [nra|].
      apply bpow_le. lia.
Qed.

Lemma moderate_zero : moderate 0%float = true.
Proof. reflexivity. Qed.

Lemma finite_not_zero (x : float) :
  SFfinite (Prim2SF x) = true -> is_zero x = false -> value x <> 0.
Proof.
  unfold is_zero, value. rewrite eqb_spec.
  change (Prim2SF zero) with (S754_zero false).
  destruct (Prim2SF x) as [s|s| |s m e]; try discriminate.
  intros _ _. pose proof (SF2R_finite s m e) as H.
  pose proof (bpow_pos e). pose proof (IZR_lt 0 (Z.pos m) ltac:(lia)).
  intros Hzero. rewrite Hzero, Rabs_R0 in H. nra.
Qed.

Lemma SFcompare_refl (s : bool) (m : positive) (e : Z) :
  SFcompare (S754_finite s m e) (S754_finite s m e) = Some Eq.
Proof.
  cbn. destruct s; rewrite Z.compare_refl, Pos.compare_cont_refl; reflexivity.
Qed.

Lemma finite_is_finite (x : float) :
  SFfinite (Prim2SF x) = true -> is_nan x = false /\ is_finite x = true.
Proof.
  unfold is_finite, is_infinity, is_nan. rewrite !eqb_spec, abs_spec.
  change (Prim2SF infinity) with (S754_infinity false).
  destruct (Prim2SF x) as [s|s| |s m e]; try discriminate; intros _.
  - now destruct s.
  - unfold SFeqb. rewrite SFcompare_refl. now destruct s.
Qed.

(** [embedding[i] || 0] *)
Lemma or_zero_moderate (tail : list float) :
  moderate_vector tail = true ->
  moderate (or_zero (hd_error tail)) = true /\
  value (or_zero (hd_error tail)) = hd 0 (values tail).
Proof.
  destruct tail as [|y tail]; cbn [hd_error or_zero values map hd].
  - intros _. split; reflexivity.
  - cbn [moderate_vector forallb]. intros H. apply andb_true_iff in H as [Hy _].
    destruct (truthy y) eqn:Et; [now split|]. split; [reflexivity|].
    unfold truthy in Et. destruct (moderate_value y Hy) as [Hfin _].
    destruct (finite_is_finite y Hfin) as [Hnan _]. rewrite Hnan in Et.
    cbn in Et. apply negb_false_iff in Et.
    destruct (is_zero_spec y Et) as [s Hs].
    unfold value. now rewrite Hs.
Qed.

Lemma moderate_product (x y : float) :
  moderate x = true -> moderate y = true ->
  Rabs (value x * value y) <= bpow 1000 /\
  (bpow (-1022) <= Rabs (value x * value y) \/ value x * value y = 0).
Proof.
  intros Hx Hy.
  destruct (moderate_value x Hx) as [_ [Hx0|Hxr]];
    [rewrite Hx0, Rmult_0_l, Rabs_R0; split; [left; apply bpow_pos | now right]|].
  destruct (moderate_value y Hy) as [_ [Hy0|Hyr]];
    [rewrite Hy0, Rmult_0_r, Rabs_R0; split; [left; apply bpow_pos | now right]|].
  rewrite Rabs_mult.
  change 1000%Z with (500 + 500)%Z. rewrite bpow_add.
  pose proof (bpow_pos (-500)). pose proof (bpow_pos 500).
  split; [nra|]. left.
  apply Rle_trans with (bpow (-500) * bpow (-500)); [|nra].
  rewrite <- bpow_add. apply bpow_le. lia.
Qed.


(** ** Sums of products *)

Lemma bpow_21 : bpow 1021 = 2097152 * bpow 1000.
Proof.
  change 1021%Z with (21 + 1000)%Z. rewrite bpow_add. f_equal.
  now rewrite bpow_Zpow by lia.
Qed.

Lemma bpow_1023 : bpow 1023 = 4 * bpow 1021.
Proof.
  change 1023%Z with (2 + 1021)%Z. rewrite bpow_add. f_equal.
  now rewrite bpow_Zpow by lia.
Qed.

(** [sum + x * y], where [sum] stands for [s], a sum of [K] products whose
    magnitudes add up to [A]. *)
Lemma product_step (sum x y : float) (K A s : R) :
  0 <= K -> K + 1 <= 1048576 ->
  SFfinite (Prim2SF sum) = true -> moderate x = true -> moderate y = true ->
  Rabs s <= A -> A <= K * bpow 1000 ->
  Rabs (value sum - s) <= 3 * K * u * A ->
  SFfinite (Prim2SF (sum + x * y)) = true /\
  Rabs (value (sum + x * y) - (s + value x * value y))
  <= 3 * (K + 1) * u * (A + Rabs (value x * value y)) /\
  Rabs (s + value x * value y) <= A + Rabs (value x * value y) /\
  A + Rabs (value x * value y) <= (K + 1) * bpow 1000.
Proof.
  intros HK0 HK Fsum Hx Hy Hs HA Hsum.
  destruct (moderate_product x y Hx Hy) as [Hxy Hrange].
  destruct (moderate_value x Hx) as [Fx _]. destruct (moderate_value y Hy) as [Fy _].
  pose proof (bpow_pos 1000) as HB. pose proof bpow_21 as H21.
  pose proof bpow_1023 as H23.
  assert (HA0 : 0 <= A) by (pose proof (Rabs_pos s); lra).
  destruct (mul_value x y Fx Fy) as [Fp Hp]; [nra|].
  specialize (Hp Hrange).
  set (xy := value x * value y) in *. set (m := Rabs xy) in *.
  assert (Hm0 : 0 <= m) by apply Rabs_pos.
  pose proof u_eq as Hu.
  assert (Hw : 0 <= 3 * K * u * A <= A).
  { assert (0 <= K * u <= / 4) by (rewrite Hu; nra). nra. }
  assert (Hum : 0 <= u * m <= m) by (rewrite Hu; nra).
  assert (Hsum' := Hsum). assert (Hs' := Hs). assert (Hp' := Hp).
  apply Rabs_bound in Hsum', Hs', Hp'.
  assert (Hm' : - m <= xy <= m) by (apply Rabs_bound; apply Rle_refl).
  assert (HKB : 0 <= K * bpow 1000) by nra.
  destruct (add_value sum (x * y)%float Fsum Fp) as [Fr Hr].
  { apply Rle_lt_trans with (2 * A + 2 * m); [apply Rabs_bound; lra|]. nra. }
  split; [exact Fr|]. split; [|split].
  - apply step_error with (a := value sum) (p := value (x * y)); auto; try lra.
    apply Rle_refl.
  - apply Rabs_bound. lra.
  - lra.
Qed.

Lemma values_tl (v : list float) : values (tl v) = tl (values v).
Proof. now destruct v. Qed.

Lemma Rabs_tl (v : list R) : map Rabs (tl v) = tl (map Rabs v).
Proof. now destruct v. Qed.

Lemma Rabs_hd (v : list R) : hd 0 (map Rabs v) = Rabs (hd 0 v).
Proof. destruct v; cbn; [now rewrite Rabs_R0 | reflexivity]. Qed.

Lemma moderate_tl (v : list float) :
  moderate_vector v = true -> moderate_vector (tl v) = true.
Proof.
  destruct v as [|x v]; cbn; auto. intros H. now apply andb_true_iff in H.
Qed.

Lemma dot_from_error (q : list float) : forall (tail : list float) (sum : float)
    (k : Z) (s A : R),
  moderate_vector q = true -> moderate_vector tail = true ->
  (0 <= k)%Z -> (k + Z.of_nat (List.length q) <= 1048576)%Z ->
  SFfinite (Prim2SF sum) = true ->
  Rabs s <= A -> A <= IZR k * bpow 1000 ->
  Rabs (value sum - s) <= 3 * IZR k * u * A ->
  SFfinite (Prim2SF (dot_from sum q tail)) = true /\
  Rabs (value (dot_from sum q tail) - (s + Rdot (values q) (values tail)))
  <= 3 * IZR (k + Z.of_nat (List.length q)) * u
     * (A + Rdot (map Rabs (values q)) (map Rabs (values tail))).
Proof.
  induction q as [|x q IH]; intros tail sum k s A Hq Ht Hk Hn Fsum Hs HA Hsum.
  - cbn [dot_from values map Rdot List.length Z.of_nat]. rewrite Z.add_0_r, !Rplus_0_r.
    now split.
  - cbn [moderate_vector forallb] in Hq. apply andb_true_iff in Hq as [Hx Hq].
    destruct (or_zero_moderate tail Ht) as [Hy Vy].
    rewrite length_cons, Nat2Z.inj_succ in Hn |- *.
    destruct (product_step sum x (or_zero (hd_error tail)) (IZR k) A s)
      as (Fr & Hr & Hs' & HA'); auto.
    { apply IZR_le. lia. }
    { rewrite <- plus_IZR. apply IZR_le. lia. }
    rewrite <- plus_IZR in Hr, HA'.
    destruct (IH (tl tail) _ (k + 1)%Z _ _ Hq (moderate_tl _ Ht) ltac:(lia) ltac:(lia)
                Fr Hs' HA' Hr) as [Ffinal Hfinal].
    cbn [dot_from]. split; [exact Ffinal|].
    cbn [values map Rdot]. fold (values q). fold (values tail).
    rewrite Rabs_hd, <- Rabs_tl, <- values_tl, <- Rabs_mult, <- Vy.
    replace (k + Z.succ (Z.of_nat (List.length q)))%Z
      with (k + 1 + Z.of_nat (List.length q))%Z by lia.
    rewrite <- !Rplus_assoc. exact Hfinal.
Qed.

Lemma squares_error (v : list float) : forall (sum : float) (k : Z) (s A : R),
  moderate_vector v = true ->
  (0 <= k)%Z -> (k + Z.of_nat (List.length v) <= 1048576)%Z ->
  SFfinite (Prim2SF sum) = true ->
  Rabs s <= A -> A <= IZR k * bpow 1000 ->
  Rabs (value sum - s) <= 3 * IZR k * u * A ->
  SFfinite (Prim2SF (fold_left (fun sum val => sum + val * val)%float v sum)) = true /\
  Rabs (value (fold_left (fun sum val => sum + val * val)%float v sum)
        - (s + Rdot (values v) (values v)))
  <= 3 * IZR (k + Z.of_nat (List.length v)) * u * (A + Rdot (values v) (values v)).
Proof.
  induction v as [|x v IH]; intros sum k s A Hv Hk Hn Fsum Hs HA Hsum.
  - cbn [fold_left values map Rdot List.length Z.of_nat]. rewrite Z.add_0_r, !Rplus_0_r.
    now split.
  - cbn [moderate_vector forallb] in Hv. apply andb_true_iff in Hv as [Hx Hv].
    rewrite length_cons, Nat2Z.inj_succ in Hn |- *.
    destruct (product_step sum x x (IZR k) A s) as (Fr & Hr & Hs' & HA'); auto.
    { apply IZR_le. lia. }
    { rewrite <- plus_IZR. apply IZR_le. lia. }
    rewrite <- plus_IZR in Hr, HA'.
    destruct (IH _ (k + 1)%Z _ _ Hv ltac:(lia) ltac:(lia) Fr Hs' HA' Hr)
      as [Ffinal Hfinal].
    cbn [fold_left]. split; [exact Ffinal|].
    cbn [values map Rdot hd tl]. fold (values v).
    replace (k + Z.succ (Z.of_nat (List.length v)))%Z
      with (k + 1 + Z.of_nat (List.length v))%Z by lia.
    assert (Hsq : Rabs (value x * value x) = value x * value x)
      by (apply Rabs_pos_eq; nra).
    rewrite Hsq in Hfinal. rewrite <- !Rplus_assoc. exact Hfinal.
Qed.


(** ** The exact sums *)

Lemma Rdot_abs_nonneg (x : list R) : forall y,
  0 <= Rdot (map Rabs x) (map Rabs y).
Proof.
  induction x as [|a x IH]; intros y; cbn [map Rdot]; [apply Rle_refl|].
  rewrite Rabs_hd, <- Rabs_tl. specialize (IH (tl y)).
  pose proof (Rabs_pos a). pose proof (Rabs_pos (hd 0 y)). nra.
Qed.

Lemma Rdot_le_abs (x : list R) : forall y,
  Rabs (Rdot x y) <= Rdot (map Rabs x) (map Rabs y).
Proof.
  induction x as [|a x IH]; intros y; cbn [map Rdot].
  - rewrite Rabs_R0. apply Rle_refl.
  - rewrite Rabs_hd, <- Rabs_tl. specialize (IH (tl y)).
    eapply Rle_trans; [apply Rabs_triang|]. rewrite Rabs_mult. lra.
Qed.

Lemma Rdot_self_nonneg (x : list R) : 0 <= Rdot x x.
Proof.
  induction x as [|a x IH]; cbn [Rdot hd tl]; [apply Rle_refl | nra].
Qed.

Lemma square_le (x y : R) : 0 <= x -> 0 <= y -> x * x <= y * y -> x <= y.
Proof. intros. nra. Qed.

Lemma cauchy_schwarz_squares (x : list R) : forall y,
  Rdot (map Rabs x) (map Rabs y) * Rdot (map Rabs x) (map Rabs y)
  <= Rdot x x * Rdot y y.
Proof.
  induction x as [|a x IH]; intros y.
  - cbn [map Rdot]. pose proof (Rdot_self_nonneg y). nra.
  - destruct y as [|b y].
    + specialize (IH []). cbn [map Rdot hd tl] in *.
      rewrite Rmult_0_r in *. rewrite Rplus_0_l. lra.
    + specialize (IH y). cbn [map Rdot hd tl].
      pose proof (Rdot_abs_nonneg x y) as HA.
      pose proof (Rdot_self_nonneg x) as HS. pose proof (Rdot_self_nonneg y) as HT.
      set (A := Rdot (map Rabs x) (map Rabs y)) in *.
      set (S := Rdot x x) in *. set (T := Rdot y y) in *.
      pose proof (Rabs_pos a) as Ha. pose proof (Rabs_pos b) as Hb.
      assert (Haa : Rabs a * Rabs a = a * a)
        by (rewrite <- Rabs_mult; apply Rabs_pos_eq; nra).
      assert (Hbb : Rabs b * Rabs b = b * b)
        by (rewrite <- Rabs_mult; apply Rabs_pos_eq; nra).
      set (al := Rabs a) in *. set (be := Rabs b) in *.
      assert (Hmid : 2 * (al * be * A) <= a * a * T + S * (b * b)).
      { apply square_le.
        - assert (0 <= al * be) by nra. nra.
        - nra.
        - pose proof (Rle_0_sqr (a * a * T - S * (b * b))) as Hsq.
          unfold Rsqr in Hsq.
          assert (Hprod : (al * be) * (al * be) * (A * A)
                          <= (al * be) * (al * be) * (S * T)).
          { apply Rmult_le_compat_l; [nra | exact IH]. }
          replace ((al * be) * (al * be)) with ((a * a) * (b * b)) in Hprod
            by (rewrite <- Haa, <- Hbb; ring).
          replace (2 * (al * be * A) * (2 * (al * be * A)))
            with (4 * ((a * a) * (b * b) * (A * A)))
            by (rewrite <- Haa, <- Hbb; ring).
          nra. }
      replace ((al * be + A) * (al * be + A))
        with ((al * al) * (be * be) + 2 * (al * be * A) + A * A) by ring.
      rewrite Haa, Hbb. nra.
Qed.

Lemma cauchy_schwarz (x y : list R) :
  Rdot (map Rabs x) (map Rabs y) <= sqrt (Rdot x x) * sqrt (Rdot y y).
Proof.
  rewrite <- sqrt_mult by apply Rdot_self_nonneg.
  rewrite <- (sqrt_square (Rdot (map Rabs x) (map Rabs y)))
    by apply Rdot_abs_nonneg.
  apply sqrt_le_1_alt, cauchy_schwarz_squares.
Qed.

Lemma squares_upper (v : list float) :
  moderate_vector v = true ->
  Rdot (values v) (values v) <= IZR (Z.of_nat (List.length v)) * bpow 1000.
Proof.
  induction v as [|x v IH]; intros Hv.
  - cbn. lra.
  - cbn [moderate_vector forallb] in Hv. apply andb_true_iff in Hv as [Hx Hv].
    specialize (IH Hv). rewrite length_cons, Nat2Z.inj_succ, succ_IZR.
    cbn [values map Rdot hd tl]. fold (values v).
    destruct (moderate_product x x Hx Hx) as [Hxx _].
    apply Rabs_bound in Hxx. lra.
Qed.

Lemma squares_lower (v : list float) :
  moderate_vector v = true -> zero_vector v = false ->
  bpow (-1000) <= Rdot (values v) (values v).
Proof.
  induction v as [|x v IH]; intros Hv Hz; [discriminate|].
  cbn [moderate_vector forallb] in Hv. apply andb_true_iff in Hv as [Hx Hv].
  cbn [zero_vector forallb] in Hz.
  cbn [values map Rdot hd tl]. fold (values v).
  pose proof (Rdot_self_nonneg (values v)) as Hrest.
  destruct (is_zero x) eqn:Ex.
  - cbn in Hz. specialize (IH Hv Hz). nra.
  - destruct (moderate_value x Hx) as [Fx [H0|[Hlo _]]].
    + now apply finite_not_zero in Ex.
    + assert (Hsq : bpow (-1000) = bpow (-500) * bpow (-500))
        by (rewrite <- bpow_add; reflexivity).
      pose proof (bpow_pos (-500)).
      assert (Rabs (value x) * Rabs (value x) = value x * value x)
        by (rewrite <- Rabs_mult; apply Rabs_pos_eq; nra).
      nra.
Qed.


(** ** The magnitude *)

Lemma positive_finite (x : float) :
  SFfinite (Prim2SF x) = true -> 0 < value x ->
  exists m e, Prim2SF x = S754_finite false m e.
Proof.
  unfold value. destruct (Prim2SF x) as [s|s| |s m e]; try discriminate;
    intros _; cbn [SF2R]; [lra|].
  destruct s; [|eauto]. intros H.
  pose proof (bpow_pos e). pose proof (IZR_lt 0 (Z.pos m) ltac:(lia)). nra.
Qed.

Lemma sqrt_near (S T : R) :
  0 < S -> Rabs (T - S) <= 3 / 4294967296 * S ->
  Rabs (sqrt T - sqrt S) <= 3 / 4294967296 * sqrt S.
Proof.
  intros HS HT. apply Rabs_bound in HT.
  assert (HT0 : 0 <= T) by lra.
  pose proof (sqrt_lt_R0 S HS) as HN.
  pose proof (sqrt_sqrt S ltac:(lra)) as HNN.
  pose proof (sqrt_pos T) as Hr. pose proof (sqrt_sqrt T HT0) as Hrr.
  set (N := sqrt S) in *. set (r := sqrt T) in *.
  apply Rabs_bound. split.
  - assert (N * (1 - 3 / 4294967296) <= r); [|lra].
    apply square_le; [nra | lra | nra].
  - assert (r <= N * (1 + 3 / 4294967296)); [|lra].
    apply square_le; [lra | nra | nra].
Qed.

Lemma magnitude_error (v : list float) :
  moderate_vector v = true -> zero_vector v = false ->
  (Z.of_nat (List.length v) <= 1048576)%Z ->
  SFfinite (Prim2SF (magnitude v)) = true /\
  Rabs (value (magnitude v) - norm v) <= 7 / 10000000000 * norm v /\
  bpow (-500) <= norm v <= bpow 510.
Proof.
  intros Hv Hz Hn. unfold magnitude, norm, dot.
  destruct (squares_error v 0%float 0 0 0 Hv ltac:(lia) ltac:(lia) eq_refl)
    as [FS HS].
  { rewrite Rabs_R0. apply Rle_refl. }
  { lra. }
  { change (value 0) with 0. rewrite Rminus_diag, Rabs_R0. lra. }
  rewrite Z.add_0_l, !Rplus_0_l in HS.
  pose proof (squares_lower v Hv Hz) as Hlow.
  pose proof (squares_upper v Hv) as Hup.
  set (S := Rdot (values v) (values v)) in *.
  set (S' := fold_left (fun sum val => sum + val * val)%float v 0%float) in *.
  pose proof (bpow_pos (-1000)) as Hpos.
  assert (Hn' : 0 <= IZR (Z.of_nat (List.length v)) <= 1048576)
    by (split; apply IZR_le; lia).
  assert (HS' : Rabs (value S' - S) <= 3 / 4294967296 * S).
  { eapply Rle_trans; [exact HS|]. rewrite u_eq.
    assert (3 * IZR (Z.of_nat (List.length v)) * / 4503599627370496 <= 3 / 4294967296)
      by lra.
    apply Rmult_le_compat_r; lra. }
  assert (Hval : 0 < value S') by (apply Rabs_bound in HS'; nra).
  destruct (positive_finite S' FS Hval) as (m & e & Em).
  destruct (sqrt_value S' m e Em) as (FM & HM0 & HM).
  pose proof (sqrt_near S (value S') ltac:(lra) HS') as Hnear.
  pose proof (sqrt_lt_R0 S ltac:(lra)) as HN.
  rewrite u_eq in HM.
  set (N := sqrt S) in *. set (r := sqrt (value S')) in *.
  split; [exact FM|]. split.
  - apply Rabs_bound in HM, Hnear. apply Rabs_bound. nra.
  - split.
    + apply square_le; [left; apply bpow_pos | lra |].
      unfold N. rewrite sqrt_sqrt by lra. rewrite <- bpow_add. exact Hlow.
    + apply square_le; [lra | left; apply bpow_pos |].
      unfold N. rewrite sqrt_sqrt by lra. rewrite <- bpow_add.
      change (510 + 510)%Z with (20 + 1000)%Z. rewrite bpow_add.
      replace (bpow 20) with 1048576 by (now rewrite bpow_Zpow by lia).
      pose proof (bpow_pos 1000). nra.
Qed.

(** ** The quotient *)

Lemma product_near (Nq Ne mq me P : R) :
  0 < Nq -> 0 < Ne ->
  Rabs (mq - Nq) <= 7 / 10000000000 * Nq ->
  Rabs (me - Ne) <= 7 / 10000000000 * Ne ->
  Rabs (P - mq * me) <= u * Rabs (mq * me) ->
  Rabs (mq * me - Nq * Ne) <= 29 / 20000000000 * (Nq * Ne) /\
  Rabs (P - Nq * Ne) <= 3 / 2000000000 * (Nq * Ne).
Proof.
  rewrite u_eq. intros Hq He Hmq Hme HP.
  apply Rabs_bound in Hmq, Hme.
  assert (HZ : 0 < Nq * Ne) by nra.
  assert (Hhi : mq * me <= (Nq * (1 + 7 / 10000000000)) * (Ne * (1 + 7 / 10000000000)))
    by (apply Rmult_le_compat; lra).
  assert (Hlo : (Nq * (1 - 7 / 10000000000)) * (Ne * (1 - 7 / 10000000000)) <= mq * me)
    by (apply Rmult_le_compat; lra).
  replace (Nq * (1 + 7 / 10000000000) * (Ne * (1 + 7 / 10000000000)))
    with (Nq * Ne * ((1 + 7 / 10000000000) * (1 + 7 / 10000000000))) in Hhi by ring.
  replace (Nq * (1 - 7 / 10000000000) * (Ne * (1 - 7 / 10000000000)))
    with (Nq * Ne * ((1 - 7 / 10000000000) * (1 - 7 / 10000000000))) in Hlo by ring.
  set (Z := Nq * Ne) in *. set (t := mq * me) in *.
  assert (Ht : 0 < t) by lra.
  rewrite (Rabs_pos_eq t) in HP by lra.
  apply Rabs_bound in HP.
  split; apply Rabs_bound; lra.
Qed.

Lemma ratio_near (D A Z Dh Ph : R) :
  0 < Z -> Rabs D <= A -> A <= Z ->
  Rabs (Dh - D) <= 3 / 4294967296 * A ->
  Rabs (Ph - Z) <= 3 / 2000000000 * Z ->
  Rabs (Dh / Ph) <= 2 /\ Rabs (Dh / Ph - D / Z) <= 23 / 10000000000.
Proof.
  intros HZ HD HA HDh HPh.
  apply Rabs_bound in HD, HDh, HPh.
  assert (HP : 0 < Ph) by lra.
  set (x := Dh / Ph). set (d := D / Z).
  assert (Hx : x * Ph = Dh) by (unfold x; field; lra).
  assert (Hd : d * Z = D) by (unfold d; field; lra).
  assert (Hd1 : -1 <= d <= 1) by (split; nra).
  assert (Hw : - (22 / 10000000000 * Z) <= (x - d) * Ph <= 22 / 10000000000 * Z).
  { replace ((x - d) * Ph) with ((Dh - D) + d * (Z - Ph)) by (rewrite <- Hx, <- Hd; ring).
    assert (- (3 / 2000000000 * Z) <= d * (Z - Ph) <= 3 / 2000000000 * Z) by (split; nra).
    lra. }
  assert (Hnear : - (23 / 10000000000) <= x - d <= 23 / 10000000000).
  { split.
    - destruct (Rle_or_lt (- (23 / 10000000000)) (x - d)) as [|Hbad]; [assumption|].
      assert ((x - d) * Ph < - (23 / 10000000000) * Ph)
        by (apply Rmult_lt_compat_r; lra).
      lra.
    - destruct (Rle_or_lt (x - d) (23 / 10000000000)) as [|Hbad]; [assumption|].
      assert (23 / 10000000000 * Ph < (x - d) * Ph)
        by (apply Rmult_lt_compat_r; lra).
      lra. }
  split; apply Rabs_bound; lra.
Qed.


Lemma quotient_error (q e : list float) :
  moderate_vector q = true -> moderate_vector e = true ->
  zero_vector q = false -> zero_vector e = false ->
  (Z.of_nat (List.length q) <= 1048576)%Z -> (Z.of_nat (List.length e) <= 1048576)%Z ->
  SFfinite (Prim2SF (quotient q e)) = true /\
  Rabs (value (quotient q e) - cosine q e) <= bpow (-28) /\
  0 < norm q * norm e.
Proof.
  intros Hq He Zq Ze Nq Ne.
  destruct (magnitude_error q Hq Zq Nq) as (Fq & Mq & Rq).
  destruct (magnitude_error e He Ze Ne) as (Fe & Me & Re).
  destruct (dot_from_error q e 0%float 0 0 0 Hq He ltac:(lia) ltac:(lia) eq_refl)
    as [FD HD].
  { rewrite Rabs_R0. apply Rle_refl. }
  { lra. }
  { change (value 0) with 0. rewrite Rminus_diag, Rabs_R0. lra. }
  rewrite Z.add_0_l, !Rplus_0_l in HD. fold (dotProduct q e) in FD, HD.
  fold (dot q e) in HD.
  pose proof (Rdot_le_abs (values q) (values e)) as HDA. fold (dot q e) in HDA.
  pose proof (cauchy_schwarz (values q) (values e)) as HCS.
  fold (dot q q) in HCS. fold (dot e e) in HCS. fold (norm q) in HCS.
  fold (norm e) in HCS.
  pose proof (Rdot_abs_nonneg (values q) (values e)) as HA0.
  set (A := Rdot (map Rabs (values q)) (map Rabs (values e))) in *.
  pose proof (bpow_pos (-500)) as Hb500. pose proof (bpow_pos 510) as Hb510.
  assert (HNq : 0 < norm q) by lra. assert (HNe : 0 < norm e) by lra.
  assert (HZ : 0 < norm q * norm e) by nra.
  assert (HD' : Rabs (value (dotProduct q e) - dot q e) <= 3 / 4294967296 * A).
  { eapply Rle_trans; [exact HD|]. rewrite u_eq.
    assert (0 <= IZR (Z.of_nat (List.length q)) <= 1048576)
      by (split; apply IZR_le; lia).
    assert (3 * IZR (Z.of_nat (List.length q)) * / 4503599627370496 <= 3 / 4294967296)
      by lra.
    apply Rmult_le_compat_r; lra. }
  assert (Hmq := Mq). assert (Hme := Me). apply Rabs_bound in Hmq, Hme.
  assert (Hmq0 : norm q / 2 <= value (magnitude q) <= 2 * norm q) by lra.
  assert (Hme0 : norm e / 2 <= value (magnitude e) <= 2 * norm e) by lra.
  assert (Hprod_hi : value (magnitude q) * value (magnitude e)
                     <= (2 * bpow 510) * (2 * bpow 510))
    by (apply Rmult_le_compat; lra).
  assert (Hprod_lo : (bpow (-500) / 2) * (bpow (-500) / 2)
                     <= value (magnitude q) * value (magnitude e))
    by (apply Rmult_le_compat; lra).
  assert (H1022 : bpow 1022 = 4 * (bpow 510 * bpow 510)).
  { rewrite <- bpow_add. change 1022%Z with (2 + (510 + 510))%Z.
    rewrite (bpow_add 2). f_equal. now rewrite bpow_Zpow by lia. }
  assert (Hm1002 : bpow (-1002) = bpow (-500) * bpow (-500) / 4).
  { rewrite <- bpow_add. change (-1002)%Z with (-2 + (-500 + -500))%Z.
    rewrite (bpow_add (-2)).
    replace (bpow (-2)) with (/ 4) by (now rewrite bpow_neg_pos). field. }
  pose proof (bpow_lt 1022 1023 ltac:(lia)) as Hlt.
  pose proof (bpow_le (-1022) (-1002) ltac:(lia)) as Hle.
  assert (Hpos : 0 < value (magnitude q) * value (magnitude e)) by nra.
  destruct (mul_value (magnitude q) (magnitude e) Fq Fe) as [FP HP].
  { rewrite Rabs_pos_eq by lra. nra. }
  specialize (HP ltac:(left; rewrite Rabs_pos_eq by lra; nra)).
  destruct (product_near _ _ _ _ _ HNq HNe Mq Me HP) as [_ HPZ].
  assert (HPpos : 0 < value (magnitude q * magnitude e))
    by (apply Rabs_bound in HPZ; nra).
  destruct (positive_finite _ FP HPpos) as (mp & ep & Ep).
  destruct (ratio_near (dot q e) A (norm q * norm e)
              (value (dotProduct q e)) (value (magnitude q * magnitude e))
              HZ HDA HCS HD' HPZ) as [Hx Hnear].
  pose proof (bpow_le 1 1022 ltac:(lia)) as H2.
  rewrite (bpow_Zpow 1) in H2 by lia. change (IZR (2 ^ 1)) with 2 in H2.
  destruct (div_value (dotProduct q e) (magnitude q * magnitude e)%float
              false mp ep FD Ep) as [Fc Hc]; [lra|].
  fold (quotient q e) in Fc, Hc.
  split; [exact Fc|]. split; [|exact HZ].
  unfold cosine.
  pose proof (bpow_le (-1074) (-52) ltac:(lia)) as Heta.
  rewrite u_eq in Hc, Heta.
  replace (bpow (-28)) with (/ 268435456) by (now rewrite bpow_neg_pos).
  pose proof (bpow_pos (-1074)).
  apply Rabs_bound in Hx, Hnear, Hc. apply Rabs_bound.
  assert (Rabs (value (dotProduct q e) / value (magnitude q * magnitude e)) <= 2)
    by (apply Rabs_bound; lra).
  lra.
Qed.


Lemma cosine_identical (q : list float) : 0 < norm q * norm q -> cosine q q = 1.
Proof.
  intros H. unfold cosine. unfold norm in *.
  rewrite sqrt_sqrt in * by apply Rdot_self_nonneg. fold (dot q q) in *.
  field. lra.
Qed.

(** ** The similarity of a chunk, against the exact cosine *)

(** Outside the range of the moderate doubles the approximation is lost:
    the vectors [(1.5, 1.5, -3) * 2^-537] and [(1, 1, 1) * 2^-537] are
    orthogonal, the three products underflow, and the similarity is about
    [1/6]. *)
Lemma chunk_similarity_underflow :
  let q := [0x1.8p-537; 0x1.8p-537; (-0x3p-537)]%float in
  let e := [0x1p-537; 0x1p-537; 0x1p-537]%float in
  dot q e = 0 /\
  chunk_similarity q (stored (Some e)) = 0.16666666666666666%float.
Proof.
  split; [|vm_compute; reflexivity].
  unfold dot, values, value. cbn [map Rdot hd tl].
  repeat match goal with
         | |- context [Prim2SF ?x] =>
             let y := eval vm_compute in (Prim2SF x) in
             change (Prim2SF x) with y
         end.
  cbn [SF2R].
  replace (bpow (-588)) with (2 * bpow (-589))
    by (change (-588)%Z with (1 + -589)%Z; rewrite bpow_add;
        rewrite (bpow_Zpow 1) by lia; reflexivity).
  lra.
Qed.

(** C8 (amended): in the fallback path the similarity given to a chunk is
    never NaN.  It is 0 when the stored vector is missing or empty, and else
    it is the quotient [dot(q, v) / (|q| * |v|)], replaced by 0 exactly when
    that quotient is NaN; an infinite quotient is kept.  The quotient is NaN,
    so the similarity 0, whenever the query or the stored vector is empty or
    all zero.  When both vectors have at most [2^20] components, each of
    them zero or of a magnitude from [2^-500] up to [2^500], and neither
    vector is all zero, the similarity is finite and within [2^-28] of the
    exact cosine: within [2^-28] of 0 for orthogonal vectors and within
    [2^-28] of 1 for identical vectors.  For the orthogonal vectors (1,0)
    and (0,1) it is 0, for the identical vectors (1,2,3) it is 1, and for the
    vector (0.1,0.7) with itself it is [1.0000000000000002]. *)
Theorem chunk_similarity_cosine (q : list float) (chunk : DocumentChunk) :
  is_nan (chunk_similarity q chunk) = false /\
  chunk_similarity q chunk =
    match embedding chunk with
    | None | Some [] => 0%float
    | Some e => if is_nan (quotient q e) then 0%float else quotient q e
    end /\
  (zero_vector q = true -> chunk_similarity q chunk = 0%float) /\
  (forall e, embedding chunk = Some e -> zero_vector e = true ->
     chunk_similarity q chunk = 0%float) /\
  (forall e, embedding chunk = Some e ->
     moderate_vector q = true -> moderate_vector e = true ->
     zero_vector q = false -> zero_vector e = false ->
     (Z.of_nat (List.length q) <= 2 ^ 20)%Z -> (Z.of_nat (List.length e) <= 2 ^ 20)%Z ->
     is_finite (chunk_similarity q chunk) = true /\
     chunk_similarity q chunk = quotient q e /\
     Rabs (value (chunk_similarity q chunk) - cosine q e) <= powerRZ 2 (-28) /\
     (dot q e = 0 -> Rabs (value (chunk_similarity q chunk)) <= powerRZ 2 (-28)) /\
     (q = e -> Rabs (value (chunk_similarity q chunk) - 1) <= powerRZ 2 (-28))) /\
  chunk_similarity [1; 0]%float (stored (Some [0; 1]%float)) = 0%float /\
  chunk_similarity [1; 2; 3]%float (stored (Some [1; 2; 3]%float)) = 1%float /\
  chunk_similarity [0.1; 0.7]%float (stored (Some [0.1; 0.7]%float))
  = 1.0000000000000002%float.
Proof.
  split; [|split; [|split; [|split; [|split]]]].
  - unfold chunk_similarity. destruct (embedding chunk) as [[|x e]|]; try reflexivity.
    destruct (is_nan (quotient q (x :: e))) eqn:E; [reflexivity | exact E].
  - reflexivity.
  - intros Hq. unfold chunk_similarity.
    destruct (embedding chunk) as [[|x e]|]; try reflexivity.
    now rewrite quotient_zero_query.
  - intros e He Hz. unfold chunk_similarity. rewrite He.
    destruct e as [|x e]; try reflexivity.
    now rewrite quotient_zero_embedding.
  - intros e He Mq Me Zq Ze Nq Ne.
    destruct (quotient_error q e Mq Me Zq Ze Nq Ne) as (Fc & Hc & HZ).
    destruct (finite_is_finite _ Fc) as [Hnan Hfin].
    assert (Hsim : chunk_similarity q chunk = quotient q e).
    { unfold chunk_similarity. rewrite He. destruct e as [|x e]; [discriminate|].
      now rewrite Hnan. }
    rewrite Hsim. repeat split; auto.
    + intros Hdot. unfold cosine in Hc. rewrite Hdot in Hc.
      unfold Rdiv in Hc. now rewrite Rmult_0_l, Rminus_0_r in Hc.
    + intros ->. now rewrite cosine_identical in Hc.
  - repeat split; vm_compute; reflexivity.
Qed.

(** The vector (0.1,0.7) with itself, and the orthogonal vectors (0.6,0.8)
    and (0.8,-0.6). *)
Lemma chunk_similarity_cosine_witness :
  Rabs (value (chunk_similarity [0.1; 0.7]%float (stored (Some [0.1; 0.7]%float))) - 1)
  <= powerRZ 2 (-28) /\
  Rabs (value (chunk_similarity [0.6; 0.8]%float (stored (Some [0.8; -0.6]%float))))
  <= powerRZ 2 (-28).
Proof.
  split.
  - apply (chunk_similarity_cosine [0.1; 0.7]%float (stored (Some [0.1; 0.7]%float)))
      with (e := [0.1; 0.7]%float); try reflexivity; vm_compute; discriminate.
  - apply (chunk_similarity_cosine [0.6; 0.8]%float (stored (Some [0.8; -0.6]%float)))
      with (e := [0.8; -0.6]%float); try reflexivity;
      try (vm_compute; discriminate).
    unfold dot, values, value. cbn [map Rdot hd tl].
    repeat match goal with
           | |- context [Prim2SF ?x] =>
               let y := eval vm_compute in (Prim2SF x) in
               change (Prim2SF x) with y
           end.
    cbn [SF2R]. lra.
Defined.

End CosineFacts.

(* ================================================================== *)
(** * Properties of the upload route *)
(* ================================================================== *)

Module UploadFacts.
Import JS JSNumber ProcessDocument Upload TextNotions UploadNotions.
Import ChunkerFacts NormalizerFacts OverlapFacts ProcessFacts.

(** ** The requests to the store *)

Lemma insert_document_inv (user name content : string) (count : option Z)
    (w w1 : World) (r : DocumentRow + PostgrestError) :
  insert_document user name content count w = (w1, r) ->
  same_deletes w w1 /\
  on_insert_chunks (plan w1) = on_insert_chunks (plan w) /\
  match r with
  | inl row =>
      row = {| id := next_id (store w); user_id := user; name := name;
               content := content; chunk_count := count |} /\
      documents (store w1) = (documents (store w) ++ [row])%list /\
      document_chunks (store w1) = document_chunks (store w)
  | inr _ => store w1 = store w
  end.
Proof.
  unfold insert_document, same_deletes.
  destruct (next _) as [[|e] rest]; intros [= <- <-]; simpl; auto.
Qed.

Lemma insert_chunks_inv (batch : list ChunkRow) (w w1 : World)
    (r : option PostgrestError) :
  insert_chunks batch w = (w1, r) ->
  same_deletes w w1 /\
  match r with
  | None =>
      (exists rest, next (on_insert_chunks (plan w)) = (Served, rest) /\
                    on_insert_chunks (plan w1) = rest) /\
      documents (store w1) = documents (store w) /\
      document_chunks (store w1) = (document_chunks (store w) ++ batch)%list
  | Some e =>
      (exists rest, next (on_insert_chunks (plan w)) = (Refused e, rest)) /\
      store w1 = store w
  end.
Proof.
  unfold insert_chunks, same_deletes.
  destruct (next _) as [[|e] rest]; intros [= <- <-]; simpl;
    repeat split; eauto.
Qed.

(** After the two deletes, when the store serves them, no row of the
    document is left and the other rows are untouched. *)
Lemma deletes_remove_rows (doc : Z) (w : World) :
  deletes_served w ->
  let w' := delete_chunks doc (delete_document doc w) in
  documents (store w')
    = filter (fun row => negb (id row =? doc)) (documents (store w)) /\
  document_chunks (store w')
    = filter (fun row => negb (document_id row =? doc)) (document_chunks (store w)).
Proof.
  intros [Hd Hc]. unfold delete_chunks, delete_document.
  rewrite Hd. simpl. rewrite Hc. simpl. auto.
Qed.



(** ** The loop that stores the chunks *)

(** The loop returns a response only for a refused batch, and then after
    the two deletes; it falls through when every batch was written. *)
Lemma store_batches_inv (doc : Z) (batches : list (list ChunkRow)) :
  forall (i : Z) (w w' : World) (r : option Response),
    store_batches doc i batches w = (w', r) ->
    match r with
    | None =>
        documents (store w') = documents (store w) /\
        document_chunks (store w')
          = (document_chunks (store w) ++ List.concat batches)%list
    | Some response =>
        chunks_error response /\
        (exists written refused w1,
           (written ++ refused)%list = batches /\ refused <> [] /\
           documents (store w1) = documents (store w) /\
           document_chunks (store w1)
             = (document_chunks (store w) ++ List.concat written)%list /\
           same_deletes w w1 /\
           w' = delete_chunks doc (delete_document doc w1))
    end.
Proof.
  induction batches as [|batch rest IH]; intros i w w' r H; simpl in H.
  - injection H as <- <-. simpl. now rewrite app_nil_r.
  - destruct (insert_chunks batch w) as [w1 [e|]] eqn:Hinsert;
      apply insert_chunks_inv in Hinsert as [Hsame Hinsert].
    + injection H as <- <-. destruct Hinsert as [_ Hstore]. split.
      * unfold chunks_error. eauto.
      * exists [], (batch :: rest), w1. simpl. rewrite Hstore, app_nil_r.
        repeat split; auto; try apply Hsame. discriminate.
    + destruct Hinsert as [_ [Hdocs Hchunks]].
      specialize (IH _ _ _ _ H). destruct r as [response|].
      * destruct IH as [Herr (written & refused & w2 & Hsplit & Hne & Hd & Hc & Hs & Hw)].
        split; auto.
        exists (batch :: written), refused, w2. simpl.
        rewrite Hsplit, Hd, Hc, Hdocs, Hchunks, <- app_assoc.
        repeat split; auto.
        -- destruct Hs as [-> _]. apply Hsame.
        -- destruct Hs as [_ ->]. apply Hsame.
      * destruct IH as [Hd Hc]. simpl.
        rewrite Hd, Hc, Hdocs, Hchunks, <- app_assoc. auto.
Qed.

(** ** The creation of the document record *)

Lemma create_document_inv (user name content : string) (count : Z)
    (w w1 : World) (r : DocumentRow + PostgrestError) :
  create_document user name content count w = (w1, r) ->
  same_deletes w w1 /\
  on_insert_chunks (plan w1) = on_insert_chunks (plan w) /\
  match r with
  | inl row =>
      id row = next_id (store w) /\ Upload.content row = content /\
      documents (store w1) = (documents (store w) ++ [row])%list /\
      document_chunks (store w1) = document_chunks (store w)
  | inr _ => store w1 = store w
  end.
Proof.
  unfold create_document.
  destruct (insert_document user name content (Some count) w) as [w0 first] eqn:H0.
  apply insert_document_inv in H0 as ([Hd0 Hc0] & Hi0 & H0).
  destruct first as [row|e].
  - intros [= <- <-]. destruct H0 as (-> & Hdocs & Hchunks). now repeat split.
  - destruct (includes (message e) "chunk_count").
    + intros H1. apply insert_document_inv in H1 as ([Hd1 Hc1] & Hi1 & H1).
      split; [split; congruence|]. split; [congruence|].
      destruct r as [row|e1].
      * destruct H1 as (-> & Hdocs & Hchunks). rewrite <- H0. now repeat split.
      * congruence.
    + intros [= <- <-]. now repeat split.
Qed.

(** ** The responses that come from the storing of the chunks *)

Lemma chunks_error_from_storage (response : Response) :
  chunks_error response -> from_storage response /\ loop_result response = Some response.
Proof.
  intros (error & details & batchIndex & ->). now split.
Qed.

(** A response that comes from the storing of the chunks was produced
    after the document record was created and the embeddings validated. *)
Lemma persist_inv (user name : string) (chunks : list string)
    (embeddings : list (list float)) (w w' : World) (response : Response) :
  persist user name chunks embeddings w = (w', inl response) ->
  from_storage response ->
  exists document w1,
    id document = next_id (store w) /\
    Upload.content document = join newline2 chunks /\
    documents (store w1) = (documents (store w) ++ [document])%list /\
    document_chunks (store w1) = document_chunks (store w) /\
    same_deletes w w1 /\
    store_batches (id document) 0
      (batched BATCH_SIZE (chunkInserts (id document) 0 chunks embeddings)) w1
    = (w', loop_result response) /\
    match response with
    | Uploaded d n => d = document /\ n = Z.of_nat (List.length chunks)
    | Failed _ _ _ _ _ => True
    end.
Proof.
  unfold persist, check_table.
  destruct (create_document _ _ _ _ _) as [w1 [document|e]] eqn:Hcreate;
    [|intros [= <- <-] H; discriminate H].
  apply create_document_inv in Hcreate as (Hsame & _ & Hid & Hcontent & Hdocs & Hchunks).
  destruct (negb (same_length embeddings chunks)); [discriminate|].
  destruct (wrong_dimension 0 embeddings); [discriminate|].
  destruct (store_batches _ _ _ _) as [w2 [r|]] eqn:Hloop; intros [= <- <-] Hfrom;
    exists document, w1; repeat split; auto; try apply Hsame.
  - pose proof (store_batches_inv _ _ _ _ _ _ Hloop) as [Herr _].
    apply chunks_error_from_storage in Herr as [_ ->]. exact Hloop.
  - pose proof (store_batches_inv _ _ _ _ _ _ Hloop) as [Herr _].
    destruct Herr as (error & details & batchIndex & ->). exact I.
Qed.

(** The same, for the whole route. *)
Lemma POST_inv (services : Services) (request : Request) (w w' : World)
    (response : Response) :
  POST services request w = (w', response) ->
  from_storage response ->
  exists user upload chunks metadata embeddings,
    session request = Some user /\
    file request = Some upload /\
    processDocument (parsers services) (bytes upload) (file_name upload)
      = Success chunks metadata /\
    persist user (file_name upload) chunks embeddings w = (w', inl response).
Proof.
  unfold POST, signed_out.
  destruct (session request) as [user|]; [|intros [= <- <-] []].
  destruct (user =? "")%string; [intros [= <- <-] []|]. cbn [or_empty].
  destruct (negb (allowed (limitCheck request))); [intros [= <- <-] []|].
  destruct (file request) as [upload|]; [|intros [= <- <-] H; discriminate H].
  destruct (negb _); [intros [= <- <-] H; discriminate H|].
  destruct (size upload >? maxSize); [intros [= <- <-] H; discriminate H|].
  destruct (processDocument _ _ _) as [chunks metadata|error statusCode]
    eqn:Hprocess; [|intros [= <- <-] H; discriminate H].
  unfold workflow, upload_error.
  destruct (embed_batches _ _ _) as [embeddings|m];
    [|intros [= <- <-] H; discriminate H].
  destruct (negb (same_length embeddings chunks));
    [intros [= <- <-] H; discriminate H|].
  destruct (persist _ _ _ _ _) as [w1 [r|thrown]] eqn:Hpersist;
    intros [= <- <-] H; [|discriminate H].
  exists user, upload, chunks, metadata, embeddings. auto.
Qed.

(** ** Rows written for a document *)




(** ** The loop and the plan of the store *)

(** The converse: when the store serves [k] batches and refuses the next
    one, the loop returns [CHUNKS_ERROR] with the index of the first chunk of
    the refused batch. *)
Lemma store_batches_refused (doc : Z) (k : nat) :
  forall (batches : list (list ChunkRow)) (i : Z) (w : World)
         (e : PostgrestError) (rest : list reply),
    on_insert_chunks (plan w) = (repeat Served k ++ Refused e :: rest)%list ->
    (k < List.length batches)%nat ->
    exists w',
      store_batches doc i batches w
      = (w', Some (Failed 500 (Some "CHUNKS_ERROR")
                     "Failed to store document chunks"
                     (Some (or_default (message e)
                              (or_default (hint e) "Unknown error storing chunks")))
                     (Some (i + Z.of_nat BATCH_SIZE * Z.of_nat k)))).
Proof.
  induction k as [|k IH]; intros [|batch batches] i w e rest Hplan Hk;
    simpl in Hk; try lia.
  - cbn [store_batches]. unfold insert_chunks. rewrite Hplan. cbn.
    eexists. do 3 f_equal. unfold BATCH_SIZE. f_equal. lia.
  - cbn [store_batches]. unfold insert_chunks. rewrite Hplan.
    cbn [repeat app next].
    match goal with
    | |- context [store_batches doc ?j batches ?w1] =>
        destruct (IH batches j w1 e rest) as [w' Hloop];
        [reflexivity | lia | rewrite Hloop]
    end.
    eexists. do 3 f_equal. unfold BATCH_SIZE. f_equal. lia.
Qed.

(** ** Validation of the embeddings *)

(** C1, at the failing input: the three-component vector is found only
    after the document record was created, and the error thrown is caught
    without a delete: the response is [UPLOAD_ERROR] and the document row,
    without any chunk row, stays in the store. *)
Theorem POST_wrong_dimension_keeps_document :
  POST (embedder 3) (signed_in short_text)
    {| store := empty_store; plan := serving |}
  = ({| store :=
          {| documents :=
               [{| id := 1; user_id := "user-1"; name := "notes.txt";
                   content := short_text; chunk_count := Some 1 |}];
             document_chunks := [];
             next_id := 2 |};
        plan := serving |},
     Failed 500 (Some "UPLOAD_ERROR")
       "Embedding at index 0 has wrong dimension: expected 1536, got 3"
       None None).
Proof.
  vm_compute. reflexivity.
Qed.

(** The same for every upload: once the document record is created, a
    vector of a wrong dimension ends the workflow with the record in place. *)
Lemma persist_wrong_dimension_keeps_document (user name : string)
    (chunks : list string) (embeddings : list (list float)) (w w1 : World)
    (document : DocumentRow) (thrown : string) :
  create_document user name (join newline2 chunks)
    (Z.of_nat (List.length chunks)) w = (w1, inl document) ->
  same_length embeddings chunks = true ->
  wrong_dimension 0 embeddings = Some thrown ->
  persist user name chunks embeddings w = (w1, inr thrown) /\
  In document (documents (store w1)).
Proof.
  intros Hcreate Hlength Hwrong. unfold persist, check_table.
  rewrite Hcreate, Hlength, Hwrong. split; [reflexivity|].
  apply create_document_inv in Hcreate as (_ & _ & _ & _ & Hdocs & _).
  rewrite Hdocs. apply in_or_app. right. now left.
Qed.

(** The embeddings are as many as the chunks: the test on the count never
    fails. *)
Lemma embed_batch_length (service : string -> outcome (list float))
    (batch : list string) : forall embeddings,
  embed_batch service batch = Returned embeddings ->
  List.length embeddings = List.length batch.
Proof.
  induction batch as [|chunk rest IH]; intros embeddings; simpl.
  - now intros [= <-].
  - destruct (service chunk); [|discriminate].
    destruct (embed_batch service rest); [|discriminate].
    intros [= <-]. simpl. now rewrite (IH _ eq_refl).
Qed.

Lemma embed_batches_length (service : string -> outcome (list float))
    (batches : list (list string)) : forall acc embeddings,
  embed_batches service acc batches = Returned embeddings ->
  List.length embeddings = (List.length acc + List.length (List.concat batches))%nat.
Proof.
  induction batches as [|batch rest IH]; intros acc embeddings; simpl.
  - intros [= <-]. lia.
  - destruct (embed_batch service batch) as [found|] eqn:Hbatch; [|discriminate].
    intros H. apply IH in H. apply embed_batch_length in Hbatch.
    rewrite H, !length_app. lia.
Qed.

Lemma batched_from_concat {A : Type} (size : nat) :
  forall (fuel : nat) (items : list A),
    (List.length items <= fuel * S size)%nat ->
    List.concat (batched_from fuel (S size) items) = items.
Proof.
  induction fuel as [|fuel IH]; intros items Hfuel; simpl.
  - destruct items; simpl in *; [reflexivity | lia].
  - destruct items as [|a items]; [reflexivity|].
    cbn [List.concat]. rewrite IH.
    + apply (firstn_skipn (S size) (a :: items)).
    + rewrite length_skipn. simpl in *. lia.
Qed.

Lemma embeddings_count (service : string -> outcome (list float))
    (chunks : list string) (embeddings : list (list float)) :
  embed_batches service [] (batched EMBEDDING_BATCH_SIZE chunks) = Returned embeddings ->
  same_length embeddings chunks = true.
Proof.
  intros H. apply embed_batches_length in H. unfold same_length.
  apply Nat.eqb_eq. rewrite H. simpl. f_equal.
  unfold batched, EMBEDDING_BATCH_SIZE. apply batched_from_concat. lia.
Qed.

End UploadFacts.

(* ================================================================== *)
(** * Further properties of the pipeline *)
(* ================================================================== *)

Module ChunkerInvariants.
Import JS ProcessDocument TextNotions ChunkNotions ChunkerFacts NormalizerFacts OverlapFacts.

Lemma take_drop (n : nat) : forall s, (take n s ++ drop n s)%string = s.
Proof.
  induction n as [|n IH]; intros [|c s]; cbn; try reflexivity.
  now rewrite IH.
Qed.

Lemma part_of_refl (s : string) : part_of s s.
Proof. exists "", "". cbn. now rewrite append_empty_r. Qed.

Lemma part_of_trans (a b c : string) : part_of a b -> part_of b c -> part_of a c.
Proof.
  intros (x & y & ->) (u & v & ->).
  exists (u ++ x)%string, (y ++ v)%string.
  now rewrite !append_assoc.
Qed.

Lemma part_of_take (n : nat) (s : string) : part_of (take n s) s.
Proof. exists "", (drop n s). cbn. now rewrite take_drop. Qed.

Lemma part_of_drop (n : nat) (s : string) : part_of (drop n s) s.
Proof. exists (take n s), "". now rewrite append_empty_r, take_drop. Qed.

Lemma part_of_slice (s : string) (a b : Z) : part_of (slice s a b) s.
Proof.
  unfold slice. eapply part_of_trans; [apply part_of_take | apply part_of_drop].
Qed.

Lemma part_of_trim (s : string) : part_of (trim s) s.
Proof.
  unfold trim.
  destruct (trimStart_split s) as (w & Hs & _).
  destruct (trimEnd_split (trimStart s)) as (v & Ht & _).
  exists w, v. now rewrite <- Ht.
Qed.

Lemma part_of_cut (text : string) (w : Z * Z) : part_of (cut text w) text.
Proof.
  unfold cut. eapply part_of_trans; [apply part_of_trim | apply part_of_slice].
Qed.

Lemma chunkText_cuts (fuel : nat) (text : string) (m o : Z) (chunks : list string) :
  chunkText fuel text m o = Some chunks ->
  chunks = filter not_empty (map (cut text) (windows fuel text m o 0)).
Proof.
  unfold chunkText. intros H. now apply chunk_loop_windows in H.
Qed.

Lemma not_empty_spec (c : string) : not_empty c = true -> c <> "".
Proof. unfold not_empty, len. destruct c; cbn; [discriminate | discriminate]. Qed.

(** A chunk is the cut of a window of the loop, and is not empty. *)
Lemma chunk_is_cut (fuel : nat) (text : string) (m o : Z) (chunks : list string) :
  chunkText fuel text m o = Some chunks ->
  forall chunk, In chunk chunks ->
    exists w, In w (windows fuel text m o 0) /\ chunk = cut text w /\
              not_empty chunk = true.
Proof.
  intros H chunk Hin.
  rewrite (chunkText_cuts _ _ _ _ _ H) in Hin.
  apply filter_In in Hin. destruct Hin as [Hin Hne].
  apply in_map_iff in Hin. destruct Hin as (w & <- & Hw).
  now exists w.
Qed.

Lemma chunk_trimmed (fuel : nat) (text : string) (m o : Z) (chunks : list string) :
  chunkText fuel text m o = Some chunks ->
  forall chunk, In chunk chunks -> trim chunk = chunk.
Proof.
  intros H chunk Hin.
  destruct (chunk_is_cut _ _ _ _ _ H chunk Hin) as (w & _ & -> & _).
  unfold cut. apply trim_idempotent.
Qed.

(** X1: every chunk is a non-empty, trimmed, contiguous part of the text. *)
Theorem chunkText_chunks_are_trimmed_parts (fuel : nat) (text : string)
    (maxChunkSize overlap : Z) (chunks : list string) :
  chunkText fuel text maxChunkSize overlap = Some chunks ->
  forall chunk, In chunk chunks ->
    chunk <> "" /\ trim chunk = chunk /\ part_of chunk text.
Proof.
  intros H chunk Hin.
  pose proof (chunk_trimmed _ _ _ _ _ H chunk Hin) as Htrim.
  destruct (chunk_is_cut _ _ _ _ _ H chunk Hin) as (w & _ & -> & Hne).
  split; [now apply not_empty_spec|]. split; [exact Htrim | apply part_of_cut].
Qed.

Lemma chunkText_chunks_are_trimmed_parts_witness :
  "Hello" <> "" /\ trim "Hello" = "Hello" /\ part_of "Hello" "  Hello  ".
Proof.
  apply (chunkText_chunks_are_trimmed_parts 1 "  Hello  " 1000 200 ["Hello"]);
    [reflexivity | left; reflexivity].
Defined.

Lemma length_append (a b : string) :
  String.length (a ++ b) = (String.length a + String.length b)%nat.
Proof. induction a as [|c a IH]; cbn; [reflexivity | now rewrite IH]. Qed.

Lemma len_part_of (a b : string) : part_of a b -> len a <= len b.
Proof.
  intros (x & y & ->). unfold len. rewrite !length_append. lia.
Qed.

Lemma len_trim_le (s : string) : len (trim s) <= len s.
Proof. apply len_part_of, part_of_trim. Qed.

Lemma len_slice_le (s : string) (a b : Z) :
  0 <= a -> 0 <= b -> len (slice s a b) <= Z.max 0 (b - a).
Proof.
  intros Ha Hb. unfold slice, rel_index, len.
  destruct (Z.ltb_spec a 0); [lia|]. destruct (Z.ltb_spec b 0); [lia|].
  rewrite length_take. lia.
Qed.

Lemma lastIndexOf_le_from (s p : string) (from : Z) :
  0 <= from -> lastIndexOf s p from <= from.
Proof.
  intros H. unfold lastIndexOf.
  destruct (Z.ltb_spec (Z.min (Z.max from 0) (len s - len p)) 0); [lia|].
  pose proof (search_down_bound s p
                (Z.to_nat (Z.min (Z.max from 0) (len s - len p)))).
  lia.
Qed.

Lemma chunk_end_upper (text : string) (m start : Z) :
  0 <= start -> 0 <= m -> chunk_end text m start <= start + m + 1.
Proof.
  intros Hs Hm. unfold chunk_end.
  destruct (start + m <? len text); [|lia].
  pose proof (lastIndexOf_le_from text "." (start + m)).
  pose proof (lastIndexOf_le_from text newline2 (start + m)).
  destruct (_ >? _); [lia|]. destruct (_ >? _); lia.
Qed.

Lemma windows_bounds (text : string) (m o : Z) :
  0 <= o -> 2 * o <= m ->
  forall (fuel : nat) (start : Z), 0 <= start ->
    forall w, In w (windows fuel text m o start) ->
      0 <= fst w /\ fst w + o <= snd w <= fst w + m + 1.
Proof.
  intros Ho Hm. induction fuel as [|fuel IH]; intros start Hs w Hin; [easy|].
  cbn [windows] in Hin.
  destruct (start <? len text); [|easy].
  pose proof (chunk_end_beyond text m o start Ho Hm).
  pose proof (chunk_end_upper text m start Hs ltac:(lia)).
  destruct Hin as [<- | Hin]; [cbn; lia|].
  destruct (_ >=? _); [easy|].
  apply IH in Hin; [exact Hin | lia].
Qed.

Lemma chunk_length (fuel : nat) (text : string) (m o : Z) (chunks : list string) :
  0 <= o -> 2 * o <= m ->
  chunkText fuel text m o = Some chunks ->
  forall chunk, In chunk chunks -> 0 < len chunk <= m + 1.
Proof.
  intros Ho Hm H chunk Hin.
  destruct (chunk_is_cut _ _ _ _ _ H chunk Hin) as (w & Hw & -> & Hne).
  split; [unfold not_empty in Hne; lia|].
  apply (windows_bounds text m o Ho Hm) in Hw; [|lia].
  unfold cut.
  pose proof (len_trim_le (slice text (fst w) (snd w))).
  pose proof (len_slice_le text (fst w) (snd w)). lia.
Qed.

(** X2: a chunk exceeds [maxChunkSize] by at most one character. *)
Theorem chunkText_chunk_length (fuel : nat) (text : string)
    (maxChunkSize overlap : Z) (chunks : list string) :
  0 <= overlap -> 2 * overlap <= maxChunkSize ->
  chunkText fuel text maxChunkSize overlap = Some chunks ->
  forall chunk, In chunk chunks -> 0 < len chunk <= maxChunkSize + 1.
Proof. apply chunk_length. Qed.

Lemma chunkText_chunk_length_witness : 0 < len "Hello" <= 1000 + 1.
Proof.
  apply (chunkText_chunk_length 1 "  Hello  " 1000 200 ["Hello"]);
    [lia | lia | reflexivity | left; reflexivity].
Defined.

Lemma chunk_loop_covers (text : string) (m o : Z) :
  0 <= o ->
  forall (fuel : nat) (start : Z) (chunks result : list string),
    chunk_loop fuel text m o start chunks = Some result ->
    forall i, start <= i < len text ->
      exists w, In w (windows fuel text m o start) /\ fst w <= i < snd w.
Proof.
  intros Ho. induction fuel as [|fuel IH]; intros start chunks result H i Hi;
    [discriminate|].
  cbn [chunk_loop] in H. cbn [windows].
  destruct (Z.ltb_spec start (len text)) as [Hlt|]; [|lia].
  destruct (Z.geb_spec (chunk_end text m start - o) (len text)) as [Hge|Hnext].
  - exists (start, chunk_end text m start). split; [now left|]. cbn. lia.
  - destruct (Z_lt_le_dec i (chunk_end text m start - o)) as [Hin|Hout].
    + exists (start, chunk_end text m start). split; [now left|]. cbn. lia.
    + destruct (IH _ _ _ H i ltac:(lia)) as (w & Hw & Hiw).
      exists w. split; [now right | exact Hiw].
Qed.

(** X3: the windows of the loop leave no character of the text out. *)
Theorem chunkText_covers_text (fuel : nat) (text : string)
    (maxChunkSize overlap : Z) (chunks : list string) :
  0 <= overlap ->
  chunkText fuel text maxChunkSize overlap = Some chunks ->
  chunks = filter not_empty
             (map (cut text) (windows fuel text maxChunkSize overlap 0)) /\
  forall i, 0 <= i < len text ->
    exists w, In w (windows fuel text maxChunkSize overlap 0) /\
              fst w <= i < snd w.
Proof.
  intros Ho H. split; [now apply chunkText_cuts|].
  intros i Hi. now apply (chunk_loop_covers text _ _ Ho fuel 0 [] chunks).
Qed.

Lemma chunkText_covers_text_witness :
  ["Hello"]
  = filter not_empty (map (cut "  Hello  ") (windows 1 "  Hello  " 1000 200 0)) /\
  forall i, 0 <= i < len "  Hello  " ->
    exists w, In w (windows 1 "  Hello  " 1000 200 0) /\ fst w <= i < snd w.
Proof.
  apply (chunkText_covers_text 1 "  Hello  " 1000 200 ["Hello"]);
    [lia | reflexivity].
Defined.

Lemma take_all (s : string) : take (String.length s) s = s.
Proof. induction s as [|c s IH]; cbn; [reflexivity | now rewrite IH]. Qed.

Lemma slice_all (s : string) (b : Z) : len s <= b -> slice s 0 b = s.
Proof.
  intros H. unfold slice, rel_index.
  assert (0 <= len s) by (unfold len; lia).
  destruct (Z.ltb_spec 0 0); [lia|]. destruct (Z.ltb_spec b 0); [lia|].
  rewrite (Z.min_l 0) by lia. rewrite (Z.min_r b) by lia.
  rewrite Z.sub_0_r. unfold len. rewrite Nat2Z.id. cbn [Z.to_nat drop].
  apply take_all.
Qed.

Lemma chunk_end_last (text : string) (m start : Z) :
  len text <= start + m -> chunk_end text m start = start + m.
Proof.
  intros H. unfold chunk_end.
  destruct (Z.ltb_spec (start + m) (len text)); [lia | reflexivity].
Qed.

Lemma chunkText_one_window (fuel : nat) (text : string) (m o : Z) :
  0 <= o -> len text <= m - o ->
  chunkText (S fuel) text m o = Some (filter not_empty [trim text]).
Proof.
  intros Ho H. unfold chunkText. cbn [chunk_loop filter]. unfold not_empty.
  destruct (Z.ltb_spec 0 (len text)) as [Hpos|Hzero].
  - rewrite chunk_end_last by lia. cbn [Z.add].
    rewrite slice_all by lia.
    destruct (Z.geb_spec (m - o) (len text)); [|lia].
    unfold push_chunk. now destruct (_ >? _).
  - assert (text = "") as -> by (destruct text; [reflexivity | unfold len in *; cbn in *; lia]).
    reflexivity.
Qed.

Lemma chunkText_two_windows (fuel : nat) (text : string) (m o : Z) :
  0 <= o -> 2 * o <= m -> m - o < len text <= m ->
  chunkText (S (S fuel)) text m o
  = Some (filter not_empty [trim text; trim (slice text (m - o) (len text))]).
Proof.
  intros Ho Hm H. unfold chunkText. cbn [chunk_loop].
  destruct (Z.ltb_spec 0 (len text)); [|lia].
  rewrite chunk_end_last by lia. cbn [Z.add].
  rewrite slice_all by lia.
  destruct (Z.geb_spec (m - o) (len text)); [lia|].
  destruct (Z.ltb_spec (m - o) (len text)); [|lia].
  rewrite chunk_end_last by lia.
  rewrite (slice_clamp text (m - o)) by lia.
  destruct (Z.geb_spec (m - o + m - o) (len text)); [|lia].
  cbn [filter]. unfold push_chunk, not_empty.
  destruct (len (trim text) >? 0); destruct (len (trim (slice _ _ _)) >? 0); reflexivity.
Qed.

(** X4: a text that fits in one chunk is cut once when it has at most
    [maxChunkSize - overlap] characters, and twice when it has more: the
    whole text, and its tail once more. *)
Theorem chunkText_text_that_fits (fuel : nat) (text : string)
    (maxChunkSize overlap : Z) :
  0 <= overlap -> 2 * overlap <= maxChunkSize -> len text <= maxChunkSize ->
  (len text <= maxChunkSize - overlap ->
     chunkText (S fuel) text maxChunkSize overlap
     = Some (filter not_empty [trim text])) /\
  (maxChunkSize - overlap < len text ->
     chunkText (S (S fuel)) text maxChunkSize overlap
     = Some (filter not_empty
               [trim text;
                trim (slice text (maxChunkSize - overlap) (len text))])).
Proof.
  intros Ho Hm Hlen. split; intros H.
  - now apply chunkText_one_window.
  - apply chunkText_two_windows; auto.
Qed.

Lemma chunkText_text_that_fits_witness :
  (len (rep 900 "a") <= 1000 - 200 ->
     chunkText 1 (rep 900 "a") 1000 200
     = Some (filter not_empty [trim (rep 900 "a")])) /\
  (1000 - 200 < len (rep 900 "a") ->
     chunkText 2 (rep 900 "a") 1000 200
     = Some (filter not_empty
               [trim (rep 900 "a");
                trim (slice (rep 900 "a") (1000 - 200) (len (rep 900 "a")))])).
Proof.
  apply (chunkText_text_that_fits 0 (rep 900 "a") 1000 200);
    [lia | lia | now vm_compute].
Defined.

End ChunkerInvariants.

Module NormalizerInvariants.
Import JS ProcessDocument TextNotions NormNotions ChunkerFacts NormalizerFacts OverlapFacts ProcessFacts.

Lemma newline_step_void (t : string) :
  no_line_feed t -> replace re_newlines newline2 t = t.
Proof.
  intros H. unfold replace. apply replace_from_nowhere.
  apply (nowhere_of_fails no_line_feed);
    [apply no_line_feed_tail | intros; now apply re_newlines_needs_line_feed | exact H].
Qed.

Lemma whitespace_step_no_line_feed (x : string) :
  no_line_feed (replace re_whitespace " " x).
Proof.
  rewrite replace_whitespace.
  apply collapsed_no_line_feed, (proj1 (collapse_collapsed x)).
Qed.

Lemma normalizeText_skips_newline_step (x : string) :
  normalizeText x = normalizeText_without_newline_step x.
Proof.
  unfold normalizeText, normalizeText_without_newline_step, normalize_NFKC.
  destruct (x =? "")%string; [reflexivity|].
  cbv zeta. now rewrite (newline_step_void _ (whitespace_step_no_line_feed x)).
Qed.

(** X5: once the whitespace is collapsed, the pattern of the line feeds
    finds nothing. *)
Theorem normalizeText_newline_step_is_void (x : string) :
  replace re_newlines newline2 (replace re_whitespace " " x)
  = replace re_whitespace " " x /\
  normalizeText x = normalizeText_without_newline_step x.
Proof.
  split.
  - apply newline_step_void, whitespace_step_no_line_feed.
  - apply normalizeText_skips_newline_step.
Qed.

(** X6: in the normalized text the only whitespace is the space character,
    and the text neither starts nor ends with one. *)
Theorem normalizeText_whitespace (x : string) :
  all space_or_visible (normalizeText x) = true /\
  trim (normalizeText x) = normalizeText x /\
  starts_with_space (normalizeText x) = false.
Proof.
  assert (Hall : all space_or_visible (normalizeText x) = true).
  { unfold normalizeText, normalize_NFKC.
    destruct (x =? "")%string; [reflexivity|]. cbv zeta.
    rewrite (newline_step_void _ (whitespace_step_no_line_feed x)).
    apply all_trim. unfold replace at 1 2 3.
    do 3 (apply all_replace_from; [reflexivity|]).
    rewrite replace_whitespace.
    apply collapsed_blank, (proj1 (collapse_collapsed x)). }
  split; [exact Hall|].
  unfold normalizeText.
  destruct (x =? "")%string; [now split|]. cbv zeta.
  split; [apply trim_idempotent|].
  unfold trim. apply starts_with_space_trimEnd, starts_with_space_trimStart.
Qed.

Lemma match_class_whole (p : ascii -> bool) (s : string) :
  all p s = true ->
  forall (lo hi : nat) (prev : option ascii),
    (lo <= String.length s <= hi)%nat ->
    match_items [Class p lo (Some hi); LineEnd] prev s = Some (String.length s).
Proof.
  induction s as [|c s IH]; intros Hs lo hi prev Hlen; rewrite match_class.
  - cbn in Hlen. destruct lo; [reflexivity | lia].
  - cbn in Hs. apply andb_true_iff in Hs as [Hc Hs]. cbn in Hlen.
    cbv zeta. rewrite Hc.
    destruct hi as [|hi]; [lia|]. cbn [room andb less pred].
    rewrite (IH Hs) by lia. reflexivity.
Qed.

Lemma replace_from_skips_all (re : list item) (s : string) : forall prev,
  replace_from re "" (String.length s) prev s = "".
Proof.
  induction s as [|c s IH]; intros prev; cbn [String.length replace_from].
  - now destruct (match_items re prev "") as [[|n]|].
  - apply IH.
Qed.

Lemma replace_caps_whole (t : string) :
  all upper_or_space t = true -> (3 <= String.length t <= 50)%nat ->
  replace re_caps "" t = "".
Proof.
  intros Hall Hlen. unfold replace. rewrite replace_from_start.
  change (match_items re_caps None t)
    with (match_items [Class upper_or_space 3 (Some 50%nat); LineEnd] None t).
  rewrite (match_class_whole upper_or_space t Hall 3 50 None Hlen).
  destruct t as [|c t]; [cbn in Hlen; lia|].
  cbn [String.length append]. apply replace_from_skips_all.
Qed.

Lemma upper_or_space_no_digit (s : string) :
  all upper_or_space s = true -> no_digit s.
Proof.
  apply all_weaken. intros c. unfold upper_or_space, is_upper, is_space, is_digit.
  destruct (Nat.leb_spec 65 (code c)); destruct (Nat.leb_spec (code c) 90);
  destruct (Nat.leb_spec 9 (code c)); destruct (Nat.leb_spec (code c) 13);
  destruct (Nat.eqb_spec (code c) 32);
  destruct (Nat.leb_spec 48 (code c)); destruct (Nat.leb_spec (code c) 57);
  cbn; intros; try reflexivity; try discriminate; lia.
Qed.

Lemma no_artifact_steps (t : string) :
  no_digit t -> replace re_counter "" (replace re_page "" t) = t.
Proof.
  intros H. unfold replace.
  rewrite (replace_from_nowhere re_page).
  2:{ apply (nowhere_of_fails no_digit);
        [apply no_digit_tail | intros; now apply re_page_needs_digit | exact H]. }
  apply replace_from_nowhere.
  apply (nowhere_of_fails no_digit);
    [apply no_digit_tail | intros; now apply re_counter_needs_digit | exact H].
Qed.

Lemma caps_text_vanishes (x : string) :
  all upper_or_space x = true ->
  (3 <= String.length (replace re_whitespace " " x) <= 50)%nat ->
  normalizeText x = "".
Proof.
  intros Hall Hlen.
  rewrite normalizeText_skips_newline_step.
  unfold normalizeText_without_newline_step, normalize_NFKC.
  destruct (x =? "")%string; [reflexivity|]. cbv zeta.
  assert (Ht : all upper_or_space (replace re_whitespace " " x) = true).
  { rewrite replace_whitespace. now apply all_collapse. }
  rewrite no_artifact_steps by now apply upper_or_space_no_digit.
  now rewrite replace_caps_whole.
Qed.

(** X7: a text of capital letters and whitespace that collapses to 3 to 50
    characters is a header as a whole: nothing is left of it. *)
Theorem normalizeText_capitals_only (x : string) :
  all upper_or_space x = true ->
  (3 <= String.length (replace re_whitespace " " x) <= 50)%nat ->
  normalizeText x = "" /\
  forall (lib : Extractors) (filename : string),
    detectFileType filename = Returned "txt" ->
    len x <= 10 * 1024 * 1024 -> 10 <= len (trim x) ->
    processDocument lib x filename = Failure empty_cleaned_error 400.
Proof.
  intros Hall Hlen.
  pose proof (caps_text_vanishes x Hall Hlen) as Hn.
  split; [exact Hn|].
  intros lib filename Htype Hsize Hraw.
  unfold processDocument. rewrite Htype.
  destruct (Z.gtb_spec (len x) (10 * 1024 * 1024)); [lia|].
  unfold extractText, extractTxtText. cbn [String.eqb Ascii.eqb Bool.eqb].
  rewrite empty_test.
  destruct (Z.ltb_spec (len (trim x)) 10); [lia|].
  rewrite Hn. reflexivity.
Qed.

Lemma normalizeText_capitals_only_witness :
  normalizeText "ANNUAL   REPORT" = "" /\
  forall (lib : Extractors) (filename : string),
    detectFileType filename = Returned "txt" ->
    len "ANNUAL   REPORT" <= 10 * 1024 * 1024 ->
    10 <= len (trim "ANNUAL   REPORT") ->
    processDocument lib "ANNUAL   REPORT" filename = Failure empty_cleaned_error 400.
Proof.
  apply (normalizeText_capitals_only "ANNUAL   REPORT");
    [reflexivity | vm_compute; lia].
Defined.

End NormalizerInvariants.

Module ProcessInvariants.
Import JS ProcessDocument TextNotions ChunkNotions NormNotions.
Import ChunkerFacts NormalizerFacts OverlapFacts ProcessFacts.
Import ChunkerInvariants NormalizerInvariants.

Lemma first_cut_not_empty (text : string) (e : Z) :
  text <> "" -> starts_with_space text = false -> 1 <= e ->
  not_empty (cut text (0, e)) = true.
Proof.
  intros Hne Hsp He. destruct text as [|c s]; [contradiction|].
  cbn in Hsp. unfold cut, slice, rel_index. cbn [fst snd].
  assert (0 < len (String c s)) by (unfold len; cbn; lia).
  destruct (Z.ltb_spec 0 0); [lia|]. destruct (Z.ltb_spec e 0); [lia|].
  rewrite (Z.min_l 0) by lia. cbn [Z.to_nat drop].
  destruct (Z.to_nat (Z.min e (len (String c s)) - 0)) as [|k] eqn:Hk; [lia|].
  cbn [take]. unfold trim. cbn [trimStart]. rewrite Hsp.
  rewrite trimEnd_cons, Hsp, andb_false_r. reflexivity.
Qed.

Lemma chunkText_first_chunk (fuel : nat) (text : string) (m o : Z)
    (chunks : list string) :
  text <> "" -> starts_with_space text = false -> 1 <= m ->
  chunkText fuel text m o = Some chunks -> chunks <> [].
Proof.
  intros Hne Hsp H1 H.
  pose proof (chunkText_cuts _ _ _ _ _ H) as ->.
  destruct fuel as [|fuel]; [discriminate H|].
  cbn [windows].
  destruct (Z.ltb_spec 0 (len text)) as [_|Hlen].
  2:{ destruct text; [contradiction | unfold len in Hlen; cbn in Hlen; lia]. }
  cbn [map filter].
  rewrite first_cut_not_empty; [discriminate | assumption | assumption |].
  pose proof (chunk_end_advances text m 0 0). lia.
Qed.

Lemma normalizeText_not_blank (x : string) :
  10 <= len (trim (normalizeText x)) ->
  normalizeText x <> "" /\ starts_with_space (normalizeText x) = false.
Proof.
  intros H. split.
  - intros E. rewrite E in H. cbn in H. lia.
  - unfold normalizeText. destruct (x =? "")%string; [reflexivity|]. cbv zeta.
    unfold trim. apply starts_with_space_trimEnd, starts_with_space_trimStart.
Qed.

Lemma extractText_failure (lib : Extractors) (fileType fileContent : string)
    (r : ProcessResult) :
  extractText lib fileType fileContent = inl r ->
  exists error statusCode, r = Failure error statusCode.
Proof.
  unfold extractText.
  destruct (fileType =? "pdf")%string.
  { destruct (extractPdfText lib fileContent); [discriminate|].
    intros [= <-]. eauto. }
  destruct (fileType =? "docx")%string.
  { destruct (extractDocxText lib fileContent); [discriminate|].
    intros [= <-]. eauto. }
  destruct (fileType =? "txt")%string; [discriminate|].
  intros [= <-]. eauto.
Qed.

(** X8: what a successful [processDocument] returns. *)
Theorem processDocument_success (lib : Extractors) (fileContent filename : string)
    (chunks : list string) (metadata : Metadata) :
  processDocument lib fileContent filename = Success chunks metadata ->
  chunks <> [] /\
  (forall chunk, In chunk chunks ->
     0 < len chunk <= 1001 /\ trim chunk = chunk) /\
  totalChunks metadata = Z.of_nat (List.length chunks) /\
  totalTokens metadata = sum_tokens chunks /\
  10 <= totalCharacters metadata /\
  ProcessDocument.filename metadata = filename /\
  len fileContent <= 10 * 1024 * 1024.
Proof.
  unfold processDocument.
  destruct (detectFileType filename) as [fileType|]; [|discriminate].
  destruct (Z.gtb_spec (len fileContent) (10 * 1024 * 1024)) as [|Hsize];
    [discriminate|].
  destruct (extractText lib fileType fileContent) as [failure|rawText] eqn:Hx.
  { apply extractText_failure in Hx as (? & ? & ->). discriminate. }
  rewrite !empty_test.
  destruct (Z.ltb_spec (len (trim rawText)) 10); [discriminate|].
  destruct (Z.ltb_spec (len (trim (normalizeText rawText))) 10) as [|Hclean];
    [discriminate|].
  destruct (chunkText _ _ _ _) as [found|] eqn:Hchunks; [|discriminate].
  intros [= <- <-]. cbn.
  destruct (normalizeText_not_blank rawText Hclean) as [Hne Hsp].
  pose proof (len_trim_le (normalizeText rawText)).
  repeat split; auto; try lia.
  - eapply chunkText_first_chunk; eauto; lia.
  - eapply (chunk_length _ _ 1000 200); eauto; lia.
  - eapply (chunk_length _ _ 1000 200); eauto; lia.
  - eapply chunk_trimmed; eauto.
Qed.

Lemma processDocument_success_witness :
  let chunks := ["Hello world, this is a document."] in
  let metadata := {| totalChunks := 1; totalTokens := 8; totalCharacters := 32;
                     filename := "notes.txt" |} in
  chunks <> [] /\
  (forall chunk, In chunk chunks ->
     0 < len chunk <= 1001 /\ trim chunk = chunk) /\
  totalChunks metadata = Z.of_nat (List.length chunks) /\
  totalTokens metadata = sum_tokens chunks /\
  10 <= totalCharacters metadata /\
  ProcessDocument.filename metadata = "notes.txt" /\
  len "Hello world, this is a document." <= 10 * 1024 * 1024.
Proof.
  cbv zeta.
  apply (processDocument_success failing_parsers
           "Hello world, this is a document." "notes.txt").
  now vm_compute.
Defined.

End ProcessInvariants.

Module FileTypeFacts.
Import JS JSNumber ProcessDocument Upload TextNotions RouteNotions.

Lemma toLowerCase_char_period (c : ascii) :
  Ascii.eqb (toLowerCase_char c) "." = Ascii.eqb c ".".
Proof.
  unfold toLowerCase_char.
  destruct (is_upper c) eqn:Hu; [|reflexivity].
  destruct c as [[] [] [] [] [] [] [] []]; try discriminate Hu; reflexivity.
Qed.

Lemma split_pop_from_toLowerCase (s : string) : forall acc,
  split_pop_from "." (toLowerCase acc) (toLowerCase s)
  = toLowerCase (split_pop_from "." acc s).
Proof.
  induction s as [|c s IH]; intros acc; cbn [toLowerCase split_pop_from];
    [reflexivity|].
  rewrite toLowerCase_char_period.
  destruct (Ascii.eqb c "."); apply IH.
Qed.

Lemma split_pop_toLowerCase (s : string) :
  split_pop "." (toLowerCase s) = extension s.
Proof. apply split_pop_from_toLowerCase. Qed.

Lemma detectFileType_extension (filename : string) :
  detectFileType filename =
    let ext := extension filename in
    if (ext =? "pdf")%string then Returned "pdf"
    else if (ext =? "docx")%string then Returned "docx"
    else if (ext =? "txt")%string || (ext =? "text")%string then Returned "txt"
    else Thrown ("Unsupported file type: " ++ ext).
Proof. unfold detectFileType. now rewrite split_pop_toLowerCase. Qed.

(** X10: a name that ends in [.doc] passes the type check of the upload
    route and is then refused by the processor, with status 500. *)
Theorem POST_doc_extension (services : Services) (request : Request) (w : World)
    (user : string) (upload : File) :
  session request = Some user -> user <> "" ->
  allowed (limitCheck request) = true ->
  file request = Some upload ->
  extension (file_name upload) = "doc" ->
  size upload <= maxSize ->
  getFileType (file_name upload) = "docx" /\
  processDocument (parsers services) (bytes upload) (file_name upload)
  = Failure "Unsupported file type: doc" 400 /\
  POST services request w
  = (w, Failed 500 (Some "PROCESSING_FAILED") "Unsupported file type: doc" None None).
Proof.
  intros Hs Hid Ha Hf Hext Hsize.
  assert (Hget : getFileType (file_name upload) = "docx").
  { unfold getFileType. fold (extension (file_name upload)). now rewrite Hext. }
  assert (Hproc : processDocument (parsers services) (bytes upload) (file_name upload)
                  = Failure "Unsupported file type: doc" 400).
  { unfold processDocument. rewrite detectFileType_extension, Hext. reflexivity. }
  repeat split; auto.
  unfold POST, signed_out. rewrite Hs. cbn [or_empty].
  destruct (String.eqb_spec user ""); [contradiction|].
  rewrite Ha, Hf, Hget. cbn [negb String.eqb Ascii.eqb Bool.eqb orb].
  destruct (Z.gtb_spec (size upload) maxSize); [lia|].
  now rewrite Hproc.
Qed.

Lemma POST_doc_extension_witness :
  let services := UploadNotions.embedder 1536 in
  let w := {| store := UploadNotions.empty_store; plan := UploadNotions.serving |} in
  getFileType (file_name word_file) = "docx" /\
  processDocument (parsers services) (bytes word_file) (file_name word_file)
  = Failure "Unsupported file type: doc" 400 /\
  POST services (upload_of "user-1" word_file) w
  = (w, Failed 500 (Some "PROCESSING_FAILED") "Unsupported file type: doc" None None).
Proof.
  apply (POST_doc_extension (UploadNotions.embedder 1536)
           (upload_of "user-1" word_file)
           {| store := UploadNotions.empty_store; plan := UploadNotions.serving |}
           "user-1" word_file);
    try reflexivity; first [discriminate | now vm_compute].
Defined.

End FileTypeFacts.

Module UploadInvariants.
Import JS JSNumber ProcessDocument Upload TextNotions UploadNotions RouteNotions.
Import ChunkerFacts NormalizerFacts OverlapFacts ProcessFacts UploadFacts.

Lemma wrong_dimension_none (embeddings : list (list float)) : forall i,
  wrong_dimension i embeddings = None -> Forall has_dimension embeddings.
Proof.
  induction embeddings as [|e rest IH]; intros i H; [constructor|].
  cbn [wrong_dimension] in H.
  destruct (Z.eqb_spec (Z.of_nat (List.length e)) expectedDimension) as [He|];
    [|discriminate H].
  constructor; [exact He | now apply (IH (i + 1))].
Qed.

Lemma chunkInserts_columns (doc : Z) (chunks : list string) :
  forall (index : Z) (embeddings : list (list float)),
    List.length embeddings = List.length chunks ->
    let rows := chunkInserts doc index chunks embeddings in
    map chunk_content rows = chunks /\
    map embedding rows = embeddings /\
    map chunk_index rows = indexes index (List.length chunks) /\
    map document_id rows = repeat doc (List.length chunks).
Proof.
  induction chunks as [|chunk rest IH]; intros index embeddings Hlen.
  - destruct embeddings; [now cbn | discriminate].
  - destruct embeddings as [|e es]; [discriminate|].
    cbn in Hlen. injection Hlen as Hlen.
    destruct (IH (index + 1) es Hlen) as (Hc & He & Hi & Hd).
    cbn [chunkInserts hd tl map List.length indexes repeat
         chunk_content embedding chunk_index document_id].
    now rewrite Hc, He, Hi, Hd.
Qed.

Lemma batched_concat {A : Type} (rows : list A) :
  List.concat (batched BATCH_SIZE rows) = rows.
Proof.
  unfold batched, BATCH_SIZE. apply batched_from_concat. lia.
Qed.

(** What a successful upload has gone through. *)
Lemma POST_uploaded_inv (services : Services) (request : Request) (w w' : World)
    (document : DocumentRow) (count : Z) :
  POST services request w = (w', Uploaded document count) ->
  exists user upload chunks metadata embeddings w1,
    session request = Some user /\
    allowed (limitCheck request) = true /\
    file request = Some upload /\
    size upload <= maxSize /\
    processDocument (parsers services) (bytes upload) (file_name upload)
      = Success chunks metadata /\
    embed_batches (generateEmbedding services) []
      (batched EMBEDDING_BATCH_SIZE chunks) = Returned embeddings /\
    wrong_dimension 0 embeddings = None /\
    create_document user (file_name upload) (join newline2 chunks)
      (Z.of_nat (List.length chunks)) w = (w1, inl document) /\
    store_batches (id document) 0
      (batched BATCH_SIZE (chunkInserts (id document) 0 chunks embeddings)) w1
    = (w', None) /\
    count = Z.of_nat (List.length chunks).
Proof.
  unfold POST, signed_out.
  destruct (session request) as [user|]; [|discriminate].
  destruct (user =? "")%string; [discriminate|]. cbn [or_empty].
  destruct (allowed (limitCheck request)) eqn:Ha; [|discriminate]. cbn [negb].
  destruct (file request) as [upload|]; [|discriminate].
  destruct (negb _); [discriminate|].
  destruct (Z.gtb_spec (size upload) maxSize) as [|Hsize]; [discriminate|].
  destruct (processDocument _ _ _) as [chunks metadata|error statusCode]
    eqn:Hprocess; [|discriminate].
  unfold workflow, upload_error.
  destruct (embed_batches _ _ _) as [embeddings|m] eqn:Hembed; [|discriminate].
  destruct (negb (same_length embeddings chunks)); [discriminate|].
  unfold persist, check_table.
  destruct (create_document _ _ _ _ _) as [w1 [doc|e]] eqn:Hcreate; [|discriminate].
  destruct (negb (same_length embeddings chunks)); [discriminate|].
  destruct (wrong_dimension 0 embeddings) eqn:Hdim; [discriminate|].
  destruct (store_batches _ _ _ _) as [w2 [r|]] eqn:Hloop; intros Heq;
    inversion Heq; subst; clear Heq.
  { pose proof (store_batches_inv _ _ _ _ _ _ Hloop) as [(? & ? & ? & Hr) _].
    discriminate Hr. }
  exists user, upload, chunks, metadata, embeddings, w1.
  repeat split; auto.
Qed.

Lemma create_document_count (user name content : string) (count : Z)
    (w w1 : World) (row : DocumentRow) :
  create_document user name content count w = (w1, inl row) ->
  chunk_count row = Some count \/ chunk_count row = None.
Proof.
  unfold create_document.
  destruct (insert_document user name content (Some count) w) as [w0 [r|e]] eqn:H1.
  - intros [= <- <-]. apply insert_document_inv in H1 as (_ & _ & -> & _). now left.
  - destruct (includes _ _); [|discriminate].
    intros H2. apply insert_document_inv in H2 as (_ & _ & -> & _). now right.
Qed.

Lemma embed_batch_each (service : string -> outcome (list float))
    (batch : list string) : forall embeddings,
  embed_batch service batch = Returned embeddings ->
  Forall2 (fun chunk e => service chunk = Returned e) batch embeddings.
Proof.
  induction batch as [|chunk rest IH]; intros embeddings; cbn [embed_batch].
  - intros [= <-]. constructor.
  - destruct (service chunk) as [e|m] eqn:He; [|discriminate].
    destruct (embed_batch service rest) as [es|m]; [|discriminate].
    intros [= <-]. constructor; [exact He | now apply IH].
Qed.

Lemma embed_batches_each (service : string -> outcome (list float))
    (batches : list (list string)) : forall acc embeddings,
  embed_batches service acc batches = Returned embeddings ->
  exists more, embeddings = (acc ++ more)%list /\
    Forall2 (fun chunk e => service chunk = Returned e) (List.concat batches) more.
Proof.
  induction batches as [|batch rest IH]; intros acc embeddings; cbn [embed_batches].
  - intros [= <-]. exists []. split; [now rewrite app_nil_r | constructor].
  - destruct (embed_batch service batch) as [es|m] eqn:Hb; [|discriminate].
    intros H. apply IH in H as (more & -> & Hmore).
    exists (es ++ more)%list. split; [now rewrite app_assoc|].
    cbn [List.concat]. apply Forall2_app; [now apply embed_batch_each | exact Hmore].
Qed.

Lemma embeddings_each (service : string -> outcome (list float))
    (chunks : list string) (embeddings : list (list float)) :
  embed_batches service [] (batched EMBEDDING_BATCH_SIZE chunks) = Returned embeddings ->
  Forall2 (fun chunk e => service chunk = Returned e) chunks embeddings.
Proof.
  intros H. apply embed_batches_each in H as (more & -> & H).
  unfold batched, EMBEDDING_BATCH_SIZE in H.
  rewrite batched_from_concat in H by lia. exact H.
Qed.

(** X11: after a successful upload the store holds one more document and,
    for each chunk in order, one row with its text, its index and its
    embedding of 1536 components; nothing else has changed. *)
Theorem POST_uploaded_rows (services : Services) (request : Request)
    (w w' : World) (document : DocumentRow) (count : Z) :
  POST services request w = (w', Uploaded document count) ->
  exists (upload : File) (chunks : list string) (metadata : Metadata)
         (rows : list ChunkRow),
    file request = Some upload /\
    processDocument (parsers services) (bytes upload) (file_name upload)
      = Success chunks metadata /\
    count = Z.of_nat (List.length chunks) /\
    id document = next_id (store w) /\
    (chunk_count document = Some count \/ chunk_count document = None) /\
    documents (store w') = (documents (store w) ++ [document])%list /\
    document_chunks (store w') = (document_chunks (store w) ++ rows)%list /\
    map chunk_content rows = chunks /\
    map chunk_index rows = indexes 0 (List.length chunks) /\
    map document_id rows = repeat (id document) (List.length chunks) /\
    Forall has_dimension (map embedding rows) /\
    Forall2 (fun chunk e => generateEmbedding services chunk = Returned e)
      chunks (map embedding rows).
Proof.
  intros H.
  apply POST_uploaded_inv in H
    as (user & upload & chunks & metadata & embeddings & w1 & _ & _ & Hfile & _
        & Hprocess & Hembed & Hdim & Hcreate & Hloop & ->).
  pose proof (create_document_count _ _ _ _ _ _ _ Hcreate) as Hcount.
  apply create_document_inv in Hcreate as (_ & _ & Hid & _ & Hdocs & Hchunks).
  apply store_batches_inv in Hloop as [Hdocs' Hrows].
  rewrite batched_concat in Hrows.
  pose proof (embeddings_each _ _ _ Hembed) as Heach.
  assert (Hlen : List.length embeddings = List.length chunks)
    by (symmetry; eapply Forall2_length; exact Heach).
  destruct (chunkInserts_columns (id document) chunks 0 embeddings Hlen)
    as (Hc & He & Hi & Hd).
  exists upload, chunks, metadata, (chunkInserts (id document) 0 chunks embeddings).
  rewrite He.
  repeat split; auto.
  - congruence.
  - congruence.
  - now apply (wrong_dimension_none embeddings 0).
Qed.

Lemma POST_uploaded_rows_witness :
  let services := embedder 1536 in
  let request := signed_in short_text in
  let w := {| store := empty_store; plan := serving |} in
  let w' := fst (POST services request w) in
  let document := {| id := 1; user_id := "user-1"; name := "notes.txt";
                     content := short_text; chunk_count := Some 1 |} in
  exists (upload : File) (chunks : list string) (metadata : Metadata)
         (rows : list ChunkRow),
    file request = Some upload /\
    processDocument (parsers services) (bytes upload) (file_name upload)
      = Success chunks metadata /\
    1 = Z.of_nat (List.length chunks) /\
    id document = next_id (store w) /\
    (chunk_count document = Some 1 \/ chunk_count document = None) /\
    documents (store w') = (documents (store w) ++ [document])%list /\
    document_chunks (store w') = (document_chunks (store w) ++ rows)%list /\
    map chunk_content rows = chunks /\
    map chunk_index rows = indexes 0 (List.length chunks) /\
    map document_id rows = repeat (id document) (List.length chunks) /\
    Forall has_dimension (map embedding rows) /\
    Forall2 (fun chunk e => generateEmbedding services chunk = Returned e)
      chunks (map embedding rows).
Proof.
  cbv zeta.
  apply (POST_uploaded_rows (embedder 1536) (signed_in short_text)
           {| store := empty_store; plan := serving |}).
  now vm_compute.
Defined.

(** X12: what a refusal leaves in the store. *)
Theorem POST_failure_store (services : Services) (request : Request)
    (w w' : World) (status : Z) (code : option string) (error : string)
    (details : option string) (batchIndex : option Z) :
  POST services request w = (w', Failed status code error details batchIndex) ->
  (status = 400 \/ status = 401 \/ status = 403 \/ status = 500) /\
  (status <> 500 -> w' = w) /\
  (code <> Some "CHUNKS_ERROR" -> code <> Some "UPLOAD_ERROR" ->
     store w' = store w) /\
  (code = Some "UPLOAD_ERROR" ->
     store w' = store w \/
     exists document,
       id document = next_id (store w) /\
       documents (store w') = (documents (store w) ++ [document])%list /\
       document_chunks (store w') = document_chunks (store w)).
Proof.
  unfold POST, signed_out.
  destruct (session request) as [user|];
    [|intros [= <- <- <- <- <- <-]; repeat split; auto; lia].
  destruct (user =? "")%string;
    [intros [= <- <- <- <- <- <-]; repeat split; auto; lia|]. cbn [or_empty].
  destruct (negb (allowed (limitCheck request)));
    [intros [= <- <- <- <- <- <-]; repeat split; auto; lia|].
  destruct (file request) as [upload|];
    [|intros [= <- <- <- <- <- <-]; repeat split; auto; lia].
  destruct (negb _);
    [intros [= <- <- <- <- <- <-]; repeat split; auto; lia|].
  destruct (size upload >? maxSize);
    [intros [= <- <- <- <- <- <-]; repeat split; auto; lia|].
  destruct (processDocument _ _ _) as [chunks metadata|e statusCode];
    [|intros [= <- <- <- <- <- <-]; repeat split; auto; lia].
  unfold workflow, upload_error.
  destruct (embed_batches _ _ _) as [embeddings|m];
    [|intros [= <- <- <- <- <- <-]; repeat split; auto; lia].
  destruct (negb (same_length embeddings chunks)) eqn:Hsame;
    [intros [= <- <- <- <- <- <-]; repeat split; auto; lia|].
  unfold persist, check_table.
  destruct (create_document _ _ _ _ _) as [w1 [document|e]] eqn:Hcreate.
  - apply create_document_inv in Hcreate as (_ & _ & Hid & _ & Hdocs & Hchunks).
    rewrite Hsame.
    destruct (wrong_dimension 0 embeddings).
    { intros [= <- <- <- <- <- <-]. repeat split; auto; try lia.
      - intros _ H. now destruct H.
      - intros _. right. exists document. auto. }
    destruct (store_batches _ _ _ _) as [w2 [r|]] eqn:Hloop; [|discriminate].
    intros [= <- ->].
    pose proof (store_batches_inv _ _ _ _ _ _ Hloop) as [(? & ? & ? & Hr) _].
    injection Hr as -> -> -> -> ->.
    repeat split; auto; try lia.
    + intros H. now destruct H.
    + intros [=].
  - apply create_document_inv in Hcreate as (_ & _ & Hstore).
    intros [= <- <- <- <- <- <-]. repeat split; auto; try lia.
Qed.

Lemma POST_failure_store_witness :
  let w := {| store := empty_store; plan := serving |} in
  let w' := fst (POST (embedder 3) (signed_in short_text) w) in
  (500 = 400 \/ 500 = 401 \/ 500 = 403 \/ 500 = 500) /\
  (500 <> 500 -> w' = w) /\
  (Some "UPLOAD_ERROR" <> Some "CHUNKS_ERROR" ->
   Some "UPLOAD_ERROR" <> Some "UPLOAD_ERROR" -> store w' = store w) /\
  (Some "UPLOAD_ERROR" = Some "UPLOAD_ERROR" ->
     store w' = store w \/
     exists document,
       id document = next_id (store w) /\
       documents (store w') = (documents (store w) ++ [document])%list /\
       document_chunks (store w') = document_chunks (store w)).
Proof.
  cbv zeta.
  apply (POST_failure_store (embedder 3) (signed_in short_text)
           {| store := empty_store; plan := serving |} _ 500 (Some "UPLOAD_ERROR")
           "Embedding at index 0 has wrong dimension: expected 1536, got 3"
           None None).
  now vm_compute.
Defined.

End UploadInvariants.

Module RetrievalInvariants.
Import JS JSNumber ProcessDocument Rag RagNotions RetrievalNotions RagFacts.
Import ChunkerFacts ChunkerInvariants.

Lemma insert_chunk_perm (a : DocumentChunk) (sorted : list DocumentChunk) :
  Permutation (insert_chunk a sorted) (a :: sorted).
Proof.
  induction sorted as [|b rest IH]; cbn [insert_chunk]; [reflexivity|].
  destruct (0 <? compare_similarity a b)%float; [|reflexivity].
  rewrite IH. apply perm_swap.
Qed.

Lemma sort_by_similarity_perm (chunks : list DocumentChunk) :
  Permutation (sort_by_similarity chunks) chunks.
Proof.
  induction chunks as [|a rest IH]; cbn; [reflexivity|].
  rewrite insert_chunk_perm. now constructor.
Qed.

Lemma array_slice_prefix {A : Type} (items : list A) (limit : Z) :
  0 <= limit ->
  array_slice items 0 limit = firstn (Z.to_nat limit) items.
Proof.
  intros H. unfold array_slice, rel_index.
  destruct (Z.ltb_spec 0 0); [lia|]. destruct (Z.ltb_spec limit 0); [lia|].
  rewrite (Z.min_l 0) by lia. rewrite Z.sub_0_r. cbn [Z.to_nat skipn].
  destruct (Z_le_gt_dec limit (Z.of_nat (List.length items))).
  - now rewrite Z.min_l by lia.
  - rewrite Z.min_r by lia. rewrite Nat2Z.id.
    rewrite !firstn_all2; [reflexivity | lia | lia].
Qed.

Lemma Forall_prefix {A : Type} (P : A -> Prop) (n : nat) : forall items,
  Forall P items -> Forall P (firstn n items).
Proof.
  induction n as [|n IH]; intros items H; [constructor|].
  destruct H; cbn; constructor; auto.
Qed.

Lemma fallback_fetched (supabase : Supabase) (q : list float)
    (documentId : string) (limit : Z) (rows : list DocumentChunk) :
  fetched supabase documentId limit rows ->
  fallback supabase q documentId limit
  = Returned (match rows with
              | [] => []
              | _ => array_slice (sort_by_similarity (map (score q) rows)) 0 limit
              end).
Proof.
  intros (response & Hsel & Herr & Hdata). unfold fallback.
  rewrite Hsel, Herr, Hdata. now destruct rows.
Qed.

(** X13: what the fallback search returns. *)
Theorem findRelevantChunks_fallback (supabase : Supabase) (q : list float)
    (documentId : string) (limit : Z) (rows : list DocumentChunk) :
  0 <= limit ->
  native_unavailable supabase q documentId limit ->
  fetched supabase documentId limit rows ->
  exists found rest,
    findRelevantChunks (Returned supabase) q documentId limit = Returned found /\
    Permutation (found ++ rest) (map (score q) rows) /\
    Z.of_nat (List.length found) = Z.min limit (Z.of_nat (List.length rows)) /\
    Forall has_number found.
Proof.
  intros Hlimit Hnative Hrows.
  rewrite (fallback_when_native_unavailable _ _ _ _ Hnative).
  rewrite (fallback_fetched _ _ _ _ _ Hrows).
  set (sorted := sort_by_similarity (map (score q) rows)).
  assert (Hperm : Permutation sorted (map (score q) rows))
    by apply sort_by_similarity_perm.
  assert (Hlen : List.length sorted = List.length rows).
  { rewrite (Permutation_length Hperm). apply length_map. }
  assert (Hnum : Forall has_number sorted).
  { apply Forall_forall. intros c Hc.
    apply (Permutation_in _ Hperm) in Hc. apply in_map_iff in Hc as (row & <- & _).
    exists (chunk_similarity q row). split; [reflexivity|].
    unfold chunk_similarity.
    destruct (embedding row) as [[|x e]|]; try reflexivity.
    destruct (is_nan (quotient q (x :: e))) eqn:Hq; [reflexivity | exact Hq]. }
  exists (firstn (Z.to_nat limit) sorted), (skipn (Z.to_nat limit) sorted).
  assert (Hres : match rows with
                 | [] => []
                 | _ :: _ => array_slice sorted 0 limit
                 end = firstn (Z.to_nat limit) sorted).
  { rewrite array_slice_prefix by assumption.
    destruct rows; [|reflexivity]. cbn. now rewrite firstn_nil. }
  rewrite Hres. repeat split.
  - now rewrite firstn_skipn.
  - rewrite length_firstn. lia.
  - now apply Forall_prefix.
Qed.

Lemma findRelevantChunks_fallback_witness :
  exists found rest,
    findRelevantChunks (Returned (plain_store two_rows)) [1; 0]%float "doc-1" 1
    = Returned found /\
    Permutation (found ++ rest) (map (score [1; 0]%float) two_rows) /\
    Z.of_nat (List.length found) = Z.min 1 (Z.of_nat (List.length two_rows)) /\
    Forall has_number found.
Proof.
  apply (findRelevantChunks_fallback (plain_store two_rows) [1; 0]%float "doc-1" 1
           two_rows).
  - lia.
  - exact I.
  - eexists. repeat split; reflexivity.
Defined.

Lemma take_short (n : nat) : forall s, (String.length s <= n)%nat -> take n s = s.
Proof.
  induction n as [|n IH]; intros [|c s] H; cbn in *; try reflexivity; [lia|].
  rewrite IH; [reflexivity | lia].
Qed.

(** X14: the sources list the chunks in order, each with its index, its
    similarity and a preview: the first 100 characters and an ellipsis,
    whatever the length of the content. *)
Theorem formatSources_previews (chunks : list DocumentChunk) :
  Forall2
    (fun chunk source =>
       chunkIndex source = chunk_index chunk /\
       source_similarity source = similarity chunk /\
       preview source = take 100 (content chunk) ++ "..." /\
       len (preview source) = Z.min 100 (len (content chunk)) + 3 /\
       (len (content chunk) <= 100 -> preview source = content chunk ++ "..."))
    chunks (formatSources chunks).
Proof.
  induction chunks as [|chunk rest IH]; cbn [formatSources map]; constructor;
    [|exact IH].
  cbn [chunkIndex source_similarity preview]. unfold substring0.
  repeat split.
  - unfold len. rewrite length_append, length_take. cbn [String.length]. lia.
  - intros H. rewrite take_short; [reflexivity | unfold len in H; lia].
Qed.

End RetrievalInvariants.
(* ================================================================== *)
(** * Idempotence of the normalization, rollback, and the stored content *)
(* ================================================================== *)

Module IdempotenceFacts.
Import JS ProcessDocument TextNotions NormNotions Validation IdempotenceNotions.
Import ChunkerFacts NormalizerFacts OverlapFacts ProcessFacts.
Import ChunkerInvariants NormalizerInvariants.

(** ** A pattern that matches nowhere *)


(** ** The length of a text after a removal *)





(** ** The length of a text after the whitespace step *)




(** ** The normalized text *)

Lemma normalizeText_trimmed (x : string) : trim (normalizeText x) = normalizeText x.
Proof.
  unfold normalizeText. destruct (x =? "")%string; [reflexivity|].
  cbv zeta. apply trim_idempotent.
Qed.


(** ** Fixed points of the normalization *)




(** ** Idempotence *)


End IdempotenceFacts.

Module RollbackFacts.
Import JS JSNumber ProcessDocument Upload TextNotions UploadNotions RouteNotions.
Import RollbackNotions.
Import ChunkerFacts NormalizerFacts OverlapFacts ProcessFacts UploadFacts.

(** ** A text without boundaries *)







(** ** The two deletes *)


(** ** The refused batch *)




(** ** Rollback *)




End RollbackFacts.

Module StoredContentFacts.
Import JS JSNumber ProcessDocument Upload TextNotions UploadNotions RouteNotions.
Import ChunkerFacts NormalizerFacts OverlapFacts ProcessFacts UploadFacts.
Import ChunkerInvariants ProcessInvariants IdempotenceFacts.

(** A successful processing went through the second test of emptiness. *)
Lemma processDocument_success_cleaned (lib : Extractors)
    (fileContent filename : string) (chunks : list string) (metadata : Metadata) :
  processDocument lib fileContent filename = Success chunks metadata ->
  exists fileType rawText,
    extractText lib fileType fileContent = inr rawText /\
    chunkText (chunk_fuel (normalizeText rawText)) (normalizeText rawText) 1000 200
    = Some chunks /\
    10 <= len (normalizeText rawText).
Proof.
  unfold processDocument.
  destruct (detectFileType filename) as [fileType|]; [|discriminate].
  destruct (len fileContent >? 10 * 1024 * 1024); [discriminate|].
  destruct (extractText lib fileType fileContent) as [failure|rawText] eqn:Hext.
  - intros ->. apply extractText_failure in Hext as (? & ? & [=]).
  - destruct ((rawText =? "")%string || (len (trim rawText) <? 10)); [discriminate|].
    rewrite empty_test, normalizeText_trimmed.
    destruct (Z.ltb_spec (len (normalizeText rawText)) 10); [discriminate|].
    destruct (chunkText _ _ _ _) as [found|] eqn:Hchunks; [|discriminate].
    intros [= <- <-]. exists fileType, rawText. auto.
Qed.

(** ** The last characters of a trimmed text *)

Lemma length_trimEnd (s : string) : (String.length (trimEnd s) <= String.length s)%nat.
Proof.
  destruct (trimEnd_split s) as (w & Hs & _).
  rewrite Hs at 2. rewrite length_append. lia.
Qed.

(** What a text without whitespace at its end ends with is not blank. *)
Lemma end_not_blank (a b : string) :
  trimEnd (a ++ b) = (a ++ b)%string -> b <> "" -> blank b = false.
Proof.
  intros Htrim Hb. destruct (blank b) eqn:E; [|reflexivity]. exfalso.
  rewrite (trimEnd_append_blank a b E) in Htrim.
  pose proof (length_trimEnd a) as Hle. rewrite Htrim, length_append in Hle.
  destruct b; [contradiction | cbn in Hle; lia].
Qed.


(** The part of a trimmed text from [n] on, if not empty, is not blank. *)
Lemma drop_not_blank (text : string) (n : nat) :
  trim text = text -> (n < String.length text)%nat -> blank (drop n text) = false.
Proof.
  intros Htrim Hn. apply (end_not_blank (take n text)).
  - rewrite take_drop. unfold trim in Htrim.
    rewrite <- Htrim at 2. rewrite <- Htrim at 1.
    apply trimEnd_idempotent.
  - intros E. pose proof (length_drop n text) as Hl. rewrite E in Hl. cbn in Hl. lia.
Qed.

Lemma not_blank_cut (s : string) : blank s = false -> not_empty (trim s) = true.
Proof.
  intros H. unfold trim.
  pose proof (trimEnd_not_blank _ (blank_trimStart s H)) as Hne.
  unfold not_empty, len. destruct (trimEnd (trimStart s)); [contradiction | reflexivity].
Qed.

Lemma take_beyond (n : nat) : forall s,
  (String.length s <= n)%nat -> take n s = s.
Proof.
  induction n as [|n IH]; intros [|c s] H; cbn in *; try reflexivity; [lia|].
  rewrite IH; [reflexivity | lia].
Qed.

(** A window that holds the last character of a trimmed text gives a
    chunk. *)
Lemma last_cut_not_empty (text : string) (w : Z * Z) :
  trim text = text -> 0 <= fst w <= len text - 1 -> len text - 1 < snd w ->
  not_empty (cut text w) = true.
Proof.
  intros Htrim Hfst Hsnd. unfold cut. apply not_blank_cut.
  rewrite slice_clamp by lia.
  unfold slice, rel_index.
  destruct (Z.ltb_spec (fst w) 0); [lia|]. destruct (Z.ltb_spec (len text) 0); [lia|].
  rewrite (Z.min_l (fst w)) by lia. rewrite Z.min_id.
  replace (take _ _) with (drop (Z.to_nat (fst w)) text).
  - apply drop_not_blank; [exact Htrim | unfold len in *; lia].
  - symmetry. apply take_beyond. rewrite length_drop. unfold len in *. lia.
Qed.

Lemma filter_two {A : Type} (f : A -> bool) (x y : A) (rest : list A) :
  f x = true -> In y rest -> f y = true ->
  (2 <= List.length (filter f (x :: rest)))%nat.
Proof.
  intros Hx Hin Hy. cbn [filter]. rewrite Hx. cbn [List.length].
  assert (In y (filter f rest)) by (apply filter_In; auto).
  destruct (filter f rest); [contradiction | cbn; lia].
Qed.

(** A trimmed text of more than [m - o] characters gives two chunks or
    more. *)
Lemma chunkText_two_chunks (fuel : nat) (text : string) (m o : Z)
    (chunks : list string) :
  1 <= o -> 2 * o <= m -> trim text = text -> m - o < len text ->
  chunkText fuel text m o = Some chunks -> (2 <= List.length chunks)%nat.
Proof.
  intros Ho1 Hm Htrim Hlen H.
  assert (Ho : 0 <= o) by lia. assert (H1 : 1 <= m) by lia.
  pose proof (chunkText_cuts _ _ _ _ _ H) as ->.
  unfold chunkText in H.
  destruct fuel as [|fuel]; [discriminate H|].
  cbn [chunk_loop] in H. cbn [windows].
  assert (Hpos : 0 < len text) by lia.
  destruct (Z.ltb_spec 0 (len text)) as [_|]; [|lia].
  pose proof (chunk_end_upper text m 0 ltac:(lia) ltac:(lia)) as Hup.
  pose proof (chunk_end_advances text m 0 0 ltac:(lia) ltac:(lia)) as Hadv.
  assert (Hnext : chunk_end text m 0 - o < len text).
  { unfold chunk_end in *. cbn [Z.add] in *.
    destruct (Z.ltb_spec m (len text)); [|lia].
    pose proof (lastIndexOf_le_from text "." m ltac:(lia)).
    pose proof (lastIndexOf_le_from text newline2 m ltac:(lia)).
    destruct (_ >? _); [lia|]. destruct (_ >? _); lia. }
  destruct (Z.geb_spec (chunk_end text m 0 - o) (len text)); [lia|].
  destruct (chunk_loop_covers text m o Ho _ _ _ _ H (len text - 1) ltac:(lia))
    as (w & Hw & Hiw).
  cbn [map]. apply (filter_two _ _ (cut text w)).
  - apply first_cut_not_empty; [|rewrite <- Htrim|lia].
    + intros E. rewrite E in Hpos. cbn in Hpos. lia.
    + unfold trim. apply starts_with_space_trimEnd, starts_with_space_trimStart.
  - now apply in_map.
  - apply last_cut_not_empty; [exact Htrim | | lia].
    pose proof (chunk_end_beyond text m o 0 Ho Hm).
    apply (windows_bounds text m o Ho Hm) in Hw; lia.
Qed.


(** ** The content of the stored document *)

(** C10, as stated, fails: the upload of a short text has one chunk, and
    the content stored for it is the normalized text itself (nothing is
    stored twice). *)
Lemma POST_stores_short_text_itself :
  exists (w' : World) (document : DocumentRow),
    POST (embedder 1536) (signed_in short_text)
      {| store := empty_store; plan := serving |}
    = (w', Uploaded document 1) /\
    documents (store w') = [document] /\
    content document = normalizeText short_text.
Proof.
  eexists. eexists. vm_compute. repeat split; reflexivity.
Qed.

(** C10 (amended): after a successful upload the store holds the document
    row the response names, and its content is the chunks of the normalized
    text joined by two line feeds.  When the normalized text has at most 800
    characters ([maxChunkSize - overlap]) there is one chunk, the text, and
    the content is the normalized text itself.  When it has more there are
    two chunks or more, and the content is not the normalized text (which
    has no line feed).  The chunks are the non-empty cuts of the windows of
    the chunker, and each window shares its last 200 characters with the
    next: trimmed, that region ends the chunk of the first window and starts
    the chunk of the second, so it is stored twice. *)
Theorem POST_stores_joined_chunks (services : Services) (request : Request)
    (w w' : World) (document : DocumentRow) (count : Z) :
  POST services request w = (w', Uploaded document count) ->
  exists upload chunks metadata fileType rawText,
    file request = Some upload /\
    processDocument (parsers services) (bytes upload) (file_name upload)
    = Success chunks metadata /\
    extractText (parsers services) fileType (bytes upload) = inr rawText /\
    let cleanedText := normalizeText rawText in
    let cuts := windows (chunk_fuel cleanedText) cleanedText 1000 200 0 in
    chunkText (chunk_fuel cleanedText) cleanedText 1000 200 = Some chunks /\
    In document (documents (store w')) /\
    content document = join newline2 chunks /\
    count = Z.of_nat (List.length chunks) /\
    (len cleanedText <= 800 ->
       chunks = [cleanedText] /\ content document = cleanedText) /\
    (800 < len cleanedText ->
       (2 <= List.length chunks)%nat /\ content document <> cleanedText) /\
    ((2 <= List.length chunks)%nat -> content document <> cleanedText) /\
    chunks = filter not_empty (map (cut cleanedText) cuts) /\
    adjacent (shares_overlap cleanedText 200) cuts.
Proof.
  intros HPOST.
  apply POST_inv in HPOST as (user & upload & chunks & metadata & embeddings
                              & _ & Hfile & Hprocess & Hpersist); [|exact I].
  apply persist_inv in Hpersist
    as (stored & w1 & _ & Hcontent & Hdocs & _ & _ & Hloop & <- & ->); [|exact I].
  apply store_batches_inv in Hloop as [Hdocs' _].
  destruct (processDocument_success_cleaned _ _ _ _ _ Hprocess)
    as (fileType & rawText & Hext & Hchunks & Hlen).
  exists upload, chunks, metadata, fileType, rawText. cbv zeta.
  destruct (chunkText_overlaps _ 1000 200 chunks ltac:(lia) ltac:(lia) ltac:(lia)
              Hchunks) as [Hcuts Hadjacent].
  assert (Htwo : (2 <= List.length chunks)%nat ->
                 content document <> normalizeText rawText).
  { intros Htwo. rewrite Hcontent.
    destruct chunks as [|c [|c' rest]]; cbn in Htwo; try lia.
    apply join_differs_from_normalized. }
  split; [exact Hfile|]. split; [exact Hprocess|]. split; [exact Hext|].
  split; [exact Hchunks|].
  split; [rewrite Hdocs', Hdocs; apply in_or_app; right; now left|].
  split; [exact Hcontent|]. split; [reflexivity|].
  split; [|split; [|split; [exact Htwo | split; assumption]]].
  - intros Hshort.
    assert (Hone : chunks = [normalizeText rawText]).
    { unfold chunk_fuel in Hchunks.
      rewrite (chunkText_one_window _ _ 1000 200) in Hchunks by lia.
      rewrite normalizeText_trimmed in Hchunks. cbn [filter] in Hchunks.
      unfold not_empty in Hchunks.
      destruct (Z.gtb_spec (len (normalizeText rawText)) 0); [|lia].
      now injection Hchunks as <-. }
    split; [exact Hone|]. now rewrite Hcontent, Hone.
  - intros Hlong.
    assert (H2 : (2 <= List.length chunks)%nat).
    { apply (chunkText_two_chunks _ _ 1000 200 chunks) in Hchunks; auto; try lia.
      apply normalizeText_trimmed. }
    split; [exact H2 | now apply Htwo].
Qed.

(** The upload of [long_text]: four chunks, 3006 characters stored for a
    text of 2500. *)
Lemma POST_stores_joined_chunks_witness :
  String.length long_text = 2500%nat /\
  String.length (content stored_long_text) = 3006%nat /\
  exists upload chunks metadata fileType rawText,
    file (signed_in long_text) = Some upload /\
    processDocument (parsers (embedder 1536)) (bytes upload) (file_name upload)
    = Success chunks metadata /\
    extractText (parsers (embedder 1536)) fileType (bytes upload) = inr rawText /\
    chunkText (chunk_fuel (normalizeText rawText)) (normalizeText rawText) 1000 200
    = Some chunks /\
    In stored_long_text
      (documents (store (fst (POST (embedder 1536) (signed_in long_text)
                                {| store := empty_store; plan := serving |})))) /\
    content stored_long_text = join newline2 chunks /\
    4 = Z.of_nat (List.length chunks) /\
    (len (normalizeText rawText) <= 800 ->
       chunks = [normalizeText rawText] /\
       content stored_long_text = normalizeText rawText) /\
    (800 < len (normalizeText rawText) ->
       (2 <= List.length chunks)%nat /\
       content stored_long_text <> normalizeText rawText) /\
    ((2 <= List.length chunks)%nat ->
     content stored_long_text <> normalizeText rawText) /\
    chunks = filter not_empty
               (map (cut (normalizeText rawText))
                  (windows (chunk_fuel (normalizeText rawText))
                     (normalizeText rawText) 1000 200 0)) /\
    adjacent (shares_overlap (normalizeText rawText) 200)
      (windows (chunk_fuel (normalizeText rawText)) (normalizeText rawText)
         1000 200 0).
Proof.
  split; [vm_compute; reflexivity|]. split; [vm_compute; reflexivity|].
  apply (POST_stores_joined_chunks (embedder 1536) (signed_in long_text)
           {| store := empty_store; plan := serving |}).
  vm_compute. reflexivity.
Defined.

End StoredContentFacts.
(* ================================================================== *)
(** * Properties of the validation helpers and of the client helpers *)
(* ================================================================== *)

Module ValidationFacts.
Import JS JSNumber ProcessDocument Upload Validation TextNotions ValidationNotions.
Import RouteNotions ChunkerFacts NormalizerFacts OverlapFacts ChunkerInvariants.
Import FileTypeFacts.

(** ** The matcher to the end of the input *)

Lemma match_to_end_class (p : ascii -> bool) (lo : nat) (hi : option nat)
    (rest : list quantified) (s : string) :
  match_to_end ({| member := p; at_least := lo; at_most := hi |} :: rest) s =
    let stop := match lo with O => match_to_end rest s | S _ => false end in
    match s with
    | "" => stop
    | String c s' =>
        if p c && room hi then
          match_to_end ({| member := p; at_least := pred lo; at_most := less hi |}
                          :: rest) s' || stop
        else stop
    end.
Proof. destruct s; reflexivity. Qed.

Lemma match_to_end_spec (rest : list quantified) (p : ascii -> bool) (s : string) :
  forall (lo : nat) (hi : option nat),
    let q := {| member := p; at_least := lo; at_most := hi |} in
    match_to_end (q :: rest) s = true <->
    exists a b, s = (a ++ b)%string /\ all p a = true /\
                within q (String.length a) /\ match_to_end rest b = true.
Proof.
  induction s as [|c s IH]; intros lo hi q; unfold q; rewrite match_to_end_class;
    cbv zeta; unfold within; cbn [at_least at_most].
  - split.
    + destruct lo; [|discriminate]. intros H. exists "", "".
      repeat split; auto. destruct hi; [cbn; lia | exact I].
    + intros (a & b & Hs & _ & [Hlo _] & Hb).
      destruct a; [|discriminate Hs]. cbn in Hs. subst b.
      cbn in Hlo. destruct lo; [exact Hb | lia].
  - split.
    + intros H.
      assert (Hstop : match lo with O => match_to_end rest (String c s) | S _ => false end
                      = true ->
                      exists a b, String c s = (a ++ b)%string /\ all p a = true /\
                        ((lo <= String.length a)%nat /\
                         match hi with None => True | Some h => (String.length a <= h)%nat end)
                        /\ match_to_end rest b = true).
      { destruct lo; [|discriminate]. intros Hb. exists "", (String c s).
        repeat split; auto. destruct hi; [cbn; lia | exact I]. }
      destruct (p c) eqn:Hc; [|exact (Hstop H)].
      destruct (room hi) eqn:Hroom; [|exact (Hstop H)].
      cbn [andb] in H. apply orb_true_iff in H as [H|H]; [|exact (Hstop H)].
      apply IH in H as (a & b & -> & Ha & [Hlo Hhi] & Hb).
      cbn [at_least at_most] in *.
      exists (String c a), b. cbn [append all String.length]. rewrite Hc, Ha.
      repeat split; auto; [lia|].
      destruct hi as [[|h]|]; [discriminate Hroom | cbn in Hhi; lia | exact I].
    + intros (a & b & Hs & Ha & [Hlo Hhi] & Hb).
      destruct a as [|x a].
      * cbn in Hs, Hlo. subst b. destruct lo; [|lia].
        rewrite Hb. destruct (p c && room hi); [apply orb_true_r | reflexivity].
      * cbn in Hs. injection Hs as <- ->. cbn in Ha, Hlo, Hhi.
        apply andb_true_iff in Ha as [Hc Ha]. rewrite Hc.
        assert (Hroom : room hi = true).
        { destruct hi as [[|h]|]; [lia | reflexivity | reflexivity]. }
        rewrite Hroom. cbn [andb]. apply orb_true_iff. left.
        apply IH. exists a, b. repeat split; auto; cbn [at_least at_most].
        -- lia.
        -- destruct hi as [h|]; [cbn; lia | exact I].
Qed.

Lemma match_some (p : ascii -> bool) (rest : list quantified) (s : string) :
  match_to_end (some p :: rest) s = true <->
  exists a b, s = (a ++ b)%string /\ a <> "" /\ all p a = true /\
              match_to_end rest b = true.
Proof.
  unfold some. rewrite match_to_end_spec. unfold within. cbn [at_least at_most].
  split; intros (a & b & Hs & H).
  - destruct H as (Ha & [Hlo _] & Hb). exists a, b. repeat split; auto.
    intros ->. cbn in Hlo. lia.
  - destruct H as (Hne & Ha & Hb). exists a, b. repeat split; auto.
    destruct a; [contradiction | cbn; lia].
Qed.

Lemma match_one (x : ascii) (rest : list quantified) (s : string) :
  match_to_end (one (Ascii.eqb x) :: rest) s = true <->
  exists b, s = String x b /\ match_to_end rest b = true.
Proof.
  unfold one. rewrite match_to_end_spec. unfold within. cbn [at_least at_most].
  split.
  - intros (a & b & -> & Ha & [Hlo Hhi] & Hb).
    destruct a as [|c [|c' a]]; cbn in Hlo, Hhi; try lia.
    cbn in Ha. rewrite andb_true_r in Ha. apply Ascii.eqb_eq in Ha as <-.
    now exists b.
  - intros (b & -> & Hb). exists (String x ""), b. cbn.
    rewrite Ascii.eqb_refl. repeat split; auto.
Qed.

Lemma match_exactly (n : nat) (p : ascii -> bool) (rest : list quantified)
    (s : string) :
  match_to_end (exactly n p :: rest) s = true <->
  exists a b, s = (a ++ b)%string /\ String.length a = n /\ all p a = true /\
              match_to_end rest b = true.
Proof.
  unfold exactly. rewrite match_to_end_spec. unfold within. cbn [at_least at_most].
  split; intros (a & b & Hs & H); exists a, b.
  - destruct H as (Ha & [Hlo Hhi] & Hb). repeat split; auto. lia.
  - destruct H as (Hlen & Ha & Hb). repeat split; auto; lia.
Qed.

Lemma match_end (s : string) : match_to_end [] s = true <-> s = "".
Proof. destruct s; cbn; split; congruence. Qed.

(** ** isValidEmail *)

(** X15: the addresses [isValidEmail] accepts. *)
Theorem isValidEmail_accepts (email : string) :
  isValidEmail email = true <->
  exists local domain tld, address_parts email local domain tld.
Proof.
  unfold isValidEmail, test_whole, emailRegex, address_parts.
  rewrite match_some. split.
  - intros (local & r1 & -> & Hl & Hla & H).
    apply match_one in H as (r2 & -> & H).
    apply match_some in H as (domain & r3 & -> & Hd & Hda & H).
    apply match_one in H as (r4 & -> & H).
    apply match_some in H as (tld & r5 & -> & Ht & Hta & H).
    apply match_end in H as ->.
    exists local, domain, tld. rewrite append_empty_r. repeat split; auto.
  - intros (local & domain & tld & -> & Hl & Hd & Ht & Hla & Hda & Hta).
    exists local, ("@" ++ domain ++ "." ++ tld)%string. repeat split; auto.
    apply match_one. exists (domain ++ "." ++ tld)%string. split; [reflexivity|].
    apply match_some. exists domain, ("." ++ tld)%string. repeat split; auto.
    apply match_one. exists tld. split; [reflexivity|].
    apply match_some. exists tld, "". rewrite append_empty_r. repeat split; auto.
Qed.

(** ** isValidUUID *)

(** X16: the identifiers [isValidUUID] accepts. *)
Theorem isValidUUID_accepts (uuid : string) :
  isValidUUID uuid = true <->
  exists a b c d e,
    uuid = (a ++ "-" ++ b ++ "-" ++ c ++ "-" ++ d ++ "-" ++ e)%string /\
    hex_group 8 a /\ hex_group 4 b /\ hex_group 4 c /\ hex_group 4 d /\
    hex_group 12 e.
Proof.
  unfold isValidUUID, test_whole, uuidRegex, hex_group.
  rewrite match_exactly. split.
  - intros (a & r1 & -> & Hal & Ha & H).
    apply match_one in H as (r & -> & H).
    apply match_exactly in H as (b & r2 & -> & Hbl & Hb & H).
    apply match_one in H as (r & -> & H).
    apply match_exactly in H as (c & r3 & -> & Hcl & Hc & H).
    apply match_one in H as (r & -> & H).
    apply match_exactly in H as (d & r4 & -> & Hdl & Hd & H).
    apply match_one in H as (r & -> & H).
    apply match_exactly in H as (e & r5 & -> & Hel & He & H).
    apply match_end in H as ->.
    exists a, b, c, d, e. rewrite append_empty_r. repeat split; auto.
  - intros (a & b & c & d & e & -> & [Hal Ha] & [Hbl Hb] & [Hcl Hc] & [Hdl Hd]
            & [Hel He]).
    exists a, ("-" ++ b ++ "-" ++ c ++ "-" ++ d ++ "-" ++ e)%string.
    repeat split; auto.
    apply match_one. eexists. split; [reflexivity|].
    apply match_exactly. exists b, ("-" ++ c ++ "-" ++ d ++ "-" ++ e)%string.
    repeat split; auto.
    apply match_one. eexists. split; [reflexivity|].
    apply match_exactly. exists c, ("-" ++ d ++ "-" ++ e)%string.
    repeat split; auto.
    apply match_one. eexists. split; [reflexivity|].
    apply match_exactly. exists d, ("-" ++ e)%string.
    repeat split; auto.
    apply match_one. eexists. split; [reflexivity|].
    apply match_exactly. exists e, "". rewrite append_empty_r. repeat split; auto.
Qed.

(** ** isValidPassword *)

Lemma match_one_class (p : ascii -> bool) (prev : option ascii) (s : string) :
  match_items [Class p 1 (Some 1%nat)] prev s =
    match s with
    | "" => None
    | String c _ => if p c then Some 1%nat else None
    end.
Proof.
  rewrite match_class. destruct s as [|c s]; [reflexivity|].
  cbv zeta. cbn [room andb pred less]. rewrite andb_true_r.
  destruct (p c); [|reflexivity].
  rewrite match_class. cbv zeta. cbn [room match_items].
  destruct s as [|c' s]; [reflexivity|]. now rewrite andb_false_r.
Qed.

Lemma test_one_class (p : ascii -> bool) (s : string) : forall prev,
  test_from [Class p 1 (Some 1%nat)] prev s = has p s.
Proof.
  induction s as [|c s IH]; intros prev; cbn [test_from has];
    rewrite match_one_class; [reflexivity|].
  destruct (p c); [reflexivity | apply IH].
Qed.

Lemma errors_broken_rules (password : string) :
  errors (isValidPassword password) = broken_rules password.
Proof.
  unfold isValidPassword, broken_rules, test, push_if. cbn [errors].
  rewrite !test_one_class.
  destruct (len password <? 8); destruct (has is_upper password);
    destruct (has is_lower password); destruct (has is_digit password);
    reflexivity.
Qed.

Lemma valid_password (password : string) :
  (valid (isValidPassword password) = true <->
     errors (isValidPassword password) = []) /\
  (valid (isValidPassword password) = true <->
     8 <= len password /\ has is_upper password = true /\
     has is_lower password = true /\ has is_digit password = true).
Proof.
  pose proof (errors_broken_rules password) as He.
  assert (Hv : valid (isValidPassword password)
               = (List.length (errors (isValidPassword password)) =? 0)%nat)
    by reflexivity.
  rewrite Hv, He. unfold broken_rules.
  destruct (Z.ltb_spec (len password) 8); destruct (has is_upper password);
    destruct (has is_lower password); destruct (has is_digit password);
    cbn; (split; split; try discriminate; try reflexivity; try lia;
          try (intros (? & ? & ? & ?); discriminate || lia); auto).
Qed.

(** X17: the passwords [isValidPassword] accepts, and the errors it lists. *)
Theorem isValidPassword_rules (password : string) :
  errors (isValidPassword password) = broken_rules password /\
  (valid (isValidPassword password) = true <->
     errors (isValidPassword password) = []) /\
  (valid (isValidPassword password) = true <->
     8 <= len password /\ has is_upper password = true /\
     has is_lower password = true /\ has is_digit password = true).
Proof.
  split; [apply errors_broken_rules | apply valid_password].
Qed.

(** ** sanitizeString *)

Lemma replace_chr (x : ascii) (repl : string) (s : string) : forall prev,
  replace_from [chr x] repl O prev s = subst x repl s.
Proof.
  induction s as [|c s IH]; intros prev; rewrite replace_from_start;
    unfold chr; rewrite match_one_class; [reflexivity|].
  cbn [subst]. destruct (Ascii.eqb x c); now rewrite <- (IH (Some c)).
Qed.

Lemma subst_append (x : ascii) (repl : string) (a b : string) :
  subst x repl (a ++ b) = (subst x repl a ++ subst x repl b)%string.
Proof.
  induction a as [|c a IH]; cbn [append subst]; [reflexivity|].
  rewrite IH. destruct (Ascii.eqb x c); [now rewrite append_assoc | reflexivity].
Qed.

Lemma sanitizeString_subst (s : string) :
  sanitizeString s =
    subst "/" "&#x2F;" (subst single_quote "&#x27;" (subst double_quote "&quot;"
      (subst ">" "&gt;" (subst "<" "&lt;" s)))).
Proof. unfold sanitizeString, replace. now rewrite !replace_chr. Qed.

Lemma sanitizeString_append (a b : string) :
  sanitizeString (a ++ b) = (sanitizeString a ++ sanitizeString b)%string.
Proof. rewrite !sanitizeString_subst. now rewrite !subst_append. Qed.

Lemma sanitizeString_char (c : ascii) : sanitizeString (String c "") = escape c.
Proof.
  rewrite sanitizeString_subst.
  destruct c as [[] [] [] [] [] [] [] []]; reflexivity.
Qed.

Lemma sanitizeString_escaped (s : string) : sanitizeString s = escaped s.
Proof.
  induction s as [|c s IH]; [reflexivity|].
  change (String c s) with (String c "" ++ s)%string.
  rewrite sanitizeString_append, sanitizeString_char, IH. reflexivity.
Qed.

Lemma escape_no_markup (c : ascii) : no_markup (escape c).
Proof. destruct c as [[] [] [] [] [] [] [] []]; reflexivity. Qed.

Lemma escape_plain (c : ascii) : markup_char c = false -> escape c = String c "".
Proof. destruct c as [[] [] [] [] [] [] [] []]; cbn; congruence. Qed.

Lemma escape_length (c : ascii) : (1 <= String.length (escape c))%nat.
Proof. destruct c as [[] [] [] [] [] [] [] []]; cbn; lia. Qed.

Lemma escaped_no_markup (s : string) : no_markup (escaped s).
Proof.
  induction s as [|c s IH]; [reflexivity|]. cbn [escaped].
  apply all_append; [apply escape_no_markup | exact IH].
Qed.

Lemma escaped_plain (s : string) : no_markup s -> escaped s = s.
Proof.
  unfold no_markup. induction s as [|c s IH]; [reflexivity|]. cbn [all escaped].
  intros H. apply andb_true_iff in H as [Hc Hs].
  rewrite escape_plain by now apply negb_true_iff.
  now rewrite IH.
Qed.

Lemma escaped_length (s : string) : len s <= len (escaped s).
Proof.
  unfold len. induction s as [|c s IH]; [cbn; lia|]. cbn [escaped String.length].
  rewrite length_append. pose proof (escape_length c). lia.
Qed.

(** X18: what [sanitizeString] writes. *)
Theorem sanitizeString_escapes (input : string) :
  sanitizeString input = escaped input /\
  no_markup (sanitizeString input) /\
  (no_markup input -> sanitizeString input = input) /\
  sanitizeString (sanitizeString input) = sanitizeString input /\
  len input <= len (sanitizeString input) /\
  sanitizeString "&lt;" = sanitizeString "<".
Proof.
  rewrite !sanitizeString_escaped.
  pose proof (escaped_no_markup input) as H.
  repeat split; auto.
  - apply escaped_plain.
  - now apply escaped_plain.
  - apply escaped_length.
Qed.

(** ** isValidChatMessage *)

Lemma trim_blank (s : string) : blank s = true -> trim s = "".
Proof. intros H. unfold trim. now rewrite trimStart_blank. Qed.

(** X19: the messages [isValidChatMessage] accepts. *)
Theorem isValidChatMessage_accepts (message : string) :
  (check_valid (isValidChatMessage message) = true <->
     1 <= len (trim message) <= 1000) /\
  (check_valid (isValidChatMessage message) = true <->
     check_message (isValidChatMessage message) = None) /\
  isValidChatMessage (trim message) = isValidChatMessage message /\
  (blank message = true ->
     isValidChatMessage message
     = {| check_valid := false; check_message := Some "Message cannot be empty" |}).
Proof.
  unfold isValidChatMessage. cbv zeta. rewrite trim_idempotent.
  assert (0 <= len (trim message)) by (unfold len; lia).
  repeat split.
  - destruct (Z.eqb_spec (len (trim message)) 0); [discriminate|].
    destruct (Z.gtb_spec (len (trim message)) 1000); [discriminate | lia].
  - destruct (Z.eqb_spec (len (trim message)) 0); [discriminate|].
    destruct (Z.gtb_spec (len (trim message)) 1000); [discriminate | lia].
  - intros [H1 H2].
    destruct (Z.eqb_spec (len (trim message)) 0); [lia|].
    destruct (Z.gtb_spec (len (trim message)) 1000); [lia | reflexivity].
  - destruct (len (trim message) =? 0); [discriminate|].
    destruct (len (trim message) >? 1000); [discriminate | reflexivity].
  - destruct (len (trim message) =? 0); [discriminate|].
    destruct (len (trim message) >? 1000); [discriminate | reflexivity].
  - intros Hb. now rewrite (trim_blank _ Hb).
Qed.

(** ** isValidFileType *)

Lemma split_pop_from_no_separator (sep : ascii) (s : string) : forall acc,
  all (fun c => negb (Ascii.eqb c sep)) s = true ->
  split_pop_from sep acc s = acc.
Proof.
  induction s as [|c s IH]; intros acc H; [reflexivity|].
  cbn in H. apply andb_true_iff in H as [Hc Hs]. cbn [split_pop_from].
  apply negb_true_iff in Hc. rewrite Hc. now apply IH.
Qed.

(** X9: the three readings of a file name: they agree on pdf, txt and
    docx, which are the names [isValidFileType] accepts, and differ on doc
    and text. *)
Theorem file_type_readings (filename : string) :
  let ext := extension filename in
  (isValidFileType filename defaultAllowedTypes = true <->
     ext = "pdf" \/ ext = "txt" \/ ext = "docx") /\
  (ext = "pdf" \/ ext = "txt" \/ ext = "docx" ->
     getFileType filename = ext /\ detectFileType filename = Returned ext) /\
  (ext = "doc" ->
     getFileType filename = "docx" /\
     detectFileType filename = Thrown "Unsupported file type: doc") /\
  (ext = "text" ->
     getFileType filename = "unknown" /\
     detectFileType filename = Returned "txt") /\
  (getFileType filename = "unknown" -> ext <> "text" ->
     detectFileType filename = Thrown ("Unsupported file type: " ++ ext)) /\
  (all (fun c => negb (Ascii.eqb c ".")) filename = true ->
     ext = toLowerCase filename).
Proof.
  cbv zeta. split.
  { unfold isValidFileType, defaultAllowedTypes, array_includes.
    fold (extension filename). cbv zeta. cbn [existsb].
    destruct (String.eqb_spec (extension filename) "") as [E|_].
    { rewrite E. split; [discriminate | intros [H|[H|H]]; discriminate H]. }
    destruct (String.eqb_spec (extension filename) "pdf");
    destruct (String.eqb_spec (extension filename) "txt");
    destruct (String.eqb_spec (extension filename) "docx"); cbn;
      split; auto; try discriminate; intros [H|[H|H]]; congruence. }
  rewrite detectFileType_extension. unfold getFileType.
  fold (extension filename). cbv zeta.
  split; [|split; [|split; [|split]]].
  - intros [-> | [-> | ->]]; split; reflexivity.
  - intros ->. split; reflexivity.
  - intros ->. split; reflexivity.
  - destruct (String.eqb_spec (extension filename) "pdf"); [discriminate|].
    destruct (String.eqb_spec (extension filename) "txt"); [discriminate|].
    destruct (String.eqb_spec (extension filename) "docx"); [discriminate|].
    destruct (String.eqb_spec (extension filename) "doc"); [discriminate|].
    destruct (String.eqb_spec (extension filename) "text"); [contradiction|].
    reflexivity.
  - intros H. unfold extension, split_pop.
    now rewrite split_pop_from_no_separator.
Qed.

End ValidationFacts.

Module HelperFacts.
Import JS JSNumber ProcessDocument Validation KeyboardShortcuts.
Import Upload RouteNotions TextNotions FileTypeFacts ValidationFacts.
Import DocumentHelpers HelperNotions.

(** X21: the shortcut matches when the keys agree up to case and the
    modifiers are the same, no more and no fewer. *)
Theorem matchesShortcut_exact (event : KeyboardEvent) (shortcut : KeyboardShortcut) :
  matchesShortcut event shortcut = true <->
  toLowerCase (key event) = toLowerCase (shortcut_key shortcut) /\
  same_modifiers event shortcut.
Proof.
  unfold matchesShortcut, same_modifiers.
  destruct (String.eqb_spec (toLowerCase (key event))
              (toLowerCase (shortcut_key shortcut))) as [E|E]; cbn [negb].
  - destruct (set (ctrl shortcut)), (set (meta shortcut)), (set (shift shortcut)),
      (set (alt shortcut)), (ctrlKey event), (metaKey event), (shiftKey event),
      (altKey event); cbn; split; try discriminate; auto;
      intros (_ & H1 & H2 & H3 & H4); discriminate.
  - split; [discriminate | intros [H _]; contradiction].
Qed.

Lemma first_match_found (event : KeyboardEvent) (shortcuts : list KeyboardShortcut) :
  forall (index found : nat),
    first_match event shortcuts index = Some found ->
    exists before shortcut after,
      shortcuts = (before ++ shortcut :: after)%list /\
      found = (index + List.length before)%nat /\
      matchesShortcut event shortcut = true /\
      Forall (fun s => matchesShortcut event s = false) before.
Proof.
  induction shortcuts as [|s rest IH]; intros index found; cbn [first_match];
    [discriminate|].
  destruct (matchesShortcut event s) eqn:Hs.
  - intros [= <-]. exists [], s, rest. cbn. repeat split; auto; lia.
  - intros H. apply IH in H as (before & shortcut & after & -> & -> & Hm & Hb).
    exists (s :: before), shortcut, after. cbn. repeat split; auto; lia.
Qed.

Lemma first_match_none (event : KeyboardEvent) (shortcuts : list KeyboardShortcut) :
  forall index,
    first_match event shortcuts index = None <->
    Forall (fun s => matchesShortcut event s = false) shortcuts.
Proof.
  induction shortcuts as [|s rest IH]; intros index; cbn [first_match].
  - split; [constructor | reflexivity].
  - destruct (matchesShortcut event s) eqn:Hs.
    + split; [discriminate | intros H; inversion H; congruence].
    + rewrite IH. split; [now constructor | intros H; now inversion H].
Qed.

(** X22: the handler calls the first shortcut that matches, and where the
    user types only Escape and Enter with Ctrl or Meta get through. *)
Theorem handleKeyDown_dispatch (shortcuts : list KeyboardShortcut)
    (target : Target) (event : KeyboardEvent) :
  (forall found, handleKeyDown shortcuts target event = Some found ->
     (typing target = true ->
        key event = "Escape" \/
        (key event = "Enter" /\ (ctrlKey event = true \/ metaKey event = true))) /\
     exists before shortcut after,
       shortcuts = (before ++ shortcut :: after)%list /\
       found = List.length before /\
       matchesShortcut event shortcut = true /\
       Forall (fun s => matchesShortcut event s = false) before) /\
  (typing target = false ->
     (handleKeyDown shortcuts target event = None <->
      Forall (fun s => matchesShortcut event s = false) shortcuts)).
Proof.
  unfold handleKeyDown. fold (typing target). split.
  - intros found H. split.
    + intros Ht. rewrite Ht in H. cbn [andb] in H.
      destruct (String.eqb_spec (key event) "Escape") as [E|_]; [now left|].
      destruct (String.eqb_spec (key event) "Enter") as [E|_];
        [|discriminate H].
      cbn [negb andb] in H. right. split; [exact E|].
      destruct (ctrlKey event); [now left|]. destruct (metaKey event); [now right|].
      discriminate H.
    + destruct (typing target && _); [discriminate|].
      now apply first_match_found in H.
  - intros ->. cbn [andb]. apply first_match_none.
Qed.

(** ** The checks of the uploader and those of the route *)

Lemma dotted_extension (e : string) :
  array_includes allowedExtensions ("." ++ e)
  = (e =? "pdf")%string || (e =? "txt")%string || (e =? "docx")%string.
Proof.
  unfold array_includes, allowedExtensions. cbn [existsb append String.eqb Ascii.eqb Bool.eqb andb].
  rewrite orb_false_r, orb_assoc. reflexivity.
Qed.

Lemma array_includes_In (items : list string) (x : string) :
  array_includes items x = true <-> In x items.
Proof.
  unfold array_includes. rewrite existsb_exists. split.
  - intros (y & Hy & E). apply String.eqb_eq in E. now subst.
  - intros H. exists x. split; [exact H | apply String.eqb_refl].
Qed.

Lemma getFileType_known (filename : string) :
  extension filename = "pdf" \/ extension filename = "txt"
  \/ extension filename = "docx" ->
  getFileType filename = extension filename.
Proof.
  unfold getFileType. fold (extension filename).
  intros [-> | [-> | ->]]; reflexivity.
Qed.

(** X20: what the checks of the uploader accept, and what the route then
    does with the file. *)
Theorem uploader_checks (file : BrowserFile) :
  (valid (validateFileType file) = true <->
     In (type file) allowedTypes \/
     extension (name file) = "pdf" \/ extension (name file) = "txt"
     \/ extension (name file) = "docx") /\
  (valid (validateFileSize file 10) = true <-> size file <= maxSize) /\
  (forall (services : Services) (user : string) (w : World),
     user <> "" ->
     extension (name file) = "pdf" \/ extension (name file) = "txt"
     \/ extension (name file) = "docx" ->
     valid (validateFileSize file 10) = true ->
     POST services (uploading user file) w
     = match processDocument (parsers services) (bytes (upload file))
               (name file) with
       | Failure error _ =>
           (w, Failed 500 (Some "PROCESSING_FAILED")
                 (or_default error "Document processing failed") None None)
       | Success chunks _ => workflow services user (name file) chunks w
       end) /\
  (forall (services : Services) (user : string) (w : World),
     user <> "" ->
     In (type file) allowedTypes ->
     getFileType (name file) = "unknown" ->
     valid (validateFileType file) = true /\
     POST services (uploading user file) w
     = (w, Failed 400 (Some "INVALID_FILE_TYPE")
             ("File type " ++ quote ++ "unknown" ++ quote
              ++ " is not supported. Please upload PDF, TXT, or DOCX files.")
             None None)) /\
  (forall (services : Services) (w : World),
     POST services (uploading "" file) w
     = (w, Failed 401 None "Authentication required" None None)).
Proof.
  assert (Htype : valid (validateFileType file) = true <->
     In (type file) allowedTypes \/
     extension (name file) = "pdf" \/ extension (name file) = "txt"
     \/ extension (name file) = "docx").
  { unfold validateFileType. cbv zeta. fold (extension (name file)).
    rewrite dotted_extension, <- array_includes_In.
    destruct (array_includes allowedTypes (type file)); cbn [negb andb].
    { split; auto. }
    destruct (String.eqb_spec (extension (name file)) "pdf");
    destruct (String.eqb_spec (extension (name file)) "txt");
    destruct (String.eqb_spec (extension (name file)) "docx"); cbn;
      split; auto; try discriminate; intros [H|[H|[H|H]]]; congruence. }
  assert (Hsize : valid (validateFileSize file 10) = true <-> size file <= maxSize).
  { unfold validateFileSize, maxSize. cbv zeta.
    destruct (Z.gtb_spec (size file) (10 * 1024 * 1024)); cbn; split;
      try discriminate; auto; lia. }
  split; [exact Htype|]. split; [exact Hsize|]. split; [|split].
  - intros services user w Hid Hext Hs. apply Hsize in Hs.
    unfold POST, uploading, signed_out.
    cbn [session limitCheck allowed Upload.file negb or_empty].
    destruct (String.eqb_spec user ""); [contradiction|].
    fold (name file). rewrite (getFileType_known _ Hext).
    assert (Hok : negb ((extension (name file) =? "pdf")%string
                        || (extension (name file) =? "txt")%string
                        || (extension (name file) =? "docx")%string) = false).
    { destruct Hext as [-> | [-> | ->]]; reflexivity. }
    rewrite Hok. fold (size file).
    destruct (Z.gtb_spec (size file) maxSize); [lia|]. reflexivity.
  - intros services user w Hid Hin Hunknown. split; [apply Htype; now left|].
    unfold POST, uploading, signed_out.
    cbn [session limitCheck allowed Upload.file negb or_empty].
    destruct (String.eqb_spec user ""); [contradiction|].
    fold (name file). rewrite Hunknown. reflexivity.
  - reflexivity.
Qed.

End HelperFacts.
(* ================================================================== *)
(** * Properties of the limits *)
(* ================================================================== *)

Module LimitFacts.
Import JS JSNumber ProcessDocument RateLimit LimitNotions.

Lemma subscriber_is_pro (supabase : Supabase) (userId : string) :
  subscriber supabase userId ->
  is_pro (getUserSubscriptionStatus supabase userId) = true.
Proof.
  intros (user & H & Ht & Hs). unfold getUserSubscriptionStatus.
  rewrite H. cbn. now rewrite Ht, Hs.
Qed.

Lemma unread_is_not_pro (supabase : Supabase) (userId : string) :
  subscription_unread supabase userId ->
  is_pro (getUserSubscriptionStatus supabase userId) = false.
Proof.
  unfold subscription_unread, getUserSubscriptionStatus.
  destruct (select_subscription supabase userId) as [reply|]; [|reflexivity].
  destruct (error reply); [reflexivity | contradiction].
Qed.

Lemma count_unread_zero (supabase : Supabase) (userId : string) :
  count_unread supabase userId -> getDocumentCount supabase userId = 0.
Proof.
  unfold count_unread, getDocumentCount.
  destruct (count_documents supabase userId) as [reply|]; [|reflexivity].
  destruct (count_error reply); [reflexivity | contradiction].
Qed.

Lemma usage_unread_none (supabase : Supabase) (userId : string) :
  usage_unread supabase userId -> getCurrentUsage supabase userId = None.
Proof.
  unfold usage_unread, getCurrentUsage.
  destruct (select_usage supabase userId) as [reply|]; [|reflexivity].
  intros [He Hd]. destruct (error reply) as [code|]; [|contradiction].
  now destruct (negb _).
Qed.

(** X23: when the store cannot be read, the two checks let the user
    through. *)
Theorem limits_when_store_unread (supabase : Supabase) (userId : string) :
  subscription_unread supabase userId ->
  (count_unread supabase userId ->
     checkDocumentLimit supabase userId = fresh DOCUMENTS_TOTAL) /\
  (usage_unread supabase userId ->
     checkChatLimit supabase userId = fresh CHATS_PER_MONTH) /\
  (count_unread supabase userId -> usage_unread supabase userId ->
     getUserUsage supabase userId
     = {| chatsCount := 0; chatsLimit := Finite CHATS_PER_MONTH;
          documentsCount := 0; documentsLimit := Finite DOCUMENTS_TOTAL;
          usage_isPro := false |}).
Proof.
  intros Hs. apply unread_is_not_pro in Hs. repeat split.
  - intros Hc. unfold checkDocumentLimit. cbv zeta.
    now rewrite Hs, (count_unread_zero _ _ Hc).
  - intros Hu. unfold checkChatLimit. cbv zeta.
    now rewrite Hs, (usage_unread_none _ _ Hu).
  - intros Hc Hu. unfold getUserUsage. cbv zeta.
    now rewrite Hs, (count_unread_zero _ _ Hc), (usage_unread_none _ _ Hu).
Qed.

Lemma limits_when_store_unread_witness :
  (count_unread unreachable "user-1" ->
     checkDocumentLimit unreachable "user-1" = fresh DOCUMENTS_TOTAL) /\
  (usage_unread unreachable "user-1" ->
     checkChatLimit unreachable "user-1" = fresh CHATS_PER_MONTH) /\
  (count_unread unreachable "user-1" -> usage_unread unreachable "user-1" ->
     getUserUsage unreachable "user-1"
     = {| chatsCount := 0; chatsLimit := Finite CHATS_PER_MONTH;
          documentsCount := 0; documentsLimit := Finite DOCUMENTS_TOTAL;
          usage_isPro := false |}).
Proof.
  apply (limits_when_store_unread unreachable "user-1"). exact I.
Defined.

(** X24: who the two checks let through, and what the usage shown to the
    user says of it. *)
Theorem limits_and_usage (supabase : Supabase) (userId : string) :
  let usage := getUserUsage supabase userId in
  (allowed (checkChatLimit supabase userId) = true <->
     below (chatsCount usage) (chatsLimit usage)) /\
  (allowed (checkDocumentLimit supabase userId) = true <->
     below (documentsCount usage) (documentsLimit usage)) /\
  (usage_isPro usage = true ->
     checkChatLimit supabase userId = unlimited /\
     checkDocumentLimit supabase userId = unlimited) /\
  (usage_isPro usage = false ->
     currentCount (checkChatLimit supabase userId) = chatsCount usage /\
     currentCount (checkDocumentLimit supabase userId) = documentsCount usage) /\
  (allowed (checkChatLimit supabase userId) = true <->
     message (checkChatLimit supabase userId) = None) /\
  (allowed (checkDocumentLimit supabase userId) = true <->
     message (checkDocumentLimit supabase userId) = None).
Proof.
  unfold getUserUsage, checkChatLimit, checkDocumentLimit, below, unlimited.
  cbv zeta. cbn [chatsCount chatsLimit documentsCount documentsLimit usage_isPro].
  destruct (is_pro (getUserSubscriptionStatus supabase userId)).
  - cbn. repeat split; auto; discriminate.
  - unfold CHATS_PER_MONTH, DOCUMENTS_TOTAL.
    destruct (Z.geb_spec (chats_of (getCurrentUsage supabase userId)) 3);
    destruct (Z.geb_spec (getDocumentCount supabase userId) 3);
      cbn; repeat split; auto; try discriminate; try lia.
Qed.

(** ** incrementChatCount *)

Lemma filter_map_same {A : Type} (f : A -> bool) (g : A -> A) (items : list A) :
  (forall x, f (g x) = f x) ->
  filter f (map g items) = map g (filter f items).
Proof.
  intros H. induction items as [|x rest IH]; [reflexivity|].
  cbn. rewrite H. destruct (f x); cbn; now rewrite IH.
Qed.

Lemma of_month_update (table : UsageTable) (userId : string) (ps pe : Z)
    (row_id chats : Z) (row : Usage) :
  of_month table userId ps pe = [row] -> id row = row_id ->
  exists row',
    of_month (update_chats table row_id chats) userId ps pe = [row'] /\
    chats_count row' = chats.
Proof.
  intros H Hid. unfold of_month, update_chats in *. cbn [rows].
  rewrite filter_map_same.
  2:{ intros x. destruct (id x =? row_id); reflexivity. }
  rewrite H. cbn [map]. rewrite <- Hid, Z.eqb_refl. eauto.
Qed.

Lemma of_month_insert (table : UsageTable) (userId : string) (ps pe : Z) :
  exists row,
    of_month (insert_usage table userId ps pe) userId ps pe
    = (of_month table userId ps pe ++ [row])%list /\
    chats_count row = 1.
Proof.
  unfold of_month, insert_usage. cbn [rows]. rewrite filter_app. cbn [filter].
  unfold in_period at 2. cbn [user_id period_start period_end].
  rewrite String.eqb_refl, !Z.leb_refl. cbn [andb]. eauto.
Qed.

Lemma select_period_data (table : UsageTable) (userId : string) (ps pe : Z) :
  data (select_period table userId ps pe) =
    match of_month table userId ps pe with
    | [row] => Some row
    | _ => None
    end.
Proof.
  unfold select_period, single. fold (of_month table userId ps pe).
  now destruct (of_month table userId ps pe) as [|row [|]].
Qed.

(** One accepted increment. *)
Lemma increment_step (table : UsageTable) (userId : string) (ps pe : Z) :
  let table' := fst (incrementChatCount table userId ps pe None) in
  match of_month table userId ps pe with
  | [] => exists row, of_month table' userId ps pe = [row] /\ chats_count row = 1
  | [row] =>
      exists row', of_month table' userId ps pe = [row'] /\
                   chats_count row' = chats_count row + 1
  | found =>
      exists row, of_month table' userId ps pe = (found ++ [row])%list
  end.
Proof.
  unfold incrementChatCount. cbv zeta. rewrite select_period_data.
  destruct (of_month table userId ps pe) as [|row [|row2 rest]] eqn:Hm; cbn [fst].
  - destruct (of_month_insert table userId ps pe) as (row & H & H1).
    rewrite Hm in H. eauto.
  - now apply (of_month_update table userId ps pe _ _ row).
  - destruct (of_month_insert table userId ps pe) as (new & H & _).
    rewrite Hm in H. eauto.
Qed.

Lemma increments_count (n : nat) : forall (table : UsageTable) (userId : string)
    (ps pe : Z),
  (List.length (of_month table userId ps pe) <= 1)%nat ->
  (List.length (of_month (increments n table userId ps pe) userId ps pe) <= 1)%nat /\
  counted (increments n table userId ps pe) userId ps pe
  = counted table userId ps pe + Z.of_nat n.
Proof.
  induction n as [|n IH]; intros table userId ps pe Hlen; cbn [increments].
  - split; [exact Hlen | lia].
  - pose proof (increment_step table userId ps pe) as Hstep. cbv zeta in Hstep.
    set (table' := fst (incrementChatCount table userId ps pe None)) in *.
    assert (Hone : (List.length (of_month table' userId ps pe) <= 1)%nat /\
                   counted table' userId ps pe = counted table userId ps pe + 1).
    { unfold counted. rewrite !select_period_data.
      destruct (of_month table userId ps pe) as [|row [|row2 rest]].
      - destruct Hstep as (r & -> & H1). cbn. split; [lia | exact H1].
      - destruct Hstep as (r & -> & H1). cbn. split; [lia | exact H1].
      - cbn in Hlen. lia. }
    destruct Hone as [Hlen' Hc].
    destruct (IH table' userId ps pe Hlen') as [Hl Hn].
    split; [exact Hl|]. rewrite Hn, Hc. lia.
Qed.

Lemma increments_stuck (n : nat) : forall (table : UsageTable) (userId : string)
    (ps pe : Z),
  (2 <= List.length (of_month table userId ps pe))%nat ->
  List.length (of_month (increments n table userId ps pe) userId ps pe)
  = (List.length (of_month table userId ps pe) + n)%nat.
Proof.
  induction n as [|n IH]; intros table userId ps pe Hlen; cbn [increments];
    [lia|].
  pose proof (increment_step table userId ps pe) as Hstep. cbv zeta in Hstep.
  set (table' := fst (incrementChatCount table userId ps pe None)) in *.
  destruct (of_month table userId ps pe) as [|row [|row2 rest]] eqn:Hm;
    [cbn in Hlen; lia | cbn in Hlen; lia |].
  destruct Hstep as (r & Hr).
  rewrite IH; rewrite Hr; rewrite length_app; cbn [List.length]; lia.
Qed.

Lemma reads_counted (supabase : Supabase) (table : UsageTable) (userId : string)
    (ps pe : Z) :
  reads_usage supabase table userId ps pe ->
  chats_of (getCurrentUsage supabase userId) = counted table userId ps pe.
Proof.
  intros [Hsel _]. unfold getCurrentUsage, counted. rewrite Hsel.
  unfold select_period, single.
  now destruct (filter _ _) as [|row [|]].
Qed.

(** X25: accepted increments are counted, and the count is what the check
    of the chats reads. *)
Theorem incrementChatCount_counts (table : UsageTable) (userId : string)
    (periodStart periodEnd : Z) (n : nat) :
  let table' := increments n table userId periodStart periodEnd in
  let before := chats_of (data (select_period table userId periodStart periodEnd)) in
  let after := chats_of (data (select_period table' userId periodStart periodEnd)) in
  ((List.length (of_month table userId periodStart periodEnd) <= 1)%nat ->
     after = before + Z.of_nat n /\
     forall supabase,
       reads_usage supabase table' userId periodStart periodEnd ->
       allowed (checkChatLimit supabase userId)
       = (before + Z.of_nat n <? CHATS_PER_MONTH)) /\
  ((2 <= List.length (of_month table userId periodStart periodEnd))%nat ->
     after = 0 /\
     List.length (of_month table' userId periodStart periodEnd)
     = (List.length (of_month table userId periodStart periodEnd) + n)%nat) /\
  (forall error,
     incrementChatCount table userId periodStart periodEnd (Some error)
     = (table, Thrown (increment_failure error))).
Proof.
  cbv zeta. split; [|split].
  - intros Hlen.
    destruct (increments_count n table userId periodStart periodEnd Hlen)
      as [_ Hcount].
    unfold counted in Hcount. split; [exact Hcount|].
    intros supabase Hreads.
    pose proof (reads_counted _ _ _ _ _ Hreads) as Hread.
    destruct Hreads as [_ Hpro].
    unfold checkChatLimit. cbv zeta. rewrite Hpro, Hread.
    unfold counted. rewrite Hcount.
    destruct (Z.geb_spec
                (chats_of (data (select_period table userId periodStart periodEnd))
                 + Z.of_nat n) CHATS_PER_MONTH);
      cbn [allowed]; symmetry; [apply Z.ltb_ge | apply Z.ltb_lt]; lia.
  - intros Hlen.
    pose proof (increments_stuck n table userId periodStart periodEnd Hlen) as H.
    split; [|exact H].
    rewrite select_period_data.
    destruct (of_month (increments n table userId periodStart periodEnd)
                userId periodStart periodEnd) as [|row [|]]; try reflexivity.
    cbn in H. lia.
  - reflexivity.
Qed.

End LimitFacts.

Module MiddlewareFacts.
Import JS ApiMiddleware MiddlewareNotions RouteNotions.

Lemma store_set_same (store : RateLimitStore) (key : string) (record : Window) :
  store_set store key record key = Some record.
Proof. unfold store_set. now rewrite String.eqb_refl. Qed.

Lemma store_set_other (store : RateLimitStore) (key other : string)
    (record : Window) :
  other <> key -> store_set store key record other = store other.
Proof.
  intros H. unfold store_set.
  destruct (String.eqb_spec other key); [contradiction | reflexivity].
Qed.

(** Inside a window: the requests after the first, the [k]-th being the
    next one. *)
Lemma calls_in_window (userId : string) (max window reset : Z) (later : list Z) :
  Forall (fun t => t <= reset) later ->
  forall (store : RateLimitStore) (k : Z),
    2 <= k ->
    store userId = Some {| count := Z.min (k - 1) (Z.max max 1); resetAt := reset |} ->
    snd (calls store userId max window later)
    = map (expected max reset) (indexes k (List.length later)).
Proof.
  induction 1 as [|t later Ht Hlater IH]; intros store k Hk Hstore; [reflexivity|].
  cbn [calls List.length indexes map].
  unfold checkRateLimit at 1. rewrite Hstore. cbn [resetAt count].
  destruct (Z.gtb_spec t reset); [lia|].
  destruct (Z.geb_spec (Z.min (k - 1) (Z.max max 1)) max) as [Hfull|Hroom].
  - specialize (IH store (k + 1) ltac:(lia)).
    destruct (calls store userId max window later) as [store' answers].
    cbn [snd] in *. rewrite IH.
    2:{ rewrite Hstore. do 2 f_equal. lia. }
    f_equal. unfold expected.
    destruct (Z.eqb_spec k 1); [lia|]. destruct (Z.leb_spec k max); [lia|].
    reflexivity.
  - set (record := {| count := Z.min (k - 1) (Z.max max 1) + 1; resetAt := reset |}).
    specialize (IH (store_set store userId record) (k + 1) ltac:(lia)).
    destruct (calls (store_set store userId record) userId max window later)
      as [store' answers].
    cbn [snd] in *. rewrite IH.
    2:{ rewrite store_set_same. unfold record. do 2 f_equal. lia. }
    f_equal. unfold expected.
    destruct (Z.eqb_spec k 1); [lia|]. destruct (Z.leb_spec k max); [|lia].
    cbn [orb]. f_equal. lia.
Qed.

Lemma checkRateLimit_other (store : RateLimitStore) (now : Z) (userId : string)
    (max window : Z) (other : string) :
  other <> userId ->
  fst (checkRateLimit store now userId max window) other = store other.
Proof.
  intros Hother. unfold checkRateLimit.
  destruct (store userId) as [record|]; cbn [fst];
    [|now apply store_set_other].
  destruct (now >? resetAt record); cbn [fst]; [now apply store_set_other|].
  destruct (count record >=? max); cbn [fst];
    [reflexivity | now apply store_set_other].
Qed.

Lemma calls_other (userId : string) (max window : Z) (times : list Z)
    (other : string) :
  other <> userId ->
  forall store, fst (calls store userId max window times) other = store other.
Proof.
  intros Hother. induction times as [|t later IH]; intros store; [reflexivity|].
  cbn [calls].
  pose proof (checkRateLimit_other store t userId max window other Hother) as H.
  destruct (checkRateLimit store t userId max window) as [store1 answer].
  specialize (IH store1).
  destruct (calls store1 userId max window later) as [store2 answers].
  cbn [fst] in *. congruence.
Qed.

Lemma calls_first (store : RateLimitStore) (userId : string) (max window now : Z)
    (later : list Z) :
  no_open_window store userId now ->
  Forall (fun t => t <= now + window) later ->
  snd (calls store userId max window (now :: later))
  = map (expected max (now + window)) (indexes 1 (S (List.length later))).
Proof.
  intros Hopen Hlater. cbn [calls indexes map].
  assert (Hfirst : checkRateLimit store now userId max window
                   = (store_set store userId
                        {| count := 1; resetAt := now + window |},
                      expected max (now + window) 1)).
  { unfold checkRateLimit, no_open_window, expected in *. cbn [Z.eqb orb].
    destruct (store userId) as [record|]; [|reflexivity].
    destruct (Z.gtb_spec now (resetAt record)); [reflexivity | lia]. }
  rewrite Hfirst.
  pose proof (calls_in_window userId max window (now + window) later
                Hlater
                (store_set store userId {| count := 1; resetAt := now + window |})
                2 ltac:(lia)) as H.
  destruct (calls _ userId max window later) as [store' answers].
  cbn [snd] in *. rewrite H; [reflexivity|].
  rewrite store_set_same. do 2 f_equal. lia.
Qed.

(** X26: in a window the first request of a user passes, and the [k]-th one
    passes when [k <= maxRequests]; the windows of the other users are
    left as they are. *)
Theorem checkRateLimit_window (store : RateLimitStore) (userId : string)
    (maxRequests windowMs : Z) (now : Z) (later : list Z) :
  no_open_window store userId now ->
  Forall (fun t => t <= now + windowMs) later ->
  snd (calls store userId maxRequests windowMs (now :: later))
  = map (expected maxRequests (now + windowMs))
      (indexes 1 (S (List.length later))) /\
  forall other, other <> userId ->
    fst (calls store userId maxRequests windowMs (now :: later)) other
    = store other.
Proof.
  intros Hopen Hlater. split.
  - now apply calls_first.
  - intros other Hother. now apply calls_other.
Qed.

Lemma checkRateLimit_window_witness :
  snd (calls empty "user-1" 2 60000 [1000; 1500; 2000; 61000])
  = map (expected 2 (1000 + 60000)) (indexes 1 4) /\
  forall other, other <> "user-1" ->
    fst (calls empty "user-1" 2 60000 [1000; 1500; 2000; 61000]) other
    = empty other.
Proof.
  apply (checkRateLimit_window empty "user-1" 2 60000 1000 [1500; 2000; 61000]).
  - exact I.
  - repeat constructor; lia.
Defined.

(** A refusal writes nothing: the window of the user is open and full. *)
Lemma checkRateLimit_refused (store store' : RateLimitStore) (now : Z)
    (userId : string) (max window : Z) (check : LimitCheck) :
  checkRateLimit store now userId max window = (store', check) ->
  allowed check = false ->
  store' = store /\
  exists record,
    store userId = Some record /\ now <= resetAt record /\ max <= count record.
Proof.
  unfold checkRateLimit.
  destruct (store userId) as [record|]; [|intros [= <- <-]; discriminate].
  destruct (Z.gtb_spec now (resetAt record)); [intros [= <- <-]; discriminate|].
  destruct (Z.geb_spec (count record) max); [|intros [= <- <-]; discriminate].
  intros [= <- <-] _. split; [reflexivity|]. exists record. repeat split; auto; lia.
Qed.

(** X27: what the middleware lets through, and what it writes.  A response
    never comes with a changed store: the refusal with status 429 is given
    for a window that is open and full, and leaves it as it is; only a
    request that continues is counted. *)
Theorem apiMiddleware_gates (store : RateLimitStore) (now : Z)
    (session : option SessionUser) (method : string) (options : MiddlewareOptions) :
  (method = "OPTIONS" ->
     apiMiddleware store now session method options = (store, Respond 200 None)) /\
  (method <> "OPTIONS" -> requireAuth options = false ->
     apiMiddleware store now session method options = (store, Continue)) /\
  (forall store' status error,
     apiMiddleware store now session method options
     = (store', Respond status error) ->
     (status = 200 \/ status = 401 \/ status = 403 \/ status = 429) /\
     store' = store /\
     (status = 429 ->
        exists user limit record,
          session = Some user /\ rateLimit options = Some limit /\
          store (id user) = Some record /\ now <= resetAt record /\
          maxRequests limit <= count record)) /\
  (forall store',
     apiMiddleware store now session method options = (store', Continue) ->
     requireAuth options = true ->
     exists user,
       session = Some user /\ id user <> "" /\
       (requirePro options = true -> subscription_tier user = Some "pro") /\
       (rateLimit options = None -> store' = store) /\
       (forall limit, rateLimit options = Some limit ->
          store' = fst (checkRateLimit store now (id user) (maxRequests limit)
                          (windowMs limit)) /\
          store' (id user) <> None) /\
       (forall other, other <> id user -> store' other = store other)).
Proof.
  unfold apiMiddleware. split; [|split; [|split]].
  - intros ->. reflexivity.
  - intros Hm Ha. destruct (String.eqb_spec method "OPTIONS"); [contradiction|].
    now rewrite Ha.
  - intros store' status error.
    destruct (method =? "OPTIONS")%string;
      [intros [= <- <- <-]; repeat split; auto; discriminate|].
    destruct (requireAuth options); [|discriminate].
    destruct session as [user|];
      [|intros [= <- <- <-]; repeat split; auto; discriminate].
    destruct (id user =? "")%string;
      [intros [= <- <- <-]; repeat split; auto; discriminate|].
    destruct (requirePro options && _);
      [intros [= <- <- <-]; repeat split; auto; discriminate|].
    destruct (rateLimit options) as [limit|]; [|discriminate].
    destruct (checkRateLimit _ _ _ _ _) as [s check] eqn:Hcheck.
    destruct (allowed check) eqn:Hallowed; cbn [negb]; [discriminate|].
    intros [= <- <- <-].
    destruct (checkRateLimit_refused _ _ _ _ _ _ _ Hcheck Hallowed)
      as (-> & record & Hrecord & Hopen & Hfull).
    repeat split; auto.
    intros _. exists user, limit, record. auto.
  - intros store' H Ha. rewrite Ha in H.
    destruct (method =? "OPTIONS")%string; [discriminate|].
    destruct session as [user|]; [|discriminate].
    destruct (String.eqb_spec (id user) ""); [discriminate|].
    exists user. split; [reflexivity|]. split; [assumption|].
    assert (Hpro : requirePro options = true -> subscription_tier user = Some "pro").
    { intros Hp. rewrite Hp in H. cbn [andb] in H.
      destruct (subscription_tier user) as [tier|]; [|discriminate H].
      destruct (String.eqb_spec tier "pro") as [E|]; [now rewrite E | discriminate H]. }
    split; [exact Hpro|].
    destruct (requirePro options && _); [discriminate|].
    destruct (rateLimit options) as [limit|].
    + pose proof (checkRateLimit_other store now (id user) (maxRequests limit)
                    (windowMs limit)) as Hother.
      destruct (checkRateLimit _ _ _ _ _) as [s check] eqn:Hcheck.
      destruct (allowed check) eqn:Hallowed; cbn [negb] in H; [|discriminate].
      injection H as <-. cbn [fst] in Hother.
      split; [discriminate|]. split; [|exact Hother].
      intros limit' [= <-]. split; [now rewrite Hcheck|].
      revert Hcheck Hallowed. unfold checkRateLimit.
      destruct (store (id user)) as [record|];
        [destruct (now >? resetAt record);
           [|destruct (count record >=? maxRequests limit)]|];
        intros [= <- <-]; try discriminate;
        intros _; now rewrite store_set_same.
    + injection H as <-. repeat split; auto; discriminate.
Qed.

End MiddlewareFacts.
(* ================================================================== *)
(** * Properties of the sign-up route and of the chat route *)
(* ================================================================== *)

Module SignupFacts.
Import JS JSNumber ProcessDocument Validation TextNotions ValidationNotions.
Import ValidationFacts Signup SignupNotions.

(** X28: the checks of the sign-up route, in the order they are made: the
    answer is that of the first check that fails, with its message, and the
    input that passes them all goes to the account service.  The passwords
    of [isValidPassword] pass, and more do. *)
Theorem signup_validation (signUp : AuthService) (name email password : string) :
  name <> "" -> email <> "" -> password <> "" ->
  let response := POST signUp (Returned (filled name email password)) in
  (len name < 2 ->
     response = Refused 400 "Name must be at least 2 characters") /\
  (2 <= len name -> isValidEmail email = false ->
     response = Refused 400 "Please enter a valid email address") /\
  (2 <= len name -> isValidEmail email = true -> len password < 8 ->
     response = Refused 400 "Password must be at least 8 characters") /\
  (2 <= len name -> isValidEmail email = true -> 8 <= len password ->
   has is_upper password = false ->
     response
     = Refused 400 "Password must contain at least one uppercase letter") /\
  (2 <= len name -> isValidEmail email = true -> 8 <= len password ->
   has is_upper password = true -> has is_digit password = false ->
     response = Refused 400 "Password must contain at least one number") /\
  (2 <= len name -> isValidEmail email = true -> 8 <= len password ->
   has is_upper password = true -> has is_digit password = true ->
     response = register signUp name email password) /\
  (validate name email password = None <->
     2 <= len name /\ isValidEmail email = true /\ 8 <= len password /\
     has is_upper password = true /\ has is_digit password = true) /\
  (validate name email password = None ->
     response = register signUp name email password) /\
  (forall refusal, validate name email password = Some refusal ->
     response = refusal /\ exists error, refusal = Refused 400 error) /\
  (2 <= len name -> isValidEmail email = true ->
   valid (isValidPassword password) = true ->
     validate name email password = None) /\
  (validate "Al" "al@example.com" "PASSWORD1" = None /\
   valid (isValidPassword "PASSWORD1") = false).
Proof.
  intros Hn He Hp response.
  assert (Hpost : response
                  = match validate name email password with
                    | Some refusal => refusal
                    | None => register signUp name email password
                    end).
  { unfold response, POST, filled, missing.
    cbn [Signup.name Signup.email Signup.password or_empty].
    destruct (String.eqb_spec name ""); [contradiction|].
    destruct (String.eqb_spec email ""); [contradiction|].
    destruct (String.eqb_spec password ""); [contradiction|].
    reflexivity. }
  assert (Hvalidate : validate name email password
     = if len name <? 2 then
         Some (Refused 400 "Name must be at least 2 characters")
       else if negb (isValidEmail email) then
         Some (Refused 400 "Please enter a valid email address")
       else if len password <? 8 then
         Some (Refused 400 "Password must be at least 8 characters")
       else if negb (has is_upper password) then
         Some (Refused 400 "Password must contain at least one uppercase letter")
       else if negb (has is_digit password) then
         Some (Refused 400 "Password must contain at least one number")
       else None).
  { unfold validate, test, isValidEmail. now rewrite !test_one_class. }
  assert (Hiff : validate name email password = None <->
     2 <= len name /\ isValidEmail email = true /\ 8 <= len password /\
     has is_upper password = true /\ has is_digit password = true).
  { rewrite Hvalidate.
    destruct (Z.ltb_spec (len name) 2);
      [split; [discriminate | intros (? & _); lia]|].
    destruct (isValidEmail email);
      [|split; [discriminate | intros (_ & ? & _); discriminate]].
    destruct (Z.ltb_spec (len password) 8);
      [split; [discriminate | intros (_ & _ & ? & _); lia]|].
    destruct (has is_upper password);
      [|split; [discriminate | intros (_ & _ & _ & ? & _); discriminate]].
    destruct (has is_digit password);
      [|split; [discriminate | intros (_ & _ & _ & _ & ?); discriminate]].
    cbn. split; auto. }
  rewrite Hpost. clear Hpost.
  repeat match goal with |- _ /\ _ => split end.
  - intros H. rewrite Hvalidate.
    destruct (Z.ltb_spec (len name) 2); [reflexivity | lia].
  - intros H1 H2. rewrite Hvalidate, H2.
    destruct (Z.ltb_spec (len name) 2); [lia | reflexivity].
  - intros H1 H2 H3. rewrite Hvalidate, H2.
    destruct (Z.ltb_spec (len name) 2); [lia|].
    destruct (Z.ltb_spec (len password) 8); [reflexivity | lia].
  - intros H1 H2 H3 H4. rewrite Hvalidate, H2, H4.
    destruct (Z.ltb_spec (len name) 2); [lia|].
    destruct (Z.ltb_spec (len password) 8); [lia | reflexivity].
  - intros H1 H2 H3 H4 H5. rewrite Hvalidate, H2, H4, H5.
    destruct (Z.ltb_spec (len name) 2); [lia|].
    destruct (Z.ltb_spec (len password) 8); [lia | reflexivity].
  - intros H1 H2 H3 H4 H5. rewrite Hvalidate, H2, H4, H5.
    destruct (Z.ltb_spec (len name) 2); [lia|].
    destruct (Z.ltb_spec (len password) 8); [lia | reflexivity].
  - exact Hiff.
  - intros H. now rewrite H.
  - intros refusal H. rewrite H. split; [reflexivity|].
    revert H. rewrite Hvalidate.
    repeat (match goal with
            | |- context [if ?c then _ else _] => destruct c
            end; [intros [= <-]; eauto|]).
    discriminate.
  - intros H1 H2 H3. apply Hiff.
    apply valid_password in H3 as (? & ? & ? & ?). auto.
  - reflexivity.
  - reflexivity.
Qed.

Lemma signup_validation_witness :
  POST offline (Returned (filled "Al" "al@example.com" "Passw0rdX"))
  = register offline "Al" "al@example.com" "Passw0rdX" /\
  POST offline (Returned (filled "Al" "al@example" "Passw0rdX"))
  = Refused 400 "Please enter a valid email address" /\
  POST offline (Returned (filled "Al" "al@example.com" "passw0rdx"))
  = Refused 400 "Password must contain at least one uppercase letter".
Proof.
  split; [|split].
  - destruct (signup_validation offline "Al" "al@example.com" "Passw0rdX")
      as (_ & _ & _ & _ & _ & Hpass & _); try discriminate.
    apply Hpass; first [now vm_compute | reflexivity].
  - destruct (signup_validation offline "Al" "al@example" "Passw0rdX")
      as (_ & Hemail & _); try discriminate.
    apply Hemail; first [now vm_compute | reflexivity].
  - destruct (signup_validation offline "Al" "al@example.com" "passw0rdx")
      as (_ & _ & _ & Hupper & _); try discriminate.
    apply Hupper; first [now vm_compute | reflexivity].
Defined.

End SignupFacts.

Module ChatFacts.
Import JS JSNumber ProcessDocument Validation TextNotions ValidationNotions.
Import ValidationFacts Chat ChatNotions.

Lemma missing_some (value : string) : value <> "" -> missing (Some value) = false.
Proof. intros H. cbn. now destruct (String.eqb_spec value ""). Qed.

Lemma valid_chat_message (message : string) :
  check_valid (isValidChatMessage message) = true <-> 1 <= len (trim message) <= 1000.
Proof.
  unfold isValidChatMessage. cbv zeta.
  assert (0 <= len (trim message)) by (unfold len; lia).
  destruct (Z.eqb_spec (len (trim message)) 0);
    [split; [discriminate | lia]|].
  destruct (Z.gtb_spec (len (trim message)) 1000);
    [split; [discriminate | lia]|].
  split; [lia | reflexivity].
Qed.

Lemma POST_asks (services : Services) (session : option string) (body : Body)
    (userId message documentId : string) (document : Document)
    (queryEmbedding : list float) :
  asks services session body userId message documentId document queryEmbedding ->
  POST services session (Returned body)
  = answer services userId message documentId (chatId body) document queryEmbedding.
Proof.
  intros (Hs & Hu & Hm & Hme & Hd & Hde & Hid & Hchat & Hlen & Hlimit & Hdoc & Hq).
  unfold POST. rewrite Hs, Hm, Hd, !missing_some by assumption.
  cbn [or_empty]. unfold isValidDocumentId, isValidChatId. rewrite Hid. cbn [negb].
  destruct (missing (chatId body)) eqn:Hc; cbn [negb andb].
  - apply valid_chat_message in Hlen. rewrite Hlen, Hlimit, Hdoc. cbn [negb].
    cbn [Rag.error Rag.data]. now rewrite Hq.
  - rewrite (Hchat eq_refl). cbn [negb].
    apply valid_chat_message in Hlen. rewrite Hlen, Hlimit, Hdoc. cbn [negb].
    cbn [Rag.error Rag.data]. now rewrite Hq.
Qed.

Lemma search_fails_empty (services : Services) (queryEmbedding : list float)
    (documentId : string) :
  search_fails services queryEmbedding documentId ->
  Rag.findRelevantChunks (retriever services) queryEmbedding documentId 5
  = Returned [].
Proof.
  unfold search_fails. destruct (retriever services) as [supabase|]; [|reflexivity].
  intros [Hnative Hfetch].
  rewrite (RagFacts.fallback_when_native_unavailable _ _ _ _ Hnative).
  unfold Rag.fallback.
  destruct Hfetch as [Hfail | Hnone].
  - unfold RagNotions.fetch_failed in Hfail.
    destruct (Rag.select_chunks supabase documentId (5 * 2)) as [response|];
      [|reflexivity].
    destruct (Rag.error response); [reflexivity | contradiction].
  - unfold RagNotions.no_chunks in Hnone. now rewrite Hnone.
Qed.

(** X29: a search that fails in the store is answered as a question without
    relevant content, with status 400. *)
Theorem chat_search_failure (services : Services) (session : option string)
    (body : Body) (userId message documentId : string) (document : Document)
    (queryEmbedding : list float) :
  asks services session body userId message documentId document queryEmbedding ->
  search_fails services queryEmbedding documentId ->
  POST services session (Returned body)
  = Json 400
      "No relevant content found in document. Try asking a different question or ensure the document has been processed correctly."
      (Some "NO_RELEVANT_CONTENT").
Proof.
  intros Hasks Hfails. rewrite (POST_asks _ _ _ _ _ _ _ _ Hasks).
  unfold answer. now rewrite (search_fails_empty _ _ _ Hfails).
Qed.

Lemma chat_search_failure_witness :
  POST (services_with (Returned RagNotions.unreachable_store)) (Some "user-1")
    (Returned question)
  = Json 400
      "No relevant content found in document. Try asking a different question or ensure the document has been processed correctly."
      (Some "NO_RELEVANT_CONTENT").
Proof.
  apply (chat_search_failure (services_with (Returned RagNotions.unreachable_store))
           (Some "user-1") question "user-1" "What is this document about?"
           "123e4567-e89b-12d3-a456-426614174000" {| name := "notes.txt" |}
           [1; 0]%float).
  - unfold asks. repeat split; try reflexivity; try discriminate; now vm_compute.
  - split; [exact I | left; now vm_compute].
Defined.

(** X30: what a stream is created from. *)
Theorem chat_stream (services : Services) (session : option string) (body : Body)
    (systemPrompt : string) (messages : list ChatMessage)
    (sources : list Rag.Source) :
  POST services session (Returned body) = Stream systemPrompt messages sources ->
  exists userId message documentId document queryEmbedding chunks history,
    asks services session body userId message documentId document queryEmbedding /\
    Rag.findRelevantChunks (retriever services) queryEmbedding documentId 5
    = Returned chunks /\
    chunks <> [] /\
    systemPrompt = generateSystemPrompt (name document) /\
    messages
    = (history ++
       [{| role := user;
           content := userMessage (Rag.buildContext chunks) message |}])%list /\
    sources = Rag.formatSources chunks /\
    (missing (chatId body) = true -> history = []) /\
    (missing (chatId body) = false ->
       select_messages services (or_empty (chatId body)) userId = Returned (Some history)
       \/ (select_messages services (or_empty (chatId body)) userId = Returned None
           /\ history = [])).
Proof.
  unfold POST.
  destruct session as [userId|]; [|discriminate]. cbn [missing or_empty].
  destruct (String.eqb_spec userId "") as [|Hu]; [discriminate|].
  destruct (Chat.message body) as [message|] eqn:Hm; [|discriminate].
  cbn [missing or_empty].
  destruct (String.eqb_spec message "") as [|Hme]; [discriminate|].
  destruct (Chat.documentId body) as [documentId|] eqn:Hd; [|discriminate].
  cbn [missing or_empty].
  destruct (String.eqb_spec documentId "") as [|Hde]; [discriminate|].
  unfold isValidDocumentId, isValidChatId.
  destruct (isValidUUID documentId) eqn:Hid; [|discriminate]. cbn [negb].
  destruct (negb (missing (chatId body)) && negb (isValidUUID (or_empty (chatId body))))
    eqn:Hchat; [discriminate|].
  destruct (check_valid (isValidChatMessage message)) eqn:Hvalid; [|discriminate].
  cbn [negb].
  destruct (RateLimit.allowed _) eqn:Hlimit; [|discriminate]. cbn [negb].
  destruct (select_document services documentId userId) as [reply|] eqn:Hdoc;
    [|discriminate].
  destruct reply as [[document|] [e|]]; cbn [Rag.error Rag.data]; try discriminate.
  destruct (generateQueryEmbedding services message) as [q|] eqn:Hq; [|discriminate].
  unfold answer.
  destruct (Rag.findRelevantChunks _ _ _ _) as [chunks|] eqn:Hfind; [|discriminate].
  destruct chunks as [|c rest]; [discriminate|].
  assert (Hasks : asks services (Some userId) body userId message documentId
                    document q).
  { unfold asks. repeat split; auto.
    - intros Hc. rewrite Hc in Hchat. cbn [negb andb] in Hchat.
      now apply negb_false_iff in Hchat.
    - now apply valid_chat_message.
    - now apply valid_chat_message. }
  destruct (missing (chatId body)) eqn:Hc.
  - intros [= <- <- <-].
    exists userId, message, documentId, document, q, (c :: rest), [].
    split; [exact Hasks|]. repeat split; auto; discriminate.
  - destruct (select_messages services (or_empty (chatId body)) userId)
      as [[history|]|] eqn:Hsel; [| |discriminate]; intros [= <- <- <-].
    + exists userId, message, documentId, document, q, (c :: rest), history.
      split; [exact Hasks|]. repeat split; auto; discriminate.
    + exists userId, message, documentId, document, q, (c :: rest), [].
      split; [exact Hasks|]. repeat split; auto; discriminate.
Qed.

Lemma chat_stream_witness :
  let services := services_with (Returned finding) in
  let found := [RagNotions.scored 0 "Hello" (Some 0.9%float)] in
  exists userId message documentId document queryEmbedding chunks history,
    asks services (Some "user-1") question userId message documentId document
      queryEmbedding /\
    Rag.findRelevantChunks (retriever services) queryEmbedding documentId 5
    = Returned chunks /\
    chunks <> [] /\
    generateSystemPrompt "notes.txt" = generateSystemPrompt (name document) /\
    [{| role := user;
        content := userMessage (Rag.buildContext found)
                     "What is this document about?" |}]
    = (history ++
       [{| role := user;
           content := userMessage (Rag.buildContext chunks) message |}])%list /\
    Rag.formatSources found = Rag.formatSources chunks /\
    (missing (chatId question) = true -> history = []) /\
    (missing (chatId question) = false ->
       select_messages services (or_empty (chatId question)) userId
       = Returned (Some history)
       \/ (select_messages services (or_empty (chatId question)) userId
           = Returned None /\ history = [])).
Proof.
  cbv zeta.
  apply (chat_stream (services_with (Returned finding)) (Some "user-1") question).
  now vm_compute.
Defined.

End ChatFacts.
